(** * dxil_converter.cpp: lowering of DXIL (LLVM IR) to SPIR-V operation records

    A shallow embedding of [Converter::Impl] and a verification of the
    properties its specification states.  Part I embeds the data model and the
    member functions in source order; Part II proves the properties. *)

From stdpp Require Import gmap list strings.
From Stdlib Require Import ZArith Lia.

Set Warnings "-register-all".

Local Open Scope Z_scope.

(** * Part I: the embedding *)

(** ** Machine integers

    [unsigned], [uint32_t] and [spv::Id] are 32-bit unsigned, [int] is 32-bit
    signed.  They are carried as [Z] with the wrap-around spelled out. *)

Definition wrap32 (z : Z) : Z := z mod 2 ^ 32.
Definition to_int32 (z : Z) : Z := (z + 2 ^ 31) mod 2 ^ 32 - 2 ^ 31.

(** [spv::Id]: zero is the "none" sentinel. *)
Abbreviation Id := Z (only parsing).

(** ** SPIR-V enumerations (spirv.hpp) that the converter names *)

Module spv.

Inductive Op :=
| OpNop | OpUndef
| OpLoad | OpStore | OpAccessChain | OpInBoundsAccessChain
| OpCompositeConstruct | OpCompositeExtract | OpCopyLogical
| OpSampledImage
| OpImageSampleImplicitLod | OpImageSampleExplicitLod
| OpImageSampleDrefImplicitLod | OpImageSampleDrefExplicitLod
| OpConvertFToU | OpConvertFToS | OpConvertSToF | OpConvertUToF
| OpUConvert | OpSConvert | OpFConvert | OpBitcast
| OpFNegate
| OpIAdd | OpFAdd | OpISub | OpFSub | OpIMul | OpFMul
| OpUDiv | OpSDiv | OpFDiv | OpUMod | OpSRem | OpFRem
| OpShiftRightLogical | OpShiftRightArithmetic | OpShiftLeftLogical
| OpBitwiseOr | OpBitwiseXor | OpBitwiseAnd
| OpSelect
| OpIEqual | OpINotEqual
| OpUGreaterThan | OpSGreaterThan | OpUGreaterThanEqual | OpSGreaterThanEqual
| OpULessThan | OpSLessThan | OpULessThanEqual | OpSLessThanEqual
| OpFOrdEqual | OpFUnordEqual | OpFOrdNotEqual | OpFUnordNotEqual
| OpFOrdLessThan | OpFUnordLessThan | OpFOrdGreaterThan | OpFUnordGreaterThan
| OpFOrdLessThanEqual | OpFUnordLessThanEqual
| OpFOrdGreaterThanEqual | OpFUnordGreaterThanEqual.

Inductive Dim :=
| Dim1D | Dim2D | Dim3D | DimCube | DimRect | DimBuffer | DimSubpassData | DimMax.

Inductive StorageClass :=
| StorageClassUniformConstant | StorageClassInput | StorageClassUniform
| StorageClassOutput | StorageClassFunction.

Inductive Decoration :=
| DecorationBlock | DecorationArrayStride | DecorationBuiltIn
| DecorationLocation | DecorationBinding | DecorationDescriptorSet
| DecorationOffset.

Inductive ImageFormat := ImageFormatUnknown.

Inductive Capability := CapabilityMinLod.

Inductive ExecutionModel :=
| ExecutionModelVertex | ExecutionModelTessellationControl
| ExecutionModelTessellationEvaluation | ExecutionModelGeometry
| ExecutionModelFragment | ExecutionModelGLCompute | ExecutionModelMax.

Definition BuiltInPosition : Z := 0.

(** Image operand bits. *)
Definition ImageOperandsBiasMask : Z := 1.
Definition ImageOperandsLodMask : Z := 2.
Definition ImageOperandsConstOffsetMask : Z := 8.
Definition ImageOperandsMinLodMask : Z := 128.

#[global] Instance Op_eq_dec : EqDecision Op.
Proof. solve_decision. Defined.
#[global] Instance Dim_eq_dec : EqDecision Dim.
Proof. solve_decision. Defined.
#[global] Instance StorageClass_eq_dec : EqDecision StorageClass.
Proof. solve_decision. Defined.
#[global] Instance Decoration_eq_dec : EqDecision Decoration.
Proof. solve_decision. Defined.
#[global] Instance ImageFormat_eq_dec : EqDecision ImageFormat.
Proof. solve_decision. Defined.
#[global] Instance Capability_eq_dec : EqDecision Capability.
Proof. solve_decision. Defined.

End spv.

(** ** DXIL enumerations (dxil.hpp)

    The converter reaches them through [static_cast] from a 32-bit metadata or
    operand value; the embedding keeps the decoded enumerator, and an
    enumerator the converter never names is [Other] with its code. *)

Module DXIL.

Inductive Op :=
| LoadInput | StoreOutput | CreateHandle | CBufferLoadLegacy
| Sample | SampleBias | SampleLevel | SampleCmp | SampleCmpLevelZero
| OtherOp (code : Z).

Inductive ResourceType := SRV | UAV | CBV | Sampler | OtherResourceType (code : Z).

Inductive ResourceKind :=
| Texture1D | Texture2D | Texture2DMS | Texture3D | TextureCube
| Texture1DArray | Texture2DArray | Texture2DMSArray | TextureCubeArray
| TypedBuffer | RawBuffer | StructuredBuffer
| OtherKind (code : Z).

Inductive ComponentType :=
| I1 | I16 | U16 | I32 | U32 | I64 | U64 | F16 | F32 | F64
| OtherComponentType (code : Z).

Inductive Semantic := User | Position | Target | OtherSemantic (code : Z).

#[global] Instance Op_eq_dec : EqDecision Op.
Proof. solve_decision. Defined.
#[global] Instance Semantic_eq_dec : EqDecision Semantic.
Proof. solve_decision. Defined.

(** The numbering of the enumerations, which dxil.hpp fixes and the sources
    do not show: what [static_cast] makes of a 32-bit code. *)
Record Codes := {
  to_Op : Z → Op;
  to_ResourceType : Z → ResourceType;
  to_ResourceKind : Z → ResourceKind;
  to_ComponentType : Z → ComponentType;
  to_Semantic : Z → Semantic;
}.

End DXIL.

(** ** The LLVM IR the converter reads (llvm/IR) *)

Module llvm.

(** [llvm::Type], by [getTypeID()]. *)
Inductive type :=
| HalfTy | FloatTy | DoubleTy
| IntegerTy (bits : Z)
| PointerTy (element : type)
| ArrayTy (element : type) (num_elements : Z)
| StructTy (elements : list type)
| VectorTy (element : type) (num_elements : Z)
| VoidTy | LabelTy | MetadataTy | X86_FP80Ty | FP128Ty.

(** The dynamic class of an [llvm::Value], as far as [isa] and [dyn_cast]
    in the converter tell classes apart.  An [APInt] is its unsigned value;
    a floating-point payload is its IEEE bit pattern. *)
Inductive value_class :=
| UndefValue
| ConstantInt (apint : Z)
| ConstantFP (bits : Z)
| OtherConstant
| NonConstant.

(** A value is identified by its address: [value_map] and
    [handle_to_ptr_id] are keyed by [const llvm::Value *]. *)
Record Value := {
  address : positive;
  getType : type;
  classof : value_class;
}.

Definition isa_UndefValue (v : Value) : bool :=
  match classof v with UndefValue => true | _ => false end.

(** [UndefValue], [ConstantInt] and [ConstantFP] derive from [Constant]. *)
Definition isa_Constant (v : Value) : bool :=
  match classof v with NonConstant => false | _ => true end.

Definition isa_ConstantInt (v : Value) : bool :=
  match classof v with ConstantInt _ => true | _ => false end.

Definition getIntegerBitWidth (t : type) : Z :=
  match t with IntegerTy w => w | _ => 0 end.

(** [APInt::getZExtValue] and [APInt::getSExtValue] yield a 64-bit word.
    [width] is the bit width of the integer's type. *)
Definition getZExtValue (apint : Z) : Z := apint mod 2 ^ 64.

Definition getSExtValue (width apint : Z) : Z :=
  let w := Z.min (Z.max width 1) 64 in
  let low := apint mod 2 ^ w in
  if low <? 2 ^ (w - 1) then low else low - 2 ^ w.

Inductive BinaryOps :=
| Add | FAdd | Sub | FSub | Mul | FMul | UDiv | SDiv | FDiv
| URem | SRem | FRem | Shl | LShr | AShr | And | Or | Xor.

Inductive UnaryOps := FNeg | OtherUnaryOp.

Inductive CastOps :=
| Trunc | ZExt | SExt | FPToUI | FPToSI | UIToFP | SIToFP
| FPTrunc | FPExt | PtrToInt | IntToPtr | BitCast | AddrSpaceCast.

Inductive Predicate :=
| FCMP_FALSE | FCMP_OEQ | FCMP_OGT | FCMP_OGE | FCMP_OLT | FCMP_OLE
| FCMP_ONE | FCMP_ORD | FCMP_UNO | FCMP_UEQ | FCMP_UGT | FCMP_UGE
| FCMP_ULT | FCMP_ULE | FCMP_UNE | FCMP_TRUE
| ICMP_EQ | ICMP_NE | ICMP_UGT | ICMP_UGE | ICMP_ULT | ICMP_ULE
| ICMP_SGT | ICMP_SGE | ICMP_SLT | ICMP_SLE.

(** [llvm::BasicBlock *]. *)
Abbreviation BasicBlock := positive (only parsing).

(** What [dyn_cast] on an [llvm::Instruction] distinguishes, with the
    fields the converter reads.  Operands are in [getOperand] order; for a
    call the arguments come first. *)
Inductive instruction_class :=
| CallInst (called_function_name : string)
| BinaryOperator (opcode : BinaryOps)
| UnaryOperator (opcode : UnaryOps)
| CastInst (opcode : CastOps)
| GetElementPtrInst (in_bounds : bool)
| LoadInst
| StoreInst
| CmpInst (predicate : Predicate)
| ExtractValueInst (indices : list Z)
| AllocaInst (name : string)
| SelectInst
| PHINode (incoming_blocks : list BasicBlock)
| OtherInstruction.

(** An instruction is a value (its result) with a class and operands. *)
Record Instruction := {
  result : Value;
  inst_class : instruction_class;
  operands : list Value;
}.

Definition getOperand (i : Instruction) (n : nat) : option Value :=
  operands i !! n.

End llvm.

(** ** The SPIR-V builder (SpvBuilder.h) and the module's id allocator

    Modelled from the spec: SpvBuilder.h and spirv_module.cpp are not among
    the sources.  The spec gives the builder as a facility that hands out
    non-zero ids monotonically ("every call returns a fresh integer greater
    than all prior"), interns types and constants by their structural
    descriptor, creates variables and undefs, and records decorations and
    capabilities.  The builder below is that facility: an id counter, the
    declarations in creation order, and the decorations. *)

Inductive Declaration :=
| TypeFloat (width : Z)
| TypeInt (width : Z) (is_signed : bool)
| TypeBool
| TypeVector (component : Id) (size : Z)
| TypeMatrix (component : Id) (cols rows : Z)
| TypeArray (element : Id) (size_id : Id) (stride : Z)
| TypePointer (storage : spv.StorageClass) (pointee : Id)
| TypeStruct (members : list Id) (name : string)
| TypeImage (sampled_type : Id) (dim : spv.Dim) (depth arrayed ms : bool)
            (sampled : Z) (format : spv.ImageFormat)
| TypeSampler
| TypeSampledImage (image_type : Id)
| ConstantUint (value : Z)
| ConstantSint (value : Z)
| ConstantFloat (bits : Z)
| ConstantDouble (bits : Z)
| ConstantBool (value : bool)
| Var (storage : spv.StorageClass) (type : Id) (name : option string)
| Undefined (type : Id).

#[global] Instance Declaration_eq_dec : EqDecision Declaration.
Proof. solve_decision. Defined.

Record Builder := {
  unique_id : positive;
  declarations : list (positive * Declaration);
  decorations : list (Id * spv.Decoration * option Z);
  member_decorations : list (Id * Z * spv.Decoration * option Z);
  capabilities : list spv.Capability;
}.

Definition empty_builder : Builder :=
  {| unique_id := 1%positive; declarations := []; decorations := [];
     member_decorations := []; capabilities := [] |}.

(** The id a descriptor was interned under, if any. *)
Fixpoint find_declaration (d : Declaration) (l : list (positive * Declaration))
  : option positive :=
  match l with
  | [] => None
  | (p, d') :: l' => if decide (d' = d) then Some p else find_declaration d l'
  end.

(** The declaration an id stands for. *)
Fixpoint declaration_of (l : list (positive * Declaration)) (p : positive)
  : option Declaration :=
  match l with
  | [] => None
  | (q, d) :: l' => if decide (q = p) then Some d else declaration_of l' p
  end.

Definition lookup_id (b : Builder) (id : Id) : option Declaration :=
  match id with
  | Zpos p => declaration_of (declarations b) p
  | _ => None
  end.

(** [getUniqueId]: a fresh id and nothing else. *)
Definition getUniqueId (b : Builder) : Id * Builder :=
  (Zpos (unique_id b),
   {| unique_id := Pos.succ (unique_id b); declarations := declarations b;
      decorations := decorations b; member_decorations := member_decorations b;
      capabilities := capabilities b |}).

(** A declaration under a fresh id. *)
Definition declare (d : Declaration) (b : Builder) : Id * Builder :=
  (Zpos (unique_id b),
   {| unique_id := Pos.succ (unique_id b);
      declarations := declarations b ++ [(unique_id b, d)];
      decorations := decorations b; member_decorations := member_decorations b;
      capabilities := capabilities b |}).

(** A type or constant: the id it already has, or a fresh one. *)
Definition intern (d : Declaration) (b : Builder) : Id * Builder :=
  match find_declaration d (declarations b) with
  | Some p => (Zpos p, b)
  | None => declare d b
  end.

Definition makeFloatType (width : Z) := intern (TypeFloat width).
Definition makeIntegerType (width : Z) (is_signed : bool) := intern (TypeInt width is_signed).
Definition makeUintType (width : Z) := makeIntegerType width false.
Definition makeBoolType := intern TypeBool.
Definition makeVectorType (component : Id) (size : Z) := intern (TypeVector component size).
Definition makeMatrixType (component : Id) (cols rows : Z) := intern (TypeMatrix component cols rows).
Definition makeArrayType (element size_id : Id) (stride : Z) := intern (TypeArray element size_id stride).
Definition makePointer (storage : spv.StorageClass) (pointee : Id) := intern (TypePointer storage pointee).
Definition makeStructType (members : list Id) (name : string) := intern (TypeStruct members name).
Definition makeImageType (sampled_type : Id) (dim : spv.Dim) (depth arrayed ms : bool)
    (sampled : Z) (format : spv.ImageFormat) :=
  intern (TypeImage sampled_type dim depth arrayed ms sampled format).
Definition makeSamplerType := intern TypeSampler.
Definition makeSampledImageType (image_type : Id) := intern (TypeSampledImage image_type).
Definition makeUintConstant (value : Z) := intern (ConstantUint value).
Definition makeIntConstant (value : Z) := intern (ConstantSint value).
Definition makeFloatConstant (bits : Z) := intern (ConstantFloat bits).
Definition makeDoubleConstant (bits : Z) := intern (ConstantDouble bits).
Definition makeBoolConstant (value : bool) := intern (ConstantBool value).
Definition createVariable (storage : spv.StorageClass) (type : Id) (name : option string) :=
  declare (Var storage type name).
Definition createUndefined (type : Id) := declare (Undefined type).

Definition addDecoration (id : Id) (deco : spv.Decoration) (num : option Z)
    (b : Builder) : Builder :=
  {| unique_id := unique_id b; declarations := declarations b;
     decorations := decorations b ++ [(id, deco, num)];
     member_decorations := member_decorations b;
     capabilities := capabilities b |}.

Definition addMemberDecoration (id : Id) (member : Z) (deco : spv.Decoration)
    (num : option Z) (b : Builder) : Builder :=
  {| unique_id := unique_id b; declarations := declarations b;
     decorations := decorations b;
     member_decorations := member_decorations b ++ [(id, member, deco, num)];
     capabilities := capabilities b |}.

Definition addCapability (cap : spv.Capability) (b : Builder) : Builder :=
  {| unique_id := unique_id b; declarations := declarations b;
     decorations := decorations b; member_decorations := member_decorations b;
     capabilities := capabilities b ++ [cap] |}.

(** Queries.  Each is defined on the ids it is meant for and has no result
    ([None]) elsewhere, where the builder would read a missing instruction. *)

Definition getDerefTypeId (b : Builder) (id : Id) : option Id :=
  match lookup_id b id with
  | Some (Var _ type _) => Some type
  | _ => None
  end.

Definition getTypeDimensionality (b : Builder) (type_id : Id) : option spv.Dim :=
  match lookup_id b type_id with
  | Some (TypeImage _ dim _ _ _ _ _) => Some dim
  | _ => None
  end.

Definition isArrayedImageType (b : Builder) (type_id : Id) : option bool :=
  match lookup_id b type_id with
  | Some (TypeImage _ _ _ arrayed _ _ _) => Some arrayed
  | _ => None
  end.

Definition isMultisampledImageType (b : Builder) (type_id : Id) : option bool :=
  match lookup_id b type_id with
  | Some (TypeImage _ _ _ _ ms _ _) => Some ms
  | _ => None
  end.

Definition getImageComponentType (b : Builder) (type_id : Id) : option Id :=
  match lookup_id b type_id with
  | Some (TypeImage sampled_type _ _ _ _ _ _) => Some sampled_type
  | _ => None
  end.

Definition getNumTypeComponents (b : Builder) (type_id : Id) : option Z :=
  match lookup_id b type_id with
  | Some (TypeFloat _) | Some (TypeInt _ _) | Some TypeBool => Some 1
  | Some (TypeVector _ size) => Some size
  | Some (TypeMatrix _ cols _) => Some cols
  | _ => None
  end.

Definition getScalarTypeId (b : Builder) (type_id : Id) : option Id :=
  match lookup_id b type_id with
  | Some (TypeFloat _) | Some (TypeInt _ _) | Some TypeBool => Some type_id
  | Some (TypeVector component _) | Some (TypeMatrix component _ _) => Some component
  | _ => None
  end.

(** ** The produced IR (ir.hpp, node.hpp)

    Modelled from the spec: the headers are not among the sources.  An
    operation is [{op, result id, result type id, arguments}] with both ids 0
    by default; a node has a name, operations, phis, a terminator and a set of
    successors, and [add_branch] records an edge. *)

Module Operation.
Record t := {
  op : spv.Op;
  id : Id;
  type_id : Id;
  arguments : list Z;
}.
Definition empty : t := {| op := spv.OpNop; id := 0; type_id := 0; arguments := [] |}.
End Operation.

(** [CFGNode *]: the position of the node in the pool. *)
Abbreviation CFGNodePtr := nat (only parsing).

Module IncomingValue.
Record t := { block : option CFGNodePtr; id : Id }.
End IncomingValue.

Module PHI.
Record t := { id : Id; type_id : Id; incoming : list IncomingValue.t }.
End PHI.

Module Terminator.
Inductive Type_ := Unset | Branch | Condition | Switch | Return | Unreachable.
Record Case := { node : option CFGNodePtr; value : Z }.
Record t := {
  type : Type_;
  conditional_id : Id;
  direct_block : option CFGNodePtr;
  true_block : option CFGNodePtr;
  false_block : option CFGNodePtr;
  default_node : option CFGNodePtr;
  cases : list Case;
  return_value : Id;
}.
Definition empty : t :=
  {| type := Unset; conditional_id := 0; direct_block := None; true_block := None;
     false_block := None; default_node := None; cases := []; return_value := 0 |}.
End Terminator.

Module IRBlock.
Record t := {
  phi : list PHI.t;
  operations : list Operation.t;
  terminator : Terminator.t;
}.
Definition empty : t := {| phi := []; operations := []; terminator := Terminator.empty |}.
Definition push_operation (o : Operation.t) (b : t) : t :=
  {| phi := phi b; operations := operations b ++ [o]; terminator := terminator b |}.
Definition push_phi (p : PHI.t) (b : t) : t :=
  {| phi := phi b ++ [p]; operations := operations b; terminator := terminator b |}.
Definition set_terminator (x : Terminator.t) (b : t) : t :=
  {| phi := phi b; operations := operations b; terminator := x |}.
End IRBlock.

Module CFGNode.
Record t := {
  name : string;
  ir : IRBlock.t;
  successors : gset CFGNodePtr;
}.
Definition empty : t := {| name := ""; ir := IRBlock.empty; successors := ∅ |}.
Definition set_name (s : string) (n : t) : t :=
  {| name := s; ir := ir n; successors := successors n |}.
Definition set_ir (b : IRBlock.t) (n : t) : t :=
  {| name := name n; ir := b; successors := successors n |}.
Definition add_successor (to : CFGNodePtr) (n : t) : t :=
  {| name := name n; ir := ir n; successors := {[to]} ∪ successors n |}.
End CFGNode.

(** ** Metadata and modules (llvm/IR/Metadata.h, Module.h) *)

Module md.

(** An [llvm::Metadata] operand: a constant, a string, a node, or null. *)
Inductive Metadata :=
| ConstantAsMetadata (value : llvm.Value)
| MDString (s : string)
| MDNode (node_operands : list Metadata)
| Null.

Definition isa_MDNode (m : Metadata) : bool :=
  match m with MDNode _ => true | _ => false end.

Definition getOperand (node : Metadata) (index : nat) : option Metadata :=
  match node with
  | MDNode l => l !! index
  | _ => None
  end.

Definition getNumOperands (node : Metadata) : nat :=
  match node with
  | MDNode l => length l
  | _ => 0%nat
  end.

End md.

(** [get_constant_metadata<uint32_t>]: the operand must be an integer
    constant; its sign-extended value is converted to 32 bits. *)
Definition get_constant_metadata (node : md.Metadata) (index : nat) : option Z :=
  match md.getOperand node index with
  | Some (md.ConstantAsMetadata v) =>
      match llvm.classof v with
      | llvm.ConstantInt apint =>
          Some (wrap32 (llvm.getSExtValue (llvm.getIntegerBitWidth (llvm.getType v)) apint))
      | _ => None
      end
  | _ => None
  end.

Definition get_string_metadata (node : md.Metadata) (index : nat) : option string :=
  match md.getOperand node index with
  | Some (md.MDString s) => Some s
  | _ => None
  end.

(** [name.empty() ? nullptr : name.c_str()] *)
Definition name_or_null (name : string) : option string :=
  if decide (name = "") then None else Some name.

Definition image_dimension_from_resource_kind (kind : DXIL.ResourceKind) : spv.Dim :=
  match kind with
  | DXIL.Texture1D | DXIL.Texture1DArray => spv.Dim1D
  | DXIL.Texture2D | DXIL.Texture2DMS | DXIL.Texture2DArray | DXIL.Texture2DMSArray =>
      spv.Dim2D
  | DXIL.Texture3D => spv.Dim3D
  | DXIL.TextureCube | DXIL.TextureCubeArray => spv.DimCube
  | DXIL.TypedBuffer | DXIL.StructuredBuffer | DXIL.RawBuffer => spv.DimBuffer
  | _ => spv.DimMax
  end.

Definition image_dimension_is_arrayed (kind : DXIL.ResourceKind) : bool :=
  match kind with
  | DXIL.Texture1DArray | DXIL.Texture2DArray | DXIL.Texture2DMSArray
  | DXIL.TextureCubeArray => true
  | _ => false
  end.

Definition image_dimension_is_multisampled (kind : DXIL.ResourceKind) : bool :=
  match kind with
  | DXIL.Texture2DMS | DXIL.Texture2DMSArray => true
  | _ => false
  end.

(** ** [Converter::Impl] *)

Record BlockMeta := {
  bb : llvm.BasicBlock;
  node : option CFGNodePtr;
}.

(** [metas] owns the [BlockMeta]s; [bb_map] points into it by position. *)
Record Impl := {
  builder : Builder;
  entry_point : list Id;
  metas : list BlockMeta;
  bb_map : gmap positive nat;
  value_map : gmap positive Id;
  srv_index_to_id : list Id;
  uav_index_to_id : list Id;
  cbv_index_to_id : list Id;
  sampler_index_to_id : list Id;
  handle_to_ptr_id : gmap positive Id;
  id_to_type : gmap Z Id;
  input_elements_ids : gmap Z Id;
  output_elements_ids : gmap Z Id;
}.

Definition empty_impl : Impl :=
  {| builder := empty_builder; entry_point := []; metas := []; bb_map := ∅;
     value_map := ∅; srv_index_to_id := []; uav_index_to_id := [];
     cbv_index_to_id := []; sampler_index_to_id := []; handle_to_ptr_id := ∅;
     id_to_type := ∅; input_elements_ids := ∅; output_elements_ids := ∅ |}.

Definition set_builder (x : Builder) (s : Impl) : Impl :=
  {| builder := x; entry_point := entry_point s; metas := metas s; bb_map := bb_map s;
     value_map := value_map s; srv_index_to_id := srv_index_to_id s;
     uav_index_to_id := uav_index_to_id s; cbv_index_to_id := cbv_index_to_id s;
     sampler_index_to_id := sampler_index_to_id s;
     handle_to_ptr_id := handle_to_ptr_id s; id_to_type := id_to_type s;
     input_elements_ids := input_elements_ids s;
     output_elements_ids := output_elements_ids s |}.

Definition set_entry_point (x : list Id) (s : Impl) : Impl :=
  {| builder := builder s; entry_point := x; metas := metas s; bb_map := bb_map s;
     value_map := value_map s; srv_index_to_id := srv_index_to_id s;
     uav_index_to_id := uav_index_to_id s; cbv_index_to_id := cbv_index_to_id s;
     sampler_index_to_id := sampler_index_to_id s;
     handle_to_ptr_id := handle_to_ptr_id s; id_to_type := id_to_type s;
     input_elements_ids := input_elements_ids s;
     output_elements_ids := output_elements_ids s |}.

Definition set_metas (x : list BlockMeta) (s : Impl) : Impl :=
  {| builder := builder s; entry_point := entry_point s; metas := x; bb_map := bb_map s;
     value_map := value_map s; srv_index_to_id := srv_index_to_id s;
     uav_index_to_id := uav_index_to_id s; cbv_index_to_id := cbv_index_to_id s;
     sampler_index_to_id := sampler_index_to_id s;
     handle_to_ptr_id := handle_to_ptr_id s; id_to_type := id_to_type s;
     input_elements_ids := input_elements_ids s;
     output_elements_ids := output_elements_ids s |}.

Definition set_bb_map (x : gmap positive nat) (s : Impl) : Impl :=
  {| builder := builder s; entry_point := entry_point s; metas := metas s; bb_map := x;
     value_map := value_map s; srv_index_to_id := srv_index_to_id s;
     uav_index_to_id := uav_index_to_id s; cbv_index_to_id := cbv_index_to_id s;
     sampler_index_to_id := sampler_index_to_id s;
     handle_to_ptr_id := handle_to_ptr_id s; id_to_type := id_to_type s;
     input_elements_ids := input_elements_ids s;
     output_elements_ids := output_elements_ids s |}.

Definition set_value_map (x : gmap positive Id) (s : Impl) : Impl :=
  {| builder := builder s; entry_point := entry_point s; metas := metas s;
     bb_map := bb_map s; value_map := x; srv_index_to_id := srv_index_to_id s;
     uav_index_to_id := uav_index_to_id s; cbv_index_to_id := cbv_index_to_id s;
     sampler_index_to_id := sampler_index_to_id s;
     handle_to_ptr_id := handle_to_ptr_id s; id_to_type := id_to_type s;
     input_elements_ids := input_elements_ids s;
     output_elements_ids := output_elements_ids s |}.

Definition set_srv_index_to_id (x : list Id) (s : Impl) : Impl :=
  {| builder := builder s; entry_point := entry_point s; metas := metas s;
     bb_map := bb_map s; value_map := value_map s; srv_index_to_id := x;
     uav_index_to_id := uav_index_to_id s; cbv_index_to_id := cbv_index_to_id s;
     sampler_index_to_id := sampler_index_to_id s;
     handle_to_ptr_id := handle_to_ptr_id s; id_to_type := id_to_type s;
     input_elements_ids := input_elements_ids s;
     output_elements_ids := output_elements_ids s |}.

Definition set_cbv_index_to_id (x : list Id) (s : Impl) : Impl :=
  {| builder := builder s; entry_point := entry_point s; metas := metas s;
     bb_map := bb_map s; value_map := value_map s;
     srv_index_to_id := srv_index_to_id s; uav_index_to_id := uav_index_to_id s;
     cbv_index_to_id := x; sampler_index_to_id := sampler_index_to_id s;
     handle_to_ptr_id := handle_to_ptr_id s; id_to_type := id_to_type s;
     input_elements_ids := input_elements_ids s;
     output_elements_ids := output_elements_ids s |}.

Definition set_sampler_index_to_id (x : list Id) (s : Impl) : Impl :=
  {| builder := builder s; entry_point := entry_point s; metas := metas s;
     bb_map := bb_map s; value_map := value_map s;
     srv_index_to_id := srv_index_to_id s; uav_index_to_id := uav_index_to_id s;
     cbv_index_to_id := cbv_index_to_id s; sampler_index_to_id := x;
     handle_to_ptr_id := handle_to_ptr_id s; id_to_type := id_to_type s;
     input_elements_ids := input_elements_ids s;
     output_elements_ids := output_elements_ids s |}.

Definition set_handle_to_ptr_id (x : gmap positive Id) (s : Impl) : Impl :=
  {| builder := builder s; entry_point := entry_point s; metas := metas s;
     bb_map := bb_map s; value_map := value_map s;
     srv_index_to_id := srv_index_to_id s; uav_index_to_id := uav_index_to_id s;
     cbv_index_to_id := cbv_index_to_id s;
     sampler_index_to_id := sampler_index_to_id s; handle_to_ptr_id := x;
     id_to_type := id_to_type s; input_elements_ids := input_elements_ids s;
     output_elements_ids := output_elements_ids s |}.

Definition set_id_to_type (x : gmap Z Id) (s : Impl) : Impl :=
  {| builder := builder s; entry_point := entry_point s; metas := metas s;
     bb_map := bb_map s; value_map := value_map s;
     srv_index_to_id := srv_index_to_id s; uav_index_to_id := uav_index_to_id s;
     cbv_index_to_id := cbv_index_to_id s;
     sampler_index_to_id := sampler_index_to_id s;
     handle_to_ptr_id := handle_to_ptr_id s; id_to_type := x;
     input_elements_ids := input_elements_ids s;
     output_elements_ids := output_elements_ids s |}.

Definition set_input_elements_ids (x : gmap Z Id) (s : Impl) : Impl :=
  {| builder := builder s; entry_point := entry_point s; metas := metas s;
     bb_map := bb_map s; value_map := value_map s;
     srv_index_to_id := srv_index_to_id s; uav_index_to_id := uav_index_to_id s;
     cbv_index_to_id := cbv_index_to_id s;
     sampler_index_to_id := sampler_index_to_id s;
     handle_to_ptr_id := handle_to_ptr_id s; id_to_type := id_to_type s;
     input_elements_ids := x; output_elements_ids := output_elements_ids s |}.

Definition set_output_elements_ids (x : gmap Z Id) (s : Impl) : Impl :=
  {| builder := builder s; entry_point := entry_point s; metas := metas s;
     bb_map := bb_map s; value_map := value_map s;
     srv_index_to_id := srv_index_to_id s; uav_index_to_id := uav_index_to_id s;
     cbv_index_to_id := cbv_index_to_id s;
     sampler_index_to_id := sampler_index_to_id s;
     handle_to_ptr_id := handle_to_ptr_id s; id_to_type := id_to_type s;
     input_elements_ids := input_elements_ids s; output_elements_ids := x |}.

(** ** The converter's effects

    A member function reads and writes [Impl]; it has no result where the
    C++ has none: a failed [llvm::cast] or [assert], an operand or a vector
    slot out of range, a builder query on an id it is not defined on. *)

Definition M (A : Type) : Type := Impl → option (A * Impl).

Definition ret {A} (a : A) : M A := λ s, Some (a, s).

Definition bind {A B} (m : M A) (k : A → M B) : M B :=
  λ s, match m s with
       | Some (a, s') => k a s'
       | None => None
       end.

Definition fail {A} : M A := λ _, None.

Notation "'let*' x ':=' m 'in' k" := (bind m (λ x, k))
  (at level 10, x name, m at level 100, k at level 200, only parsing).

Definition get {A} (field : Impl → A) : M A := λ s, Some (field s, s).

Definition modify (f : Impl → Impl) : M unit := λ s, Some (tt, f s).

(** A value that must be there: [cast], [assert], an in-range access. *)
Definition must {A} (o : option A) : M A :=
  match o with
  | Some a => ret a
  | None => fail
  end.

Definition assert (c : bool) : M unit := if c then ret tt else fail.

(** A builder call that returns an id. *)
Definition build (f : Builder → Id * Builder) : M Id :=
  λ s, let r := f (builder s) in Some (r.1, set_builder r.2 s).

(** A builder call that returns nothing. *)
Definition decorate (f : Builder → Builder) : M unit :=
  modify (λ s, set_builder (f (builder s)) s).

(** A builder query. *)
Definition query {A} (f : Builder → option A) : M A :=
  λ s, match f (builder s) with
       | Some a => Some (a, s)
       | None => None
       end.

(** [spirv_module.allocate_id()] *)
Definition allocate_id : M Id := build getUniqueId.

(** A [for] loop over a container. *)
Fixpoint for_each {A} (l : list A) (body : A → M unit) : M unit :=
  match l with
  | [] => ret tt
  | x :: l' => let* _ := body x in for_each l' body
  end.

(** A [for] loop that carries a local variable. *)
Fixpoint for_each_with {A S} (l : list A) (acc : S) (body : S → A → M S) : M S :=
  match l with
  | [] => ret acc
  | x :: l' => let* acc' := body acc x in for_each_with l' acc' body
  end.

(** [table.resize(std::max(table.size(), size_t(index + 1))); table[index] = id]
    with [index] an [unsigned]: [index + 1] wraps before it is widened. *)
Definition resize (n : nat) (table : list Id) : list Id :=
  take n table ++ replicate (n - length table) 0.

Definition store_index (index : Z) (id : Id) (table : list Id) : option (list Id) :=
  let table' := resize (Nat.max (length table) (Z.to_nat (wrap32 (index + 1)))) table in
  if decide (0 ≤ index < Z.of_nat (length table'))
  then Some (<[Z.to_nat index := id]> table')
  else None.

(** [table[index]] on a [std::vector]. *)
Definition load_index (index : Z) (table : list Id) : option Id :=
  if decide (0 ≤ index) then table !! Z.to_nat index else None.

(** [map[key]] on a [std::unordered_map] read as an rvalue: a missing key
    reads as 0. *)
Definition map_at `{Countable K} (m : gmap K Id) (key : K) : Id :=
  default 0 (m !! key).

(** ** Types *)

(** [get_type_id(const llvm::Type &)].  The arguments of a call are
    evaluated left to right here; C++ leaves the order open, and it only
    decides which of two fresh ids is the smaller. *)
Fixpoint get_type_id (type : llvm.type) (b : Builder) : Id * Builder :=
  match type with
  | llvm.HalfTy => makeFloatType 16 b
  | llvm.FloatTy => makeFloatType 32 b
  | llvm.DoubleTy => makeFloatType 64 b
  | llvm.IntegerTy width =>
      if decide (width = 1) then makeBoolType b else makeIntegerType width false b
  | llvm.PointerTy element =>
      let element_id := get_type_id element b in
      makePointer spv.StorageClassFunction element_id.1 element_id.2
  | llvm.ArrayTy element num_elements =>
      let element_id := get_type_id element b in
      let size_id := makeUintConstant (wrap32 num_elements) element_id.2 in
      makeArrayType element_id.1 size_id.1 0 size_id.2
  | _ => (0, b)
  end.

(** [get_type_id(unsigned element_type, unsigned rows, unsigned cols)], on
    the decoded component type. *)
Definition get_type_id_components (element_type : DXIL.ComponentType) (rows cols : Z)
    (b : Builder) : Id * Builder :=
  let component :=
    match element_type with
    | DXIL.I1 => Some (makeBoolType b)
    | DXIL.I16 => Some (makeIntegerType 16 true b)
    | DXIL.U16 => Some (makeIntegerType 16 false b)
    | DXIL.I32 => Some (makeIntegerType 32 true b)
    | DXIL.U32 => Some (makeIntegerType 32 false b)
    | DXIL.I64 => Some (makeIntegerType 64 true b)
    | DXIL.U64 => Some (makeIntegerType 64 false b)
    | DXIL.F16 => Some (makeFloatType 16 b)
    | DXIL.F32 => Some (makeFloatType 32 b)
    | DXIL.F64 => Some (makeFloatType 64 b)
    | DXIL.OtherComponentType _ => None
    end in
  match component with
  | None => (0, b)
  | Some component_type =>
      if decide (rows = 1 ∧ cols = 1) then component_type
      else if decide (rows = 1) then makeVectorType component_type.1 cols component_type.2
      else makeMatrixType component_type.1 rows cols component_type.2
  end.

(** [get_type_id(spv::Id) const] *)
Definition get_type_id_of_id (id : Id) : M Id :=
  let* types := get id_to_type in
  match types !! id with
  | None => ret 0
  | Some type => ret type
  end.

(** ** Values *)

Definition get_id_for_constant (constant : llvm.Value) (forced_width : Z) : M Id :=
  match llvm.getType constant with
  | llvm.FloatTy =>
      match llvm.classof constant with
      | llvm.ConstantFP bits => build (makeFloatConstant bits)
      | _ => fail
      end
  | llvm.DoubleTy =>
      match llvm.classof constant with
      | llvm.ConstantFP bits => build (makeDoubleConstant bits)
      | _ => fail
      end
  | llvm.IntegerTy width =>
      let integer_width := if decide (forced_width = 0) then width else forced_width in
      if decide (integer_width = 32) then
        match llvm.classof constant with
        | llvm.ConstantInt apint =>
            build (makeUintConstant (wrap32 (llvm.getZExtValue apint)))
        | _ => fail
        end
      else ret 0
  | _ => ret 0
  end.

Definition get_id_for_undef (undef : llvm.Value) : M Id :=
  let* type_id := build (get_type_id (llvm.getType undef)) in
  build (createUndefined type_id).

Definition get_id_for_value (value : llvm.Value) (forced_width : Z) : M Id :=
  let* values := get value_map in
  match values !! llvm.address value with
  | Some id => ret id
  | None =>
      let* id :=
        if llvm.isa_UndefValue value then get_id_for_undef value
        else if llvm.isa_Constant value then get_id_for_constant value forced_width
        else allocate_id in
      let* _ := modify (λ s, set_value_map (<[llvm.address value := id]> (value_map s)) s) in
      ret id
  end.

(** ** Modules and functions (llvm/IR/Module.h, Function.h, BasicBlock.h) *)

Module ir.

(** The terminator of a block, with its successors in [succ_begin] order. *)
Inductive TerminatorInst :=
| BranchInst (condition : option llvm.Value) (successors : list llvm.BasicBlock)
| SwitchInst (condition : llvm.Value) (default_dest : llvm.BasicBlock)
             (cases : list (Z * llvm.BasicBlock))
| ReturnInst (return_value : option llvm.Value)
| UnreachableInst
| OtherTerminator (successors : list llvm.BasicBlock).

Definition successors (t : TerminatorInst) : list llvm.BasicBlock :=
  match t with
  | BranchInst _ l => l
  | SwitchInst _ d cases => d :: map snd cases
  | ReturnInst _ | UnreachableInst => []
  | OtherTerminator l => l
  end.

(** A block: its name, the instructions before the terminator, and the
    terminator.  A name holds no NUL byte, so [getName().data()] is the name. *)
Record BasicBlockData := {
  getName : string;
  instructions : list llvm.Instruction;
  getTerminator : TerminatorInst;
}.

Record Function := {
  getEntryBlock : llvm.BasicBlock;
  blocks : gmap positive BasicBlockData;
}.

Record Module := {
  getNamedMetadata : gmap string (list md.Metadata);
  getFunction : gmap string Function;
}.

End ir.

Section Converter.

(** The numbering of the DXIL enumerations. *)
Variable codes : DXIL.Codes.

(** ** Resources *)

(** One iteration of the loop of [emit_srvs]. *)
Definition emit_srv (srv : md.Metadata) : M unit :=
  let* _ := assert (md.isa_MDNode srv) in
  let* index := must (get_constant_metadata srv 0) in
  let* name := must (get_string_metadata srv 2) in
  let* bind_space := must (get_constant_metadata srv 3) in
  let* bind_register := must (get_constant_metadata srv 4) in
  let* kind := must (get_constant_metadata srv 6) in
  let resource_kind := DXIL.to_ResourceKind codes kind in
  let* tags :=
    must (if decide (9 ≤ md.getNumOperands srv)%nat
          then match md.getOperand srv 8 with
               | Some (md.MDNode l) => Some (md.MDNode l)
               | _ => None
               end
          else None) in
  let* tag := must (get_constant_metadata tags 0) in
  let* sampled_type_id :=
    if decide (tag = 0) then
      let* element_type := must (get_constant_metadata tags 1) in
      build (get_type_id_components (DXIL.to_ComponentType codes element_type) 1 1)
    else build (makeUintType 32) in
  let* type_id :=
    build (makeImageType sampled_type_id (image_dimension_from_resource_kind resource_kind)
             false (image_dimension_is_arrayed resource_kind)
             (image_dimension_is_multisampled resource_kind) 1 spv.ImageFormatUnknown) in
  let* var_id :=
    build (createVariable spv.StorageClassUniformConstant type_id (name_or_null name)) in
  let* _ := decorate (addDecoration var_id spv.DecorationDescriptorSet (Some bind_space)) in
  let* _ := decorate (addDecoration var_id spv.DecorationBinding (Some bind_register)) in
  let* table := get srv_index_to_id in
  let* table' := must (store_index index var_id table) in
  modify (set_srv_index_to_id table').

Definition emit_srvs (srvs : md.Metadata) : M unit :=
  match srvs with
  | md.MDNode l => for_each l emit_srv
  | _ => fail
  end.

Definition emit_uavs (uavs : md.Metadata) : M unit := ret tt.

(** One iteration of the loop of [emit_cbvs]. *)
Definition emit_cbv (cbv : md.Metadata) : M unit :=
  let* _ := assert (md.isa_MDNode cbv) in
  let* index := must (get_constant_metadata cbv 0) in
  let* name := must (get_string_metadata cbv 2) in
  let* bind_space := must (get_constant_metadata cbv 3) in
  let* bind_register := must (get_constant_metadata cbv 4) in
  let* cbv_size := must (get_constant_metadata cbv 6) in
  let vec4_length := wrap32 (cbv_size + 15) / 16 in
  let* float_type := build (makeFloatType 32) in
  let* vec4_type := build (makeVectorType float_type 4) in
  let* length_id := build (makeUintConstant vec4_length) in
  let* member_array_type := build (makeArrayType vec4_type length_id 16) in
  let* _ := decorate (addDecoration member_array_type spv.DecorationArrayStride (Some 16)) in
  let* type_id := build (makeStructType [member_array_type] name) in
  let* _ := decorate (addMemberDecoration type_id 0 spv.DecorationOffset (Some 0)) in
  let* _ := decorate (addDecoration type_id spv.DecorationBlock None) in
  let* var_id := build (createVariable spv.StorageClassUniform type_id (name_or_null name)) in
  let* _ := decorate (addDecoration var_id spv.DecorationDescriptorSet (Some bind_space)) in
  let* _ := decorate (addDecoration var_id spv.DecorationBinding (Some bind_register)) in
  let* table := get cbv_index_to_id in
  let* table' := must (store_index index var_id table) in
  modify (set_cbv_index_to_id table').

Definition emit_cbvs (cbvs : md.Metadata) : M unit :=
  match cbvs with
  | md.MDNode l => for_each l emit_cbv
  | _ => fail
  end.

(** One iteration of the loop of [emit_samplers]. *)
Definition emit_sampler (sampler : md.Metadata) : M unit :=
  let* _ := assert (md.isa_MDNode sampler) in
  let* index := must (get_constant_metadata sampler 0) in
  let* name := must (get_string_metadata sampler 2) in
  let* bind_space := must (get_constant_metadata sampler 3) in
  let* bind_register := must (get_constant_metadata sampler 4) in
  let* type_id := build makeSamplerType in
  let* var_id :=
    build (createVariable spv.StorageClassUniformConstant type_id (name_or_null name)) in
  let* _ := decorate (addDecoration var_id spv.DecorationDescriptorSet (Some bind_space)) in
  let* _ := decorate (addDecoration var_id spv.DecorationBinding (Some bind_register)) in
  let* table := get sampler_index_to_id in
  let* table' := must (store_index index var_id table) in
  modify (set_sampler_index_to_id table').

Definition emit_samplers (samplers : md.Metadata) : M unit :=
  match samplers with
  | md.MDNode l => for_each l emit_sampler
  | _ => fail
  end.

(** [if (metas->getOperand(i)) emit(dyn_cast<MDNode>(metas->getOperand(i)))] *)
Definition emit_resource_list (metas : md.Metadata) (i : nat)
    (emit : md.Metadata → M unit) : M unit :=
  let* list := must (md.getOperand metas i) in
  match list with
  | md.Null => ret tt
  | _ => emit list
  end.

Definition emit_resources (module : ir.Module) : M unit :=
  match ir.getNamedMetadata module !! "dx.resources" with
  | None => ret tt
  | Some resource_meta =>
      let* metas := must (resource_meta !! 0%nat) in
      let* _ := emit_resource_list metas 0 emit_srvs in
      let* _ := emit_resource_list metas 1 emit_uavs in
      let* _ := emit_resource_list metas 2 emit_cbvs in
      emit_resource_list metas 3 emit_samplers
  end.

(** ** Stage inputs and outputs *)

Definition emit_builtin_decoration (id : Id) (semantic : DXIL.Semantic) : M unit :=
  match semantic with
  | DXIL.Position =>
      decorate (addDecoration id spv.DecorationBuiltIn (Some spv.BuiltInPosition))
  | _ => ret tt
  end.

(** The list of signature elements at operand [which] of the entry point's
    signature: 0 for inputs, 1 for outputs. *)
Definition signature_node (module : ir.Module) (which : nat) : M (list md.Metadata) :=
  let* ep_meta := must (ir.getNamedMetadata module !! "dx.entryPoints") in
  let* node := must (ep_meta !! 0%nat) in
  let* signature := must (md.getOperand node 2) in
  let* elements := must (md.getOperand signature which) in
  match elements with
  | md.MDNode l => ret l
  | _ => fail
  end.

(** The body of the loop of [emit_stage_output_variables]; [location] is the
    local counter, an [unsigned]. *)
Definition emit_stage_output_variable (location : Z) (output : md.Metadata) : M Z :=
  let* _ := assert (md.isa_MDNode output) in
  let* element_id := must (get_constant_metadata output 0) in
  let* semantic_name := must (get_string_metadata output 1) in
  let* element_type := must (get_constant_metadata output 2) in
  let* semantic := must (get_constant_metadata output 3) in
  let system_value := DXIL.to_Semantic codes semantic in
  let* rows := must (get_constant_metadata output 6) in
  let* cols := must (get_constant_metadata output 7) in
  let* type_id :=
    build (get_type_id_components (DXIL.to_ComponentType codes element_type) rows cols) in
  let* variable_id :=
    build (createVariable spv.StorageClassOutput type_id (Some semantic_name)) in
  let* _ := modify (λ s, set_output_elements_ids
                           (<[element_id := variable_id]> (output_elements_ids s)) s) in
  let* location' :=
    if decide (system_value = DXIL.Target) then
      let* semantic_index := must (get_constant_metadata output 8) in
      let* _ := decorate (addDecoration variable_id spv.DecorationLocation
                            (Some semantic_index)) in
      ret location
    else if decide (system_value ≠ DXIL.User) then
      let* _ := emit_builtin_decoration variable_id system_value in
      ret location
    else
      let* _ := decorate (addDecoration variable_id spv.DecorationLocation (Some location)) in
      ret (wrap32 (location + rows)) in
  let* _ := modify (λ s, set_entry_point (entry_point s ++ [variable_id]) s) in
  ret location'.

Definition emit_stage_output_variables (module : ir.Module) : M unit :=
  let* outputs := signature_node module 1 in
  let* _ := for_each_with outputs 0 emit_stage_output_variable in
  ret tt.

(** The body of the loop of [emit_stage_input_variables]. *)
Definition emit_stage_input_variable (location : Z) (input : md.Metadata) : M Z :=
  let* _ := assert (md.isa_MDNode input) in
  let* element_id := must (get_constant_metadata input 0) in
  let* semantic_name := must (get_string_metadata input 1) in
  let* element_type := must (get_constant_metadata input 2) in
  let* semantic := must (get_constant_metadata input 3) in
  let system_value := DXIL.to_Semantic codes semantic in
  let* rows := must (get_constant_metadata input 6) in
  let* cols := must (get_constant_metadata input 7) in
  let* type_id :=
    build (get_type_id_components (DXIL.to_ComponentType codes element_type) rows cols) in
  let* variable_id :=
    build (createVariable spv.StorageClassInput type_id (Some semantic_name)) in
  let* _ := modify (λ s, set_input_elements_ids
                           (<[element_id := variable_id]> (input_elements_ids s)) s) in
  let* location' :=
    if decide (system_value ≠ DXIL.User) then
      let* _ := emit_builtin_decoration variable_id system_value in
      ret location
    else
      let* _ := decorate (addDecoration variable_id spv.DecorationLocation (Some location)) in
      ret (wrap32 (location + rows)) in
  let* _ := modify (λ s, set_entry_point (entry_point s ++ [variable_id]) s) in
  ret location'.

Definition emit_stage_input_variables (module : ir.Module) : M unit :=
  let* inputs := signature_node module 0 in
  let* _ := for_each_with inputs 0 emit_stage_input_variable in
  ret tt.

(** ** DXIL intrinsics *)

(** [get_constant_operand]: the operand must be an integer constant. *)
Definition get_constant_operand (value : llvm.Instruction) (index : nat) : option Z :=
  match llvm.getOperand value index with
  | Some operand =>
      match llvm.classof operand with
      | llvm.ConstantInt apint => Some (wrap32 (llvm.getZExtValue apint))
      | _ => None
      end
  | None => None
  end.

(** [block->ir.operations.push_back(std::move(op))] *)
Definition push_operation (op : Operation.t) (block : IRBlock.t) : IRBlock.t :=
  IRBlock.push_operation op block.

Definition nonzero (id : Id) : bool := negb (id =? 0).

Definition emit_load_input_instruction (block : IRBlock.t)
    (instruction : llvm.Instruction) : M IRBlock.t :=
  let* element := must (get_constant_operand instruction 1) in
  let* inputs := get input_elements_ids in
  let var_id := map_at inputs element in
  let* var_type := query (λ b, getDerefTypeId b var_id) in
  let* num_rows := query (λ b, getNumTypeComponents b var_type) in
  let* chain :=
    if decide (1 < wrap32 num_rows) then
      let* ptr_id := allocate_id in
      let* type_id := build (get_type_id (llvm.getType (llvm.result instruction))) in
      let* type_id := build (makePointer spv.StorageClassInput type_id) in
      let* operand := must (llvm.getOperand instruction 3) in
      let* index_id := get_id_for_value operand 32 in
      let* _ := assert (nonzero var_id) in
      let* _ := assert (nonzero index_id) in
      ret (ptr_id,
           push_operation
             {| Operation.op := spv.OpInBoundsAccessChain; Operation.id := ptr_id;
                Operation.type_id := type_id;
                Operation.arguments := [var_id; index_id] |} block)
    else ret (var_id, block) in
  let ptr_id := chain.1 in
  let block := chain.2 in
  let* id := get_id_for_value (llvm.result instruction) 0 in
  let* type_id := build (get_type_id (llvm.getType (llvm.result instruction))) in
  let* _ := assert (nonzero ptr_id) in
  ret (push_operation
         {| Operation.op := spv.OpLoad; Operation.id := id; Operation.type_id := type_id;
            Operation.arguments := [ptr_id] |} block).

Definition emit_store_output_instruction (block : IRBlock.t)
    (instruction : llvm.Instruction) : M IRBlock.t :=
  let* element := must (get_constant_operand instruction 1) in
  let* outputs := get output_elements_ids in
  let var_id := map_at outputs element in
  let* var_type := query (λ b, getDerefTypeId b var_id) in
  let* num_rows := query (λ b, getNumTypeComponents b var_type) in
  let* chain :=
    if decide (1 < wrap32 num_rows) then
      let* ptr_id := allocate_id in
      let* type_id := query (λ b, getScalarTypeId b var_type) in
      let* type_id := build (makePointer spv.StorageClassOutput type_id) in
      let* operand := must (llvm.getOperand instruction 3) in
      let* index_id := get_id_for_value operand 32 in
      let* _ := assert (nonzero var_id) in
      let* _ := assert (nonzero index_id) in
      ret (ptr_id,
           push_operation
             {| Operation.op := spv.OpInBoundsAccessChain; Operation.id := ptr_id;
                Operation.type_id := type_id;
                Operation.arguments := [var_id; index_id] |} block)
    else ret (var_id, block) in
  let ptr_id := chain.1 in
  let block := chain.2 in
  let* operand := must (llvm.getOperand instruction 4) in
  let* value_id := get_id_for_value operand 0 in
  let* _ := assert (nonzero ptr_id) in
  let* _ := assert (nonzero value_id) in
  ret (push_operation
         {| Operation.op := spv.OpStore; Operation.id := 0; Operation.type_id := 0;
            Operation.arguments := [ptr_id; value_id] |} block).

(** [handle_to_ptr_id[&instruction] = id] *)
Definition bind_handle (instruction : llvm.Instruction) (id : Id) : M unit :=
  modify (λ s, set_handle_to_ptr_id
                 (<[llvm.address (llvm.result instruction) := id]> (handle_to_ptr_id s)) s).

(** The [SRV] and [Sampler] cases of [emit_create_handle_instruction]: load
    the resource variable and remember the type of what was loaded. *)
Definition load_resource_handle (block : IRBlock.t) (instruction : llvm.Instruction)
    (resource_id : Id) : M IRBlock.t :=
  let* type_id := query (λ b, getDerefTypeId b resource_id) in
  let* id := allocate_id in
  let* _ := modify (λ s, set_id_to_type (<[id := type_id]> (id_to_type s)) s) in
  let* _ := bind_handle instruction id in
  ret (push_operation
         {| Operation.op := spv.OpLoad; Operation.id := id; Operation.type_id := type_id;
            Operation.arguments := [resource_id] |} block).

Definition emit_create_handle_instruction (block : IRBlock.t)
    (instruction : llvm.Instruction) : M IRBlock.t :=
  let* type_code := must (get_constant_operand instruction 1) in
  let resource_type := DXIL.to_ResourceType codes type_code in
  let* resource_range := must (get_constant_operand instruction 2) in
  match resource_type with
  | DXIL.SRV =>
      let* table := get srv_index_to_id in
      let* image_id := must (load_index resource_range table) in
      load_resource_handle block instruction image_id
  | DXIL.UAV =>
      let* table := get uav_index_to_id in
      let* id := must (load_index resource_range table) in
      let* _ := bind_handle instruction id in
      ret block
  | DXIL.CBV =>
      let* table := get cbv_index_to_id in
      let* id := must (load_index resource_range table) in
      let* _ := bind_handle instruction id in
      ret block
  | DXIL.Sampler =>
      let* table := get sampler_index_to_id in
      let* sampler_id := must (load_index resource_range table) in
      load_resource_handle block instruction sampler_id
  | DXIL.OtherResourceType _ => ret block
  end.

(** [getStructElementType(n)] of the instruction's result type. *)
Definition struct_element_type (type : llvm.type) (n : nat) : option llvm.type :=
  match type with
  | llvm.StructTy elements => elements !! n
  | _ => None
  end.

Definition struct_num_elements (type : llvm.type) : option nat :=
  match type with
  | llvm.StructTy elements => Some (length elements)
  | _ => None
  end.

Definition is_FloatTy (type : llvm.type) : bool :=
  match type with llvm.FloatTy => true | _ => false end.

Definition is_IntegerTy (type : llvm.type) : bool :=
  match type with llvm.IntegerTy _ => true | _ => false end.

Definition emit_cbuffer_load_legacy_instruction (block : IRBlock.t)
    (instruction : llvm.Instruction) : M IRBlock.t :=
  let* handle := must (llvm.getOperand instruction 1) in
  let* handles := get handle_to_ptr_id in
  let ptr_id := map_at handles (llvm.address handle) in
  let* _ := assert (nonzero ptr_id) in
  let* operand := must (llvm.getOperand instruction 2) in
  let* vec4_index := get_id_for_value operand 0 in
  let* access_chain_id := allocate_id in
  let* float_type := build (makeFloatType 32) in
  let* type_id := build (makeVectorType float_type 4) in
  let* type_id := build (makePointer spv.StorageClassUniform type_id) in
  let* zero := build (makeUintConstant 0) in
  let block :=
    push_operation
      {| Operation.op := spv.OpInBoundsAccessChain; Operation.id := access_chain_id;
         Operation.type_id := type_id;
         Operation.arguments := [ptr_id; zero; vec4_index] |} block in
  let result_type := llvm.getType (llvm.result instruction) in
  let* num_elements := must (struct_num_elements result_type) in
  let* _ := assert (bool_decide (num_elements = 4%nat)) in
  let* element_type := must (struct_element_type result_type 0) in
  let need_bitcast := negb (is_FloatTy element_type) in
  let* id :=
    if need_bitcast then allocate_id else get_id_for_value (llvm.result instruction) 0 in
  let* float_type := build (makeFloatType 32) in
  let* type_id := build (makeVectorType float_type 4) in
  let bitcast_input_id := id in
  let block :=
    push_operation
      {| Operation.op := spv.OpLoad; Operation.id := id; Operation.type_id := type_id;
         Operation.arguments := [access_chain_id] |} block in
  if need_bitcast then
    let* id := get_id_for_value (llvm.result instruction) 0 in
    let* _ := assert (is_IntegerTy element_type) in
    let* uint_type := build (makeUintType 32) in
    let* type_id := build (makeVectorType uint_type 4) in
    ret (push_operation
           {| Operation.op := spv.OpBitcast; Operation.id := id;
              Operation.type_id := type_id;
              Operation.arguments := [bitcast_input_id] |} block)
  else ret block.

Definition build_sampled_image (block : IRBlock.t) (image_id sampler_id : Id)
    (comparison : bool) : M (Id * IRBlock.t) :=
  let* image_type_id := get_type_id_of_id image_id in
  let* dim := query (λ b, getTypeDimensionality b image_type_id) in
  let* arrayed := query (λ b, isArrayedImageType b image_type_id) in
  let* multisampled := query (λ b, isMultisampledImageType b image_type_id) in
  let* sampled_format := query (λ b, getImageComponentType b image_type_id) in
  let* image_type_id :=
    build (makeImageType sampled_format dim comparison arrayed multisampled 2
             spv.ImageFormatUnknown) in
  let* id := allocate_id in
  let* type_id := build (makeSampledImageType image_type_id) in
  ret (id,
       push_operation
         {| Operation.op := spv.OpSampledImage; Operation.id := id;
            Operation.type_id := type_id;
            Operation.arguments := [image_id; sampler_id] |} block).

(** [build_vector(block, element_type, elements, count)]: [elements] is the
    first [count] entries of the array. *)
Definition build_vector (block : IRBlock.t) (element_type : Id) (elements : list Id)
    : M (Id * IRBlock.t) :=
  match elements with
  | [element] => ret (element, block)
  | _ =>
      let* id := allocate_id in
      let* type_id := build (makeVectorType element_type (Z.of_nat (length elements))) in
      ret (id,
           push_operation
             {| Operation.op := spv.OpCompositeConstruct; Operation.id := id;
                Operation.type_id := type_id; Operation.arguments := elements |} block)
  end.

(** A [for (unsigned i = 0; i < count; i++)] loop that fills an array: the
    entries written, in order. *)
Fixpoint for_range {A} (first : nat) (count : nat) (body : nat → M A) : M (list A) :=
  match count with
  | O => ret []
  | S count' =>
      let* x := body first in
      let* rest := for_range (S first) count' body in
      ret (x :: rest)
  end.

(** The [switch (dim)] of [emit_sample_instruction]. *)
Definition num_coords_of_dim (dim : spv.Dim) : option nat :=
  match dim with
  | spv.Dim1D | spv.DimBuffer => Some 1%nat
  | spv.Dim2D => Some 2%nat
  | spv.Dim3D | spv.DimCube => Some 3%nat
  | _ => None
  end.

(** The loop over the coordinate operands. *)
Definition sample_coords (instruction : llvm.Instruction) (num_coords_full : nat)
    : M (list Id) :=
  for_range 0 num_coords_full
    (λ i, let* operand := must (llvm.getOperand instruction (i + 3)) in
          get_id_for_value operand 0).

(** The image operands that the opcode alone decides. *)
Definition sample_image_ops (opcode : DXIL.Op) : Z :=
  if bool_decide (opcode = DXIL.SampleLevel ∨ opcode = DXIL.SampleCmpLevelZero)
  then Z.lor 0 spv.ImageOperandsLodMask
  else if bool_decide (opcode = DXIL.SampleBias)
  then Z.lor 0 spv.ImageOperandsBiasMask
  else 0.

(** The body of the loop over the offset operands: entry [i] of [offsets],
    and whether the operand sets [ConstOffset]. *)
Definition sample_offset (instruction : llvm.Instruction) (i : nat) : M (Id * bool) :=
  let* operand := must (llvm.getOperand instruction (i + 7)) in
  if negb (llvm.isa_UndefValue operand) then
    match llvm.classof operand with
    | llvm.ConstantInt apint =>
        let literal :=
          to_int32 (llvm.getSExtValue (llvm.getIntegerBitWidth (llvm.getType operand))
                      apint) in
        let* id := build (makeIntConstant literal) in
        ret (id, true)
    | _ => fail
    end
  else
    let* id := build (makeIntConstant 0) in
    ret (id, false).

(** [image_ops] after the loop over the offset operands. *)
Definition with_const_offset (image_ops : Z) (offset_entries : list (Id * bool)) : Z :=
  foldl (λ ops (entry : Id * bool),
           if entry.2 then Z.lor ops spv.ImageOperandsConstOffsetMask else ops)
    image_ops offset_entries.

(** [dref_id] *)
Definition sample_dref (opcode : DXIL.Op) (instruction : llvm.Instruction) : M Id :=
  if bool_decide (opcode = DXIL.SampleCmp) then
    let* operand := must (llvm.getOperand instruction 10) in
    get_id_for_value operand 0
  else ret 0.

(** [aux_argument], and [image_ops] with [MinLod] where it applies. *)
Definition sample_aux (opcode : DXIL.Op) (instruction : llvm.Instruction)
    (image_ops : Z) : M (Id * Z) :=
  let aux_argument_index :=
    if bool_decide (opcode = DXIL.SampleCmp) then 11%nat else 10%nat in
  if bool_decide (opcode = DXIL.Sample ∨ opcode = DXIL.SampleCmp) then
    let* operand := must (llvm.getOperand instruction aux_argument_index) in
    if negb (llvm.isa_UndefValue operand) then
      let* aux_argument := get_id_for_value operand 0 in
      let* _ := decorate (addCapability spv.CapabilityMinLod) in
      ret (aux_argument, Z.lor image_ops spv.ImageOperandsMinLodMask)
    else ret (0, image_ops)
  else if bool_decide (opcode ≠ DXIL.SampleCmpLevelZero) then
    let* operand := must (llvm.getOperand instruction aux_argument_index) in
    let* aux_argument := get_id_for_value operand 0 in
    ret (aux_argument, image_ops)
  else
    let* aux_argument := build (makeFloatConstant 0) in
    ret (aux_argument, image_ops).

(** The opcode of the sample operation; an [Operation] starts as [OpNop]. *)
Definition sample_op (opcode : DXIL.Op) : spv.Op :=
  match opcode with
  | DXIL.SampleLevel => spv.OpImageSampleExplicitLod
  | DXIL.Sample | DXIL.SampleBias => spv.OpImageSampleImplicitLod
  | DXIL.SampleCmp => spv.OpImageSampleDrefImplicitLod
  | DXIL.SampleCmpLevelZero => spv.OpImageSampleDrefExplicitLod
  | _ => spv.OpNop
  end.

(** [sampled_value_id] and [op.id] *)
Definition sample_result_id (comparison_sampling : bool)
    (instruction : llvm.Instruction) : M (Id * Id) :=
  if comparison_sampling then
    let* sampled_value_id := allocate_id in
    ret (sampled_value_id, sampled_value_id)
  else
    let* id := get_id_for_value (llvm.result instruction) 0 in
    ret (0, id).

(** [op.type_id] *)
Definition sample_result_type (comparison_sampling : bool)
    (instruction : llvm.Instruction) : M Id :=
  let result_type := llvm.getType (llvm.result instruction) in
  let* num_elements := must (struct_num_elements result_type) in
  let* _ := assert (bool_decide (num_elements = 5%nat)) in
  let* element_type := must (struct_element_type result_type 0) in
  let* type_id := build (get_type_id element_type) in
  if negb comparison_sampling then build (makeVectorType type_id 4)
  else ret type_id.

(** [op.arguments], with the vectors that [build_vector] appends to the
    block on the way. *)
Definition sample_arguments (block : IRBlock.t) (combined_image_sampler_id : Id)
    (coord : list Id) (dref_id image_ops aux_argument : Z) (offsets : list Id)
    : M (list Z * IRBlock.t) :=
  let arguments := [combined_image_sampler_id] in
  let* float_type := build (makeFloatType 32) in
  let* coord_vector := build_vector block float_type coord in
  let block := coord_vector.2 in
  let arguments := arguments ++ [coord_vector.1] in
  let arguments := if nonzero dref_id then arguments ++ [dref_id] else arguments in
  let arguments := arguments ++ [image_ops] in
  let arguments :=
    if nonzero (Z.land image_ops
                  (Z.lor spv.ImageOperandsBiasMask spv.ImageOperandsLodMask))
    then arguments ++ [aux_argument] else arguments in
  let* with_offset :=
    if nonzero (Z.land image_ops spv.ImageOperandsConstOffsetMask) then
      let* int_type := build (makeIntegerType 32 true) in
      let* offset_vector := build_vector block int_type offsets in
      ret (arguments ++ [offset_vector.1], offset_vector.2)
    else ret (arguments, block) in
  let arguments := with_offset.1 in
  let block := with_offset.2 in
  let arguments :=
    if nonzero (Z.land image_ops spv.ImageOperandsMinLodMask)
    then arguments ++ [aux_argument] else arguments in
  ret (arguments, block).

(** The splat after a comparison sample. *)
Definition sample_splat (comparison_sampling : bool) (block : IRBlock.t)
    (instruction : llvm.Instruction) (sampled_value_id : Id) : M IRBlock.t :=
  if comparison_sampling then
    let* id := get_id_for_value (llvm.result instruction) 0 in
    let* float_type := build (makeFloatType 32) in
    let* type_id := build (makeVectorType float_type 4) in
    ret (push_operation
           {| Operation.op := spv.OpCompositeConstruct; Operation.id := id;
              Operation.type_id := type_id;
              Operation.arguments :=
                [sampled_value_id; sampled_value_id; sampled_value_id;
                 sampled_value_id] |} block)
  else ret block.

Definition emit_sample_instruction (opcode : DXIL.Op) (block : IRBlock.t)
    (instruction : llvm.Instruction) : M IRBlock.t :=
  let comparison_sampling :=
    bool_decide (opcode = DXIL.SampleCmp ∨ opcode = DXIL.SampleCmpLevelZero) in
  let* image_handle := must (llvm.getOperand instruction 1) in
  let* sampler_handle := must (llvm.getOperand instruction 2) in
  let* handles := get handle_to_ptr_id in
  let image_id := map_at handles (llvm.address image_handle) in
  let sampler_id := map_at handles (llvm.address sampler_handle) in
  let* combined := build_sampled_image block image_id sampler_id comparison_sampling in
  let combined_image_sampler_id := combined.1 in
  let block := combined.2 in
  let* image_type_id := get_type_id_of_id image_id in
  let* dim := query (λ b, getTypeDimensionality b image_type_id) in
  let* arrayed := query (λ b, isArrayedImageType b image_type_id) in
  match num_coords_of_dim dim with
  | None => ret block
  | Some num_coords =>
      let num_coords_full := if arrayed : bool then S num_coords else num_coords in
      let* coord := sample_coords instruction num_coords_full in
      let image_ops := sample_image_ops opcode in
      let* offset_entries := for_range 0 num_coords (sample_offset instruction) in
      let offsets := offset_entries.*1 in
      let image_ops := with_const_offset image_ops offset_entries in
      let* dref_id := sample_dref opcode instruction in
      let* aux := sample_aux opcode instruction image_ops in
      let aux_argument := aux.1 in
      let image_ops := aux.2 in
      let* ids := sample_result_id comparison_sampling instruction in
      let sampled_value_id := ids.1 in
      let* type_id := sample_result_type comparison_sampling instruction in
      let* built :=
        sample_arguments block combined_image_sampler_id coord dref_id image_ops
          aux_argument offsets in
      let block :=
        push_operation
          {| Operation.op := sample_op opcode; Operation.id := ids.2;
             Operation.type_id := type_id; Operation.arguments := built.1 |} built.2 in
      sample_splat comparison_sampling block instruction sampled_value_id
  end.

Definition emit_builtin_instruction (block : IRBlock.t)
    (instruction : llvm.Instruction) : M IRBlock.t :=
  let* code := must (get_constant_operand instruction 0) in
  let opcode := DXIL.to_Op codes code in
  match opcode with
  | DXIL.LoadInput => emit_load_input_instruction block instruction
  | DXIL.StoreOutput => emit_store_output_instruction block instruction
  | DXIL.CreateHandle => emit_create_handle_instruction block instruction
  | DXIL.CBufferLoadLegacy => emit_cbuffer_load_legacy_instruction block instruction
  | DXIL.Sample | DXIL.SampleBias | DXIL.SampleLevel | DXIL.SampleCmp
  | DXIL.SampleCmpLevelZero => emit_sample_instruction opcode block instruction
  | DXIL.OtherOp _ => ret block
  end.

(** ** Native LLVM instructions *)

(** [bb_map[bb]->node] *)
Definition node_of (bb : llvm.BasicBlock) : M (option CFGNodePtr) :=
  let* map := get bb_map in
  let* meta_ptr := must (map !! bb) in
  let* all := get metas in
  let* meta := must (all !! meta_ptr) in
  ret (node meta).

Definition emit_phi_instruction (block : IRBlock.t) (instruction : llvm.Instruction)
    (incoming_blocks : list llvm.BasicBlock) : M IRBlock.t :=
  let* id := get_id_for_value (llvm.result instruction) 0 in
  let* type_id := build (get_type_id (llvm.getType (llvm.result instruction))) in
  let* incoming :=
    for_range 0 (length incoming_blocks)
      (λ i, let* incoming_block := must (incoming_blocks !! i) in
            let* node := node_of incoming_block in
            let* value := must (llvm.getOperand instruction i) in
            let* id := get_id_for_value value 0 in
            ret {| IncomingValue.block := node; IncomingValue.id := id |}) in
  ret (IRBlock.push_phi
         {| PHI.id := id; PHI.type_id := type_id; PHI.incoming := incoming |} block).

Definition compare_op (predicate : llvm.Predicate) : spv.Op :=
  match predicate with
  | llvm.FCMP_OEQ => spv.OpFOrdEqual
  | llvm.FCMP_UEQ => spv.OpFUnordEqual
  | llvm.FCMP_OGT => spv.OpFOrdGreaterThan
  | llvm.FCMP_UGT => spv.OpFUnordGreaterThan
  | llvm.FCMP_OGE => spv.OpFOrdGreaterThanEqual
  | llvm.FCMP_UGE => spv.OpFUnordGreaterThanEqual
  | llvm.FCMP_OLT => spv.OpFOrdLessThan
  | llvm.FCMP_ULT => spv.OpFUnordLessThan
  | llvm.FCMP_OLE => spv.OpFOrdLessThanEqual
  | llvm.FCMP_ULE => spv.OpFUnordLessThanEqual
  | llvm.FCMP_ONE => spv.OpFOrdNotEqual
  | llvm.FCMP_UNE => spv.OpFUnordNotEqual
  | llvm.FCMP_FALSE | llvm.FCMP_TRUE => spv.OpCopyLogical
  | llvm.ICMP_EQ => spv.OpIEqual
  | llvm.ICMP_NE => spv.OpINotEqual
  | llvm.ICMP_SLT => spv.OpSLessThan
  | llvm.ICMP_SLE => spv.OpSLessThanEqual
  | llvm.ICMP_SGT => spv.OpSGreaterThan
  | llvm.ICMP_SGE => spv.OpSGreaterThanEqual
  | llvm.ICMP_ULT => spv.OpULessThan
  | llvm.ICMP_ULE => spv.OpULessThanEqual
  | llvm.ICMP_UGT => spv.OpUGreaterThan
  | llvm.ICMP_UGE => spv.OpUGreaterThanEqual
  | llvm.FCMP_ORD | llvm.FCMP_UNO => spv.OpNop
  end.

Definition emit_compare_instruction (block : IRBlock.t) (instruction : llvm.Instruction)
    (predicate : llvm.Predicate) : M IRBlock.t :=
  let* id := get_id_for_value (llvm.result instruction) 0 in
  let* type_id := build (get_type_id (llvm.getType (llvm.result instruction))) in
  let* operand0 := must (llvm.getOperand instruction 0) in
  let* id0 := get_id_for_value operand0 0 in
  let* operand1 := must (llvm.getOperand instruction 1) in
  let* id1 := get_id_for_value operand1 0 in
  let* arguments :=
    match predicate with
    | llvm.FCMP_FALSE => let* c := build (makeBoolConstant false) in ret [c]
    | llvm.FCMP_TRUE => let* c := build (makeBoolConstant true) in ret [c]
    | _ => ret [id0; id1]
    end in
  ret (push_operation
         {| Operation.op := compare_op predicate; Operation.id := id;
            Operation.type_id := type_id; Operation.arguments := arguments |} block).

Definition emit_extract_value_instruction (block : IRBlock.t)
    (instruction : llvm.Instruction) (indices : list Z) : M IRBlock.t :=
  let* id := get_id_for_value (llvm.result instruction) 0 in
  let* type_id := build (get_type_id (llvm.getType (llvm.result instruction))) in
  let* aggregate := must (llvm.getOperand instruction 0) in
  let* aggregate_id := get_id_for_value aggregate 0 in
  ret (push_operation
         {| Operation.op := spv.OpCompositeExtract; Operation.id := id;
            Operation.type_id := type_id;
            Operation.arguments := aggregate_id :: indices |} block).

Definition emit_alloca_instruction (block : IRBlock.t) (instruction : llvm.Instruction)
    (name : string) : M IRBlock.t :=
  let* pointee_type :=
    must (match llvm.getType (llvm.result instruction) with
          | llvm.PointerTy element => Some element
          | _ => None
          end) in
  let* pointee_type_id := build (get_type_id pointee_type) in
  let* array_size := must (llvm.getOperand instruction 0) in
  let* _ :=
    assert (match llvm.classof array_size with
            | llvm.ConstantInt apint => bool_decide (llvm.getZExtValue apint = 1)
            | _ => false
            end) in
  let* var_id :=
    build (createVariable spv.StorageClassFunction pointee_type_id (Some name)) in
  let* _ :=
    modify (λ s, set_value_map
                   (<[llvm.address (llvm.result instruction) := var_id]> (value_map s)) s) in
  ret block.

Definition emit_select_instruction (block : IRBlock.t)
    (instruction : llvm.Instruction) : M IRBlock.t :=
  let* id := get_id_for_value (llvm.result instruction) 0 in
  let* type_id := build (get_type_id (llvm.getType (llvm.result instruction))) in
  let* operand0 := must (llvm.getOperand instruction 0) in
  let* id0 := get_id_for_value operand0 0 in
  let* operand1 := must (llvm.getOperand instruction 1) in
  let* id1 := get_id_for_value operand1 0 in
  let* operand2 := must (llvm.getOperand instruction 2) in
  let* id2 := get_id_for_value operand2 0 in
  ret (push_operation
         {| Operation.op := spv.OpSelect; Operation.id := id; Operation.type_id := type_id;
            Operation.arguments := [id0; id1; id2] |} block).

Definition emit_load_instruction (block : IRBlock.t)
    (instruction : llvm.Instruction) : M IRBlock.t :=
  let* id := get_id_for_value (llvm.result instruction) 0 in
  let* type_id := build (get_type_id (llvm.getType (llvm.result instruction))) in
  let* pointer := must (llvm.getOperand instruction 0) in
  let* pointer_id := get_id_for_value pointer 0 in
  ret (push_operation
         {| Operation.op := spv.OpLoad; Operation.id := id; Operation.type_id := type_id;
            Operation.arguments := [pointer_id] |} block).

Definition emit_store_instruction (block : IRBlock.t)
    (instruction : llvm.Instruction) : M IRBlock.t :=
  let* pointer := must (llvm.getOperand instruction 1) in
  let* pointer_id := get_id_for_value pointer 0 in
  let* value := must (llvm.getOperand instruction 0) in
  let* value_id := get_id_for_value value 0 in
  ret (push_operation
         {| Operation.op := spv.OpStore; Operation.id := 0; Operation.type_id := 0;
            Operation.arguments := [pointer_id; value_id] |} block).

Definition emit_getelementptr_instruction (block : IRBlock.t)
    (instruction : llvm.Instruction) (in_bounds : bool) : M IRBlock.t :=
  let* id := get_id_for_value (llvm.result instruction) 0 in
  let* type_id := build (get_type_id (llvm.getType (llvm.result instruction))) in
  let* arguments :=
    for_range 0 (length (llvm.operands instruction))
      (λ i, let* operand := must (llvm.getOperand instruction i) in
            if decide (i = 1%nat) then
              let* _ :=
                assert (match llvm.classof operand with
                        | llvm.ConstantInt apint =>
                            bool_decide (llvm.getZExtValue apint = 0)
                        | _ => false
                        end) in
              ret []
            else
              let* operand_id := get_id_for_value operand 0 in
              ret [operand_id]) in
  ret (push_operation
         {| Operation.op :=
              if in_bounds then spv.OpInBoundsAccessChain else spv.OpAccessChain;
            Operation.id := id; Operation.type_id := type_id;
            Operation.arguments := concat arguments |} block).

Definition cast_op (opcode : llvm.CastOps) : option spv.Op :=
  match opcode with
  | llvm.BitCast => Some spv.OpBitcast
  | llvm.SExt => Some spv.OpSConvert
  | llvm.Trunc | llvm.ZExt => Some spv.OpUConvert
  | llvm.FPTrunc | llvm.FPExt => Some spv.OpFConvert
  | llvm.FPToUI => Some spv.OpConvertFToU
  | llvm.FPToSI => Some spv.OpConvertFToS
  | llvm.SIToFP => Some spv.OpConvertSToF
  | llvm.UIToFP => Some spv.OpConvertUToF
  | _ => None
  end.

Definition emit_cast_instruction (block : IRBlock.t) (instruction : llvm.Instruction)
    (opcode : llvm.CastOps) : M IRBlock.t :=
  let* id := get_id_for_value (llvm.result instruction) 0 in
  let* type_id := build (get_type_id (llvm.getType (llvm.result instruction))) in
  let* operand := must (llvm.getOperand instruction 0) in
  let* operand_id := get_id_for_value operand 0 in
  match cast_op opcode with
  | Some op =>
      ret (push_operation
             {| Operation.op := op; Operation.id := id; Operation.type_id := type_id;
                Operation.arguments := [operand_id] |} block)
  | None => ret block
  end.

Definition emit_unary_instruction (block : IRBlock.t) (instruction : llvm.Instruction)
    (opcode : llvm.UnaryOps) : M IRBlock.t :=
  let* id := get_id_for_value (llvm.result instruction) 0 in
  let* type_id := build (get_type_id (llvm.getType (llvm.result instruction))) in
  let* operand := must (llvm.getOperand instruction 0) in
  let* operand_id := get_id_for_value operand 0 in
  match opcode with
  | llvm.FNeg =>
      ret (push_operation
             {| Operation.op := spv.OpFNegate; Operation.id := id;
                Operation.type_id := type_id;
                Operation.arguments := [operand_id] |} block)
  | _ => ret block
  end.

Definition binary_op (opcode : llvm.BinaryOps) : spv.Op :=
  match opcode with
  | llvm.FAdd => spv.OpFAdd
  | llvm.FSub => spv.OpFSub
  | llvm.FMul => spv.OpFMul
  | llvm.FDiv => spv.OpFDiv
  | llvm.Add => spv.OpIAdd
  | llvm.Sub => spv.OpISub
  | llvm.Mul => spv.OpIMul
  | llvm.SDiv => spv.OpSDiv
  | llvm.UDiv => spv.OpUDiv
  | llvm.Shl => spv.OpShiftLeftLogical
  | llvm.LShr => spv.OpShiftRightLogical
  | llvm.AShr => spv.OpShiftRightArithmetic
  | llvm.SRem => spv.OpSRem
  | llvm.FRem => spv.OpFRem
  | llvm.URem => spv.OpUMod
  | llvm.Xor => spv.OpBitwiseXor
  | llvm.And => spv.OpBitwiseAnd
  | llvm.Or => spv.OpBitwiseOr
  end.

Definition emit_binary_instruction (block : IRBlock.t) (instruction : llvm.Instruction)
    (opcode : llvm.BinaryOps) : M IRBlock.t :=
  let* id := get_id_for_value (llvm.result instruction) 0 in
  let* type_id := build (get_type_id (llvm.getType (llvm.result instruction))) in
  let* operand0 := must (llvm.getOperand instruction 0) in
  let* id0 := get_id_for_value operand0 0 in
  let* operand1 := must (llvm.getOperand instruction 1) in
  let* id1 := get_id_for_value operand1 0 in
  ret (push_operation
         {| Operation.op := binary_op opcode; Operation.id := id;
            Operation.type_id := type_id; Operation.arguments := [id0; id1] |} block).

Definition emit_instruction (block : IRBlock.t) (instruction : llvm.Instruction)
    : M IRBlock.t :=
  match llvm.inst_class instruction with
  | llvm.CallInst called_function_name =>
      if String.prefix "dx.op" called_function_name
      then emit_builtin_instruction block instruction
      else ret block
  | llvm.BinaryOperator opcode => emit_binary_instruction block instruction opcode
  | llvm.UnaryOperator opcode => emit_unary_instruction block instruction opcode
  | llvm.CastInst opcode => emit_cast_instruction block instruction opcode
  | llvm.GetElementPtrInst in_bounds =>
      emit_getelementptr_instruction block instruction in_bounds
  | llvm.LoadInst => emit_load_instruction block instruction
  | llvm.StoreInst => emit_store_instruction block instruction
  | llvm.CmpInst predicate => emit_compare_instruction block instruction predicate
  | llvm.ExtractValueInst indices =>
      emit_extract_value_instruction block instruction indices
  | llvm.AllocaInst name => emit_alloca_instruction block instruction name
  | llvm.SelectInst => emit_select_instruction block instruction
  | llvm.PHINode incoming_blocks =>
      emit_phi_instruction block instruction incoming_blocks
  | llvm.OtherInstruction => ret block
  end.

(** ** The entry point *)

Definition get_entry_point_name (module : ir.Module) : option string :=
  match ir.getNamedMetadata module !! "dx.entryPoints" with
  | Some ep_meta =>
      match ep_meta !! 0%nat with
      | Some node => get_string_metadata node 1
      | None => None
      end
  | None => None
  end.

Definition get_execution_model (module : ir.Module) : option spv.ExecutionModel :=
  match ir.getNamedMetadata module !! "dx.shaderModel" with
  | Some shader_model =>
      match shader_model !! 0%nat with
      | Some shader_model_node =>
          match get_string_metadata shader_model_node 0 with
          | Some model =>
              Some (if decide (model = "vs") then spv.ExecutionModelVertex
                    else if decide (model = "ps") then spv.ExecutionModelFragment
                    else if decide (model = "hs")
                    then spv.ExecutionModelTessellationControl
                    else if decide (model = "ds")
                    then spv.ExecutionModelTessellationEvaluation
                    else if decide (model = "gs") then spv.ExecutionModelGeometry
                    else if decide (model = "cs") then spv.ExecutionModelGLCompute
                    else spv.ExecutionModelMax)
          | None => None
          end
      | None => None
      end
  | None => None
  end.

(** [ConvertedFunction]: the pool owns the nodes; a [CFGNode *] is a position
    in it. *)
Record ConvertedFunction := {
  node_pool : list CFGNode.t;
  entry : option CFGNodePtr;
}.

(** The locals of the traversal in [convert_entry_point]. *)
Record Traversal := {
  pool : list CFGNode.t;
  to_process : list llvm.BasicBlock;
  visit_order : list llvm.BasicBlock;
}.

(** [pool.create_node()] followed by [node->name = name]. *)
Definition create_node (name : string) (pool : list CFGNode.t)
    : CFGNodePtr * list CFGNode.t :=
  (length pool, pool ++ [CFGNode.set_name name CFGNode.empty]).

(** [auto meta = std::make_unique<BlockMeta>(bb); bb_map[bb] = meta.get();
    bb_map[bb]->node = node; metas.push_back(std::move(meta));]: the meta is
    owned by [metas] from the start, which does not move it. *)
Definition register_block (bb : llvm.BasicBlock) (node : CFGNodePtr) : M unit :=
  modify (λ s, set_bb_map (<[bb := length (metas s)]> (bb_map s))
                 (set_metas (metas s ++ [{| bb := bb; node := Some node |}]) s)).

(** [from->add_branch(to)] *)
Definition add_branch (from to : CFGNodePtr) (pool : list CFGNode.t) : list CFGNode.t :=
  alter (CFGNode.add_successor to) from pool.

(** The body of the loop over the successors of [block]. *)
Definition register_successor (function : ir.Function) (block : llvm.BasicBlock)
    (t : Traversal) (succ : llvm.BasicBlock) : M Traversal :=
  let* map := get bb_map in
  let* t :=
    match map !! succ with
    | None =>
        let* data := must (ir.blocks function !! succ) in
        let created := create_node (ir.getName data) (pool t) in
        let* _ := register_block succ created.1 in
        ret {| pool := created.2; to_process := to_process t ++ [succ];
               visit_order := visit_order t |}
    | Some _ => ret t
    end in
  let* from := node_of block in
  let* from := must from in
  let* to := node_of succ in
  let* to := must to in
  ret {| pool := add_branch from to (pool t); to_process := to_process t;
         visit_order := visit_order t |}.

(** The body of the loop over [processing]. *)
Definition process_block (function : ir.Function) (t : Traversal)
    (block : llvm.BasicBlock) : M Traversal :=
  let t := {| pool := pool t; to_process := to_process t;
              visit_order := visit_order t ++ [block] |} in
  let* data := must (ir.blocks function !! block) in
  for_each_with (ir.successors (ir.getTerminator data)) t
    (register_successor function block).

(** [while (!to_process.empty())]: one round swaps the work list into
    [processing] and walks it.  Every round but the last registers a block
    that was not registered, so [fuel], the number of blocks of the function,
    is enough rounds. *)
Fixpoint traverse (fuel : nat) (function : ir.Function) (t : Traversal) : M Traversal :=
  match to_process t with
  | [] => ret t
  | processing =>
      match fuel with
      | O => fail
      | S fuel' =>
          let t := {| pool := pool t; to_process := []; visit_order := visit_order t |} in
          let* t := for_each_with processing t (process_block function) in
          traverse fuel' function t
      end
  end.

(** The part of [convert_entry_point] that creates the entry node and
    registers every block of the function in the pool. *)
Definition discover_blocks (function : ir.Function) : M Traversal :=
  let entry := ir.getEntryBlock function in
  let* data := must (ir.blocks function !! entry) in
  let created := create_node (ir.getName data +:+ ".entry") [] in
  let* _ := register_block entry created.1 in
  traverse (size (ir.blocks function)) function
    {| pool := created.2; to_process := [entry]; visit_order := [] |}.

(** The terminator of a block. *)
Definition emit_terminator (terminator : ir.TerminatorInst) : M Terminator.t :=
  match terminator with
  | ir.BranchInst (Some condition) successors =>
      let* conditional_id := get_id_for_value condition 0 in
      let* _ := assert (bool_decide (length successors = 2%nat)) in
      let* true_succ := must (successors !! 0%nat) in
      let* true_block := node_of true_succ in
      let* false_succ := must (successors !! 1%nat) in
      let* false_block := node_of false_succ in
      ret {| Terminator.type := Terminator.Condition;
             Terminator.conditional_id := conditional_id;
             Terminator.direct_block := None;
             Terminator.true_block := true_block;
             Terminator.false_block := false_block;
             Terminator.default_node := None; Terminator.cases := [];
             Terminator.return_value := 0 |}
  | ir.BranchInst None successors =>
      let* _ := assert (bool_decide (length successors = 1%nat)) in
      let* succ := must (successors !! 0%nat) in
      let* direct_block := node_of succ in
      ret {| Terminator.type := Terminator.Branch; Terminator.conditional_id := 0;
             Terminator.direct_block := direct_block;
             Terminator.true_block := None; Terminator.false_block := None;
             Terminator.default_node := None; Terminator.cases := [];
             Terminator.return_value := 0 |}
  | ir.SwitchInst condition default_dest cases =>
      let* default_node := node_of default_dest in
      let* conditional_id := get_id_for_value condition 0 in
      let* cases :=
        for_range 0 (length cases)
          (λ i, let* case := must (cases !! i) in
                let* node := node_of case.2 in
                ret {| Terminator.node := node;
                       Terminator.value := wrap32 (llvm.getZExtValue case.1) |}) in
      ret {| Terminator.type := Terminator.Switch;
             Terminator.conditional_id := conditional_id;
             Terminator.direct_block := None;
             Terminator.true_block := None; Terminator.false_block := None;
             Terminator.default_node := default_node; Terminator.cases := cases;
             Terminator.return_value := 0 |}
  | ir.ReturnInst return_value =>
      let* id :=
        match return_value with
        | Some value => get_id_for_value value 0
        | None => ret 0
        end in
      ret {| Terminator.type := Terminator.Return; Terminator.conditional_id := 0;
             Terminator.direct_block := None;
             Terminator.true_block := None; Terminator.false_block := None;
             Terminator.default_node := None; Terminator.cases := [];
             Terminator.return_value := id |}
  | ir.UnreachableInst =>
      ret {| Terminator.type := Terminator.Unreachable; Terminator.conditional_id := 0;
             Terminator.direct_block := None;
             Terminator.true_block := None; Terminator.false_block := None;
             Terminator.default_node := None; Terminator.cases := [];
             Terminator.return_value := 0 |}
  | ir.OtherTerminator _ => ret Terminator.empty
  end.

(** The body of the loop over [visit_order]. *)
Definition emit_block (function : ir.Function) (pool : list CFGNode.t)
    (bb : llvm.BasicBlock) : M (list CFGNode.t) :=
  let* node := node_of bb in
  let* node := must node in
  let* cfg_node := must (pool !! node) in
  let* data := must (ir.blocks function !! bb) in
  let* block := for_each_with (ir.instructions data) (CFGNode.ir cfg_node) emit_instruction in
  let* terminator := emit_terminator (ir.getTerminator data) in
  ret (<[node := CFGNode.set_ir (IRBlock.set_terminator terminator block) cfg_node]> pool).

Definition convert_entry_point (module : ir.Module) : M ConvertedFunction :=
  let* _ := must (get_execution_model module) in
  let* _ := emit_resources module in
  let* _ := emit_stage_input_variables module in
  let* _ := emit_stage_output_variables module in
  let* name := must (get_entry_point_name module) in
  let* function := must (ir.getFunction module !! name) in
  let* t := discover_blocks function in
  let* pool := for_each_with (visit_order t) (pool t) (emit_block function) in
  ret {| node_pool := pool; entry := Some 0%nat |}.

End Converter.

(** * Vocabulary of the properties *)

(** ** Well-formed builders

    Ids are declared once and are below the counter.  The empty builder is
    well formed and every builder call keeps it so. *)

Definition builder_wf (b : Builder) : Prop :=
  NoDup (declarations b).*1 ∧
  Forall (λ p, (p < unique_id b)%positive) (declarations b).*1.

(** [b'] was reached from [b] by builder calls: nothing was removed. *)
Record extends (b b' : Builder) : Prop := {
  extends_declarations : declarations b `prefix_of` declarations b';
  extends_decorations : decorations b `prefix_of` decorations b';
  extends_member_decorations : member_decorations b `prefix_of` member_decorations b';
  extends_capabilities : capabilities b `prefix_of` capabilities b';
}.

(** A run of calls of [get_id_for_value], each with its own forced width. *)
Fixpoint get_ids_for_values (calls : list (llvm.Value * Z)) : M (list Id) :=
  match calls with
  | [] => ret []
  | (value, forced_width) :: calls' =>
      let* id := get_id_for_value value forced_width in
      let* ids := get_ids_for_values calls' in
      ret (id :: ids)
  end.

(** The width [get_id_for_constant] switches on. *)
Definition effective_width (width forced_width : Z) : Z :=
  if decide (forced_width = 0) then width else forced_width.

(** [wp m Q s]: [m] returns from [s], with a result and a state that satisfy
    [Q]. *)
Definition wp {A} (m : M A) (Q : A → Impl → Prop) (s : Impl) : Prop :=
  ∃ a s', m s = Some (a, s') ∧ Q a s'.

(** What the spec says the lowering of a CBV entry leaves behind: the
    array of [ceil(S/16)] float4 with its stride, the block struct around it,
    the uniform variable with its set and binding, and the table slot. *)
Definition cbv_lowered (index bind_space bind_register S : Z) (name : string)
    (s s' : Impl) : Prop :=
  ∃ float_type vec4_type length_id array_type struct_type var_id n : Z,
    extends (builder s) (builder s') ∧
    lookup_id (builder s') float_type = Some (TypeFloat 32) ∧
    lookup_id (builder s') vec4_type = Some (TypeVector float_type 4) ∧
    lookup_id (builder s') length_id = Some (ConstantUint n) ∧
    16 * (n - 1) < S ≤ 16 * n ∧
    lookup_id (builder s') array_type = Some (TypeArray vec4_type length_id 16) ∧
    (array_type, spv.DecorationArrayStride, Some 16) ∈ decorations (builder s') ∧
    lookup_id (builder s') struct_type = Some (TypeStruct [array_type] name) ∧
    (struct_type, 0, spv.DecorationOffset, Some 0) ∈ member_decorations (builder s') ∧
    (struct_type, spv.DecorationBlock, None) ∈ decorations (builder s') ∧
    lookup_id (builder s') var_id
      = Some (Var spv.StorageClassUniform struct_type (name_or_null name)) ∧
    (var_id, spv.DecorationDescriptorSet, Some bind_space) ∈ decorations (builder s') ∧
    (var_id, spv.DecorationBinding, Some bind_register) ∈ decorations (builder s') ∧
    cbv_index_to_id s' !! Z.to_nat index = Some var_id.

(** Metadata for concrete runs: a 32-bit integer constant, and a resource
    entry [index, undef, name, space, register, range size, extra]. *)
Definition md_i32 (v : Z) : md.Metadata :=
  md.ConstantAsMetadata
    {| llvm.address := 1; llvm.getType := llvm.IntegerTy 32;
       llvm.classof := llvm.ConstantInt v |}.

Definition md_undef : md.Metadata :=
  md.ConstantAsMetadata
    {| llvm.address := 2; llvm.getType := llvm.IntegerTy 32;
       llvm.classof := llvm.UndefValue |}.

Definition resource_entry (index : Z) (name : string) (bind_space bind_register : Z)
    (extra : list md.Metadata) : md.Metadata :=
  md.MDNode ([md_i32 index; md_undef; md.MDString name; md_i32 bind_space;
              md_i32 bind_register; md_i32 1] ++ extra).

(** ** Stage signature elements, as the spec reads them *)


(** The semantic and the rows of an element. *)
Definition element_semantic (codes : DXIL.Codes) (element : md.Metadata) : DXIL.Semantic :=
  DXIL.to_Semantic codes (default 0 (get_constant_metadata element 3)).

Definition element_rows (element : md.Metadata) : Z :=
  default 0 (get_constant_metadata element 6).

(** The spec's rule for [User] elements: "assign next free Location, advance
    by rows".  The counter is a 32-bit unsigned; elements with another
    semantic leave it alone. *)
Definition advance_location (codes : DXIL.Codes) (location : Z) (element : md.Metadata) : Z :=
  if decide (element_semantic codes element = DXIL.User)
  then wrap32 (location + element_rows element)
  else location.



(** A signature element for concrete runs. *)
Definition signature_element (element_id : Z) (name : string)
    (component_type semantic rows cols start_row : Z) : md.Metadata :=
  md.MDNode [md_i32 element_id; md.MDString name; md_i32 component_type;
             md_i32 semantic; md.Null; md_i32 0; md_i32 rows; md_i32 cols;
             md_i32 start_row; md_i32 0].


(** The numbering of the DXIL format (DxilConstants.h), for concrete runs.
    The properties are proved for every numbering. *)
Definition dxil_codes : DXIL.Codes :=
  {| DXIL.to_Op := λ code,
       if decide (code = 4) then DXIL.LoadInput
       else if decide (code = 5) then DXIL.StoreOutput
       else if decide (code = 57) then DXIL.CreateHandle
       else if decide (code = 59) then DXIL.CBufferLoadLegacy
       else if decide (code = 60) then DXIL.Sample
       else if decide (code = 61) then DXIL.SampleBias
       else if decide (code = 62) then DXIL.SampleLevel
       else if decide (code = 64) then DXIL.SampleCmp
       else if decide (code = 65) then DXIL.SampleCmpLevelZero
       else DXIL.OtherOp code;
     DXIL.to_ResourceType := λ code,
       if decide (code = 0) then DXIL.SRV
       else if decide (code = 1) then DXIL.UAV
       else if decide (code = 2) then DXIL.CBV
       else if decide (code = 3) then DXIL.Sampler
       else DXIL.OtherResourceType code;
     DXIL.to_ResourceKind := λ code,
       if decide (code = 1) then DXIL.Texture1D
       else if decide (code = 2) then DXIL.Texture2D
       else if decide (code = 3) then DXIL.Texture2DMS
       else if decide (code = 4) then DXIL.Texture3D
       else if decide (code = 5) then DXIL.TextureCube
       else if decide (code = 6) then DXIL.Texture1DArray
       else if decide (code = 7) then DXIL.Texture2DArray
       else if decide (code = 8) then DXIL.Texture2DMSArray
       else if decide (code = 9) then DXIL.TextureCubeArray
       else if decide (code = 10) then DXIL.TypedBuffer
       else if decide (code = 11) then DXIL.RawBuffer
       else if decide (code = 12) then DXIL.StructuredBuffer
       else DXIL.OtherKind code;
     DXIL.to_ComponentType := λ code,
       if decide (code = 1) then DXIL.I1
       else if decide (code = 2) then DXIL.I16
       else if decide (code = 3) then DXIL.U16
       else if decide (code = 4) then DXIL.I32
       else if decide (code = 5) then DXIL.U32
       else if decide (code = 6) then DXIL.I64
       else if decide (code = 7) then DXIL.U64
       else if decide (code = 8) then DXIL.F16
       else if decide (code = 9) then DXIL.F32
       else if decide (code = 10) then DXIL.F64
       else DXIL.OtherComponentType code;
     DXIL.to_Semantic := λ code,
       if decide (code = 0) then DXIL.User
       else if decide (code = 3) then DXIL.Position
       else if decide (code = 16) then DXIL.Target
       else DXIL.OtherSemantic code |}.

(** ** A concrete shader for running the sampling intrinsics

    One [Texture2D] of float at [t0] and one sampler at [s0], both with their
    handles created, as in the spec's scenarios 3 and 4. *)

Definition const_i32 (address : positive) (v : Z) : llvm.Value :=
  {| llvm.address := address; llvm.getType := llvm.IntegerTy 32;
     llvm.classof := llvm.ConstantInt v |}.

Definition const_i1 (address : positive) (v : Z) : llvm.Value :=
  {| llvm.address := address; llvm.getType := llvm.IntegerTy 1;
     llvm.classof := llvm.ConstantInt v |}.

Definition undef_of (address : positive) (type : llvm.type) : llvm.Value :=
  {| llvm.address := address; llvm.getType := type; llvm.classof := llvm.UndefValue |}.

Definition ssa_value (address : positive) (type : llvm.type) : llvm.Value :=
  {| llvm.address := address; llvm.getType := type; llvm.classof := llvm.NonConstant |}.

(** [%dx.types.Handle] is an opaque struct around a pointer. *)
Definition handle_type : llvm.type := llvm.StructTy [llvm.PointerTy (llvm.IntegerTy 8)].

(** [%dx.types.ResRet.f32] *)
Definition resret_f32 : llvm.type :=
  llvm.StructTy [llvm.FloatTy; llvm.FloatTy; llvm.FloatTy; llvm.FloatTy; llvm.IntegerTy 32].

Definition create_handle (address : positive) (resource_class : Z) : llvm.Instruction :=
  {| llvm.result := ssa_value address handle_type;
     llvm.inst_class := llvm.CallInst "dx.op.createHandle";
     llvm.operands := [const_i32 100 57; const_i32 101 resource_class; const_i32 102 0;
                       const_i32 103 0; const_i1 104 0] |}.

Definition texture_handle : llvm.Instruction := create_handle 10 0.
Definition sampler_handle : llvm.Instruction := create_handle 11 3.

(** The state after the resources are declared and both handles created. *)
Definition sampling_setup : option (IRBlock.t * Impl) :=
  (let* _ := emit_srv dxil_codes
               (resource_entry 0 "tex" 0 1 [md_i32 2; md_i32 0; md.MDNode [md_i32 0; md_i32 9]]) in
   let* _ := emit_sampler (resource_entry 0 "samp" 0 2 [md_i32 0]) in
   let* block := emit_create_handle_instruction dxil_codes IRBlock.empty texture_handle in
   emit_create_handle_instruction dxil_codes block sampler_handle) empty_impl.

(** A call of a sampling intrinsic on that texture and sampler: coordinates
    [u], [v] (two more undef), three offsets, and the operands after them. *)
Definition sample_call (address : positive) (name : string) (opcode : Z)
    (offsets rest : list llvm.Value) : llvm.Instruction :=
  {| llvm.result := ssa_value address resret_f32;
     llvm.inst_class := llvm.CallInst name;
     llvm.operands :=
       [const_i32 100 opcode; llvm.result texture_handle; llvm.result sampler_handle;
        ssa_value 20 llvm.FloatTy; ssa_value 21 llvm.FloatTy;
        undef_of 22 llvm.FloatTy; undef_of 22 llvm.FloatTy]
       ++ offsets ++ rest |}.

(** ** Vocabulary for the instruction emitters *)

(** [s'] is reached from [s] by code that only asks the builder for ids and
    fills the value table: the builder went on, cached values stay, the
    handle bindings and the recorded types are the same. *)
Record evolves (s s' : Impl) : Prop := {
  evolves_builder : extends (builder s) (builder s');
  evolves_value_map : ∀ a id, value_map s !! a = Some id → value_map s' !! a = Some id;
  evolves_handle_to_ptr_id : handle_to_ptr_id s' = handle_to_ptr_id s;
  evolves_id_to_type : id_to_type s' = id_to_type s;
}.

(** A value that [get_id_for_value] can lower without a failed cast: an
    integer constant has an integer type, a floating-point constant a
    floating-point type, and a constant of another class is of neither
    integer, float nor double type. *)
Definition lowerable (v : llvm.Value) : bool :=
  match llvm.classof v, llvm.getType v with
  | llvm.ConstantInt _, llvm.IntegerTy _ => true
  | llvm.ConstantInt _, _ => false
  | llvm.ConstantFP _, (llvm.HalfTy | llvm.FloatTy | llvm.DoubleTy) => true
  | llvm.ConstantFP _, _ => false
  | llvm.OtherConstant, (llvm.FloatTy | llvm.DoubleTy | llvm.IntegerTy _) => false
  | _, _ => true
  end.

(** What an offset operand contributes: the literal of an integer constant,
    0 for undef. *)
Definition offset_literal (operand : llvm.Value) : Z :=
  match llvm.classof operand with
  | llvm.ConstantInt apint =>
      to_int32 (llvm.getSExtValue (llvm.getIntegerBitWidth (llvm.getType operand)) apint)
  | _ => 0
  end.

(** Offset operand [i], for [i] below [num_coords], is undef or an integer
    constant. *)
Definition offset_operands_ok (instruction : llvm.Instruction) (num_coords : nat) : Prop :=
  ∀ i, (i < num_coords)%nat →
       ∃ operand, llvm.getOperand instruction (i + 7) = Some operand ∧
                  (llvm.isa_UndefValue operand = true ∨ llvm.isa_ConstantInt operand = true).

(** Some offset operand below [num_coords] is not undef. *)
Definition some_offset_defined (instruction : llvm.Instruction) (num_coords : nat) : Prop :=
  ∃ i operand, (i < num_coords)%nat ∧
               llvm.getOperand instruction (i + 7) = Some operand ∧
               llvm.isa_UndefValue operand = false.

(** What the loop leaves for offset operand [i]. *)
Definition offset_entry_ok (instruction : llvm.Instruction) (i : nat)
    (entry : Id * bool) (s : Impl) : Prop :=
  ∃ operand,
    llvm.getOperand instruction (i + 7) = Some operand ∧
    entry.2 = negb (llvm.isa_UndefValue operand) ∧
    lookup_id (builder s) entry.1 = Some (ConstantSint (offset_literal operand)).

(** Whether the [MinLod] operand applies: the opcode is [Sample] or
    [SampleCmp] and the operand after the offsets (after the dref for
    [SampleCmp]) is not undef. *)
Definition min_lod_defined (opcode : DXIL.Op) (instruction : llvm.Instruction) : bool :=
  bool_decide (opcode = DXIL.Sample ∨ opcode = DXIL.SampleCmp) &&
  match llvm.getOperand instruction
          (if bool_decide (opcode = DXIL.SampleCmp) then 11 else 10) with
  | Some operand => negb (llvm.isa_UndefValue operand)
  | None => false
  end.

(** The argument list of the sample operation, by its parts. *)
Definition sample_argument_list (combined coord dref image_ops aux offset : Z) : list Z :=
  [combined; coord]
  ++ (if nonzero dref then [dref] else [])
  ++ [image_ops]
  ++ (if nonzero (Z.land image_ops
                    (Z.lor spv.ImageOperandsBiasMask spv.ImageOperandsLodMask))
      then [aux] else [])
  ++ (if nonzero (Z.land image_ops spv.ImageOperandsConstOffsetMask)
      then [offset] else [])
  ++ (if nonzero (Z.land image_ops spv.ImageOperandsMinLodMask) then [aux] else []).

(** The floating-point types and their widths. *)
Definition float_width (type : llvm.type) : option Z :=
  match type with
  | llvm.HalfTy => Some 16
  | llvm.FloatTy => Some 32
  | llvm.DoubleTy => Some 64
  | _ => None
  end.

(** Whether offset operand [i] is there and is not undef. *)
Definition offset_defined (instruction : llvm.Instruction) (i : nat) : bool :=
  match llvm.getOperand instruction (i + 7) with
  | Some operand => negb (llvm.isa_UndefValue operand)
  | None => false
  end.

Definition any_offset_defined (instruction : llvm.Instruction) (num_coords : nat) : bool :=
  existsb (offset_defined instruction) (seq 0 num_coords).

(** The image operands mask, by what sets each bit. *)
Definition sample_mask (opcode : DXIL.Op) (instruction : llvm.Instruction)
    (num_coords : nat) : Z :=
  let base := sample_image_ops opcode in
  let with_offset :=
    if any_offset_defined instruction num_coords
    then Z.lor base spv.ImageOperandsConstOffsetMask else base in
  if min_lod_defined opcode instruction
  then Z.lor with_offset spv.ImageOperandsMinLodMask else with_offset.

Definition is_comparison (opcode : DXIL.Op) : bool :=
  bool_decide (opcode = DXIL.SampleCmp ∨ opcode = DXIL.SampleCmpLevelZero).

(** The operands [emit_sample_instruction] reaches for: up to operand 11 for
    [SampleCmp], up to operand 10 otherwise. *)
Definition operand_count (opcode : DXIL.Op) : nat :=
  if bool_decide (opcode = DXIL.SampleCmp) then 12%nat else 11%nat.

(** A call of a sampling intrinsic that the converter can lower, in state
    [s]: the operands are there and lowerable, the offsets are undef or integer
    constants, the image handle is bound to a loaded image whose
    dimensionality takes [num_coords] coordinates, and the result is a struct
    of five members, the first of type [element_type]. *)
Record sample_call_ok (opcode : DXIL.Op) (instruction : llvm.Instruction) (s : Impl)
    (num_coords : nat) (element_type : llvm.type) : Prop := {
  call_operands : (operand_count opcode ≤ length (llvm.operands instruction))%nat;
  call_lowerable :
    Forall (λ v, lowerable v = true) (llvm.result instruction :: llvm.operands instruction);
  call_offsets : offset_operands_ok instruction num_coords;
  call_image :
    ∃ image_handle image_type sampled_type dim depth arrayed ms sampled format,
      llvm.getOperand instruction 1 = Some image_handle ∧
      id_to_type s !! map_at (handle_to_ptr_id s) (llvm.address image_handle)
      = Some image_type ∧
      lookup_id (builder s) image_type
      = Some (TypeImage sampled_type dim depth arrayed ms sampled format) ∧
      num_coords_of_dim dim = Some num_coords;
  call_result :
    ∃ elements, llvm.getType (llvm.result instruction) = llvm.StructTy elements ∧
                length elements = 5%nat ∧ elements !! 0%nat = Some element_type;
  call_builder : builder_wf (builder s);
}.

(** The coordinate argument [coord] of a sample operation: the ids
    [coords] of operands 3, 4, ... in the value table, one for each of the
    [num_coords] coordinates of the image's dimensionality and one more for an
    arrayed image; it is that id when there is one, and else the id of an
    [OpCompositeConstruct] among [before] that makes a vector of 32-bit floats
    of them. *)
Definition sample_coordinate (instruction : llvm.Instruction) (num_coords : nat)
    (before : list Operation.t) (coord : Id) (s' : Impl) : Prop :=
  ∃ (coords : list Id),
    (∃ image_handle image_type sampled_type dim depth arrayed ms sampled format,
       llvm.getOperand instruction 1 = Some image_handle ∧
       id_to_type s' !! map_at (handle_to_ptr_id s') (llvm.address image_handle)
       = Some image_type ∧
       lookup_id (builder s') image_type
       = Some (TypeImage sampled_type dim depth arrayed ms sampled format) ∧
       length coords = if arrayed then S num_coords else num_coords) ∧
    (∀ k id, coords !! k = Some id →
             ∃ operand, llvm.getOperand instruction (k + 3) = Some operand ∧
                        value_map s' !! llvm.address operand = Some id) ∧
    (coords = [coord] ∨
     ∃ o float_type,
       o ∈ before ∧ Operation.op o = spv.OpCompositeConstruct ∧
       Operation.id o = coord ∧ Operation.arguments o = coords ∧
       lookup_id (builder s') (Operation.type_id o)
       = Some (TypeVector float_type (Z.of_nat (length coords))) ∧
       lookup_id (builder s') float_type = Some (TypeFloat 32)).

(** The offset argument [offset] of a sample operation: the ids [offsets]
    of the signed constants that the [num_coords] offset operands contribute;
    it is that id when there is one, and else the id of an
    [OpCompositeConstruct] among [before] that makes a vector of signed 32-bit
    integers of them. *)
Definition sample_constant_offset (instruction : llvm.Instruction) (num_coords : nat)
    (before : list Operation.t) (offset : Id) (s' : Impl) : Prop :=
  ∃ (offsets : list Id),
    length offsets = num_coords ∧
    (∀ k id, offsets !! k = Some id →
             ∃ operand, llvm.getOperand instruction (k + 7) = Some operand ∧
                        lookup_id (builder s') id
                        = Some (ConstantSint (offset_literal operand))) ∧
    (offsets = [offset] ∨
     ∃ o int_type,
       o ∈ before ∧ Operation.op o = spv.OpCompositeConstruct ∧
       Operation.id o = offset ∧ Operation.arguments o = offsets ∧
       lookup_id (builder s') (Operation.type_id o)
       = Some (TypeVector int_type (Z.of_nat (length offsets))) ∧
       lookup_id (builder s') int_type = Some (TypeInt 32 true)).

(** What [emit_sample_instruction] leaves in the block and the state: the
    operations it appended are the sampled image and some vectors ([before]),
    the sample operation, and for a comparison the splat. *)
Definition sample_lowered (opcode : DXIL.Op) (instruction : llvm.Instruction)
    (num_coords : nat) (element_type : llvm.type) (block : IRBlock.t)
    (s' : Impl) (block' : IRBlock.t) : Prop :=
  ∃ (before : list Operation.t) (sample : Operation.t) (splat : list Operation.t)
    (combined coord dref aux offset : Z) (offsets : list Id),
    IRBlock.operations block'
    = IRBlock.operations block ++ before ++ [sample] ++ splat ∧
    (∃ o vectors, before = o :: vectors ∧
                  Operation.op o = spv.OpSampledImage ∧ Operation.id o = combined ∧
                  Forall (λ v, Operation.op v = spv.OpCompositeConstruct) vectors) ∧
    Operation.op sample = sample_op opcode ∧
    Operation.arguments sample
    = sample_argument_list combined coord dref
        (sample_mask opcode instruction num_coords) aux offset ∧
    (opcode ≠ DXIL.SampleCmp → dref = 0) ∧
    (opcode = DXIL.SampleCmpLevelZero →
     lookup_id (builder s') aux = Some (ConstantFloat 0)) ∧
    length offsets = num_coords ∧
    (∀ k id, offsets !! k = Some id →
             ∃ operand, llvm.getOperand instruction (k + 7) = Some operand ∧
                        lookup_id (builder s') id
                        = Some (ConstantSint (offset_literal operand))) ∧
    (any_offset_defined instruction num_coords = true →
     offsets = [offset] ∨
     ∃ o, o ∈ before ∧ Operation.op o = spv.OpCompositeConstruct ∧
          Operation.id o = offset ∧ Operation.arguments o = offsets ∧
          ∃ int_type,
            lookup_id (builder s') (Operation.type_id o)
            = Some (TypeVector int_type (Z.of_nat (length offsets))) ∧
            lookup_id (builder s') int_type = Some (TypeInt 32 true)) ∧
    value_map s' !! llvm.address (llvm.result instruction)
    = Some (if is_comparison opcode
            then default 0 (Operation.id <$> head splat)
            else Operation.id sample) ∧
    (is_comparison opcode = true →
     Operation.id sample ≠ 0 ∧
     (∀ width, float_width element_type = Some width →
               lookup_id (builder s') (Operation.type_id sample)
               = Some (TypeFloat width)) ∧
     ∃ id type_id float_type,
       splat = [{| Operation.op := spv.OpCompositeConstruct; Operation.id := id;
                   Operation.type_id := type_id;
                   Operation.arguments :=
                     [Operation.id sample; Operation.id sample;
                      Operation.id sample; Operation.id sample] |}] ∧
       lookup_id (builder s') type_id = Some (TypeVector float_type 4) ∧
       lookup_id (builder s') float_type = Some (TypeFloat 32)) ∧
    (is_comparison opcode = false →
     splat = [] ∧
     ∃ component, lookup_id (builder s') (Operation.type_id sample)
                  = Some (TypeVector component 4)) ∧
    sample_coordinate instruction num_coords before coord s'.

(** The block and the state of [sampling_setup]. *)
Definition sampling_block : IRBlock.t := default IRBlock.empty (fst <$> sampling_setup).
Definition sampling_state : Impl := default empty_impl (snd <$> sampling_setup).

(** [dx.op.sample.f32] on the texture with offsets [(0, 0)], the third offset
    and the clamp undef. *)
Definition zero_offset_sample : llvm.Instruction :=
  sample_call 40 "dx.op.sample.f32" 60
    [const_i32 105 0; const_i32 105 0; undef_of 23 (llvm.IntegerTy 32)]
    [undef_of 22 llvm.FloatTy].

(** [dx.op.sampleCmpLevelZero.f32] with undef offsets and a compare value. *)
Definition cmp_level_zero_sample : llvm.Instruction :=
  sample_call 41 "dx.op.sampleCmpLevelZero.f32" 65
    [undef_of 23 (llvm.IntegerTy 32); undef_of 23 (llvm.IntegerTy 32);
     undef_of 23 (llvm.IntegerTy 32)]
    [ssa_value 24 llvm.FloatTy].

(** [dx.op.sampleCmpLevelZero.f32] with the offsets [(1, -1)] and a compare
    value. *)
Definition cmp_level_zero_offset_sample : llvm.Instruction :=
  sample_call 42 "dx.op.sampleCmpLevelZero.f32" 65
    [const_i32 106 1; const_i32 107 (-1); undef_of 23 (llvm.IntegerTy 32)]
    [ssa_value 24 llvm.FloatTy].

(** ** Vocabulary for the traversal of the control flow graph *)

(** The blocks that the entry block reaches along successor edges. *)
Inductive reachable (function : ir.Function) : llvm.BasicBlock → Prop :=
| reachable_entry : reachable function (ir.getEntryBlock function)
| reachable_succ b data succ :
    reachable function b →
    ir.blocks function !! b = Some data →
    succ ∈ ir.successors (ir.getTerminator data) →
    reachable function succ.

(** The entry block and every successor of a block of the function are
    blocks of the function. *)
Definition function_closed (function : ir.Function) : Prop :=
  is_Some (ir.blocks function !! ir.getEntryBlock function) ∧
  map_Forall
    (λ _ data, Forall (λ succ, is_Some (ir.blocks function !! succ))
                 (ir.successors (ir.getTerminator data)))
    (ir.blocks function).

(** [bb_map[bb]->node], where there is one. *)
Definition block_node (s : Impl) (b : llvm.BasicBlock) : option CFGNodePtr :=
  m ← bb_map s !! b; meta ← metas s !! m; node meta.

(** The state of the traversal: [handled b] are the successors of [b] whose
    edges are in the pool already.  Metas and nodes are created in pairs, so
    a meta and its node have the same position. *)
Record registered (function : ir.Function)
    (handled : llvm.BasicBlock → list llvm.BasicBlock)
    (pool : list CFGNode.t) (s : Impl) : Prop := {
  reg_metas : length (metas s) = length pool;
  reg_meta : ∀ b m, bb_map s !! b = Some m →
                    metas s !! m = Some {| bb := b; node := Some m |};
  reg_owner : ∀ m meta, metas s !! m = Some meta → bb_map s !! bb meta = Some m;
  reg_reachable : ∀ b m, bb_map s !! b = Some m → reachable function b;
  reg_handled : ∀ b succ, succ ∈ handled b → is_Some (bb_map s !! succ);
  reg_fresh : ∀ b, bb_map s !! b = None → handled b = [];
  reg_edges :
    ∀ b m, bb_map s !! b = Some m →
           ∃ node, pool !! m = Some node ∧
                   ∀ n, n ∈ CFGNode.successors node ↔
                        ∃ succ, succ ∈ handled b ∧ bb_map s !! succ = Some n;
  reg_entry :
    ∃ data node,
      ir.blocks function !! ir.getEntryBlock function = Some data ∧
      bb_map s !! ir.getEntryBlock function = Some 0%nat ∧
      pool !! 0%nat = Some node ∧
      CFGNode.name node = ir.getName data +:+ ".entry";
}.

(** What a step of the traversal adds: the blocks [new] that were not in
    [bb_map] are in it now and at the end of [to_process]. *)
Definition discovers (t : Traversal) (s : Impl) (t' : Traversal) (s' : Impl) : Prop :=
  ∃ new, to_process t' = to_process t ++ new ∧ NoDup new ∧
         (∀ b, b ∈ new → bb_map s !! b = None) ∧
         (∀ b, is_Some (bb_map s' !! b) ↔ is_Some (bb_map s !! b) ∨ b ∈ new).

(** Between two blocks of the work list: the blocks of [visited] have all
    their edges in the pool, the others none. *)
Definition traversed (function : ir.Function) (visited : list llvm.BasicBlock)
    (t : Traversal) (s : Impl) : Prop :=
  ∃ handled,
    registered function handled (pool t) s ∧
    visit_order t = visited ∧
    (∀ b data, b ∈ visited → ir.blocks function !! b = Some data →
               handled b = ir.successors (ir.getTerminator data)) ∧
    (∀ b, b ∉ visited → handled b = []).

(** A function with a branch, a loop and a block that nothing reaches:
    [1 -> 2, 3], [2 -> 4], [3 -> 4], [4 -> 2, 5], [5] returns, [6 -> 4]. *)
Definition branching_function : ir.Function :=
  let condition := ssa_value 30 (llvm.IntegerTy 1) in
  {| ir.getEntryBlock := 1%positive;
     ir.blocks :=
       list_to_map
         [(1%positive, {| ir.getName := "bb"; ir.instructions := [];
                          ir.getTerminator :=
                            ir.BranchInst (Some condition) [2%positive; 3%positive] |});
          (2%positive, {| ir.getName := "then"; ir.instructions := [];
                          ir.getTerminator := ir.BranchInst None [4%positive] |});
          (3%positive, {| ir.getName := "else"; ir.instructions := [];
                          ir.getTerminator := ir.BranchInst None [4%positive] |});
          (4%positive, {| ir.getName := "loop"; ir.instructions := [];
                          ir.getTerminator :=
                            ir.BranchInst (Some condition) [2%positive; 5%positive] |});
          (5%positive, {| ir.getName := "exit"; ir.instructions := [];
                          ir.getTerminator := ir.ReturnInst None |});
          (6%positive, {| ir.getName := "dead"; ir.instructions := [];
                          ir.getTerminator := ir.BranchInst None [4%positive] |})] |}.

(** ** Vocabulary for the typing of operations *)

(** [post m Q s]: if [m] returns from [s], the result and the state after it
    satisfy [Q]. *)
Definition post {A} (m : M A) (Q : A → Impl → Prop) (s : Impl) : Prop :=
  ∀ a s', m s = Some (a, s') → Q a s'.

(** What the emitters of instructions leave alone: the builder goes on and
    stays well formed, the SRV and sampler tables stay. *)
Record grows (s s' : Impl) : Prop := {
  grows_builder : extends (builder s) (builder s');
  grows_wf : builder_wf (builder s) → builder_wf (builder s');
  grows_srv_index_to_id : srv_index_to_id s' = srv_index_to_id s;
  grows_sampler_index_to_id : sampler_index_to_id s' = sampler_index_to_id s;
}.

Definition growing {A} (m : M A) : Prop := ∀ s, post m (λ _ s', grows s s') s.

(** The kinds of LLVM type that [get_type_id] has a case for. *)
Definition type_supported (type : llvm.type) : bool :=
  match type with
  | llvm.HalfTy | llvm.FloatTy | llvm.DoubleTy | llvm.IntegerTy _
  | llvm.PointerTy _ | llvm.ArrayTy _ _ => true
  | _ => false
  end.

(** An operation with a result id has a result type id. *)
Definition operation_typed (o : Operation.t) : Prop :=
  Operation.id o ≠ 0 → Operation.type_id o ≠ 0.

(** The LLVM types that [emit_instruction] asks [get_type_id] for and puts
    into an operation as they come back: the type of the instruction, and for
    the two comparison samples the first member of the result struct. *)
Definition result_types (codes : DXIL.Codes) (instruction : llvm.Instruction)
    : list llvm.type :=
  let type := llvm.getType (llvm.result instruction) in
  match llvm.inst_class instruction with
  | llvm.CallInst called_function_name =>
      if String.prefix "dx.op" called_function_name then
        match DXIL.to_Op codes <$> get_constant_operand instruction 0 with
        | Some DXIL.LoadInput => [type]
        | Some (DXIL.SampleCmp | DXIL.SampleCmpLevelZero) =>
            option_list (struct_element_type type 0)
        | _ => []
        end
      else []
  | llvm.BinaryOperator _ | llvm.UnaryOperator _ | llvm.CastInst _
  | llvm.GetElementPtrInst _ | llvm.LoadInst | llvm.CmpInst _
  | llvm.ExtractValueInst _ | llvm.SelectInst => [type]
  | _ => []
  end.

(** The variables in the SRV and sampler tables are declared with a type. *)
Definition resources_typed (s : Impl) : Prop :=
  ∀ id, id ∈ srv_index_to_id s ++ sampler_index_to_id s →
        id = 0 ∨
        ∃ storage type name,
          lookup_id (builder s) id = Some (Var storage type name) ∧ type ≠ 0.

(** What an emitter appended to [block] is typed. *)
Definition appends_typed (block block' : IRBlock.t) : Prop :=
  ∃ new, IRBlock.operations block' = IRBlock.operations block ++ new ∧
         Forall operation_typed new.

(** The state in which instructions are lowered. *)
Definition typed_state (s : Impl) : Prop :=
  builder_wf (builder s) ∧ resources_typed s.

(** The operations of a node are typed. *)
Definition node_typed (node : CFGNode.t) : Prop :=
  Forall operation_typed (IRBlock.operations (CFGNode.ir node)).

(** Every instruction of the module has result types that [get_type_id]
    supports. *)
Definition module_types_supported (codes : DXIL.Codes) (module : ir.Module) : Prop :=
  map_Forall
    (λ _ function,
       map_Forall
         (λ _ data,
            Forall (λ instruction,
                      Forall (λ type, type_supported type = true)
                        (result_types codes instruction))
              (ir.instructions data))
         (ir.blocks function))
    (ir.getFunction module).

(** A pixel shader whose only block is [%r = bitcast float %x to type; ret]. *)
Definition cast_module (type : llvm.type) : ir.Module :=
  {| ir.getNamedMetadata :=
       {[ "dx.shaderModel" := [md.MDNode [md.MDString "ps"; md_i32 6; md_i32 0]];
          "dx.entryPoints" :=
            [md.MDNode [md.Null; md.MDString "main";
                        md.MDNode [md.MDNode []; md.MDNode []]]] ]};
     ir.getFunction :=
       {[ "main" :=
            {| ir.getEntryBlock := 1%positive;
               ir.blocks :=
                 {[ 1%positive :=
                      {| ir.getName := "entry";
                         ir.instructions :=
                           [{| llvm.result := ssa_value 50 type;
                               llvm.inst_class := llvm.CastInst llvm.BitCast;
                               llvm.operands := [ssa_value 51 llvm.FloatTy] |}];
                         ir.getTerminator := ir.ReturnInst None |} ]} |} ]} |}.

(** ** Between two queries of a value *)

(** What the converter runs between two calls of [get_id_for_value] for one
    value: calls for other values, the emitters of the instructions and of
    the terminators, which make such calls for their operands, and the parts
    of [convert_entry_point] that come before the blocks are emitted. *)
Inductive Call :=
| QueryValue (value : llvm.Value) (forced_width : Z)
| EmitInstruction (block : IRBlock.t) (instruction : llvm.Instruction)
| EmitTerminator (terminator : ir.TerminatorInst)
| EmitResources (module : ir.Module)
| EmitStageInputVariables (module : ir.Module)
| EmitStageOutputVariables (module : ir.Module)
| DiscoverBlocks (function : ir.Function).

Definition run_call (codes : DXIL.Codes) (call : Call) : M unit :=
  match call with
  | QueryValue value forced_width =>
      let* _ := get_id_for_value value forced_width in ret tt
  | EmitInstruction block instruction =>
      let* _ := emit_instruction codes block instruction in ret tt
  | EmitTerminator terminator =>
      let* _ := emit_terminator terminator in ret tt
  | EmitResources module => emit_resources codes module
  | EmitStageInputVariables module => emit_stage_input_variables codes module
  | EmitStageOutputVariables module => emit_stage_output_variables codes module
  | DiscoverBlocks function =>
      let* _ := discover_blocks function in ret tt
  end.

Definition run_calls (codes : DXIL.Codes) (calls : list Call) : M unit :=
  for_each calls (run_call codes).

(** [call] lowers an alloca whose result is the value at [address]. *)
Definition allocates (address : positive) (call : Call) : Prop :=
  match call with
  | EmitInstruction _ instruction =>
      (∃ name, llvm.inst_class instruction = llvm.AllocaInst name) ∧
      llvm.address (llvm.result instruction) = address
  | _ => False
  end.

(** [m] keeps the property [I] of the state. *)
Definition maintains {A} (I : Impl → Prop) (m : M A) : Prop :=
  ∀ s, I s → post m (λ _ s', I s') s.

(** The value at [address] has the id [id] in the value table. *)
Definition cached (address : positive) (id : Id) (s : Impl) : Prop :=
  value_map s !! address = Some id.

(** [%x = alloca float], and a phi that refers to [%x] ahead of it. *)
Definition float_alloca : llvm.Instruction :=
  {| llvm.result := ssa_value 30 (llvm.PointerTy llvm.FloatTy);
     llvm.inst_class := llvm.AllocaInst "x";
     llvm.operands := [const_i32 31 1] |}.

(** * Vocabulary of further properties *)

(** [id] stands for the LLVM type in builder [b]: the declaration under it
    is the type's, part by part; a type of a kind without a case stands as
    0, also inside a pointer or an array. *)
Fixpoint denotes (b : Builder) (type : llvm.type) (id : Id) : Prop :=
  match type with
  | llvm.HalfTy => lookup_id b id = Some (TypeFloat 16)
  | llvm.FloatTy => lookup_id b id = Some (TypeFloat 32)
  | llvm.DoubleTy => lookup_id b id = Some (TypeFloat 64)
  | llvm.IntegerTy width =>
      lookup_id b id = Some (if decide (width = 1) then TypeBool else TypeInt width false)
  | llvm.PointerTy element =>
      ∃ element_id,
        lookup_id b id = Some (TypePointer spv.StorageClassFunction element_id) ∧
        denotes b element element_id
  | llvm.ArrayTy element num_elements =>
      ∃ element_id size_id,
        lookup_id b id = Some (TypeArray element_id size_id 0) ∧
        lookup_id b size_id = Some (ConstantUint (wrap32 num_elements)) ∧
        denotes b element element_id
  | _ => id = 0
  end.

(** The scalar type of a component type of the signature and resource
    metadata. *)
Definition component_declaration (element_type : DXIL.ComponentType)
    : option Declaration :=
  match element_type with
  | DXIL.I1 => Some TypeBool
  | DXIL.I16 => Some (TypeInt 16 true)
  | DXIL.U16 => Some (TypeInt 16 false)
  | DXIL.I32 => Some (TypeInt 32 true)
  | DXIL.U32 => Some (TypeInt 32 false)
  | DXIL.I64 => Some (TypeInt 64 true)
  | DXIL.U64 => Some (TypeInt 64 false)
  | DXIL.F16 => Some (TypeFloat 16)
  | DXIL.F32 => Some (TypeFloat 32)
  | DXIL.F64 => Some (TypeFloat 64)
  | DXIL.OtherComponentType _ => None
  end.

(** What the lowering of a sampler entry leaves behind. *)
Definition sampler_lowered (index bind_space bind_register : Z) (name : string)
    (s s' : Impl) : Prop :=
  ∃ type_id var_id : Z,
    extends (builder s) (builder s') ∧
    lookup_id (builder s') type_id = Some TypeSampler ∧
    lookup_id (builder s') var_id
      = Some (Var spv.StorageClassUniformConstant type_id (name_or_null name)) ∧
    lookup_id (builder s) var_id = None ∧
    (var_id, spv.DecorationDescriptorSet, Some bind_space) ∈ decorations (builder s') ∧
    (var_id, spv.DecorationBinding, Some bind_register) ∈ decorations (builder s') ∧
    load_index index (sampler_index_to_id s') = Some var_id ∧
    srv_index_to_id s' = srv_index_to_id s ∧
    cbv_index_to_id s' = cbv_index_to_id s.

(** What the lowering of an SRV entry of kind [kind] leaves behind; the
    sampled type is [sampled]. *)
Definition srv_lowered (index bind_space bind_register : Z) (name : string)
    (kind : DXIL.ResourceKind) (sampled : Id) (s s' : Impl) : Prop :=
  ∃ type_id var_id : Z,
    extends (builder s) (builder s') ∧
    lookup_id (builder s') type_id
      = Some (TypeImage sampled (image_dimension_from_resource_kind kind) false
                (image_dimension_is_arrayed kind) (image_dimension_is_multisampled kind)
                1 spv.ImageFormatUnknown) ∧
    lookup_id (builder s') var_id
      = Some (Var spv.StorageClassUniformConstant type_id (name_or_null name)) ∧
    lookup_id (builder s) var_id = None ∧
    (var_id, spv.DecorationDescriptorSet, Some bind_space) ∈ decorations (builder s') ∧
    (var_id, spv.DecorationBinding, Some bind_register) ∈ decorations (builder s') ∧
    load_index index (srv_index_to_id s') = Some var_id ∧
    sampler_index_to_id s' = sampler_index_to_id s ∧
    cbv_index_to_id s' = cbv_index_to_id s.

(** The ids in the value table were handed out by the module: they are
    below its counter. *)
Definition ids_below (s : Impl) : Prop :=
  ∀ a id, value_map s !! a = Some id → id < Z.pos (unique_id (builder s)).

(** [block'] is [block] with at most [n] operations added at the end; the
    phis and the terminator are those of [block]. *)
Definition adds (n : nat) (block block' : IRBlock.t) : Prop :=
  ∃ new, IRBlock.operations block' = IRBlock.operations block ++ new ∧
         (length new ≤ n)%nat ∧
         IRBlock.phi block' = IRBlock.phi block ∧
         IRBlock.terminator block' = IRBlock.terminator block.

(** [id] is the type of vectors of four components of the scalar type
    [scalar]. *)
Definition vector4_of (b : Builder) (scalar : Declaration) (id : Id) : Prop :=
  ∃ component, lookup_id b id = Some (TypeVector component 4) ∧
               lookup_id b component = Some scalar.

(** What [dx.op.cbufferLoadLegacy] appends for a block variable [ptr_id] and
    a row [index_id]: the access chain to member 0, row [index_id], the load
    of the row as four 32-bit floats, and, when the first member of the result
    is not a float, the bitcast of what was loaded to four 32-bit unsigned
    integers.  [result_id] is the id of the last of them. *)
Definition cbuffer_load_lowered (b : Builder) (ptr_id index_id result_id : Id)
    (bitcast : bool) (new : list Operation.t) : Prop :=
  ∃ access_chain_id load_id pointer_type row_type zero loaded_type : Id,
    vector4_of b (TypeFloat 32) row_type ∧
    lookup_id b pointer_type = Some (TypePointer spv.StorageClassUniform row_type) ∧
    lookup_id b zero = Some (ConstantUint 0) ∧
    vector4_of b (TypeFloat 32) loaded_type ∧
    access_chain_id ≠ 0 ∧
    let access :=
      {| Operation.op := spv.OpInBoundsAccessChain; Operation.id := access_chain_id;
         Operation.type_id := pointer_type;
         Operation.arguments := [ptr_id; zero; index_id] |} in
    let load :=
      {| Operation.op := spv.OpLoad; Operation.id := load_id;
         Operation.type_id := loaded_type;
         Operation.arguments := [access_chain_id] |} in
    if bitcast then
      ∃ cast_type : Id,
        vector4_of b (TypeInt 32 false) cast_type ∧
        load_id ≠ 0 ∧
        new = [access; load;
               {| Operation.op := spv.OpBitcast; Operation.id := result_id;
                  Operation.type_id := cast_type;
                  Operation.arguments := [load_id] |}]
    else load_id = result_id ∧ new = [access; load].

(** A value to which [get_id_for_value] gives an id other than 0: one that
    has such an id in the value table, or is not in the table and is not a
    constant without a case in [get_id_for_constant]. *)
Definition gets_id (value : llvm.Value) (forced_width : Z) (s : Impl) : Prop :=
  match value_map s !! llvm.address value with
  | Some id => id ≠ 0
  | None =>
      match llvm.classof value, llvm.getType value with
      | (llvm.NonConstant | llvm.UndefValue), _ => True
      | llvm.ConstantInt _, llvm.IntegerTy width =>
          effective_width width forced_width = 32
      | llvm.ConstantFP _, (llvm.FloatTy | llvm.DoubleTy) => True
      | _, _ => False
      end
  end.

(** [s'] is reached from [s] by code that fills the value table and asks
    the builder for ids: the state evolves, the builder stays well formed, and
    the blocks stay registered as they are. *)
Record settles (s s' : Impl) : Prop := {
  settles_evolves : evolves s s';
  settles_wf : builder_wf (builder s) → builder_wf (builder s');
  settles_bb_map : bb_map s' = bb_map s;
  settles_metas : metas s' = metas s;
}.

(** The incoming value that [emit_phi_instruction] records for the block
    [bb] and the id [id]. *)
Definition incoming_from (s : Impl) (bb : llvm.BasicBlock) (id : Id) : IncomingValue.t :=
  {| IncomingValue.block := block_node s bb; IncomingValue.id := id |}.

(** The case that [emit_terminator] records for a case of a switch. *)
Definition switch_case (s : Impl) (case : Z * llvm.BasicBlock) : Terminator.Case :=
  {| Terminator.node := block_node s case.2;
     Terminator.value := wrap32 (llvm.getZExtValue case.1) |}.

(** What a terminator is lowered to, with [conditional_id] and [return_id]
    the ids of its condition and of its return value. *)
Definition lowered_terminator (s : Impl) (terminator : ir.TerminatorInst)
    (conditional_id return_id : Id) : Terminator.t :=
  match terminator with
  | ir.BranchInst (Some _) successors =>
      {| Terminator.type := Terminator.Condition;
         Terminator.conditional_id := conditional_id;
         Terminator.direct_block := None;
         Terminator.true_block := successors !! 0%nat ≫= block_node s;
         Terminator.false_block := successors !! 1%nat ≫= block_node s;
         Terminator.default_node := None; Terminator.cases := [];
         Terminator.return_value := 0 |}
  | ir.BranchInst None successors =>
      {| Terminator.type := Terminator.Branch; Terminator.conditional_id := 0;
         Terminator.direct_block := successors !! 0%nat ≫= block_node s;
         Terminator.true_block := None; Terminator.false_block := None;
         Terminator.default_node := None; Terminator.cases := [];
         Terminator.return_value := 0 |}
  | ir.SwitchInst _ default_dest cases =>
      {| Terminator.type := Terminator.Switch;
         Terminator.conditional_id := conditional_id;
         Terminator.direct_block := None;
         Terminator.true_block := None; Terminator.false_block := None;
         Terminator.default_node := block_node s default_dest;
         Terminator.cases := switch_case s <$> cases;
         Terminator.return_value := 0 |}
  | ir.ReturnInst _ =>
      {| Terminator.type := Terminator.Return; Terminator.conditional_id := 0;
         Terminator.direct_block := None;
         Terminator.true_block := None; Terminator.false_block := None;
         Terminator.default_node := None; Terminator.cases := [];
         Terminator.return_value := return_id |}
  | ir.UnreachableInst =>
      {| Terminator.type := Terminator.Unreachable; Terminator.conditional_id := 0;
         Terminator.direct_block := None;
         Terminator.true_block := None; Terminator.false_block := None;
         Terminator.default_node := None; Terminator.cases := [];
         Terminator.return_value := 0 |}
  | ir.OtherTerminator _ => Terminator.empty
  end.

(** The values that a terminator reads, and what [emit_terminator] asserts
    of its successors. *)
Definition terminator_condition (terminator : ir.TerminatorInst) : option llvm.Value :=
  match terminator with
  | ir.BranchInst condition _ => condition
  | ir.SwitchInst condition _ _ => Some condition
  | _ => None
  end.

Definition terminator_return_value (terminator : ir.TerminatorInst) : option llvm.Value :=
  match terminator with
  | ir.ReturnInst return_value => return_value
  | _ => None
  end.

Definition terminator_well_formed (terminator : ir.TerminatorInst) : Prop :=
  match terminator with
  | ir.BranchInst (Some _) successors => length successors = 2%nat
  | ir.BranchInst None successors => length successors = 1%nat
  | _ => True
  end.

(** [m] leaves the part [field] of the state as it was. *)
Definition keeps {A B} (field : Impl → B) (m : M A) : Prop :=
  ∀ s, post m (λ _ s', field s' = field s) s.

(** What the emitters of instructions do not write: the registered blocks,
    the resource tables, the interface and the stage variables. *)
Definition outside_instructions (s : Impl) :=
  (bb_map s, metas s, srv_index_to_id s, uav_index_to_id s, cbv_index_to_id s,
   sampler_index_to_id s, entry_point s, input_elements_ids s, output_elements_ids s).

(** ** Concrete states and modules *)

(** The state after the 32-bit constant 42 has been lowered: it is declared
    with its type, and cached in the value table. *)
Definition constant_state : Impl :=
  default empty_impl (snd <$> get_id_for_value (const_i32 3 42) 0 empty_impl).

(** The module of [cast_module] with a resource list: no SRV, one UAV, no
    constant buffer and one sampler. *)
Definition uav_module : ir.Module :=
  {| ir.getNamedMetadata :=
       <[ "dx.resources" :=
            [md.MDNode [md.Null;
                        md.MDNode [resource_entry 0 "output" 0 1 []];
                        md.Null;
                        md.MDNode [resource_entry 0 "sampler" 0 2 []]]] ]>
         (ir.getNamedMetadata (cast_module (llvm.IntegerTy 32)));
     ir.getFunction := ir.getFunction (cast_module (llvm.IntegerTy 32)) |}.

(** A state whose UAV table has two entries. *)
Definition uav_state : Impl :=
  {| builder := empty_builder; entry_point := []; metas := []; bb_map := ∅;
     value_map := ∅; srv_index_to_id := []; uav_index_to_id := [5; 6];
     cbv_index_to_id := []; sampler_index_to_id := []; handle_to_ptr_id := ∅;
     id_to_type := ∅; input_elements_ids := ∅; output_elements_ids := ∅ |}.

(** * Part II: properties *)

(** ** The effects *)

Lemma bind_Some {A B} (m : M A) (k : A → M B) s r :
  bind m k s = Some r ↔ ∃ a s', m s = Some (a, s') ∧ k a s' = Some r.
Proof.
  unfold bind. destruct (m s) as [[a s']|]; split.
  - intros H. by exists a, s'.
  - by intros (? & ? & [= <- <-] & H).
  - done.
  - by intros (? & ? & ? & _).
Qed.

Lemma build_Some f s id s' :
  build f s = Some (id, s') ↔
  id = (f (builder s)).1 ∧ s' = set_builder (f (builder s)).2 s.
Proof. unfold build. simpl. split; [by intros [= <- <-]|by intros [-> ->]]. Qed.

Lemma ret_Some {A} (a b : A) s s' : ret a s = Some (b, s') ↔ b = a ∧ s' = s.
Proof. unfold ret. split; [by intros [= <- <-]|by intros [-> ->]]. Qed.

Lemma get_Some {A} (field : Impl → A) s a s' :
  get field s = Some (a, s') ↔ a = field s ∧ s' = s.
Proof. unfold get. split; [by intros [= <- <-]|by intros [-> ->]]. Qed.

Lemma modify_Some f s u s' : modify f s = Some (u, s') ↔ s' = f s.
Proof. unfold modify. destruct u. split; [by intros [= <-]|by intros ->]. Qed.

Lemma decorate_Some f s u s' :
  decorate f s = Some (u, s') ↔ s' = set_builder (f (builder s)) s.
Proof. unfold decorate. by rewrite modify_Some. Qed.

Lemma must_Some {A} (o : option A) s a s' : must o s = Some (a, s') ↔ o = Some a ∧ s' = s.
Proof.
  destruct o; simpl; unfold ret, fail.
  - split; [by intros [= <- <-]|by intros [[= ->] ->]].
  - split; [done|by intros []].
Qed.

Lemma assert_Some c s u s' : assert c s = Some (u, s') ↔ c = true ∧ s' = s.
Proof.
  destruct c, u; simpl; unfold ret, fail.
  - split; [by intros [= <-]|by intros [_ ->]].
  - split; [done|by intros []].
Qed.

Lemma query_Some {A} (f : Builder → option A) s a s' :
  query f s = Some (a, s') ↔ f (builder s) = Some a ∧ s' = s.
Proof.
  unfold query. destruct (f (builder s)).
  - split; [by intros [= <- <-]|by intros [[= ->] ->]].
  - split; [done|by intros []].
Qed.

Lemma fail_Some {A} s (r : A * Impl) : fail s = Some r ↔ False.
Proof. done. Qed.

(** Take a successful run apart, one step at a time. *)
Ltac mstep :=
  match goal with
  | H : bind _ _ _ = Some _ |- _ => apply bind_Some in H as (? & ? & ? & H)
  | H : ret _ _ = Some (_, _) |- _ => apply ret_Some in H as [? ?]
  | H : get _ _ = Some (_, _) |- _ => apply get_Some in H as [? ?]
  | H : modify _ _ = Some (_, _) |- _ => apply modify_Some in H
  | H : decorate _ _ = Some (_, _) |- _ => apply decorate_Some in H
  | H : must _ _ = Some (_, _) |- _ => apply must_Some in H as [? ?]
  | H : assert _ _ = Some (_, _) |- _ => apply assert_Some in H as [? ?]
  | H : query _ _ = Some (_, _) |- _ => apply query_Some in H as [? ?]
  | H : build _ _ = Some (_, _) |- _ => apply build_Some in H as [? ?]
  | H : allocate_id _ = Some (_, _) |- _ => apply build_Some in H as [? ?]
  | H : fail _ = Some _ |- _ => by apply fail_Some in H
  end.

Ltac msteps := repeat (mstep; subst).

(** Total correctness of a member function: it returns, and the result and
    the state after it satisfy [Q]. *)
Lemma wp_ret {A} (a : A) Q s : Q a s → wp (ret a) Q s.
Proof. intros H. by exists a, s. Qed.

Lemma wp_bind {A B} (m : M A) (k : A → M B) Q s :
  wp m (λ a s', wp (k a) Q s') s → wp (bind m k) Q s.
Proof.
  intros (a & s' & Hm & b & s'' & Hk & HQ). exists b, s''.
  split; [|done]. apply bind_Some. eauto.
Qed.

Lemma wp_get {A} (field : Impl → A) Q s : Q (field s) s → wp (get field) Q s.
Proof. intros H. by eexists _, _. Qed.

Lemma wp_modify f Q s : Q tt (f s) → wp (modify f) Q s.
Proof. intros H. by eexists _, _. Qed.

Lemma wp_must {A} (a : A) Q s : Q a s → wp (must (Some a)) Q s.
Proof. intros H. by eexists _, _. Qed.

Lemma wp_assert Q s : Q tt s → wp (assert true) Q s.
Proof. intros H. by eexists _, _. Qed.

Lemma wp_build f Q s :
  (∀ id b', f (builder s) = (id, b') → Q id (set_builder b' s)) → wp (build f) Q s.
Proof.
  intros H. eexists _, _. split; [done|]. apply H. by destruct (f (builder s)).
Qed.

Lemma wp_decorate f Q s :
  (∀ b', f (builder s) = b' → Q tt (set_builder b' s)) → wp (decorate f) Q s.
Proof. intros H. eexists _, _. split; [done|]. by apply H. Qed.

Lemma wp_query {A} (f : Builder → option A) a Q s :
  f (builder s) = Some a → Q a s → wp (query f) Q s.
Proof. intros Hf H. exists a, s. split; [|done]. unfold query. by rewrite Hf. Qed.


Lemma wp_mono {A} (m : M A) (Q Q' : A → Impl → Prop) s :
  wp m Q s → (∀ a s', Q a s' → Q' a s') → wp m Q' s.
Proof. intros (a & s' & Hm & HQ) H. exists a, s'. auto. Qed.

(** ** The builder hands out non-zero ids *)

Lemma declare_nonzero d b : fst (declare d b) ≠ 0.
Proof. done. Qed.

Lemma intern_nonzero d b : fst (intern d b) ≠ 0.
Proof. unfold intern. by destruct (find_declaration _ _). Qed.

Lemma find_declaration_Some d l p :
  find_declaration d l = Some p → (p, d) ∈ l.
Proof.
  induction l as [|[q d'] l IH]; simpl; [done|].
  case_decide as Heq.
  - intros [= ->]. subst. apply list_elem_of_here.
  - intros H. apply list_elem_of_further. auto.
Qed.

(** ** Well-formed builders *)

#[global] Instance extends_preorder : PreOrder extends.
Proof.
  split.
  - intros b. by split.
  - intros b1 b2 b3 [] []. split; by etrans.
Qed.

Lemma builder_wf_empty : builder_wf empty_builder.
Proof. split; simpl; constructor. Qed.

Lemma declare_wf d b : builder_wf b → builder_wf (declare d b).2.
Proof.
  intros [Hnd Hlt]. split; simpl; rewrite fmap_app; simpl.
  - apply NoDup_app. split_and!; [done| |apply NoDup_singleton].
    intros p Hp ->%list_elem_of_singleton.
    rewrite Forall_forall in Hlt. specialize (Hlt _ Hp). lia.
  - apply Forall_app. split.
    + eapply Forall_impl; [done|]. simpl. lia.
    + repeat constructor. lia.
Qed.

Lemma intern_wf d b : builder_wf b → builder_wf (intern d b).2.
Proof. unfold intern. destruct (find_declaration _ _); [done|]. apply declare_wf. Qed.

Lemma getUniqueId_wf b : builder_wf b → builder_wf (getUniqueId b).2.
Proof.
  intros [Hnd Hlt]. split; simpl; [done|].
  eapply Forall_impl; [done|]. simpl. lia.
Qed.

Lemma declare_extends d b : extends b (declare d b).2.
Proof. split; simpl; try done. by apply prefix_app_r. Qed.

Lemma intern_extends d b : extends b (intern d b).2.
Proof. unfold intern. destruct (find_declaration _ _); [done|]. apply declare_extends. Qed.

Lemma getUniqueId_extends b : extends b (getUniqueId b).2.
Proof. by split. Qed.

Lemma addDecoration_extends id deco num b : extends b (addDecoration id deco num b).
Proof. split; simpl; try done. by apply prefix_app_r. Qed.

Lemma addMemberDecoration_extends id m deco num b :
  extends b (addMemberDecoration id m deco num b).
Proof. split; simpl; try done. by apply prefix_app_r. Qed.

Lemma addCapability_extends cap b : extends b (addCapability cap b).
Proof. split; simpl; try done. by apply prefix_app_r. Qed.

Lemma declaration_of_app l l' p d :
  declaration_of l p = Some d → declaration_of (l ++ l') p = Some d.
Proof.
  induction l as [|[q d'] l IH]; simpl; [done|]. by case_decide.
Qed.

Lemma declaration_of_None l p : p ∉ l.*1 → declaration_of l p = None.
Proof.
  induction l as [|[q d'] l IH]; simpl; [done|].
  intros Hp. case_decide as Heq.
  - subst. exfalso. apply Hp. left.
  - apply IH. intros ?. apply Hp. by right.
Qed.

Lemma declaration_of_elem l p d :
  NoDup l.*1 → (p, d) ∈ l → declaration_of l p = Some d.
Proof.
  induction l as [|[q d'] l IH]; simpl.
  - by intros _ ?%elem_of_nil.
  - intros [Hq Hnd]%NoDup_cons [[= -> ->]|Hin]%elem_of_cons.
    + by rewrite decide_True.
    + rewrite decide_False; [by apply IH|].
      intros ->. apply Hq. apply list_elem_of_fmap. by exists (p, d).
Qed.

(** An id keeps its meaning when the builder goes on. *)
Lemma lookup_id_extends b b' id d :
  extends b b' → lookup_id b id = Some d → lookup_id b' id = Some d.
Proof.
  intros [[l Hl] _ _ _]. destruct id; simpl; try done. rewrite Hl.
  apply declaration_of_app.
Qed.

Lemma declare_lookup d b :
  builder_wf b → lookup_id (declare d b).2 (declare d b).1 = Some d.
Proof.
  intros [Hnd Hlt]. simpl.
  assert (declaration_of (declarations b) (unique_id b) = None) as Hnone.
  { apply declaration_of_None. intros Hin.
    rewrite Forall_forall in Hlt. specialize (Hlt _ Hin). lia. }
  revert Hnone. generalize (declarations b) as l.
  induction l as [|[q d'] l IH]; simpl.
  - by rewrite decide_True.
  - case_decide; [done|]. auto.
Qed.

Lemma intern_lookup d b :
  builder_wf b → lookup_id (intern d b).2 (intern d b).1 = Some d.
Proof.
  intros Hwf. unfold intern.
  destruct (find_declaration d (declarations b)) as [p|] eqn:Hfind.
  - simpl. apply declaration_of_elem; [apply Hwf|].
    by apply find_declaration_Some.
  - by apply declare_lookup.
Qed.

Lemma addDecoration_wf id deco num b : builder_wf b → builder_wf (addDecoration id deco num b).
Proof. done. Qed.

Lemma addMemberDecoration_wf id m deco num b :
  builder_wf b → builder_wf (addMemberDecoration id m deco num b).
Proof. done. Qed.

Lemma addCapability_wf cap b : builder_wf b → builder_wf (addCapability cap b).
Proof. done. Qed.

(** ** [get_type_id] *)

Lemma get_type_id_wf type b : builder_wf b → builder_wf (get_type_id type b).2.
Proof.
  revert b. induction type; intros b Hwf; simpl; try done; try by apply intern_wf.
  - case_decide; by apply intern_wf.
  - apply intern_wf. auto.
  - apply intern_wf, intern_wf. auto.
Qed.

Lemma get_type_id_extends type b : extends b (get_type_id type b).2.
Proof.
  revert b. induction type; intros b; simpl; try done; try by apply intern_extends.
  - case_decide; by apply intern_extends.
  - etrans; [|apply intern_extends]. auto.
  - etrans; [|apply intern_extends]. etrans; [|apply intern_extends]. auto.
Qed.

(** ** Constants and the value table *)

Lemma wrap32_getZExtValue apint : wrap32 (llvm.getZExtValue apint) = apint mod 2 ^ 32.
Proof.
  unfold wrap32, llvm.getZExtValue.
  apply Z.mod_mod_divide.
  exists (2 ^ 32). lia.
Qed.

(** C5: an integer constant whose effective width (the type's width, or the
    non-zero forced width) is 32 is lowered to the builder's 32-bit unsigned
    constant of its value, a non-zero id; for every other effective width, and
    for a constant whose type is none of float, double and integer, the
    result is the sentinel 0 and nothing changes. *)
Theorem get_id_for_constant_dispatch :
  ∀ (a : positive) (type : llvm.type) (cls : llvm.value_class)
    (forced_width : Z) (s : Impl),
    let constant := {| llvm.address := a; llvm.getType := type; llvm.classof := cls |} in
    (∀ width apint,
       type = llvm.IntegerTy width → cls = llvm.ConstantInt apint →
       effective_width width forced_width = 32 →
       builder_wf (builder s) →
       ∃ id s',
         get_id_for_constant constant forced_width s = Some (id, s') ∧
         id ≠ 0 ∧
         lookup_id (builder s') id = Some (ConstantUint (apint mod 2 ^ 32))) ∧
    (∀ width,
       type = llvm.IntegerTy width →
       effective_width width forced_width ≠ 32 →
       get_id_for_constant constant forced_width s = Some (0, s)) ∧
    (type ≠ llvm.FloatTy → type ≠ llvm.DoubleTy → (∀ width, type ≠ llvm.IntegerTy width) →
     get_id_for_constant constant forced_width s = Some (0, s)).
Proof.
  intros a type cls forced_width s constant. split_and!.
  - intros width apint -> -> Hw Hwf.
    unfold get_id_for_constant, effective_width in *. simpl.
    rewrite decide_True by done.
    eexists _, _. split; [by apply build_Some|]. split.
    + apply intern_nonzero.
    + simpl. rewrite wrap32_getZExtValue. by apply intern_lookup.
  - intros width -> Hw.
    unfold get_id_for_constant, effective_width in *. simpl.
    by rewrite decide_False.
  - intros Hf Hd Hi. unfold get_id_for_constant. simpl.
    destruct type; try done. by destruct (Hi bits).
Qed.

Lemma get_id_for_constant_dispatch_witness :
  ∃ id s',
    get_id_for_constant
      {| llvm.address := 1; llvm.getType := llvm.IntegerTy 64;
         llvm.classof := llvm.ConstantInt 7 |} 32 empty_impl = Some (id, s') ∧
    id ≠ 0 ∧ lookup_id (builder s') id = Some (ConstantUint (7 mod 2 ^ 32)).
Proof.
  apply (proj1 (get_id_for_constant_dispatch 1 (llvm.IntegerTy 64) (llvm.ConstantInt 7)
                  32 empty_impl) 64 7);
    [reflexivity|reflexivity|reflexivity|apply builder_wf_empty].
Defined.

(** [get_id_for_value] only adds to the value table. *)
Lemma get_id_for_value_Some value forced_width s id s' :
  get_id_for_value value forced_width s = Some (id, s') →
  value_map s' !! llvm.address value = Some id ∧
  (∀ a id', value_map s !! a = Some id' → value_map s' !! a = Some id').
Proof.
  unfold get_id_for_value. intros H. msteps.
  destruct (value_map s !! llvm.address value) as [id0|] eqn:Hlook.
  - msteps. done.
  - apply bind_Some in H as (id1 & s1 & Hid & H). msteps.
    simpl. split; [by rewrite lookup_insert_eq|].
    intros a id' Ha.
    assert (value_map s1 = value_map s) as Hvm.
    { clear -Hid. destruct (llvm.isa_UndefValue value).
      - unfold get_id_for_undef in Hid. msteps. done.
      - destruct (llvm.isa_Constant value).
        + unfold get_id_for_constant in Hid.
          repeat (case_match; try done); msteps; done.
        + msteps. done. }
    rewrite Hvm. rewrite lookup_insert_ne; [done|]. congruence.
Qed.

Lemma get_id_for_value_cached value forced_width s id :
  value_map s !! llvm.address value = Some id →
  get_id_for_value value forced_width s = Some (id, s).
Proof. intros H. unfold get_id_for_value, bind, get. by rewrite H. Qed.

Lemma get_ids_for_values_preserves calls s ids s' a id :
  get_ids_for_values calls s = Some (ids, s') →
  value_map s !! a = Some id → value_map s' !! a = Some id.
Proof.
  revert s ids. induction calls as [|[v w] calls IH]; intros s ids; simpl.
  - by intros [= <- <-].
  - intros H Ha.
    apply bind_Some in H as (id1 & s1 & H1 & H).
    apply bind_Some in H as (ids1 & s2 & H2 & H). msteps.
    eapply IH; [done|]. by eapply get_id_for_value_Some.
Qed.

(** A constant that is not undef and is missing from the table gets what
    [get_id_for_constant] returns, and the table keeps it. *)
Lemma get_id_for_value_constant value forced_width s id s1 :
  llvm.isa_UndefValue value = false →
  llvm.isa_Constant value = true →
  value_map s !! llvm.address value = None →
  get_id_for_constant value forced_width s = Some (id, s1) →
  get_id_for_value value forced_width s
  = Some (id, set_value_map (<[llvm.address value := id]> (value_map s1)) s1).
Proof.
  intros Hundef Hconst Hnone Hid.
  unfold get_id_for_value, bind, get. rewrite Hnone, Hundef, Hconst, Hid. done.
Qed.

(** C10: a constant whose first query yields the sentinel 0 (an integer
    constant whose effective width is not 32, or a constant of a type that is
    none of float, double, integer) is cached as 0: every later query for it,
    after any other queries and with any forced width, 32 included, returns 0.
    Had an integer constant first been queried with forced width 32, its id
    would not be 0. *)
Theorem value_cache_keeps_sentinel :
  ∀ (value : llvm.Value) (forced_width : Z) (s : Impl),
    llvm.isa_UndefValue value = false →
    llvm.isa_Constant value = true →
    value_map s !! llvm.address value = None →
    (∃ width, llvm.getType value = llvm.IntegerTy width ∧
              effective_width width forced_width ≠ 32) ∨
    (llvm.getType value ≠ llvm.FloatTy ∧ llvm.getType value ≠ llvm.DoubleTy ∧
     ∀ width, llvm.getType value ≠ llvm.IntegerTy width) →
    (∃ s1,
       get_id_for_value value forced_width s = Some (0, s1) ∧
       ∀ (calls : list (llvm.Value * Z)) (ids : list Id) (s2 : Impl) (forced_width' : Z),
         get_ids_for_values calls s1 = Some (ids, s2) →
         get_id_for_value value forced_width' s2 = Some (0, s2)) ∧
    (∀ width apint,
       llvm.getType value = llvm.IntegerTy width →
       llvm.classof value = llvm.ConstantInt apint →
       ∃ id s1, get_id_for_value value 32 s = Some (id, s1) ∧ id ≠ 0).
Proof.
  intros value forced_width s Hundef Hconst Hnone Hcase.
  destruct value as [a type cls]. simpl in *.
  assert (get_id_for_constant
            {| llvm.address := a; llvm.getType := type; llvm.classof := cls |}
            forced_width s = Some (0, s)) as Hzero.
  { unfold get_id_for_constant, effective_width in *. simpl.
    destruct Hcase as [(width & -> & Hw)|(Hf & Hd & Hi)].
    - by rewrite decide_False.
    - destruct type; try done. by destruct (Hi bits). }
  pose proof (get_id_for_value_constant _ _ _ _ _ Hundef Hconst Hnone Hzero) as Hfirst.
  split.
  - eexists. split; [exact Hfirst|].
    intros calls ids s2 forced_width' Hcalls.
    apply get_id_for_value_cached.
    eapply get_ids_for_values_preserves; [exact Hcalls|].
    exact (proj1 (get_id_for_value_Some _ _ _ _ _ Hfirst)).
  - intros width apint -> ->.
    eexists _, _. split.
    + apply get_id_for_value_constant; try done.
      unfold get_id_for_constant. simpl. by apply build_Some.
    + apply intern_nonzero.
Qed.

Lemma value_cache_keeps_sentinel_witness :
  ∃ s2 : Impl,
    get_id_for_value
      {| llvm.address := 9; llvm.getType := llvm.IntegerTy 64;
         llvm.classof := llvm.ConstantInt 2 |} 32 s2 = Some (0, s2).
Proof.
  assert (effective_width 64 0 ≠ 32) as Hwidth by (vm_compute; discriminate).
  destruct (value_cache_keeps_sentinel
              {| llvm.address := 9; llvm.getType := llvm.IntegerTy 64;
                 llvm.classof := llvm.ConstantInt 2 |} 0 empty_impl
              eq_refl eq_refl eq_refl
              (or_introl (ex_intro _ 64 (conj eq_refl Hwidth))))
    as [(s1 & Hfirst & Hlater) _].
  exists s1. apply (Hlater [] [] s1 32). reflexivity.
Defined.

(** ** Resource tables *)

Lemma wrap32_range z : 0 ≤ wrap32 z < 2 ^ 32.
Proof. apply Z.mod_pos_bound. lia. Qed.

Lemma wrap32_small z : 0 ≤ z < 2 ^ 32 → wrap32 z = z.
Proof. apply Z.mod_small. Qed.

Lemma get_constant_metadata_range node index v :
  get_constant_metadata node index = Some v → 0 ≤ v < 2 ^ 32.
Proof.
  unfold get_constant_metadata. repeat case_match; try done.
  intros [= <-]. apply wrap32_range.
Qed.

Lemma length_resize n table : length (resize n table) = n.
Proof. unfold resize. rewrite length_app, length_take, length_replicate. lia. Qed.

Lemma resize_grow n table :
  (length table ≤ n)%nat → resize n table = table ++ replicate (n - length table) 0.
Proof. intros H. unfold resize. by rewrite take_ge. Qed.

(** Storing at an index that does not wrap: the slot holds the id, the slots
    that were there keep their ids, and the slots that had to be added in
    between are 0. *)
Lemma store_index_spec index id table :
  0 ≤ index → index + 1 < 2 ^ 32 →
  ∃ table',
    store_index index id table = Some table' ∧
    table' !! Z.to_nat index = Some id ∧
    (length table ≤ length table')%nat ∧
    (∀ j x, j ≠ Z.to_nat index → table !! j = Some x → table' !! j = Some x) ∧
    (∀ j, j ≠ Z.to_nat index → (length table ≤ j < length table')%nat →
          table' !! j = Some 0).
Proof.
  intros H0 Hlt. unfold store_index.
  rewrite wrap32_small by lia.
  set (n := Nat.max (length table) (Z.to_nat (index + 1))).
  assert (length table ≤ n)%nat as Hn by lia.
  rewrite decide_True by (rewrite length_resize; lia).
  eexists. split; [done|].
  rewrite length_insert, length_resize, resize_grow by done.
  split_and!.
  - apply list_lookup_insert_eq. rewrite length_app, length_replicate. lia.
  - done.
  - intros j x Hj Hx. rewrite list_lookup_insert_ne by done.
    by apply lookup_app_l_Some.
  - intros j Hj [Hlo Hhi]. rewrite list_lookup_insert_ne by done.
    rewrite lookup_app_r by done. apply lookup_replicate_2. lia.
Qed.

Lemma elem_of_decorations_extends b b' x :
  extends b b' → x ∈ decorations b → x ∈ decorations b'.
Proof. intros [_ [l ->] _ _] Hx. apply elem_of_app. by left. Qed.

Lemma elem_of_member_decorations_extends b b' x :
  extends b b' → x ∈ member_decorations b → x ∈ member_decorations b'.
Proof. intros [_ _ [l ->] _] Hx. apply elem_of_app. by left. Qed.

Lemma elem_of_addDecoration id deco num b :
  (id, deco, num) ∈ decorations (addDecoration id deco num b).
Proof. simpl. apply elem_of_app. right. apply list_elem_of_here. Qed.

Lemma elem_of_addMemberDecoration id m deco num b :
  (id, m, deco, num) ∈ member_decorations (addMemberDecoration id m deco num b).
Proof. simpl. apply elem_of_app. right. apply list_elem_of_here. Qed.

(** The builder after a chain of calls extends the builder before it. *)
Ltac solve_extends :=
  repeat first
    [ reflexivity
    | assumption
    | (etrans; [|apply intern_extends])
    | (etrans; [|apply declare_extends])
    | (etrans; [|apply getUniqueId_extends])
    | (etrans; [|apply addDecoration_extends])
    | (etrans; [|apply addMemberDecoration_extends])
    | (etrans; [|apply addCapability_extends])
    | (etrans; [|apply get_type_id_extends]) ].

Ltac solve_wf :=
  repeat first
    [ assumption
    | apply intern_wf
    | apply declare_wf
    | apply getUniqueId_wf
    | apply addDecoration_wf
    | apply addMemberDecoration_wf
    | apply addCapability_wf
    | apply get_type_id_wf ].

(** ** What a builder call establishes *)

Lemma intern_spec d b id b' :
  builder_wf b → intern d b = (id, b') →
  builder_wf b' ∧ extends b b' ∧ lookup_id b' id = Some d ∧ id ≠ 0.
Proof.
  intros Hwf Heq.
  pose proof (intern_wf d b Hwf). pose proof (intern_extends d b).
  pose proof (intern_lookup d b Hwf). pose proof (intern_nonzero d b).
  by rewrite Heq in *.
Qed.

Lemma declare_spec d b id b' :
  builder_wf b → declare d b = (id, b') →
  builder_wf b' ∧ extends b b' ∧ lookup_id b' id = Some d ∧ id ≠ 0.
Proof.
  intros Hwf Heq.
  pose proof (declare_wf d b Hwf). pose proof (declare_extends d b).
  pose proof (declare_lookup d b Hwf). pose proof (declare_nonzero d b).
  by rewrite Heq in *.
Qed.

Lemma getUniqueId_spec b id b' :
  builder_wf b → getUniqueId b = (id, b') →
  builder_wf b' ∧ extends b b' ∧ id ≠ 0.
Proof. intros Hwf [= <- <-]. split_and!; [by apply getUniqueId_wf|by split|done]. Qed.

Lemma addDecoration_spec id deco num b b' :
  builder_wf b → addDecoration id deco num b = b' →
  builder_wf b' ∧ extends b b' ∧ (id, deco, num) ∈ decorations b'.
Proof.
  intros Hwf <-. split_and!;
    [done|apply addDecoration_extends|apply elem_of_addDecoration].
Qed.

Lemma addMemberDecoration_spec id m deco num b b' :
  builder_wf b → addMemberDecoration id m deco num b = b' →
  builder_wf b' ∧ extends b b' ∧ (id, m, deco, num) ∈ member_decorations b'.
Proof.
  intros Hwf <-. split_and!;
    [done|apply addMemberDecoration_extends|apply elem_of_addMemberDecoration].
Qed.

(** Carry what is known of builder [b] over to a builder [b'] that extends it. *)
Ltac carry b b' Hext :=
  repeat match goal with
    | H : lookup_id b _ = Some _ |- _ => apply (lookup_id_extends b b' _ _ Hext) in H
    | H : _ ∈ decorations b |- _ => apply (elem_of_decorations_extends b b' _ Hext) in H
    | H : _ ∈ member_decorations b |- _ =>
        apply (elem_of_member_decorations_extends b b' _ Hext) in H
    | H : extends _ b |- _ => apply (λ H0, transitivity H0 Hext) in H
    end.

(** One builder call at the head of the run, with what it establishes; the
    id it returns is named [x]. *)
Ltac wp_build_with spec x :=
  first [apply wp_bind|idtac]; apply wp_build;
  let Heq := fresh "Heq" in
  let Hext := fresh "Hext" in
  intros x ?b Heq; simpl builder in Heq; cbv beta;
  match type of Heq with
  | _ ?b0 = (_, ?b1) =>
      match goal with
      | Hwf : builder_wf b0 |- _ =>
          let H := fresh "H" in
          pose proof Hwf as H; eapply spec in H; [|exact Heq];
          destruct H as (?Hwf & Hext & ?Hfact); destruct_and?;
          carry b0 b1 Hext; clear Heq Hext Hwf
      end
  end.

Ltac wp_decorate_with spec :=
  first [apply wp_bind|idtac]; apply wp_decorate;
  let Heq := fresh "Heq" in
  let Hext := fresh "Hext" in
  intros ?b Heq; simpl builder in Heq; cbv beta;
  match type of Heq with
  | _ ?b0 = ?b1 =>
      match goal with
      | Hwf : builder_wf b0 |- _ =>
          let H := fresh "H" in
          pose proof Hwf as H; eapply spec in H; [|exact Heq];
          destruct H as (?Hwf & Hext & ?Hfact); destruct_and?;
          carry b0 b1 Hext; clear Heq Hext Hwf
      end
  end.

Tactic Notation "wp_intern" ident(x) := wp_build_with intern_spec x.
Tactic Notation "wp_declare" ident(x) := wp_build_with declare_spec x.
Tactic Notation "wp_allocate" ident(x) := wp_build_with getUniqueId_spec x.
Ltac wp_addDecoration := wp_decorate_with addDecoration_spec.
Ltac wp_pure :=
  first [apply wp_bind|idtac];
  first [apply wp_must|apply wp_assert|apply wp_get|apply wp_modify|apply wp_ret];
  cbv beta.

(** ** Constant buffers *)

(** C7 (as amended): a CBV entry of [S] bytes, with [S + 15] and
    [index + 1] below [2^32], is lowered to an array of [ceil(S/16)] four-component 32-bit float
    vectors with [ArrayStride 16], as the only member of a [Block] struct
    with member 0 at [Offset 0], and a [Uniform] variable of that struct
    decorated with the entry's descriptor set and binding; the variable's id
    is stored at slot [index] of [cbv_index_to_id]. *)
Theorem emit_cbv_lowering :
  ∀ (cbv : md.Metadata) (index bind_space bind_register S : Z) (name : string)
    (s : Impl),
    md.isa_MDNode cbv = true →
    get_constant_metadata cbv 0 = Some index →
    get_string_metadata cbv 2 = Some name →
    get_constant_metadata cbv 3 = Some bind_space →
    get_constant_metadata cbv 4 = Some bind_register →
    get_constant_metadata cbv 6 = Some S →
    S + 15 < 2 ^ 32 →
    index + 1 < 2 ^ 32 →
    builder_wf (builder s) →
    ∃ s' : Impl,
      emit_cbv cbv s = Some (tt, s') ∧
      cbv_lowered index bind_space bind_register S name s s'.
Proof.
  intros cbv index bind_space bind_register S name s
    Hnode Hindex Hname Hspace Hreg Hsize HS Hidx Hwf.
  pose proof (get_constant_metadata_range _ _ _ Hindex) as [Hi0 _].
  pose proof (get_constant_metadata_range _ _ _ Hsize) as [HS0 _].
  assert (extends (builder s) (builder s)) as Hstart by done.
  cut (wp (emit_cbv cbv)
         (λ _ s', cbv_lowered index bind_space bind_register S name s s') s).
  { intros ([] & s' & Hrun & H). by exists s'. }
  unfold emit_cbv. rewrite Hnode, Hindex, Hname, Hspace, Hreg, Hsize.
  do 6 wp_pure.
  wp_intern float_type. wp_intern vec4_type. wp_intern length_id.
  wp_intern array_type.
  wp_addDecoration.
  wp_intern struct_type.
  wp_decorate_with addMemberDecoration_spec.
  wp_addDecoration.
  wp_declare var_id.
  wp_addDecoration. wp_addDecoration.
  wp_pure. simpl cbv_index_to_id.
  destruct (store_index_spec index var_id (cbv_index_to_id s) Hi0 Hidx)
    as (table' & Hstore & Hslot & _).
  rewrite Hstore. wp_pure. apply wp_modify. simpl.
  exists float_type, vec4_type, length_id, array_type, struct_type, var_id,
    (wrap32 (S + 15) / 16).
  split_and!; try done.
  all: rewrite wrap32_small by lia.
  all: pose proof (Z.div_mod (S + 15) 16 ltac:(lia)).
  all: pose proof (Z.mod_pos_bound (S + 15) 16 ltac:(lia)); lia.
Qed.

Lemma emit_cbv_lowering_witness :
  ∃ s' : Impl,
    emit_cbv (resource_entry 2 "cb" 0 3 [md_i32 64]) empty_impl = Some (tt, s') ∧
    cbv_lowered 2 0 3 64 "cb" empty_impl s'.
Proof.
  apply (emit_cbv_lowering (resource_entry 2 "cb" 0 3 [md_i32 64]) 2 0 3 64 "cb"
           empty_impl);
    [reflexivity|reflexivity|reflexivity|reflexivity|reflexivity|reflexivity
    |lia|lia|apply builder_wf_empty].
Defined.

(** C7 as stated fails at a size whose rounding wraps around in 32 bits:
    for [S = 2^32 - 1] the array is not [ceil(S/16)] long, its length is 0. *)
Lemma emit_cbv_length_wraps :
  ¬ ∃ s' : Impl,
      emit_cbv (resource_entry 0 "cb" 0 0 [md_i32 4294967295]) empty_impl
      = Some (tt, s') ∧
      cbv_lowered 0 0 0 4294967295 "cb" empty_impl s'.
Proof.
  intros (s' & Hrun & ft & vt & len & arr & st & var & n & H).
  vm_compute in Hrun. injection Hrun as <-.
  destruct H as (_ & _ & _ & Hlen & Hn & Harr & _ & Hst & _ & _ & Hvar & _ & _ & Hslot).
  simpl in Hslot. injection Hslot as <-.
  vm_compute in Hvar. injection Hvar as <-.
  vm_compute in Hst. injection Hst as <-.
  vm_compute in Harr. injection Harr as <- <-.
  vm_compute in Hlen. injection Hlen as <-.
  lia.
Qed.

(** ** Stage inputs and outputs *)

Lemma intern_decorations d b : decorations (intern d b).2 = decorations b.
Proof. unfold intern. by destruct (find_declaration _ _). Qed.

Lemma get_type_id_components_decorations t rows cols b :
  decorations (get_type_id_components t rows cols b).2 = decorations b.
Proof.
  unfold get_type_id_components.
  unfold makeBoolType, makeIntegerType, makeFloatType, makeVectorType, makeMatrixType.
  destruct t; simpl; try done;
    repeat case_decide; simpl; rewrite ?intern_decorations; done.
Qed.

Lemma foldl_advance_snoc codes c elements element :
  foldl (advance_location codes) c (elements ++ [element])
  = advance_location codes (foldl (advance_location codes) c elements) element.
Proof. by rewrite foldl_app. Qed.








(** ** Steps of the instruction emitters *)

#[global] Instance evolves_preorder : PreOrder evolves.
Proof.
  split.
  - intros s. by split.
  - intros s1 s2 s3 [] []. split.
    + by etrans.
    + eauto.
    + congruence.
    + congruence.
Qed.

Lemma wp_build_ev f Q s :
  (∀ id s', f (builder s) = (id, builder s') →
            (extends (builder s) (builder s') → evolves s s') → Q id s') →
  wp (build f) Q s.
Proof.
  intros H. apply wp_build. intros id b' Heq. apply H; [done|].
  intros Hext. by split.
Qed.

Lemma wp_decorate_ev f Q s :
  (∀ s', f (builder s) = builder s' →
         (extends (builder s) (builder s') → evolves s s') → Q tt s') →
  wp (decorate f) Q s.
Proof.
  intros H. apply wp_decorate. intros b' Heq. apply H; [done|].
  intros Hext. by split.
Qed.

(** [get_id_for_value] on a lowerable value returns, and evolves the state. *)
Lemma wp_get_id_for_value value forced_width Q s :
  lowerable value = true →
  builder_wf (builder s) →
  (∀ id s', evolves s s' → builder_wf (builder s') →
            value_map s' !! llvm.address value = Some id → Q id s') →
  wp (get_id_for_value value forced_width) Q s.
Proof.
  intros Hlow Hwf HQ. unfold get_id_for_value.
  apply wp_bind, wp_get.
  destruct (value_map s !! llvm.address value) as [id|] eqn:Hcached.
  { apply wp_ret. by apply HQ. }
  assert (∀ (m : M Id),
            wp m (λ id s', evolves s s' ∧ builder_wf (builder s') ∧
                           value_map s' = value_map s) s →
            wp (let* id := m in
                let* _ := modify (λ s, set_value_map
                                         (<[llvm.address value := id]> (value_map s)) s) in
                ret id) Q s) as Hrest.
  { intros m (id & s1 & Hm & Hev & Hwf1 & Hvm).
    exists id, (set_value_map (<[llvm.address value := id]> (value_map s1)) s1).
    split.
    - unfold bind. by rewrite Hm.
    - apply HQ; [|done|by simpl; rewrite lookup_insert_eq].
      destruct Hev. split; simpl; try done.
      intros a id' Ha. rewrite Hvm.
      rewrite lookup_insert_ne; [done|]. congruence. }
  apply Hrest. clear Hrest HQ.
  destruct value as [a type cls]. unfold lowerable in Hlow. simpl in *.
  unfold llvm.isa_UndefValue, llvm.isa_Constant. simpl.
  assert (∀ f, (∀ b, extends b (f b).2) → (∀ b, builder_wf b → builder_wf (f b).2) →
               wp (build f) (λ _ s', evolves s s' ∧ builder_wf (builder s') ∧
                                      value_map s' = value_map s) s) as Hbuild.
  { intros f Hext Hwff. eexists _, _. split; [done|]. simpl.
    split_and!; [split; simpl; try done; apply Hext|by apply Hwff|done]. }
  destruct cls.
  - exists (createUndefined (get_type_id type (builder s)).1
              (get_type_id type (builder s)).2).1,
      (set_builder (createUndefined (get_type_id type (builder s)).1
                      (get_type_id type (builder s)).2).2 s).
    split; [reflexivity|]. split_and!; [split; try done| |done].
    + etrans; [apply get_type_id_extends|apply declare_extends].
    + apply declare_wf. by apply get_type_id_wf.
  - unfold get_id_for_constant. simpl.
    destruct type; try done. case_decide; [|eexists _, _; split; [done|]; by split_and!].
    apply Hbuild; [intros b; apply intern_extends|intros b; apply intern_wf].
  - unfold get_id_for_constant. simpl.
    destruct type; try done;
      try (eexists _, _; split; [done|]; by split_and!);
      (apply Hbuild; [intros b; apply intern_extends|intros b; apply intern_wf]).
  - unfold get_id_for_constant. simpl.
    destruct type; try done; eexists _, _; split; try done; by split_and!.
  - apply Hbuild; [intros b; apply getUniqueId_extends|intros b; apply getUniqueId_wf].
Qed.

(** Bring what is known of state [s] over to a state [s'] it evolved into. *)
Ltac ev_merge s s' Hev :=
  carry (builder s) (builder s') (evolves_builder _ _ Hev);
  repeat match goal with
    | H : evolves _ s |- _ => apply (λ H0, transitivity H0 Hev) in H
    | H : value_map s !! _ = Some _ |- _ => apply (evolves_value_map _ _ Hev) in H
    end.

(** A builder call at the head of the run, by what it establishes. *)
Ltac ev_build_with spec x :=
  first [apply wp_bind|idtac]; apply wp_build_ev;
  let s' := fresh "s" in
  let Heq := fresh "Heq" in
  let Hmk := fresh "Hmk" in
  let Hext := fresh "Hext" in
  intros x s' Heq Hmk; cbv beta;
  match type of Heq with
  | _ (builder ?s) = _ =>
      match goal with
      | Hwf : builder_wf (builder s) |- _ =>
          let H := fresh "H" in
          pose proof Hwf as H; eapply spec in H; [|exact Heq];
          destruct H as (?Hwf & Hext & ?Hfact); destruct_and?;
          specialize (Hmk Hext);
          ev_merge s s' Hmk; clear Heq Hext Hwf Hmk
      end
  end.

Ltac ev_decorate_with spec :=
  first [apply wp_bind|idtac]; apply wp_decorate_ev;
  let s' := fresh "s" in
  let Heq := fresh "Heq" in
  let Hmk := fresh "Hmk" in
  let Hext := fresh "Hext" in
  intros s' Heq Hmk; cbv beta;
  match type of Heq with
  | _ (builder ?s) = _ =>
      match goal with
      | Hwf : builder_wf (builder s) |- _ =>
          let H := fresh "H" in
          pose proof Hwf as H; eapply spec in H; [|exact Heq];
          destruct H as (?Hwf & Hext & ?Hfact); destruct_and?;
          specialize (Hmk Hext);
          ev_merge s s' Hmk; clear Heq Hext Hwf Hmk
      end
  end.

Tactic Notation "ev_intern" ident(x) := ev_build_with intern_spec x.
Tactic Notation "ev_declare" ident(x) := ev_build_with declare_spec x.
Tactic Notation "ev_allocate" ident(x) := ev_build_with getUniqueId_spec x.

(** A call of [get_id_for_value] at the head of the run. *)
Ltac ev_value_as x :=
  first [apply wp_bind|idtac];
  match goal with
  | |- wp (get_id_for_value _ _) _ ?s =>
      let s' := fresh "s" in
      let Hev := fresh "Hev" in
      apply wp_get_id_for_value; [try done|assumption|];
      intros x s' Hev ?Hwf ?Hvalue; cbv beta;
      try (ev_merge s s' Hev;
           match goal with Hwf : builder_wf (builder s) |- _ => clear Hwf end;
           clear Hev)
  end.

Tactic Notation "ev_value" ident(x) := ev_value_as x.

Lemma addCapability_spec cap b b' :
  builder_wf b → addCapability cap b = b' →
  builder_wf b' ∧ extends b b' ∧ cap ∈ capabilities b'.
Proof.
  intros Hwf <-. split_and!; [done|apply addCapability_extends|].
  simpl. apply elem_of_app. right. apply list_elem_of_here.
Qed.

Lemma get_type_id_spec type b id b' :
  builder_wf b → get_type_id type b = (id, b') →
  builder_wf b' ∧ extends b b' ∧
  (∀ width, (type = llvm.HalfTy ∧ width = 16 ∨ type = llvm.FloatTy ∧ width = 32 ∨
             type = llvm.DoubleTy ∧ width = 64) →
            lookup_id b' id = Some (TypeFloat width)).
Proof.
  intros Hwf Heq.
  pose proof (get_type_id_wf type b Hwf) as Hwf'.
  pose proof (get_type_id_extends type b) as Hext.
  rewrite Heq in Hwf', Hext. split_and!; [done|done|].
  intros width [[-> ->]|[[-> ->]|[-> ->]]]; simpl in Heq;
    by destruct (intern_spec _ _ _ _ Hwf Heq) as (_ & _ & ? & _).
Qed.

(** A [for_range] loop whose body evolves the state. *)
Lemma wp_for_range {A} (body : nat → M A) (Φ : nat → A → Impl → Prop) count :
  (∀ i a s1 s2, Φ i a s1 → evolves s1 s2 → Φ i a s2) →
  ∀ first (Q : list A → Impl → Prop) s,
    builder_wf (builder s) →
    (∀ i s1, (first ≤ i < first + count)%nat → evolves s s1 → builder_wf (builder s1) →
             wp (body i) (λ a s2, evolves s1 s2 ∧ builder_wf (builder s2) ∧ Φ i a s2) s1) →
    (∀ l s', evolves s s' → builder_wf (builder s') → length l = count →
             (∀ k a, l !! k = Some a → Φ (first + k)%nat a s') → Q l s') →
    wp (for_range first count body) Q s.
Proof.
  intros Hmono. induction count as [|count IH]; intros first Q s Hwf Hbody HQ; simpl.
  - apply wp_ret. apply HQ; try done.
  - apply wp_bind.
    eapply wp_mono; [apply (Hbody first s); [lia|done|done]|].
    intros a s1 (Hev1 & Hwf1 & Ha). cbv beta.
    apply wp_bind. apply IH; [done| |].
    + intros i s2 Hi Hev2 Hwf2. apply Hbody; [lia| |done]. by etrans.
    + intros l s' Hev' Hwf' Hlen Hl. apply wp_ret.
      apply HQ; [by etrans|done|by simpl; rewrite Hlen|].
      intros [|k] x Hk; simpl in Hk.
      * injection Hk as <-. rewrite Nat.add_0_r. by eapply Hmono.
      * replace (first + S k)%nat with (S first + k)%nat by lia. by apply Hl.
Qed.

(** ** Sampling *)

Lemma offset_entry_ok_evolves instruction i entry s1 s2 :
  offset_entry_ok instruction i entry s1 → evolves s1 s2 →
  offset_entry_ok instruction i entry s2.
Proof.
  intros (operand & Hop & Hflag & Hlook) Hev. exists operand. split_and!; try done.
  eapply lookup_id_extends; [apply Hev|done].
Qed.

Lemma wp_sample_offset instruction i operand s :
  llvm.getOperand instruction (i + 7) = Some operand →
  llvm.isa_UndefValue operand = true ∨ llvm.isa_ConstantInt operand = true →
  builder_wf (builder s) →
  wp (sample_offset instruction i)
    (λ entry s', evolves s s' ∧ builder_wf (builder s') ∧
                 offset_entry_ok instruction i entry s') s.
Proof.
  intros Hop Hclass Hwf. unfold sample_offset. rewrite Hop.
  apply wp_bind, wp_must. cbv beta.
  assert (evolves s s) as Hrun by done.
  unfold llvm.isa_UndefValue, llvm.isa_ConstantInt in *.
  destruct (llvm.classof operand) eqn:Hcls; simpl; try (by destruct Hclass).
  - ev_intern id. apply wp_ret. split_and!; try done.
    exists operand. split_and!; try done.
    + unfold llvm.isa_UndefValue. by rewrite Hcls.
    + simpl. unfold offset_literal. by rewrite Hcls.
  - ev_intern id. apply wp_ret. split_and!; try done.
    exists operand. split_and!; try done.
    + unfold llvm.isa_UndefValue. by rewrite Hcls.
    + simpl. unfold offset_literal. by rewrite Hcls.
Qed.

Lemma wp_sample_offsets instruction num_coords Q s :
  offset_operands_ok instruction num_coords →
  builder_wf (builder s) →
  (∀ entries s', evolves s s' → builder_wf (builder s') →
                 length entries = num_coords →
                 (∀ k entry, entries !! k = Some entry →
                             offset_entry_ok instruction k entry s') →
                 Q entries s') →
  wp (for_range 0 num_coords (sample_offset instruction)) Q s.
Proof.
  intros Hok Hwf HQ.
  apply (wp_for_range _ (offset_entry_ok instruction)); [|done| |done].
  - intros. by eapply offset_entry_ok_evolves.
  - intros i s1 Hi Hev Hwf1.
    destruct (Hok i ltac:(lia)) as (operand & Hop & Hclass).
    by eapply wp_sample_offset.
Qed.

Lemma wp_sample_coords instruction count Q s :
  (count + 3 ≤ length (llvm.operands instruction))%nat →
  Forall (λ v, lowerable v = true) (llvm.operands instruction) →
  builder_wf (builder s) →
  (∀ coord s', evolves s s' → builder_wf (builder s') → length coord = count →
               (∀ k id, coord !! k = Some id →
                        ∃ operand,
                          llvm.getOperand instruction (k + 3) = Some operand ∧
                          value_map s' !! llvm.address operand = Some id) →
               Q coord s') →
  wp (sample_coords instruction count) Q s.
Proof.
  intros Hlen Hlow Hwf HQ. unfold sample_coords.
  apply (wp_for_range _ (λ i id s',
                           ∃ operand,
                             llvm.getOperand instruction (i + 3) = Some operand ∧
                             value_map s' !! llvm.address operand = Some id));
    [|done| |].
  - intros i id s1 s2 (operand & Hop & Hid) Hev. exists operand.
    split; [done|]. by eapply evolves_value_map.
  - intros i s1 Hi Hev Hwf1.
    destruct (lookup_lt_is_Some_2 (llvm.operands instruction) (i + 3) ltac:(lia))
      as [operand Hop].
    unfold llvm.getOperand. rewrite Hop. apply wp_bind, wp_must. cbv beta.
    apply wp_get_id_for_value; [|done|].
    + rewrite Forall_forall in Hlow. apply Hlow. by eapply list_elem_of_lookup_2.
    + intros id s2 Hev2 Hwf2 Hid. split_and!; [done|done|]. by exists operand.
  - intros l s' Hev Hwf' Hl Hids. by apply HQ.
Qed.

Lemma wp_build_sampled_image block image_id sampler_id comparison Q s
    image_type sampled_type dim depth arrayed ms sampled format :
  builder_wf (builder s) →
  id_to_type s !! image_id = Some image_type →
  lookup_id (builder s) image_type
  = Some (TypeImage sampled_type dim depth arrayed ms sampled format) →
  (∀ id type_id new_image_type s',
     evolves s s' → builder_wf (builder s') → id ≠ 0 →
     lookup_id (builder s') type_id = Some (TypeSampledImage new_image_type) →
     lookup_id (builder s') new_image_type
     = Some (TypeImage sampled_type dim comparison arrayed ms 2 spv.ImageFormatUnknown) →
     Q (id, push_operation
              {| Operation.op := spv.OpSampledImage; Operation.id := id;
                 Operation.type_id := type_id;
                 Operation.arguments := [image_id; sampler_id] |} block) s') →
  wp (build_sampled_image block image_id sampler_id comparison) Q s.
Proof.
  intros Hwf Htype Himage HQ. unfold build_sampled_image, get_type_id_of_id.
  assert (evolves s s) as Hrun by done.
  apply wp_bind, wp_bind, wp_get. cbv beta. rewrite Htype. apply wp_ret.
  apply wp_bind. eapply wp_query; [unfold getTypeDimensionality; by rewrite Himage|].
  apply wp_bind. eapply wp_query; [unfold isArrayedImageType; by rewrite Himage|].
  apply wp_bind. eapply wp_query; [unfold isMultisampledImageType; by rewrite Himage|].
  apply wp_bind. eapply wp_query; [unfold getImageComponentType; by rewrite Himage|].
  cbv beta.
  ev_intern new_image_type. ev_allocate id. ev_intern type_id.
  apply wp_ret. by eapply HQ.
Qed.

Lemma wp_build_vector block element_type elements Q s :
  builder_wf (builder s) →
  (∀ e, elements = [e] → Q (e, block) s) →
  (∀ id type_id s',
     length elements ≠ 1%nat →
     evolves s s' → builder_wf (builder s') → id ≠ 0 →
     lookup_id (builder s') type_id
     = Some (TypeVector element_type (Z.of_nat (length elements))) →
     Q (id, push_operation
              {| Operation.op := spv.OpCompositeConstruct; Operation.id := id;
                 Operation.type_id := type_id; Operation.arguments := elements |}
              block) s') →
  wp (build_vector block element_type elements) Q s.
Proof.
  intros Hwf Hone Hmany. unfold build_vector.
  assert (evolves s s) as Hrun by done.
  destruct elements as [|e [|e' elements]].
  - ev_allocate id. ev_intern type_id. apply wp_ret. by apply Hmany.
  - apply wp_ret. by apply Hone.
  - ev_allocate id. ev_intern type_id. apply wp_ret. by apply Hmany.
Qed.

Lemma operand_lowerable instruction i operand :
  Forall (λ v, lowerable v = true) (llvm.operands instruction) →
  llvm.getOperand instruction i = Some operand → lowerable operand = true.
Proof.
  rewrite Forall_forall. intros Hlow Hop. apply Hlow.
  by eapply list_elem_of_lookup_2.
Qed.

Lemma wp_sample_dref opcode instruction Q s :
  (operand_count opcode ≤ length (llvm.operands instruction))%nat →
  Forall (λ v, lowerable v = true) (llvm.operands instruction) →
  builder_wf (builder s) →
  (∀ dref s', evolves s s' → builder_wf (builder s') →
              (opcode ≠ DXIL.SampleCmp → dref = 0) → Q dref s') →
  wp (sample_dref opcode instruction) Q s.
Proof.
  intros Hlen Hlow Hwf HQ. unfold sample_dref. unfold operand_count in Hlen.
  case_bool_decide as Hop.
  - destruct (lookup_lt_is_Some_2 (llvm.operands instruction) 10 ltac:(lia))
      as [operand Hoperand].
    unfold llvm.getOperand at 1. rewrite Hoperand. apply wp_bind, wp_must. cbv beta.
    apply wp_get_id_for_value; [by eapply operand_lowerable|done|].
    intros id s' Hev Hwf' _. by apply HQ.
  - apply wp_ret. by apply HQ.
Qed.

Lemma wp_sample_aux opcode instruction image_ops Q s :
  (operand_count opcode ≤ length (llvm.operands instruction))%nat →
  Forall (λ v, lowerable v = true) (llvm.operands instruction) →
  builder_wf (builder s) →
  (∀ aux s', evolves s s' → builder_wf (builder s') →
             aux.2 = (if min_lod_defined opcode instruction
                      then Z.lor image_ops spv.ImageOperandsMinLodMask
                      else image_ops) →
             (opcode = DXIL.SampleCmpLevelZero →
              lookup_id (builder s') aux.1 = Some (ConstantFloat 0)) →
             Q aux s') →
  wp (sample_aux opcode instruction image_ops) Q s.
Proof.
  intros Hlen Hlow Hwf HQ. unfold sample_aux.
  assert (evolves s s) as Hrun by done.
  set (index := if bool_decide (opcode = DXIL.SampleCmp) then 11%nat else 10%nat).
  assert (index < length (llvm.operands instruction))%nat as Hindex.
  { subst index. unfold operand_count in Hlen. case_bool_decide; lia. }
  clear Hlen.
  destruct (lookup_lt_is_Some_2 (llvm.operands instruction) index Hindex)
    as [operand Hoperand].
  assert (min_lod_defined opcode instruction
          = bool_decide (opcode = DXIL.Sample ∨ opcode = DXIL.SampleCmp)
            && negb (llvm.isa_UndefValue operand)) as Hml.
  { unfold min_lod_defined. fold index. unfold llvm.getOperand. by rewrite Hoperand. }
  unfold llvm.getOperand. rewrite Hoperand.
  pose proof (operand_lowerable instruction index operand Hlow Hoperand) as Hlo.
  case_bool_decide as Hop1; simpl in *.
  - apply wp_bind, wp_must. cbv beta.
    destruct (llvm.isa_UndefValue operand); simpl in *.
    + apply wp_ret. apply HQ; [done|done|by rewrite Hml|].
      intros ->. by destruct Hop1.
    + ev_value aux_argument.
      ev_decorate_with addCapability_spec.
      apply wp_ret. apply HQ; [done|done|by rewrite Hml|].
      intros ->. by destruct Hop1.
  - case_bool_decide as Hop2.
    + apply wp_bind, wp_must. cbv beta.
      ev_value aux_argument. apply wp_ret. apply HQ; [done|done|by rewrite Hml|done].
    + ev_intern aux_argument. apply wp_ret. apply HQ; [done|done|by rewrite Hml|done].
Qed.

Lemma wp_sample_result_id comparison instruction Q s :
  lowerable (llvm.result instruction) = true →
  builder_wf (builder s) →
  (∀ ids s', evolves s s' → builder_wf (builder s') →
             (comparison = true → ids.1 = ids.2 ∧ ids.1 ≠ 0) →
             (comparison = false →
              value_map s' !! llvm.address (llvm.result instruction) = Some ids.2) →
             Q ids s') →
  wp (sample_result_id comparison instruction) Q s.
Proof.
  intros Hlow Hwf HQ. unfold sample_result_id.
  assert (evolves s s) as Hrun by done.
  destruct comparison.
  - ev_allocate sampled_value_id. apply wp_ret. by apply HQ.
  - ev_value id. apply wp_ret. by apply HQ.
Qed.

Lemma wp_sample_result_type comparison instruction elements element_type Q s :
  llvm.getType (llvm.result instruction) = llvm.StructTy elements →
  length elements = 5%nat →
  elements !! 0%nat = Some element_type →
  builder_wf (builder s) →
  (∀ type_id s', evolves s s' → builder_wf (builder s') →
                 (comparison = true →
                  ∀ width, float_width element_type = Some width →
                           lookup_id (builder s') type_id = Some (TypeFloat width)) →
                 (comparison = false →
                  ∃ component, lookup_id (builder s') type_id
                               = Some (TypeVector component 4)) →
                 Q type_id s') →
  wp (sample_result_type comparison instruction) Q s.
Proof.
  intros Htype Hlen Helem Hwf HQ. unfold sample_result_type.
  assert (evolves s s) as Hrun by done.
  rewrite Htype. simpl. rewrite Hlen, Helem.
  apply wp_bind, wp_must. apply wp_bind, wp_assert. apply wp_bind, wp_must.
  cbv beta.
  ev_build_with get_type_id_spec type_id.
  destruct comparison; simpl.
  - apply wp_ret. apply HQ; try done.
    intros _ width Hw. apply Hfact.
    destruct element_type; simpl in Hw; try done; injection Hw as <-; auto.
  - ev_intern vector_type. apply HQ; try done. eauto.
Qed.

Lemma wp_sample_arguments block combined coord dref image_ops aux offsets Q s :
  builder_wf (builder s) →
  (∀ built s' coord_id offset_id vectors,
     evolves s s' → builder_wf (builder s') →
     built.1 = sample_argument_list combined coord_id dref image_ops aux offset_id →
     IRBlock.operations built.2 = IRBlock.operations block ++ vectors →
     Forall (λ o, Operation.op o = spv.OpCompositeConstruct) vectors →
     (coord = [coord_id] ∨
      ∃ o float_type,
        o ∈ vectors ∧ Operation.id o = coord_id ∧ Operation.arguments o = coord ∧
        lookup_id (builder s') (Operation.type_id o)
        = Some (TypeVector float_type (Z.of_nat (length coord))) ∧
        lookup_id (builder s') float_type = Some (TypeFloat 32)) →
     (nonzero (Z.land image_ops spv.ImageOperandsConstOffsetMask) = true →
      offsets = [offset_id] ∨
      ∃ o int_type,
        o ∈ vectors ∧ Operation.id o = offset_id ∧ Operation.arguments o = offsets ∧
        lookup_id (builder s') (Operation.type_id o)
        = Some (TypeVector int_type (Z.of_nat (length offsets))) ∧
        lookup_id (builder s') int_type = Some (TypeInt 32 true)) →
     Q built s') →
  wp (sample_arguments block combined coord dref image_ops aux offsets) Q s.
Proof.
  intros Hwf HQ. unfold sample_arguments.
  assert (evolves s s) as Hrun by done.
  ev_intern float_type.
  apply wp_bind. apply wp_build_vector; [done| |].
  - intros e ->. cbv beta. simpl fst. simpl snd.
    destruct (nonzero (Z.land image_ops spv.ImageOperandsConstOffsetMask)) eqn:Hoff.
    + apply wp_bind. ev_intern int_type.
      apply wp_bind. apply wp_build_vector; [done| |].
      * intros o ->. cbv beta. apply wp_ret. cbv beta. apply wp_ret.
        eapply (HQ _ _ e o []); try done.
        -- unfold sample_argument_list. simpl. rewrite Hoff.
           repeat case_match; simpl; by rewrite <- ?app_assoc.
        -- simpl. by rewrite app_nil_r.
        -- by left.
        -- by left.
      * intros id type_id s' Hlen Hev Hwf' Hid Htype. cbv beta. apply wp_ret.
        cbv beta. apply wp_ret.
        eapply (HQ _ _ e id [_]); try done.
        -- by etrans.
        -- unfold sample_argument_list. simpl. rewrite Hoff.
           repeat case_match; simpl; by rewrite <- ?app_assoc.
        -- by repeat constructor.
        -- by left.
        -- intros _. right. eexists _, int_type.
           split_and!; [apply list_elem_of_here|done|done|done|].
           by eapply lookup_id_extends; [apply evolves_builder|].
    + apply wp_bind, wp_ret. apply wp_ret.
      eapply (HQ _ _ e 0 []); try done.
      * unfold sample_argument_list. simpl. rewrite Hoff.
        repeat case_match; simpl; by rewrite <- ?app_assoc.
      * simpl. by rewrite app_nil_r.
      * by left.
  - intros coord_id coord_type s1 Hlen1 Hev1 Hwf1 Hid1 Htype1. cbv beta.
    simpl fst. simpl snd.
    assert (lookup_id (builder s1) float_type = Some (TypeFloat 32)) as Hfloat1
      by by eapply lookup_id_extends; [apply evolves_builder|].
    assert (evolves s s1) as Hrun1 by by etrans.
    clear Hrun Hev1.
    destruct (nonzero (Z.land image_ops spv.ImageOperandsConstOffsetMask)) eqn:Hoff.
    + apply wp_bind. ev_intern int_type.
      apply wp_bind. apply wp_build_vector; [done| |].
      * intros o ->. cbv beta. apply wp_ret. cbv beta. apply wp_ret.
        eapply (HQ _ _ coord_id o [_]); try done.
        -- unfold sample_argument_list. simpl. rewrite Hoff.
           repeat case_match; simpl; by rewrite <- ?app_assoc.
        -- by repeat constructor.
        -- right. eexists _, float_type.
           split_and!; [apply list_elem_of_here|done..].
        -- by left.
      * intros id type_id s' Hlen Hev Hwf' Hid Htype. cbv beta. apply wp_ret.
        cbv beta. apply wp_ret.
        eapply (HQ _ _ coord_id id [_; _]); try done.
        -- by etrans.
        -- unfold sample_argument_list. simpl. rewrite Hoff.
           repeat case_match; simpl; by rewrite <- ?app_assoc.
        -- simpl. by rewrite <- app_assoc.
        -- by repeat constructor.
        -- right. eexists _, float_type.
           split_and!; [apply list_elem_of_here|done|done| |];
             by eapply lookup_id_extends; [apply evolves_builder|].
        -- intros _. right. eexists _, int_type.
           split_and!; [apply list_elem_of_further, list_elem_of_here|done|done|done|].
           by eapply lookup_id_extends; [apply evolves_builder|].
    + apply wp_bind, wp_ret. apply wp_ret.
      eapply (HQ _ _ coord_id 0 [_]); try done.
      * unfold sample_argument_list. simpl. rewrite Hoff.
        repeat case_match; simpl; by rewrite <- ?app_assoc.
      * by repeat constructor.
      * right. eexists _, float_type.
        split_and!; [apply list_elem_of_here|done..].
Qed.

Lemma wp_sample_splat comparison block instruction sampled_value_id Q s :
  lowerable (llvm.result instruction) = true →
  builder_wf (builder s) →
  (comparison = false → Q block s) →
  (∀ id type_id float_type s',
     comparison = true →
     evolves s s' → builder_wf (builder s') →
     value_map s' !! llvm.address (llvm.result instruction) = Some id →
     lookup_id (builder s') type_id = Some (TypeVector float_type 4) →
     lookup_id (builder s') float_type = Some (TypeFloat 32) →
     Q (push_operation
          {| Operation.op := spv.OpCompositeConstruct; Operation.id := id;
             Operation.type_id := type_id;
             Operation.arguments :=
               [sampled_value_id; sampled_value_id; sampled_value_id;
                sampled_value_id] |} block) s') →
  wp (sample_splat comparison block instruction sampled_value_id) Q s.
Proof.
  intros Hlow Hwf Hno Hyes. unfold sample_splat.
  assert (evolves s s) as Hrun by done.
  destruct comparison.
  - ev_value id. ev_intern float_type. ev_intern type_id.
    apply wp_ret. by eapply Hyes.
  - apply wp_ret. by apply Hno.
Qed.

(** The fold over the offset entries sets [ConstOffset] when an entry asks. *)
Lemma with_const_offset_set image_ops entries :
  with_const_offset (Z.lor image_ops spv.ImageOperandsConstOffsetMask) entries
  = Z.lor image_ops spv.ImageOperandsConstOffsetMask.
Proof.
  unfold with_const_offset. revert image_ops.
  induction entries as [|[id flag] entries IH]; intros ops; simpl; [done|].
  destruct flag; [|apply IH].
  rewrite <- Z.lor_assoc, Z.lor_diag. apply IH.
Qed.

Lemma with_const_offset_spec image_ops entries :
  with_const_offset image_ops entries
  = if existsb snd entries
    then Z.lor image_ops spv.ImageOperandsConstOffsetMask else image_ops.
Proof.
  revert image_ops. induction entries as [|[id flag] entries IH]; intros ops; [done|].
  destruct flag; simpl.
  - apply with_const_offset_set.
  - apply IH.
Qed.

Lemma existsb_lookup {B} (f : nat → bool) (g : B → bool) (l : list B) :
  (∀ k x, l !! k = Some x → g x = f k) →
  existsb g l = existsb f (seq 0 (length l)).
Proof.
  revert f. induction l as [|x l IH]; intros f Hfg; simpl; [done|].
  rewrite (Hfg 0%nat x eq_refl). f_equal.
  rewrite (IH (λ k, f (S k))); [|intros k y Hk; by apply (Hfg (S k))].
  clear. generalize 0%nat. induction (length l) as [|n IHn]; intros m; simpl; [done|].
  by rewrite IHn.
Qed.

Lemma any_offset_defined_entries instruction entries s :
  (∀ k entry, entries !! k = Some entry → offset_entry_ok instruction k entry s) →
  existsb snd entries = any_offset_defined instruction (length entries).
Proof.
  intros Hok. unfold any_offset_defined. apply existsb_lookup.
  intros k entry Hk. destruct (Hok k entry Hk) as (operand & Hop & Hflag & _).
  unfold offset_defined. by rewrite Hop.
Qed.

(** [emit_sample_instruction] on a call it can lower returns, and leaves the
    sample operation described by [sample_lowered]. *)
Lemma emit_sample_instruction_lowered opcode block instruction s num_coords element_type :
  sample_call_ok opcode instruction s num_coords element_type →
  ∃ block' s',
    emit_sample_instruction opcode block instruction s = Some (block', s') ∧
    evolves s s' ∧ builder_wf (builder s') ∧
    sample_lowered opcode instruction num_coords element_type block s' block'.
Proof.
  intros [Hlen Hlow Hoffsets Himage Hresult Hwf].
  assert (11 ≤ length (llvm.operands instruction))%nat as Hlen11.
  { unfold operand_count in Hlen. case_bool_decide; lia. }
  apply Forall_cons in Hlow as [Hlowr Hlow].
  destruct Himage as (image_handle & image_type & sampled_type & dim & depth & arrayed
                      & ms & sampled & format & Hhandle & Htype & Himage & Hdim).
  destruct Hresult as (elements & Hstruct & Hfive & Helem).
  assert (num_coords ≤ 3)%nat as Hnc.
  { destruct dim; simpl in Hdim; try done; injection Hdim as <-; lia. }
  cut (wp (emit_sample_instruction opcode block instruction)
         (λ block' s', evolves s s' ∧ builder_wf (builder s') ∧
                       sample_lowered opcode instruction num_coords element_type
                         block s' block') s).
  { intros (block' & s' & Hrun & H). by exists block', s'. }
  unfold emit_sample_instruction. fold (is_comparison opcode).
  rewrite Hhandle. apply wp_bind, wp_must. cbv beta.
  destruct (lookup_lt_is_Some_2 (llvm.operands instruction) 2 ltac:(lia))
    as [sampler_handle Hsampler].
  unfold llvm.getOperand at 1. rewrite Hsampler. apply wp_bind, wp_must. cbv beta.
  apply wp_bind, wp_get. cbv beta.
  set (image_id := map_at (handle_to_ptr_id s) (llvm.address image_handle)) in *.
  set (sampler_id := map_at (handle_to_ptr_id s) (llvm.address sampler_handle)).
  apply wp_bind. eapply wp_build_sampled_image; [done|done|done|].
  intros combined combined_type new_image_type s1 Hev1 Hwf1 Hcombined _ _.
  cbv beta. simpl fst. simpl snd.
  pose proof (lookup_id_extends _ _ _ _ (evolves_builder _ _ Hev1) Himage) as Himage1.
  unfold get_type_id_of_id.
  apply wp_bind, wp_bind, wp_get. cbv beta.
  rewrite (evolves_id_to_type _ _ Hev1), Htype. apply wp_ret.
  apply wp_bind. eapply wp_query; [unfold getTypeDimensionality; by rewrite Himage1|].
  apply wp_bind. eapply wp_query; [unfold isArrayedImageType; by rewrite Himage1|].
  cbv beta. rewrite Hdim.
  apply wp_bind. apply wp_sample_coords; [destruct arrayed; lia|done|done|].
  intros coord s2 Hev2 Hwf2 Hcoord Hcoords. cbv beta.
  apply wp_bind. apply wp_sample_offsets; [done|done|].
  intros entries s3 Hev3 Hwf3 Hentries Hentry. cbv beta.
  rewrite with_const_offset_spec, (any_offset_defined_entries _ _ _ Hentry), Hentries.
  apply wp_bind. apply wp_sample_dref; [done|done|done|].
  intros dref s4 Hev4 Hwf4 Hdref. cbv beta.
  apply wp_bind. apply wp_sample_aux; [done|done|done|].
  intros aux s5 Hev5 Hwf5 Hmask Haux. cbv beta.
  fold (sample_mask opcode instruction num_coords) in Hmask. rewrite Hmask.
  apply wp_bind. apply wp_sample_result_id; [done|done|].
  intros ids s6 Hev6 Hwf6 Hcmp_id Hplain_id. cbv beta.
  apply wp_bind. eapply wp_sample_result_type; [done|done|done|done|].
  intros type_id s7 Hev7 Hwf7 Hcmp_type Hplain_type. cbv beta.
  apply wp_bind. apply wp_sample_arguments; [done|].
  intros built s8 coord_id offset_id vectors Hev8 Hwf8 Hargs Hops Hvectors
    Hcoordinate Hoffset.
  cbv beta.
  assert (evolves s2 s8) as Hev28 by (repeat (etrans; [eassumption|]); done).
  apply wp_sample_splat; [done|done| |].
  - (* no comparison *)
    intros Hcmp.
    assert (evolves s s8) as Htotal by (repeat (etrans; [eassumption|]); done).
    split_and!; [done|done|].
    eexists (_ :: vectors), _, [], combined, coord_id, dref, aux.1, offset_id, entries.*1.
    split_and!.
    + simpl. rewrite Hops. simpl. by rewrite <- !app_assoc.
    + by eexists _, _.
    + done.
    + simpl. done.
    + done.
    + intros Hop. eapply lookup_id_extends; [|by apply Haux].
      apply evolves_builder. repeat (etrans; [eassumption|]). done.
    + by rewrite length_fmap.
    + intros k id Hk. apply list_lookup_fmap_Some in Hk as ([id' flag] & -> & Hk).
      destruct (Hentry _ _ Hk) as (operand & Hop & _ & Hlook).
      exists operand. split; [done|].
      eapply lookup_id_extends; [|done].
      apply evolves_builder. repeat (etrans; [eassumption|]). done.
    + intros Hany.
      assert (nonzero (Z.land (sample_mask opcode instruction num_coords)
                         spv.ImageOperandsConstOffsetMask) = true) as Hbit.
      { unfold sample_mask. rewrite Hany.
        destruct (min_lod_defined opcode instruction); unfold sample_image_ops;
          repeat case_bool_decide; done. }
      destruct (Hoffset Hbit) as [?|(o & int_type & Ho & Hid & Harg & Hvector & Hint)];
        [by left|right].
      exists o. split_and!; try done.
      * by right.
      * rewrite Forall_forall in Hvectors. by apply Hvectors.
      * by exists int_type.
    + rewrite Hcmp. simpl.
      eapply evolves_value_map; [|by apply Hplain_id].
      repeat (etrans; [eassumption|]). done.
    + by rewrite Hcmp.
    + intros _. split; [done|].
      destruct (Hplain_type Hcmp) as (component & Hcomp). exists component. simpl.
      eapply lookup_id_extends; [|done].
      apply evolves_builder. repeat (etrans; [eassumption|]). done.
    + exists coord. split_and!.
      * exists image_handle, image_type, sampled_type, dim, depth, arrayed, ms, sampled,
          format.
        split_and!;
          [done| |by apply (lookup_id_extends _ _ _ _ (evolves_builder _ _ Htotal))|done].
        by rewrite (evolves_id_to_type _ _ Htotal), (evolves_handle_to_ptr_id _ _ Htotal).
      * intros k id Hk. destruct (Hcoords k id Hk) as (operand & Hoperand & Hid).
        exists operand. split; [done|]. by apply (evolves_value_map _ _ Hev28).
      * destruct Hcoordinate as [?|(o & float_type & Ho & Hid & Harg & Hvector & Hfloat)];
          [by left|right].
        exists o, float_type. split_and!; try done.
        -- by right.
        -- rewrite Forall_forall in Hvectors. by apply Hvectors.
  - (* comparison *)
    intros id splat_type float_type s9 Hcmp Hev9 Hwf9 Hvalue Hsplat Hfloat.
    assert (evolves s s9) as Htotal by (repeat (etrans; [eassumption|]); done).
    destruct (Hcmp_id Hcmp) as [Hsame Hnz].
    split_and!; [done|done|].
    eexists (_ :: vectors), _, [_], combined, coord_id, dref, aux.1, offset_id, entries.*1.
    split_and!.
    + simpl. rewrite Hops. simpl. by rewrite <- !app_assoc.
    + by eexists _, _.
    + done.
    + simpl. done.
    + done.
    + intros Hop. eapply lookup_id_extends; [|by apply Haux].
      apply evolves_builder. repeat (etrans; [eassumption|]). done.
    + by rewrite length_fmap.
    + intros k id' Hk. apply list_lookup_fmap_Some in Hk as ([id'' flag] & -> & Hk).
      destruct (Hentry _ _ Hk) as (operand & Hop & _ & Hlook).
      exists operand. split; [done|].
      eapply lookup_id_extends; [|done].
      apply evolves_builder. repeat (etrans; [eassumption|]). done.
    + intros Hany.
      assert (nonzero (Z.land (sample_mask opcode instruction num_coords)
                         spv.ImageOperandsConstOffsetMask) = true) as Hbit.
      { unfold sample_mask. rewrite Hany.
        destruct (min_lod_defined opcode instruction); unfold sample_image_ops;
          repeat case_bool_decide; done. }
      destruct (Hoffset Hbit) as [?|(o & int_type & Ho & Hid & Harg & Hvector & Hint)];
        [by left|right].
      exists o. split_and!; try done.
      * by right.
      * rewrite Forall_forall in Hvectors. by apply Hvectors.
      * exists int_type.
        split; by apply (lookup_id_extends _ _ _ _ (evolves_builder _ _ Hev9)).
    + rewrite Hcmp. simpl. done.
    + intros _. simpl. split_and!.
      * by rewrite <- Hsame.
      * intros width Hw. eapply lookup_id_extends; [|by apply Hcmp_type].
        apply evolves_builder. repeat (etrans; [eassumption|]). done.
      * exists id, splat_type, float_type. rewrite <- Hsame. done.
    + by rewrite Hcmp.
    + exists coord. split_and!.
      * exists image_handle, image_type, sampled_type, dim, depth, arrayed, ms, sampled,
          format.
        split_and!;
          [done| |by apply (lookup_id_extends _ _ _ _ (evolves_builder _ _ Htotal))|done].
        by rewrite (evolves_id_to_type _ _ Htotal), (evolves_handle_to_ptr_id _ _ Htotal).
      * intros k id' Hk. destruct (Hcoords k id' Hk) as (operand & Hoperand & Hid).
        exists operand. split; [done|].
        by apply (evolves_value_map _ _ Hev9), (evolves_value_map _ _ Hev28).
      * destruct Hcoordinate
          as [?|(o & coord_type & Ho & Hid & Harg & Hvector & Hfloat32)];
          [by left|right].
        exists o, coord_type. split_and!; try done.
        -- by right.
        -- rewrite Forall_forall in Hvectors. by apply Hvectors.
        -- by apply (lookup_id_extends _ _ _ _ (evolves_builder _ _ Hev9)).
        -- by apply (lookup_id_extends _ _ _ _ (evolves_builder _ _ Hev9)).
Qed.

Lemma any_offset_defined_iff instruction num_coords :
  any_offset_defined instruction num_coords = true ↔
  some_offset_defined instruction num_coords.
Proof.
  unfold any_offset_defined, some_offset_defined, offset_defined.
  rewrite existsb_exists. split.
  - intros (i & Hi & Hdef). apply in_seq in Hi.
    destruct (llvm.getOperand instruction (i + 7)) as [operand|] eqn:Hop; [|done].
    exists i, operand. split_and!; [lia|done|by apply negb_true_iff].
  - intros (i & operand & Hi & Hop & Hdef). exists i. split.
    + apply in_seq. lia.
    + by rewrite Hop, Hdef.
Qed.

(** [ConstOffset] is in the mask exactly when an offset operand is defined. *)
Lemma sample_mask_const_offset opcode instruction num_coords :
  Z.land (sample_mask opcode instruction num_coords) spv.ImageOperandsConstOffsetMask ≠ 0
  ↔ any_offset_defined instruction num_coords = true.
Proof.
  unfold sample_mask, sample_image_ops.
  destruct (any_offset_defined instruction num_coords),
    (min_lod_defined opcode instruction); repeat case_bool_decide; simpl; done.
Qed.

(** C1 (as amended): of the [num_coords] offset operands, an undef one
    contributes the constant 0 and an integer constant its literal; the
    [ConstOffset] bit of the image operands is set if and only if some offset
    operand is not undef, be it a zero constant, and then the vector of the
    offsets follows in the arguments. *)
Theorem const_offset_iff_offset_defined :
  ∀ (opcode : DXIL.Op) (block : IRBlock.t) (instruction : llvm.Instruction)
    (s : Impl) (num_coords : nat) (element_type : llvm.type),
    sample_call_ok opcode instruction s num_coords element_type →
    ∃ (block' : IRBlock.t) (s' : Impl) (before : list Operation.t)
      (sample : Operation.t) (splat : list Operation.t)
      (combined coord dref mask aux offset : Z) (offsets : list Id),
      emit_sample_instruction opcode block instruction s = Some (block', s') ∧
      IRBlock.operations block'
      = IRBlock.operations block ++ before ++ [sample] ++ splat ∧
      Operation.op sample = sample_op opcode ∧
      Operation.arguments sample
      = sample_argument_list combined coord dref mask aux offset ∧
      (Z.land mask spv.ImageOperandsConstOffsetMask ≠ 0
       ↔ some_offset_defined instruction num_coords) ∧
      length offsets = num_coords ∧
      (∀ k id, offsets !! k = Some id →
         ∃ operand value,
           llvm.getOperand instruction (k + 7) = Some operand ∧
           lookup_id (builder s') id = Some (ConstantSint value) ∧
           (llvm.isa_UndefValue operand = true → value = 0) ∧
           (∀ apint, llvm.classof operand = llvm.ConstantInt apint →
                     value = to_int32
                               (llvm.getSExtValue
                                  (llvm.getIntegerBitWidth (llvm.getType operand)) apint))) ∧
      (some_offset_defined instruction num_coords →
       offsets = [offset] ∨
       ∃ o, o ∈ before ∧ Operation.op o = spv.OpCompositeConstruct ∧
            Operation.id o = offset ∧ Operation.arguments o = offsets).
Proof.
  intros opcode block instruction s num_coords element_type Hok.
  destruct (emit_sample_instruction_lowered opcode block instruction s num_coords
              element_type Hok)
    as (block' & s' & Hrun & _ & _ & before & sample & splat & combined & coord & dref
        & aux & offset & offsets & Hops & _ & Hop & Hargs & _ & _ & Hlen & Hoffsets
        & Hvector & _).
  exists block', s', before, sample, splat, combined, coord, dref,
    (sample_mask opcode instruction num_coords), aux, offset, offsets.
  split_and!; try done.
  - rewrite sample_mask_const_offset. apply any_offset_defined_iff.
  - intros k id Hk. destruct (Hoffsets k id Hk) as (operand & Hoperand & Hlook).
    exists operand, (offset_literal operand). split_and!; try done.
    + unfold llvm.isa_UndefValue, offset_literal.
      by destruct (llvm.classof operand).
    + intros apint Hcls. unfold offset_literal. by rewrite Hcls.
  - intros Hsome. apply any_offset_defined_iff in Hsome.
    destruct (Hvector Hsome) as [?|(o & Ho & Hvop & Hid & Harguments & _)]; [by left|].
    right. by exists o.
Qed.

(** C9 as stated fails on [SampleCmpLevelZero] with the offsets [(1, -1)]:
    the emitted [OpImageSampleDrefExplicitLod] has five arguments, the vector
    of the offsets after the four that the claim lists, and [ConstOffset] in
    its mask. *)
Lemma sample_cmp_level_zero_fifth_argument :
  ∃ block' s' sample image coord lod offset,
    emit_sample_instruction DXIL.SampleCmpLevelZero sampling_block
      cmp_level_zero_offset_sample sampling_state
    = Some (block', s') ∧
    IRBlock.operations block' !! 5%nat = Some sample ∧
    Operation.op sample = spv.OpImageSampleDrefExplicitLod ∧
    Operation.arguments sample
    = [image; coord;
       Z.lor spv.ImageOperandsLodMask spv.ImageOperandsConstOffsetMask; lod; offset].
Proof.
  eexists _, _, _, _, _, _, _. split_and!.
  - vm_compute. reflexivity.
  - reflexivity.
  - reflexivity.
  - reflexivity.
Qed.

(** C9 (as amended): for [SampleCmpLevelZero] the
    [OpImageSampleDrefExplicitLod] operation gets no dref argument, which is
    gathered for [SampleCmp] alone.  Its arguments are the sampled image, the
    coordinate (the id of operand 3, or the vector made of the ids of
    operands 3, 4, ...), the image operands mask and a float constant 0.0 as
    the Lod.  These four are all of them when every offset operand is undef,
    and the mask is [Lod]; when some offset operand is not undef the mask is
    [Lod | ConstOffset] and a fifth argument follows, the constant offset
    made of the offset operands. *)
Theorem sample_cmp_level_zero_arguments :
  ∀ (block : IRBlock.t) (instruction : llvm.Instruction) (s : Impl)
    (num_coords : nat) (element_type : llvm.type),
    sample_call_ok DXIL.SampleCmpLevelZero instruction s num_coords element_type →
    ∃ (block' : IRBlock.t) (s' : Impl) (image : Operation.t)
      (vectors : list Operation.t) (sample : Operation.t) (splat : list Operation.t)
      (coord mask lod : Z) (rest : list Z),
      emit_sample_instruction DXIL.SampleCmpLevelZero block instruction s
      = Some (block', s') ∧
      IRBlock.operations block'
      = IRBlock.operations block ++ (image :: vectors) ++ [sample] ++ splat ∧
      Operation.op image = spv.OpSampledImage ∧
      Operation.op sample = spv.OpImageSampleDrefExplicitLod ∧
      Operation.arguments sample = [Operation.id image; coord; mask; lod] ++ rest ∧
      sample_coordinate instruction num_coords (image :: vectors) coord s' ∧
      Z.land mask spv.ImageOperandsLodMask ≠ 0 ∧
      lookup_id (builder s') lod = Some (ConstantFloat 0) ∧
      (¬ some_offset_defined instruction num_coords →
       mask = spv.ImageOperandsLodMask ∧ rest = []) ∧
      (some_offset_defined instruction num_coords →
       mask = Z.lor spv.ImageOperandsLodMask spv.ImageOperandsConstOffsetMask ∧
       ∃ offset, rest = [offset] ∧
                 sample_constant_offset instruction num_coords (image :: vectors)
                   offset s').
Proof.
  intros block instruction s num_coords element_type Hok.
  destruct (emit_sample_instruction_lowered _ block instruction s num_coords
              element_type Hok)
    as (block' & s' & Hrun & _ & _ & before & sample & splat & combined & coord & dref
        & aux & offset & offsets & Hops & (image & vectors & -> & Himage & <- & _)
        & Hop & Hargs & Hdref & Haux & Hlen & Hoffsets & Hvector & _ & _ & _ & Hcoord).
  rewrite (Hdref ltac:(done)) in Hargs.
  assert (sample_mask DXIL.SampleCmpLevelZero instruction num_coords
          = if any_offset_defined instruction num_coords
            then Z.lor spv.ImageOperandsLodMask spv.ImageOperandsConstOffsetMask
            else spv.ImageOperandsLodMask) as Hmask.
  { unfold sample_mask, min_lod_defined. simpl. by destruct (any_offset_defined _ _). }
  rewrite Hmask in Hargs.
  pose proof (any_offset_defined_iff instruction num_coords) as Hiff.
  destruct (any_offset_defined instruction num_coords) eqn:Hany.
  - exists block', s', image, vectors, sample, splat, coord,
      (Z.lor spv.ImageOperandsLodMask spv.ImageOperandsConstOffsetMask), aux, [offset].
    split_and!; try done.
    + by apply Haux.
    + intros Hnone. destruct Hnone. by apply Hiff.
    + intros _. split; [done|]. exists offset. split; [done|].
      exists offsets. split_and!; [done|done|].
      destruct (Hvector eq_refl)
        as [?|(o & Ho & Hvop & Hid & Harguments & int_type & Htype & Hint)]; [by left|].
      right. by exists o, int_type.
  - exists block', s', image, vectors, sample, splat, coord,
      spv.ImageOperandsLodMask, aux, [].
    split_and!; try done.
    + by apply Haux.
    + intros Hsome. apply Hiff in Hsome. done.
Qed.

(** C4: for [SampleCmp] and [SampleCmpLevelZero] the sample operation has a
    scalar float result type, and the id of the HLIR instruction is that of
    the [OpCompositeConstruct] that follows it, of type vector of four 32-bit
    floats, with the sample's id as each of its four arguments; for the other
    sampling opcodes the sample operation has a four-component vector type,
    carries the instruction's id, and nothing follows it. *)
Theorem comparison_sample_is_splat :
  ∀ (opcode : DXIL.Op) (block : IRBlock.t) (instruction : llvm.Instruction)
    (s : Impl) (num_coords : nat) (element_type : llvm.type) (width : Z),
    sample_call_ok opcode instruction s num_coords element_type →
    float_width element_type = Some width →
    ∃ (block' : IRBlock.t) (s' : Impl) (before : list Operation.t)
      (sample : Operation.t) (splat : list Operation.t),
      emit_sample_instruction opcode block instruction s = Some (block', s') ∧
      IRBlock.operations block'
      = IRBlock.operations block ++ before ++ [sample] ++ splat ∧
      Operation.op sample = sample_op opcode ∧
      (opcode = DXIL.SampleCmp ∨ opcode = DXIL.SampleCmpLevelZero →
       Operation.id sample ≠ 0 ∧
       lookup_id (builder s') (Operation.type_id sample) = Some (TypeFloat width) ∧
       ∃ id type_id float_type,
         splat = [{| Operation.op := spv.OpCompositeConstruct; Operation.id := id;
                     Operation.type_id := type_id;
                     Operation.arguments :=
                       [Operation.id sample; Operation.id sample;
                        Operation.id sample; Operation.id sample] |}] ∧
         lookup_id (builder s') type_id = Some (TypeVector float_type 4) ∧
         lookup_id (builder s') float_type = Some (TypeFloat 32) ∧
         value_map s' !! llvm.address (llvm.result instruction) = Some id) ∧
      (opcode ≠ DXIL.SampleCmp ∧ opcode ≠ DXIL.SampleCmpLevelZero →
       splat = [] ∧
       value_map s' !! llvm.address (llvm.result instruction)
       = Some (Operation.id sample) ∧
       ∃ component, lookup_id (builder s') (Operation.type_id sample)
                    = Some (TypeVector component 4)).
Proof.
  intros opcode block instruction s num_coords element_type width Hok Hwidth.
  destruct (emit_sample_instruction_lowered opcode block instruction s num_coords
              element_type Hok)
    as (block' & s' & Hrun & _ & _ & before & sample & splat & combined & coord & dref
        & aux & offset & offsets & Hops & _ & Hop & _ & _ & _ & _ & _ & _ & Hvalue
        & Hcmp & Hplain & _).
  exists block', s', before, sample, splat. split_and!; try done.
  - intros Hopcode.
    assert (is_comparison opcode = true) as His by by apply bool_decide_eq_true.
    destruct (Hcmp His) as (Hid & Htype & id & type_id & float_type & -> & Hvec & Hfloat).
    rewrite His in Hvalue. split_and!; [done|by apply Htype|].
    by exists id, type_id, float_type.
  - intros [Hne1 Hne2].
    assert (is_comparison opcode = false) as His.
    { apply bool_decide_eq_false. by intros [?|?]. }
    destruct (Hplain His) as (-> & Hvec). rewrite His in Hvalue. done.
Qed.

(** [sample_call_ok] of a call given in full, in a state given in full. *)
Ltac sample_call_ok_by_computation :=
  split;
  [ vm_compute; lia
  | repeat constructor
  | intros i Hi; destruct i as [|[|[|]]]; try lia;
    (eexists; split; [reflexivity|]);
    first [left; reflexivity | right; reflexivity]
  | eexists _, _, _, _, _, _, _, _, _; split_and!;
    [reflexivity | vm_compute; reflexivity | vm_compute; reflexivity | reflexivity]
  | eexists; split_and!; reflexivity
  | split; refine (bool_decide_unpack _ _); vm_compute; exact I ].

(** C1 as stated fails on [Sample] with the offsets [(0, 0)]:
    every offset operand is undef or the constant 0, and the mask of the
    emitted [OpImageSampleImplicitLod] is [ConstOffset]. *)
Lemma const_offset_set_by_zero_offsets :
  (∀ i, (i < 3)%nat →
        ∃ operand, llvm.getOperand zero_offset_sample (i + 7) = Some operand ∧
                   (llvm.classof operand = llvm.UndefValue ∨
                    llvm.classof operand = llvm.ConstantInt 0)) ∧
  ∃ block' s' sample image coord offset,
    emit_sample_instruction DXIL.Sample sampling_block zero_offset_sample sampling_state
    = Some (block', s') ∧
    last (IRBlock.operations block') = Some sample ∧
    Operation.op sample = spv.OpImageSampleImplicitLod ∧
    Operation.arguments sample = [image; coord; spv.ImageOperandsConstOffsetMask; offset].
Proof.
  split.
  - intros i Hi. destruct i as [|[|[|]]]; try lia;
      (eexists; split; [reflexivity|]); [right|right|left]; reflexivity.
  - eexists _, _, _, _, _, _. split_and!.
    + vm_compute. reflexivity.
    + reflexivity.
    + reflexivity.
    + reflexivity.
Qed.

Lemma const_offset_iff_offset_defined_witness :
  sample_call_ok DXIL.Sample zero_offset_sample sampling_state 2 llvm.FloatTy ∧
  ∃ (block' : IRBlock.t) (s' : Impl) (before : list Operation.t)
    (sample : Operation.t) (splat : list Operation.t)
    (combined coord dref mask aux offset : Z) (offsets : list Id),
    emit_sample_instruction DXIL.Sample sampling_block zero_offset_sample sampling_state
    = Some (block', s') ∧
    IRBlock.operations block'
    = IRBlock.operations sampling_block ++ before ++ [sample] ++ splat ∧
    Operation.op sample = sample_op DXIL.Sample ∧
    Operation.arguments sample
    = sample_argument_list combined coord dref mask aux offset ∧
    (Z.land mask spv.ImageOperandsConstOffsetMask ≠ 0
     ↔ some_offset_defined zero_offset_sample 2) ∧
    length offsets = 2%nat ∧
    (∀ k id, offsets !! k = Some id →
       ∃ operand value,
         llvm.getOperand zero_offset_sample (k + 7) = Some operand ∧
         lookup_id (builder s') id = Some (ConstantSint value) ∧
         (llvm.isa_UndefValue operand = true → value = 0) ∧
         (∀ apint, llvm.classof operand = llvm.ConstantInt apint →
                   value = to_int32
                             (llvm.getSExtValue
                                (llvm.getIntegerBitWidth (llvm.getType operand)) apint))) ∧
    (some_offset_defined zero_offset_sample 2 →
     offsets = [offset] ∨
     ∃ o, o ∈ before ∧ Operation.op o = spv.OpCompositeConstruct ∧
          Operation.id o = offset ∧ Operation.arguments o = offsets).
Proof.
  assert (sample_call_ok DXIL.Sample zero_offset_sample sampling_state 2 llvm.FloatTy)
    as Hok by sample_call_ok_by_computation.
  split; [exact Hok|].
  exact (const_offset_iff_offset_defined DXIL.Sample sampling_block zero_offset_sample
           sampling_state 2 llvm.FloatTy Hok).
Defined.

Lemma sample_cmp_level_zero_arguments_witness :
  sample_call_ok DXIL.SampleCmpLevelZero cmp_level_zero_offset_sample sampling_state 2
    llvm.FloatTy ∧
  ∃ (block' : IRBlock.t) (s' : Impl) (image : Operation.t)
    (vectors : list Operation.t) (sample : Operation.t) (splat : list Operation.t)
    (coord mask lod : Z) (rest : list Z),
    emit_sample_instruction DXIL.SampleCmpLevelZero sampling_block
      cmp_level_zero_offset_sample sampling_state
    = Some (block', s') ∧
    IRBlock.operations block'
    = IRBlock.operations sampling_block ++ (image :: vectors) ++ [sample] ++ splat ∧
    Operation.op image = spv.OpSampledImage ∧
    Operation.op sample = spv.OpImageSampleDrefExplicitLod ∧
    Operation.arguments sample = [Operation.id image; coord; mask; lod] ++ rest ∧
    sample_coordinate cmp_level_zero_offset_sample 2 (image :: vectors) coord s' ∧
    Z.land mask spv.ImageOperandsLodMask ≠ 0 ∧
    lookup_id (builder s') lod = Some (ConstantFloat 0) ∧
    (¬ some_offset_defined cmp_level_zero_offset_sample 2 →
     mask = spv.ImageOperandsLodMask ∧ rest = []) ∧
    (some_offset_defined cmp_level_zero_offset_sample 2 →
     mask = Z.lor spv.ImageOperandsLodMask spv.ImageOperandsConstOffsetMask ∧
     ∃ offset, rest = [offset] ∧
               sample_constant_offset cmp_level_zero_offset_sample 2 (image :: vectors)
                 offset s').
Proof.
  assert (sample_call_ok DXIL.SampleCmpLevelZero cmp_level_zero_offset_sample
            sampling_state 2 llvm.FloatTy) as Hok by sample_call_ok_by_computation.
  split; [exact Hok|].
  exact (sample_cmp_level_zero_arguments sampling_block cmp_level_zero_offset_sample
           sampling_state 2 llvm.FloatTy Hok).
Defined.

Lemma comparison_sample_is_splat_witness :
  sample_call_ok DXIL.SampleCmpLevelZero cmp_level_zero_sample sampling_state 2
    llvm.FloatTy ∧
  float_width llvm.FloatTy = Some 32 ∧
  ∃ (block' : IRBlock.t) (s' : Impl) (before : list Operation.t)
    (sample : Operation.t) (splat : list Operation.t),
    emit_sample_instruction DXIL.SampleCmpLevelZero sampling_block cmp_level_zero_sample
      sampling_state
    = Some (block', s') ∧
    IRBlock.operations block'
    = IRBlock.operations sampling_block ++ before ++ [sample] ++ splat ∧
    Operation.op sample = sample_op DXIL.SampleCmpLevelZero ∧
    (DXIL.SampleCmpLevelZero = DXIL.SampleCmp ∨
     DXIL.SampleCmpLevelZero = DXIL.SampleCmpLevelZero →
     Operation.id sample ≠ 0 ∧
     lookup_id (builder s') (Operation.type_id sample) = Some (TypeFloat 32) ∧
     ∃ id type_id float_type,
       splat = [{| Operation.op := spv.OpCompositeConstruct; Operation.id := id;
                   Operation.type_id := type_id;
                   Operation.arguments :=
                     [Operation.id sample; Operation.id sample;
                      Operation.id sample; Operation.id sample] |}] ∧
       lookup_id (builder s') type_id = Some (TypeVector float_type 4) ∧
       lookup_id (builder s') float_type = Some (TypeFloat 32) ∧
       value_map s' !! llvm.address (llvm.result cmp_level_zero_sample) = Some id) ∧
    (DXIL.SampleCmpLevelZero ≠ DXIL.SampleCmp ∧
     DXIL.SampleCmpLevelZero ≠ DXIL.SampleCmpLevelZero →
     splat = [] ∧
     value_map s' !! llvm.address (llvm.result cmp_level_zero_sample)
     = Some (Operation.id sample) ∧
     ∃ component, lookup_id (builder s') (Operation.type_id sample)
                  = Some (TypeVector component 4)).
Proof.
  assert (sample_call_ok DXIL.SampleCmpLevelZero cmp_level_zero_sample sampling_state 2
            llvm.FloatTy) as Hok by sample_call_ok_by_computation.
  split_and!; [exact Hok|reflexivity|].
  exact (comparison_sample_is_splat DXIL.SampleCmpLevelZero sampling_block
           cmp_level_zero_sample sampling_state 2 llvm.FloatTy 32 Hok eq_refl).
Defined.

(** ** The traversal of the control flow graph *)

Lemma reachable_in_function function b :
  function_closed function → reachable function b →
  is_Some (ir.blocks function !! b).
Proof.
  intros [Hentry Hclosed]. induction 1 as [|b data succ _ _ Hdata Hsucc]; [done|].
  pose proof (map_Forall_lookup_1 _ _ _ _ Hclosed Hdata) as Hall.
  rewrite Forall_forall in Hall. by apply Hall.
Qed.

Lemma registered_ext function handled handled' pool s :
  (∀ b, handled b = handled' b) →
  registered function handled pool s → registered function handled' pool s.
Proof.
  intros Hext [H1 H2 H3 H4 H5 H6 H7 H8].
  split; try done.
  - intros b succ. rewrite <- Hext. apply H5.
  - intros b. rewrite <- Hext. apply H6.
  - intros b m Hb. destruct (H7 b m Hb) as (node & Hnode & Hsucc).
    exists node. split; [done|]. intros n. rewrite <- Hext. apply Hsucc.
Qed.

(** A block gets its meta and its node. *)
Lemma registered_block function handled pool s succ name :
  registered function handled pool s →
  bb_map s !! succ = None →
  reachable function succ →
  registered function handled (create_node name pool).2
    (set_bb_map (<[succ := length (metas s)]> (bb_map s))
       (set_metas (metas s ++ [{| bb := succ; node := Some (create_node name pool).1 |}]) s)).
Proof.
  intros [Hlen Hmeta Howner Hreach Hhandled Hfresh Hedges Hentry] Hnew Hsucc.
  assert (∀ b m, bb_map s !! b = Some m → b ≠ succ) as Hne.
  { intros b m Hb ->. by rewrite Hnew in Hb. }
  assert (∀ b m, bb_map s !! b = Some m → (m < length pool)%nat) as Hlt.
  { intros b m Hb. rewrite <- Hlen. eapply lookup_lt_Some. by apply Hmeta. }
  split; simpl.
  - rewrite !length_app. simpl. lia.
  - intros b m. destruct (decide (b = succ)) as [->|Hb].
    + rewrite lookup_insert_eq. intros [= <-].
      rewrite lookup_app_r by done. rewrite Nat.sub_diag. simpl. by rewrite Hlen.
    + rewrite lookup_insert_ne by done. intros Hm.
      apply lookup_app_l_Some. by apply Hmeta.
  - intros m meta Hm. apply lookup_app_Some in Hm as [Hm|[Hge Hm]].
    + rewrite lookup_insert_ne; [by apply Howner|].
      intros Heq. apply Howner in Hm. rewrite <- Heq, Hnew in Hm. done.
    + apply list_lookup_singleton_Some in Hm as [Hm <-]. simpl.
      rewrite lookup_insert_eq. f_equal. lia.
  - intros b m. destruct (decide (b = succ)) as [->|Hb]; [done|].
    rewrite lookup_insert_ne by done. apply Hreach.
  - intros b x Hx. apply Hhandled in Hx as [m Hx]. exists m.
    rewrite lookup_insert_ne; [done|]. intros <-. by rewrite Hnew in Hx.
  - intros b. destruct (decide (b = succ)) as [->|Hb].
    + intros _. by apply Hfresh.
    + rewrite lookup_insert_ne by done. apply Hfresh.
  - intros b m. destruct (decide (b = succ)) as [->|Hb].
    + rewrite lookup_insert_eq. intros [= <-]. eexists. split.
      * rewrite lookup_app_r by lia. rewrite Hlen, Nat.sub_diag. done.
      * intros n. simpl. rewrite (Hfresh _ Hnew). split; [set_solver|].
        intros (x & Hx & _). by apply elem_of_nil in Hx.
    + rewrite lookup_insert_ne by done. intros Hm.
      destruct (Hedges b m Hm) as (node & Hnode & Hsuccs).
      exists node. split; [by apply lookup_app_l_Some|].
      intros n. rewrite Hsuccs. split; intros (x & Hx & Hn); exists x; split; try done.
      * rewrite lookup_insert_ne; [done|]. intros <-. by rewrite Hnew in Hn.
      * rewrite lookup_insert_ne in Hn; [done|].
        intros <-. apply Hhandled in Hx as [? Hx]. by rewrite Hnew in Hx.
  - destruct Hentry as (data & node & Hdata & Hmap & Hpool & Hname).
    exists data, node. split_and!; try done.
    + rewrite lookup_insert_ne; [done|]. intros ->. by rewrite Hnew in Hmap.
    + by apply lookup_app_l_Some.
Qed.

(** An edge is added for a successor that is registered. *)
Lemma registered_edge function handled pool s block succ m n :
  registered function handled pool s →
  bb_map s !! block = Some m →
  bb_map s !! succ = Some n →
  registered function
    (λ b, if decide (b = block) then handled b ++ [succ] else handled b)
    (add_branch m n pool) s.
Proof.
  intros [Hlen Hmeta Howner Hreach Hhandled Hfresh Hedges Hentry] Hblock Hsucc.
  unfold add_branch.
  assert (∀ b, bb_map s !! b = Some m → b = block) as Hinj.
  { intros b Hb. apply Hmeta in Hb. apply Hmeta in Hblock.
    rewrite Hb in Hblock. by injection Hblock. }
  split.
  - by rewrite length_alter.
  - done.
  - done.
  - done.
  - intros b x. case_decide as Hb; [|by apply Hhandled].
    intros [Hx| ->%list_elem_of_singleton]%elem_of_app; [by eapply Hhandled|by eexists].
  - intros b Hb. rewrite decide_False; [by apply Hfresh|].
    intros ->. by rewrite Hblock in Hb.
  - intros b m' Hb. destruct (Hedges b m' Hb) as (node & Hnode & Hsuccs).
    destruct (decide (m = m')) as [<-|Hm].
    + rewrite (Hinj b Hb), decide_True by done.
      exists (CFGNode.add_successor n node). split.
      * by rewrite list_lookup_alter_eq, Hnode.
      * intros n'. simpl. rewrite elem_of_union, elem_of_singleton, Hsuccs.
        rewrite (Hinj b Hb). split.
        -- intros [->|(x & Hx & Hn)].
           ++ exists succ. split; [|done]. apply elem_of_app. right.
              apply list_elem_of_here.
           ++ exists x. split; [|done]. apply elem_of_app. by left.
        -- intros (x & [Hx| ->%list_elem_of_singleton]%elem_of_app & Hn).
           ++ right. by exists x.
           ++ left. rewrite Hsucc in Hn. by injection Hn.
    + rewrite decide_False.
      * exists node. split; [by rewrite list_lookup_alter_ne|done].
      * intros ->. rewrite Hblock in Hb. by injection Hb.
  - destruct Hentry as (data & node & Hdata & Hmap & Hpool & Hname).
    destruct (decide (m = 0%nat)) as [->|Hm].
    + exists data, (CFGNode.add_successor n node). split_and!; try done.
      by rewrite list_lookup_alter_eq, Hpool.
    + exists data, node. split_and!; try done.
      by rewrite list_lookup_alter_ne.
Qed.

Lemma wp_node_of b m meta Q s :
  bb_map s !! b = Some m → metas s !! m = Some meta →
  Q (node meta) s → wp (node_of b) Q s.
Proof.
  intros Hb Hm HQ. unfold node_of.
  apply wp_bind, wp_get. rewrite Hb. apply wp_bind, wp_must.
  apply wp_bind, wp_get. rewrite Hm. apply wp_bind, wp_must.
  by apply wp_ret.
Qed.

Lemma discovers_refl t s t' s' :
  to_process t' = to_process t → bb_map s' = bb_map s → discovers t s t' s'.
Proof.
  intros Hto Hmap. exists []. rewrite Hmap. split_and!.
  - by rewrite app_nil_r.
  - constructor.
  - intros b Hb. by apply elem_of_nil in Hb.
  - intros b. split; [by left|]. intros [?|Hb]; [done|]. by apply elem_of_nil in Hb.
Qed.

Lemma discovers_trans t1 s1 t2 s2 t3 s3 :
  discovers t1 s1 t2 s2 → discovers t2 s2 t3 s3 → discovers t1 s1 t3 s3.
Proof.
  intros (new1 & Hto1 & Hnd1 & Hnew1 & Hdom1) (new2 & Hto2 & Hnd2 & Hnew2 & Hdom2).
  exists (new1 ++ new2). split_and!.
  - by rewrite Hto2, Hto1, app_assoc.
  - apply NoDup_app. split_and!; [done| |done].
    intros b Hb1 Hb2. apply Hnew2 in Hb2.
    assert (is_Some (bb_map s2 !! b)) as [? Hsome] by (apply Hdom1; by right).
    by rewrite Hb2 in Hsome.
  - intros b [Hb|Hb]%elem_of_app; [by apply Hnew1|].
    apply Hnew2 in Hb. apply eq_None_not_Some. intros Hsome.
    assert (is_Some (bb_map s2 !! b)) as [? Hs2] by (apply Hdom1; by left).
    by rewrite Hb in Hs2.
  - intros b. rewrite Hdom2, Hdom1, elem_of_app. tauto.
Qed.

(** One successor: it is registered if it was not, and its edge is recorded. *)
Lemma wp_register_successor function handled block data t succ s m :
  function_closed function →
  registered function handled (pool t) s →
  bb_map s !! block = Some m →
  ir.blocks function !! block = Some data →
  succ ∈ ir.successors (ir.getTerminator data) →
  wp (register_successor function block t succ)
    (λ t' s',
       registered function
         (λ b, if decide (b = block) then handled b ++ [succ] else handled b)
         (pool t') s' ∧
       visit_order t' = visit_order t ∧
       bb_map s' !! block = Some m ∧
       discovers t s t' s') s.
Proof.
  intros Hclosed Hreg Hblock Hdata Hsucc.
  assert (reachable function succ) as Hreach.
  { eapply reachable_succ; [|done|done]. by eapply reg_reachable. }
  unfold register_successor. apply wp_bind, wp_get.
  destruct (bb_map s !! succ) as [n|] eqn:Hn.
  - apply wp_bind, wp_ret.
    apply wp_bind. eapply wp_node_of; [done|by eapply reg_meta|]. simpl.
    apply wp_bind, wp_must.
    apply wp_bind. eapply wp_node_of; [done|by eapply reg_meta|]. simpl.
    apply wp_bind, wp_must. apply wp_ret. simpl.
    split_and!; [by apply registered_edge|done|done|by apply discovers_refl].
  - destruct (reachable_in_function _ _ Hclosed Hreach) as [data' Hdata'].
    rewrite Hdata'.
    apply wp_bind, wp_bind, wp_must. apply wp_bind.
    unfold register_block. apply wp_modify. apply wp_ret.
    pose proof (registered_block _ _ _ _ succ (ir.getName data') Hreg Hn Hreach) as Hreg'.
    set (s' := set_bb_map _ _) in *.
    assert (bb_map s' !! block = Some m) as Hblock'.
    { subst s'. simpl. rewrite lookup_insert_ne; [done|].
      intros ->. by rewrite Hn in Hblock. }
    assert (bb_map s' !! succ = Some (length (pool t))) as Hsucc'.
    { subst s'. simpl. rewrite lookup_insert_eq. f_equal. by eapply reg_metas. }
    apply wp_bind. eapply wp_node_of; [done|by eapply reg_meta|]. simpl.
    apply wp_bind, wp_must.
    apply wp_bind. eapply wp_node_of; [done|by eapply reg_meta|]. simpl.
    apply wp_bind, wp_must. apply wp_ret. simpl.
    split_and!; [by apply registered_edge|done|done|].
    exists [succ]. split_and!.
    + done.
    + apply NoDup_singleton.
    + by intros b ->%list_elem_of_singleton.
    + intros b. subst s'. simpl. rewrite list_elem_of_singleton.
      destruct (decide (b = succ)) as [->|Hb].
      * rewrite lookup_insert_eq. split; [by right|by eexists].
      * rewrite lookup_insert_ne by done. split; [by left|]. by intros [?|?].
Qed.

Lemma wp_register_successors function block data m :
  function_closed function →
  ir.blocks function !! block = Some data →
  ∀ rest handled t s,
    (∀ succ, succ ∈ rest → succ ∈ ir.successors (ir.getTerminator data)) →
    registered function handled (pool t) s →
    bb_map s !! block = Some m →
    wp (for_each_with rest t (register_successor function block))
      (λ t' s',
         registered function
           (λ b, if decide (b = block) then handled b ++ rest else handled b)
           (pool t') s' ∧
         visit_order t' = visit_order t ∧
         discovers t s t' s') s.
Proof.
  intros Hclosed Hdata. induction rest as [|succ rest IH]; intros handled t s Hin Hreg Hblock.
  - simpl. apply wp_ret. split_and!; [|done|by apply discovers_refl].
    eapply registered_ext; [|done]. intros b. simpl. case_decide; [|done].
    by rewrite app_nil_r.
  - simpl. apply wp_bind.
    eapply wp_mono.
    { eapply wp_register_successor; [done|done|done|done|].
      apply Hin, list_elem_of_here. }
    intros t1 s1 (Hreg1 & Hvisit1 & Hblock1 & Hdisc1). cbv beta.
    eapply wp_mono.
    { apply IH; [|done|done]. intros x Hx. by apply Hin, list_elem_of_further. }
    intros t2 s2 (Hreg2 & Hvisit2 & Hdisc2). cbv beta.
    split_and!.
    + eapply registered_ext; [|done]. intros b. simpl.
      case_decide; [|done]. by rewrite <- app_assoc.
    + by rewrite Hvisit2.
    + by eapply discovers_trans.
Qed.

(** One block of the work list: it is visited and the edges to all its
    successors are recorded. *)
Lemma wp_process_block function handled t block s m :
  function_closed function →
  registered function handled (pool t) s →
  bb_map s !! block = Some m →
  handled block = [] →
  wp (process_block function t block)
    (λ t' s',
       ∃ data,
         ir.blocks function !! block = Some data ∧
         registered function
           (λ b, if decide (b = block) then ir.successors (ir.getTerminator data)
                 else handled b)
           (pool t') s' ∧
         visit_order t' = visit_order t ++ [block] ∧
         discovers t s t' s') s.
Proof.
  intros Hclosed Hreg Hblock Hnone.
  destruct (reachable_in_function function block Hclosed) as [data Hdata].
  { by eapply reg_reachable. }
  unfold process_block. rewrite Hdata. apply wp_bind, wp_must.
  eapply wp_mono.
  { eapply wp_register_successors; [done|done| |done|done]. done. }
  intros t' s' (Hreg' & Hvisit' & Hdisc'). cbv beta. simpl in *.
  exists data. split_and!; [done| |done|done].
  eapply registered_ext; [|done]. intros b. simpl.
  case_decide as Hb; [|done]. by rewrite Hb, Hnone.
Qed.

(** One round: the blocks of [processing] are visited in order. *)
Lemma wp_process_blocks function :
  function_closed function →
  ∀ processing t s,
    traversed function (visit_order t) t s →
    NoDup (visit_order t ++ processing) →
    (∀ b, b ∈ processing → is_Some (bb_map s !! b)) →
    wp (for_each_with processing t (process_block function))
      (λ t' s', traversed function (visit_order t ++ processing) t' s' ∧
                discovers t s t' s') s.
Proof.
  intros Hclosed. induction processing as [|block rest IH]; intros t s Htr Hnd Hdom.
  - simpl. apply wp_ret. rewrite app_nil_r. split; [done|by apply discovers_refl].
  - simpl. destruct Htr as (handled & Hreg & _ & Hfull & Hnone).
    destruct (Hdom block) as [m Hblock]; [apply list_elem_of_here|].
    assert (block ∉ visit_order t) as Hnotin.
    { apply NoDup_app in Hnd as (_ & Hdisj & _). intros Hin.
      eapply Hdisj; [done|]. apply list_elem_of_here. }
    apply wp_bind.
    eapply wp_mono.
    { eapply wp_process_block; [done|done|done|by apply Hnone]. }
    intros t1 s1 (data & Hdata & Hreg1 & Hvisit1 & Hdisc1). cbv beta.
    eapply wp_mono.
    { apply IH.
      - eexists. split_and!; [done|done| |].
        + intros b data' Hb Hdata'. cbv beta. case_decide as Heq.
          * subst b. rewrite Hdata in Hdata'. by injection Hdata' as <-.
          * apply Hfull; [|done]. rewrite Hvisit1 in Hb.
            apply elem_of_app in Hb as [Hb|Hb%list_elem_of_singleton]; done.
        + intros b Hb. rewrite Hvisit1 in Hb. cbv beta. rewrite decide_False.
          * apply Hnone. intros Hin. apply Hb, elem_of_app. by left.
          * intros ->. apply Hb, elem_of_app. right. apply list_elem_of_here.
      - rewrite Hvisit1, <- app_assoc. done.
      - intros b Hb. destruct Hdisc1 as (new & _ & _ & _ & Hgrow).
        apply Hgrow. left. by apply Hdom, list_elem_of_further. }
    intros t2 s2 (Htr2 & Hdisc2). cbv beta.
    split; [|by eapply discovers_trans].
    rewrite Hvisit1, <- app_assoc in Htr2. done.
Qed.

Lemma length_le_size_blocks {A} (l : list positive) (m : gmap positive A) :
  NoDup l → (∀ x, x ∈ l → is_Some (m !! x)) → (length l ≤ size m)%nat.
Proof.
  intros Hnd Hin.
  rewrite <- (size_list_to_set (C := gset positive) l Hnd), <- size_dom.
  apply subseteq_size. intros x Hx.
  apply elem_of_list_to_set in Hx. by apply elem_of_dom, Hin.
Qed.

(** The rounds: with as much fuel as the function has blocks the work list
    runs empty, and then every registered block has been visited. *)
Lemma wp_traverse function :
  function_closed function →
  ∀ fuel t s,
    traversed function (visit_order t) t s →
    NoDup (visit_order t ++ to_process t) →
    (∀ b, is_Some (bb_map s !! b) ↔ b ∈ visit_order t ++ to_process t) →
    (size (ir.blocks function) ≤ fuel + length (visit_order t))%nat →
    wp (traverse fuel function t)
      (λ t' s', traversed function (visit_order t') t' s' ∧
                to_process t' = [] ∧
                NoDup (visit_order t') ∧
                ∀ b, is_Some (bb_map s' !! b) ↔ b ∈ visit_order t') s.
Proof.
  intros Hclosed. induction fuel as [|fuel IH]; intros t s Htr Hnd Hdom Hfuel.
  - destruct (to_process t) as [|block rest] eqn:Hto; simpl; rewrite Hto.
    + apply wp_ret. rewrite app_nil_r in Hnd, Hdom. done.
    + exfalso.
      assert (length (visit_order t ++ block :: rest) ≤ size (ir.blocks function))%nat
        as Hle.
      { apply length_le_size_blocks; [done|].
        intros b Hb. apply Hdom in Hb as [m Hb].
        destruct Htr as (handled & Hreg & _).
        apply reachable_in_function; [done|]. by eapply reg_reachable. }
      rewrite length_app in Hle. simpl in Hle. lia.
  - destruct (to_process t) as [|block rest] eqn:Hto; simpl; rewrite Hto.
    + apply wp_ret. rewrite app_nil_r in Hnd, Hdom. done.
    + apply wp_bind.
      eapply wp_mono.
      { apply (wp_process_blocks function Hclosed (block :: rest)
                 {| pool := pool t; to_process := []; visit_order := visit_order t |}).
        - done.
        - done.
        - intros b Hb. apply Hdom, elem_of_app. by right. }
      intros t1 s1 ((handled & Hreg1 & Hvisit1 & Hfull1 & Hnone1)
                    & new & Hto1 & Hnew & Hfresh & Hgrow).
      cbv beta. simpl in *.
      apply IH.
      * rewrite Hvisit1. by exists handled.
      * rewrite Hvisit1, Hto1. apply NoDup_app. split_and!; [done| |done].
        intros b Hb Hb'. apply Hfresh in Hb'.
        apply Hdom in Hb as [? Hb]. by rewrite Hb' in Hb.
      * intros b. rewrite Hvisit1, Hto1, Hgrow, Hdom, (elem_of_app _ new). done.
      * rewrite Hvisit1, length_app. simpl. lia.
Qed.

Lemma block_node_registered function handled pool s b :
  registered function handled pool s → block_node s b = bb_map s !! b.
Proof.
  intros Hreg. unfold block_node.
  destruct (bb_map s !! b) as [m|] eqn:Hb; simpl; [|done].
  by rewrite (reg_meta _ _ _ _ Hreg b m Hb).
Qed.

(** The entry block with its meta and its node, before the first round. *)
Lemma registered_entry function s data :
  ir.blocks function !! ir.getEntryBlock function = Some data →
  bb_map s = ∅ → metas s = [] →
  registered function (λ _, [])
    (create_node (ir.getName data +:+ ".entry") []).2
    (set_bb_map (<[ir.getEntryBlock function := length (metas s)]> (bb_map s))
       (set_metas
          (metas s ++ [{| bb := ir.getEntryBlock function;
                          node := Some (create_node (ir.getName data +:+ ".entry") []).1 |}])
          s)).
Proof.
  intros Hdata -> ->. simpl.
  assert (∀ b m, (<[ir.getEntryBlock function := 0%nat]> (∅ : gmap positive nat)) !! b
                 = Some m → b = ir.getEntryBlock function ∧ m = 0%nat) as Honly.
  { intros b m Hb. apply lookup_insert_Some in Hb as [[<- <-]|[_ Hb]]; [done|].
    by rewrite lookup_empty in Hb. }
  split; simpl.
  - done.
  - intros b m Hb. by destruct (Honly b m Hb) as [-> ->].
  - intros [|m] meta Hm; simpl in Hm; [|done].
    injection Hm as <-. simpl. by rewrite lookup_insert_eq.
  - intros b m Hb. destruct (Honly b m Hb) as [-> _]. constructor.
  - intros b succ Hsucc. by apply elem_of_nil in Hsucc.
  - done.
  - intros b m Hb. destruct (Honly b m Hb) as [-> ->]. eexists. split; [done|].
    intros n. simpl. split; [set_solver|].
    intros (x & Hx & _). by apply elem_of_nil in Hx.
  - exists data. eexists. split_and!; [done|by rewrite lookup_insert_eq|done|done].
Qed.

(** C3: the traversal returns; the blocks in [bb_map] are then the blocks
    that the entry block reaches, each with a meta and a node of its own in
    the pool; the successors of the node are the nodes of the block's
    successors; the name of the entry node is the name of the entry block
    followed by [.entry]. *)
Theorem discover_blocks_registers_reachable :
  ∀ (function : ir.Function) (s : Impl),
    function_closed function → bb_map s = ∅ → metas s = [] →
    ∃ (t : Traversal) (s' : Impl),
      discover_blocks function s = Some (t, s') ∧
      (∀ b, is_Some (bb_map s' !! b) ↔ reachable function b) ∧
      (∀ b, reachable function b →
            ∃ n node data,
              block_node s' b = Some n ∧
              (∀ b', block_node s' b' = Some n → b' = b) ∧
              pool t !! n = Some node ∧
              ir.blocks function !! b = Some data ∧
              ∀ n', n' ∈ CFGNode.successors node ↔
                    ∃ succ, succ ∈ ir.successors (ir.getTerminator data) ∧
                            block_node s' succ = Some n') ∧
      (∃ n node data,
         block_node s' (ir.getEntryBlock function) = Some n ∧
         pool t !! n = Some node ∧
         ir.blocks function !! ir.getEntryBlock function = Some data ∧
         CFGNode.name node = ir.getName data +:+ ".entry") ∧
      (∀ n, (n < length (pool t))%nat → ∃ b, block_node s' b = Some n) ∧
      NoDup (visit_order t) ∧
      (∀ b, b ∈ visit_order t ↔ reachable function b).
Proof.
  intros function s Hclosed Hmap Hmetas.
  destruct (proj1 Hclosed) as [entry_data Hentry].
  cut (wp (discover_blocks function)
         (λ t s', traversed function (visit_order t) t s' ∧
                  to_process t = [] ∧
                  NoDup (visit_order t) ∧
                  ∀ b, is_Some (bb_map s' !! b) ↔ b ∈ visit_order t) s).
  { intros (t & s' & Hrun & (handled & Hreg & _ & Hfull & Hnone) & Hto & Hnd & Hdom).
    assert (∀ b, reachable function b → is_Some (bb_map s' !! b)) as Hall.
    { induction 1 as [|b data succ _ IH Hdata Hsucc].
      - destruct (reg_entry _ _ _ _ Hreg) as (? & ? & _ & Hzero & _). by eexists.
      - eapply reg_handled; [done|].
        rewrite (Hfull b data); [done|by apply Hdom|done]. }
    assert (∀ b, block_node s' b = bb_map s' !! b) as Hnode.
    { intros b. by eapply block_node_registered. }
    exists t, s'. split_and!; try done.
    - intros b. split; [|by apply Hall].
      intros [m Hb]. by eapply reg_reachable.
    - intros b Hb. destruct (Hall b Hb) as [n Hn].
      destruct (reg_edges _ _ _ _ Hreg b n Hn) as (node & Hpool & Hsuccs).
      destruct (reachable_in_function function b Hclosed Hb) as [data Hdata].
      exists n, node, data. split_and!; try done.
      + by rewrite Hnode.
      + intros b'. rewrite Hnode. intros Hb'.
        pose proof (reg_meta _ _ _ _ Hreg b n Hn) as H1.
        pose proof (reg_meta _ _ _ _ Hreg b' n Hb') as H2.
        rewrite H1 in H2. by injection H2.
      + intros n'. rewrite Hsuccs, (Hfull b data); [|by apply Hdom; eexists|done].
        split; intros (succ & Hsucc & Hn'); exists succ; split; try done.
        * by rewrite Hnode.
        * by rewrite <- Hnode.
    - destruct (reg_entry _ _ _ _ Hreg) as (data & node & Hdata & Hzero & Hpool & Hname).
      exists 0%nat, node, data. split_and!; try done. by rewrite Hnode.
    - intros n Hn. rewrite <- (reg_metas _ _ _ _ Hreg) in Hn.
      destruct (lookup_lt_is_Some_2 _ _ Hn) as [meta Hmeta].
      exists (bb meta). rewrite Hnode. by eapply reg_owner.
    - intros b. rewrite <- Hdom. split; [|by apply Hall].
      intros [m Hb]. by eapply reg_reachable. }
  unfold discover_blocks. rewrite Hentry. apply wp_bind, wp_must.
  apply wp_bind. unfold register_block. apply wp_modify.
  pose proof (registered_entry function s entry_data Hentry Hmap Hmetas) as Hreg.
  set (s0 := set_bb_map _ _) in *.
  apply (wp_traverse function Hclosed).
  - exists (λ _, []). split_and!; try done.
    intros b data Hb. by apply elem_of_nil in Hb.
  - simpl. apply NoDup_singleton.
  - intros b. subst s0. simpl. rewrite Hmap, list_elem_of_singleton.
    split.
    + intros [m Hb]. apply lookup_insert_Some in Hb as [[<- _]|[_ Hb]]; [done|].
      by rewrite lookup_empty in Hb.
    + intros ->. rewrite lookup_insert_eq. by eexists.
  - simpl. lia.
Qed.

Lemma discover_blocks_registers_reachable_witness :
  function_closed branching_function ∧
  ∃ (t : Traversal) (s' : Impl),
    discover_blocks branching_function empty_impl = Some (t, s') ∧
    (∀ b, is_Some (bb_map s' !! b) ↔ reachable branching_function b) ∧
    (∀ b, reachable branching_function b →
          ∃ n node data,
            block_node s' b = Some n ∧
            (∀ b', block_node s' b' = Some n → b' = b) ∧
            pool t !! n = Some node ∧
            ir.blocks branching_function !! b = Some data ∧
            ∀ n', n' ∈ CFGNode.successors node ↔
                  ∃ succ, succ ∈ ir.successors (ir.getTerminator data) ∧
                          block_node s' succ = Some n') ∧
    (∃ n node data,
       block_node s' (ir.getEntryBlock branching_function) = Some n ∧
       pool t !! n = Some node ∧
       ir.blocks branching_function !! ir.getEntryBlock branching_function = Some data ∧
       CFGNode.name node = ir.getName data +:+ ".entry") ∧
    (∀ n, (n < length (pool t))%nat → ∃ b, block_node s' b = Some n) ∧
    NoDup (visit_order t) ∧
    (∀ b, b ∈ visit_order t ↔ reachable branching_function b).
Proof.
  assert (function_closed branching_function) as Hclosed.
  { split; [by eexists|]. refine (bool_decide_unpack _ _). vm_compute. exact I. }
  split; [exact Hclosed|].
  exact (discover_blocks_registers_reachable branching_function empty_impl Hclosed
           eq_refl eq_refl).
Defined.

(** ** Result types of operations *)

Lemma post_ret {A} (a : A) Q s : Q a s → post (ret a) Q s.
Proof. intros H a' s' [= <- <-]. done. Qed.

Lemma post_fail {A} (Q : A → Impl → Prop) s : post fail Q s.
Proof. intros a s' H. done. Qed.

Lemma post_bind {A B} (m : M A) (k : A → M B) Q s :
  post m (λ a s', post (k a) Q s') s → post (bind m k) Q s.
Proof.
  intros H b s'' Hrun. apply bind_Some in Hrun as (a & s' & Hm & Hk).
  by eapply H.
Qed.

(** A step whose result and state do not matter for what follows. *)
Lemma post_skip {A B} (m : M A) (k : A → M B) Q s :
  (∀ a s', post (k a) Q s') → post (bind m k) Q s.
Proof. intros H. apply post_bind. intros a s' _. apply H. Qed.

Lemma post_mono {A} (m : M A) (Q Q' : A → Impl → Prop) s :
  post m Q s → (∀ a s', Q a s' → Q' a s') → post m Q' s.
Proof. intros H HQ a s' Hrun. by apply HQ, H. Qed.

Lemma post_build f Q s :
  (∀ id b', f (builder s) = (id, b') → Q id (set_builder b' s)) → post (build f) Q s.
Proof.
  intros H id s' [= <- <-]. apply H. by destruct (f (builder s)).
Qed.

Lemma post_query {A} (f : Builder → option A) Q s :
  (∀ a, f (builder s) = Some a → Q a s) → post (query f) Q s.
Proof.
  intros H a s' Hrun. unfold query in Hrun.
  destruct (f (builder s)) as [a'|] eqn:Hf; [|done].
  injection Hrun as <- <-. by apply H.
Qed.

Lemma post_must {A} (o : option A) Q s :
  (∀ a, o = Some a → Q a s) → post (must o) Q s.
Proof. intros H a s' Hrun. destruct o as [a'|]; [|done]. injection Hrun as <- <-. by apply H. Qed.

Lemma post_get {A} (field : Impl → A) Q s : Q (field s) s → post (get field) Q s.
Proof. intros H a s' [= <- <-]. done. Qed.

Lemma post_modify f Q s : Q tt (f s) → post (modify f) Q s.
Proof. intros H [] s' [= <-]. done. Qed.

Lemma post_assert c Q s : (c = true → Q tt s) → post (assert c) Q s.
Proof. intros H a s' Hrun. destruct c; [|done]. injection Hrun as <- <-. by apply H. Qed.

(** *** The frame of the instruction emitters *)

Lemma grows_preorder : PreOrder grows.
Proof.
  split.
  - intros s. by split.
  - intros s1 s2 s3 [Hb1 Hw1 Hv1 Hm1] [Hb2 Hw2 Hv2 Hm2]. split.
    + by etrans.
    + auto.
    + congruence.
    + congruence.
Qed.
#[local] Existing Instance grows_preorder.

Lemma growing_ret {A} (a : A) : growing (ret a).
Proof. intros s. by apply post_ret. Qed.

Lemma growing_fail {A} : growing (@fail A).
Proof. intros s. apply post_fail. Qed.

Lemma growing_bind {A B} (m : M A) (k : A → M B) :
  growing m → (∀ a, growing (k a)) → growing (bind m k).
Proof.
  intros Hm Hk s. apply post_bind. intros a s1 Hrun1 b s2 Hrun2.
  etrans; [by eapply Hm|by eapply Hk].
Qed.

Lemma growing_get {A} (field : Impl → A) : growing (get field).
Proof. intros s. by apply post_get. Qed.

Lemma growing_must {A} (o : option A) : growing (must o).
Proof. intros s. by apply post_must. Qed.

Lemma growing_assert c : growing (assert c).
Proof. intros s. by apply post_assert. Qed.

Lemma growing_query {A} (f : Builder → option A) : growing (query f).
Proof. intros s. by apply post_query. Qed.

Lemma growing_build f :
  (∀ b, extends b (f b).2 ∧ (builder_wf b → builder_wf (f b).2)) → growing (build f).
Proof.
  intros Hf s. apply post_build. intros id b' Heq.
  destruct (Hf (builder s)) as [Hext Hwf]. rewrite Heq in Hext, Hwf.
  by split.
Qed.

Lemma growing_decorate f :
  (∀ b, extends b (f b) ∧ (builder_wf b → builder_wf (f b))) → growing (decorate f).
Proof. intros Hf s. apply post_modify. destruct (Hf (builder s)). by split. Qed.

Lemma growing_modify f :
  (∀ s, builder (f s) = builder s ∧ srv_index_to_id (f s) = srv_index_to_id s ∧
        sampler_index_to_id (f s) = sampler_index_to_id s) →
  growing (modify f).
Proof.
  intros Hf s. apply post_modify. destruct (Hf s) as (Hb & Hv & Hm).
  split; [by rewrite Hb|by rewrite Hb|done|done].
Qed.

Lemma get_type_id_components_extends element_type rows cols b :
  extends b (get_type_id_components element_type rows cols b).2.
Proof.
  unfold get_type_id_components.
  destruct element_type; simpl; try done;
    repeat case_decide; simpl;
    repeat first [apply intern_extends | (etrans; [|apply intern_extends])].
Qed.

Lemma get_type_id_components_wf element_type rows cols b :
  builder_wf b → builder_wf (get_type_id_components element_type rows cols b).2.
Proof.
  intros Hwf. unfold get_type_id_components.
  destruct element_type; simpl; try done;
    repeat case_decide; simpl; repeat apply intern_wf; done.
Qed.

Lemma growing_for_range {A} (body : nat → M A) count :
  (∀ i, growing (body i)) → ∀ first, growing (for_range first count body).
Proof.
  intros Hbody. induction count as [|count IH]; intros first; simpl.
  - apply growing_ret.
  - apply growing_bind; [done|]. intros a.
    apply growing_bind; [done|]. intros l. apply growing_ret.
Qed.

Lemma growing_for_each_with {A S} (l : list A) (body : S → A → M S) :
  (∀ acc x, growing (body acc x)) → ∀ acc, growing (for_each_with l acc body).
Proof.
  intros Hbody. induction l as [|x l IH]; intros acc; simpl.
  - apply growing_ret.
  - apply growing_bind; [done|]. intros acc'. apply IH.
Qed.

(** The builder calls go on from the builder they are given. *)
Ltac builder_extends :=
  intros; split;
  [ first [ apply intern_extends | apply declare_extends | apply getUniqueId_extends
          | apply get_type_id_extends | apply get_type_id_components_extends
          | apply addDecoration_extends | apply addMemberDecoration_extends
          | apply addCapability_extends ]
  | first [ apply intern_wf | apply declare_wf | apply getUniqueId_wf
          | apply get_type_id_wf | apply get_type_id_components_wf
          | apply addDecoration_wf | apply addMemberDecoration_wf
          | apply addCapability_wf ] ].

(** The frame of a member function put together from the monad's parts. *)
Ltac growing_step :=
  lazymatch goal with
  | |- growing (ret _) => apply growing_ret
  | |- growing fail => apply growing_fail
  | |- growing (get _) => apply growing_get
  | |- growing (must _) => apply growing_must
  | |- growing (assert _) => apply growing_assert
  | |- growing (query _) => apply growing_query
  | |- growing (build _) => apply growing_build; builder_extends
  | |- growing (decorate _) => apply growing_decorate; builder_extends
  | |- growing (modify _) => apply growing_modify; by intros
  | |- growing (for_range _ _ _) => apply growing_for_range; intros
  | |- growing (for_each_with _ _ _) => apply growing_for_each_with; intros
  | |- growing (bind _ _) => apply growing_bind; [|intros]
  | |- growing (match ?x with _ => _ end) => destruct x
  | |- growing _ => solve [auto]
  end.

Ltac growing_auto := repeat growing_step.

Lemma growing_get_id_for_value value forced_width :
  growing (get_id_for_value value forced_width).
Proof.
  unfold get_id_for_value, get_id_for_undef, get_id_for_constant, allocate_id.
  growing_auto.
Qed.

Lemma growing_build_sampled_image block image_id sampler_id comparison :
  growing (build_sampled_image block image_id sampler_id comparison).
Proof. unfold build_sampled_image, get_type_id_of_id, allocate_id. growing_auto. Qed.

Lemma growing_build_vector block element_type elements :
  growing (build_vector block element_type elements).
Proof. unfold build_vector, allocate_id. growing_auto. Qed.

Lemma growing_emit_sample_instruction opcode block instruction :
  growing (emit_sample_instruction opcode block instruction).
Proof.
  pose proof growing_get_id_for_value. pose proof growing_build_sampled_image.
  pose proof growing_build_vector.
  unfold emit_sample_instruction, sample_coords, sample_offset, sample_dref, sample_aux,
    sample_result_id, sample_result_type, sample_arguments, sample_splat,
    get_type_id_of_id, allocate_id.
  growing_auto.
Qed.

Lemma growing_emit_builtin_instruction codes block instruction :
  growing (emit_builtin_instruction codes block instruction).
Proof.
  pose proof growing_get_id_for_value. pose proof growing_emit_sample_instruction.
  unfold emit_builtin_instruction, emit_load_input_instruction,
    emit_store_output_instruction, emit_create_handle_instruction, load_resource_handle,
    bind_handle, emit_cbuffer_load_legacy_instruction, allocate_id.
  growing_auto.
Qed.

Lemma growing_emit_instruction codes block instruction :
  growing (emit_instruction codes block instruction).
Proof.
  pose proof growing_get_id_for_value. pose proof growing_emit_builtin_instruction.
  unfold emit_instruction, emit_binary_instruction, emit_unary_instruction,
    emit_cast_instruction, emit_getelementptr_instruction, emit_load_instruction,
    emit_store_instruction, emit_compare_instruction, emit_extract_value_instruction,
    emit_alloca_instruction, emit_select_instruction, emit_phi_instruction, node_of.
  growing_auto.
Qed.

(** *** The result type of every operation *)

Lemma get_type_id_nonzero type b :
  type_supported type = true → (get_type_id type b).1 ≠ 0.
Proof.
  destruct type; simpl; try done; intros _; try apply intern_nonzero.
  case_decide; apply intern_nonzero.
Qed.

Lemma built_nonzero (f : Builder → Id * Builder) b id b' :
  f b = (id, b') → (f b).1 ≠ 0 → id ≠ 0.
Proof. by intros ->. Qed.

Lemma appends_typed_refl block : appends_typed block block.
Proof. exists []. by rewrite app_nil_r. Qed.

Lemma appends_typed_trans block1 block2 block3 :
  appends_typed block1 block2 → appends_typed block2 block3 → appends_typed block1 block3.
Proof.
  intros (new1 & H1 & Ht1) (new2 & H2 & Ht2). exists (new1 ++ new2).
  split; [by rewrite H2, H1, app_assoc|by apply Forall_app].
Qed.

Lemma appends_typed_push o block :
  operation_typed o → appends_typed block (push_operation o block).
Proof. intros Ho. exists [o]. split; [done|by constructor]. Qed.

(** One step through a member function, for a property of what it returns:
    the builder calls are kept, with what they returned; the other steps are
    passed over. *)
Ltac post_step :=
  lazymatch goal with
  | |- post (bind (build _) _) _ _ => apply post_bind, post_build; intros ? ? ?
  | |- post (bind (query _) _) _ _ => apply post_bind, post_query; intros ? ?
  | |- post (bind (must _) _) _ _ => apply post_bind, post_must; intros ? ?
  | |- post (bind (get _) _) _ _ => apply post_bind, post_get
  | |- post (bind (ret _) _) _ _ => apply post_bind, post_ret
  | |- post (bind (bind _ _) _) _ _ => apply post_bind
  | |- post (bind (match ?x with _ => _ end) _) _ _ => destruct x eqn:?
  | |- post (bind _ _) _ _ => apply post_skip; intros ? ?
  | |- post (ret _) _ _ => apply post_ret
  | |- post fail _ _ => apply post_fail
  | |- post (build _) _ _ => apply post_build; intros ? ? ?
  | |- post (match ?x with _ => _ end) _ _ => destruct x eqn:?
  end; cbv beta zeta; cbn [fst snd].

(** The id that a builder call returned is not 0. *)
Ltac id_nonzero :=
  lazymatch goal with
  | H : ?f ?b = (?id, _) |- ?id ≠ 0 =>
      apply (built_nonzero f b _ _ H);
      first [ apply intern_nonzero | apply declare_nonzero
            | by apply get_type_id_nonzero ]
  end.

Ltac operation_typed_auto :=
  unfold operation_typed; simpl; intros ?; first [done | id_nonzero].

Ltac appends_typed_auto :=
  repeat first
    [ apply appends_typed_refl
    | (eapply appends_typed_trans; [|apply appends_typed_push; operation_typed_auto]) ].

Lemma emit_cast_instruction_typed block instruction opcode s :
  type_supported (llvm.getType (llvm.result instruction)) = true →
  post (emit_cast_instruction block instruction opcode)
    (λ block' _, appends_typed block block') s.
Proof.
  intros Hsup. unfold emit_cast_instruction. repeat post_step; appends_typed_auto.
Qed.

Lemma emit_binary_instruction_typed block instruction opcode s :
  type_supported (llvm.getType (llvm.result instruction)) = true →
  post (emit_binary_instruction block instruction opcode)
    (λ block' _, appends_typed block block') s.
Proof.
  intros Hsup. unfold emit_binary_instruction. repeat post_step; appends_typed_auto.
Qed.

Lemma emit_unary_instruction_typed block instruction opcode s :
  type_supported (llvm.getType (llvm.result instruction)) = true →
  post (emit_unary_instruction block instruction opcode)
    (λ block' _, appends_typed block block') s.
Proof.
  intros Hsup. unfold emit_unary_instruction. repeat post_step; appends_typed_auto.
Qed.

Lemma emit_getelementptr_instruction_typed block instruction in_bounds s :
  type_supported (llvm.getType (llvm.result instruction)) = true →
  post (emit_getelementptr_instruction block instruction in_bounds)
    (λ block' _, appends_typed block block') s.
Proof.
  intros Hsup. unfold emit_getelementptr_instruction.
  repeat post_step; appends_typed_auto.
Qed.

Lemma emit_load_instruction_typed block instruction s :
  type_supported (llvm.getType (llvm.result instruction)) = true →
  post (emit_load_instruction block instruction)
    (λ block' _, appends_typed block block') s.
Proof.
  intros Hsup. unfold emit_load_instruction. repeat post_step; appends_typed_auto.
Qed.

Lemma emit_store_instruction_typed block instruction s :
  post (emit_store_instruction block instruction)
    (λ block' _, appends_typed block block') s.
Proof. unfold emit_store_instruction. repeat post_step; appends_typed_auto. Qed.

Lemma emit_compare_instruction_typed block instruction predicate s :
  type_supported (llvm.getType (llvm.result instruction)) = true →
  post (emit_compare_instruction block instruction predicate)
    (λ block' _, appends_typed block block') s.
Proof.
  intros Hsup. unfold emit_compare_instruction.
  repeat post_step; appends_typed_auto.
Qed.

Lemma emit_extract_value_instruction_typed block instruction indices s :
  type_supported (llvm.getType (llvm.result instruction)) = true →
  post (emit_extract_value_instruction block instruction indices)
    (λ block' _, appends_typed block block') s.
Proof.
  intros Hsup. unfold emit_extract_value_instruction.
  repeat post_step; appends_typed_auto.
Qed.

Lemma emit_select_instruction_typed block instruction s :
  type_supported (llvm.getType (llvm.result instruction)) = true →
  post (emit_select_instruction block instruction)
    (λ block' _, appends_typed block block') s.
Proof.
  intros Hsup. unfold emit_select_instruction. repeat post_step; appends_typed_auto.
Qed.

Lemma emit_alloca_instruction_typed block instruction name s :
  post (emit_alloca_instruction block instruction name)
    (λ block' _, appends_typed block block') s.
Proof. unfold emit_alloca_instruction. repeat post_step; appends_typed_auto. Qed.

(** A phi is not an operation. *)
Lemma emit_phi_instruction_typed block instruction incoming_blocks s :
  post (emit_phi_instruction block instruction incoming_blocks)
    (λ block' _, appends_typed block block') s.
Proof.
  unfold emit_phi_instruction. repeat post_step.
  exists []. simpl. by rewrite app_nil_r.
Qed.

Lemma emit_load_input_instruction_typed block instruction s :
  type_supported (llvm.getType (llvm.result instruction)) = true →
  post (emit_load_input_instruction block instruction)
    (λ block' _, appends_typed block block') s.
Proof.
  intros Hsup. unfold emit_load_input_instruction, allocate_id.
  repeat post_step; appends_typed_auto.
Qed.

Lemma emit_store_output_instruction_typed block instruction s :
  post (emit_store_output_instruction block instruction)
    (λ block' _, appends_typed block block') s.
Proof.
  unfold emit_store_output_instruction, allocate_id.
  repeat post_step; appends_typed_auto.
Qed.

Lemma emit_cbuffer_load_legacy_instruction_typed block instruction s :
  post (emit_cbuffer_load_legacy_instruction block instruction)
    (λ block' _, appends_typed block block') s.
Proof.
  unfold emit_cbuffer_load_legacy_instruction, allocate_id.
  repeat post_step; appends_typed_auto.
Qed.

(** The loaded handle has the type the resource variable was declared with. *)
Lemma load_resource_handle_typed block instruction resource_id s :
  resources_typed s →
  resource_id ∈ srv_index_to_id s ++ sampler_index_to_id s →
  post (load_resource_handle block instruction resource_id)
    (λ block' _, appends_typed block block') s.
Proof.
  intros Hres Hin. unfold load_resource_handle.
  apply post_bind, post_query. intros type_id Htype.
  assert (type_id ≠ 0) as Hnz.
  { unfold getDerefTypeId in Htype.
    destruct (Hres resource_id Hin) as [->|(storage & type & name & Hvar & Hnz)].
    - done.
    - rewrite Hvar in Htype. by injection Htype as <-. }
  repeat post_step. apply appends_typed_push. by intros _.
Qed.

Lemma load_index_elem_of index table id :
  load_index index table = Some id → id ∈ table.
Proof.
  unfold load_index. case_decide; [|done]. apply list_elem_of_lookup_2.
Qed.

Lemma emit_create_handle_instruction_typed codes block instruction s :
  resources_typed s →
  post (emit_create_handle_instruction codes block instruction)
    (λ block' _, appends_typed block block') s.
Proof.
  intros Hres. unfold emit_create_handle_instruction, bind_handle.
  do 2 post_step.
  destruct (DXIL.to_ResourceType _ _).
  - do 2 post_step. apply load_resource_handle_typed; [done|].
    apply elem_of_app. left. by eapply load_index_elem_of.
  - repeat post_step. apply appends_typed_refl.
  - repeat post_step. apply appends_typed_refl.
  - do 2 post_step. apply load_resource_handle_typed; [done|].
    apply elem_of_app. right. by eapply load_index_elem_of.
  - repeat post_step. apply appends_typed_refl.
Qed.

Lemma build_sampled_image_typed block image_id sampler_id comparison s :
  post (build_sampled_image block image_id sampler_id comparison)
    (λ built _, appends_typed block built.2) s.
Proof.
  unfold build_sampled_image, get_type_id_of_id, allocate_id.
  repeat post_step; appends_typed_auto.
Qed.

Lemma build_vector_typed block element_type elements s :
  post (build_vector block element_type elements)
    (λ built _, appends_typed block built.2) s.
Proof.
  unfold build_vector, allocate_id.
  repeat post_step; appends_typed_auto.
Qed.

Lemma sample_arguments_typed block combined coord dref image_ops aux offsets s :
  post (sample_arguments block combined coord dref image_ops aux offsets)
    (λ built _, appends_typed block built.2) s.
Proof.
  unfold sample_arguments.
  post_step. apply post_bind.
  eapply post_mono; [apply build_vector_typed|].
  intros coord_vector s1 Hcoord. cbv beta zeta.
  destruct (nonzero (Z.land image_ops spv.ImageOperandsConstOffsetMask)).
  - apply post_bind. post_step. apply post_bind.
    eapply post_mono; [apply build_vector_typed|].
    intros offset_vector s2 Hoffset. cbv beta.
    repeat post_step. exact (appends_typed_trans _ _ _ Hcoord Hoffset).
  - repeat post_step. exact Hcoord.
Qed.

Lemma sample_result_type_nonzero comparison instruction s :
  (comparison = true →
   Forall (λ type, type_supported type = true)
     (option_list (struct_element_type (llvm.getType (llvm.result instruction)) 0))) →
  post (sample_result_type comparison instruction) (λ type_id _, type_id ≠ 0) s.
Proof.
  intros Hsup. unfold sample_result_type.
  do 4 post_step. destruct comparison; cbn [negb].
  - apply post_ret. specialize (Hsup eq_refl).
    match goal with H : struct_element_type _ _ = Some _ |- _ => rewrite H in Hsup end.
    apply Forall_cons in Hsup as [Hsup _]. id_nonzero.
  - post_step. id_nonzero.
Qed.

Lemma sample_splat_typed comparison block instruction sampled_value_id s :
  post (sample_splat comparison block instruction sampled_value_id)
    (λ block' _, appends_typed block block') s.
Proof.
  unfold sample_splat. destruct comparison; repeat post_step; appends_typed_auto.
Qed.

Lemma emit_sample_instruction_typed opcode block instruction s :
  (opcode = DXIL.SampleCmp ∨ opcode = DXIL.SampleCmpLevelZero →
   Forall (λ type, type_supported type = true)
     (option_list (struct_element_type (llvm.getType (llvm.result instruction)) 0))) →
  post (emit_sample_instruction opcode block instruction)
    (λ block' _, appends_typed block block') s.
Proof.
  intros Hsup. unfold emit_sample_instruction.
  do 3 post_step. apply post_bind.
  eapply post_mono; [apply build_sampled_image_typed|].
  intros combined s1 Hcombined. cbv beta zeta.
  do 3 post_step.
  destruct (num_coords_of_dim _) as [num_coords|]; [|by apply post_ret].
  do 5 post_step. apply post_bind.
  eapply post_mono.
  { apply sample_result_type_nonzero. intros Hcmp. apply Hsup.
    by apply bool_decide_eq_true in Hcmp. }
  intros type_id s2 Htype. cbv beta. apply post_bind.
  eapply post_mono; [apply sample_arguments_typed|].
  intros built s3 Hbuilt. cbv beta zeta.
  eapply post_mono; [apply sample_splat_typed|].
  intros block' s4 Hsplat. cbv beta.
  eapply appends_typed_trans; [|exact Hsplat].
  eapply appends_typed_trans; [|apply appends_typed_push; by intros _].
  exact (appends_typed_trans _ _ _ Hcombined Hbuilt).
Qed.

Lemma emit_instruction_typed codes block instruction s :
  resources_typed s →
  Forall (λ type, type_supported type = true) (result_types codes instruction) →
  post (emit_instruction codes block instruction)
    (λ block' _, appends_typed block block') s.
Proof.
  intros Hres Hsup. unfold emit_instruction, result_types in *.
  destruct (llvm.inst_class instruction);
    try apply Forall_cons in Hsup as [Hsup _].
  - destruct (String.prefix _ _); [|apply post_ret, appends_typed_refl].
    unfold emit_builtin_instruction.
    apply post_bind, post_must. intros code Hcode. rewrite Hcode in Hsup. simpl in Hsup.
    destruct (DXIL.to_Op codes code) eqn:Hop.
    + apply emit_load_input_instruction_typed. by apply Forall_cons in Hsup as [Hsup _].
    + apply emit_store_output_instruction_typed.
    + by apply emit_create_handle_instruction_typed.
    + apply emit_cbuffer_load_legacy_instruction_typed.
    + apply emit_sample_instruction_typed. by intros [?|?].
    + apply emit_sample_instruction_typed. by intros [?|?].
    + apply emit_sample_instruction_typed. by intros [?|?].
    + by apply emit_sample_instruction_typed.
    + by apply emit_sample_instruction_typed.
    + apply post_ret, appends_typed_refl.
  - by apply emit_binary_instruction_typed.
  - by apply emit_unary_instruction_typed.
  - by apply emit_cast_instruction_typed.
  - by apply emit_getelementptr_instruction_typed.
  - by apply emit_load_instruction_typed.
  - apply emit_store_instruction_typed.
  - by apply emit_compare_instruction_typed.
  - by apply emit_extract_value_instruction_typed.
  - apply emit_alloca_instruction_typed.
  - by apply emit_select_instruction_typed.
  - apply emit_phi_instruction_typed.
  - apply post_ret, appends_typed_refl.
Qed.

Lemma resources_typed_grows s s' :
  grows s s' → resources_typed s → resources_typed s'.
Proof.
  intros [Hb _ Hsrv Hsampler] Hres id Hid.
  rewrite Hsrv, Hsampler in Hid.
  destruct (Hres id Hid) as [->|(storage & type & name & Hvar & Hnz)]; [by left|right].
  exists storage, type, name. split; [|done]. by eapply lookup_id_extends.
Qed.

(** *** The resource tables *)

Lemma typed_state_grows s s' : grows s s' → typed_state s → typed_state s'.
Proof.
  intros Hg [Hwf Hres]. split; [by apply (grows_wf _ _ Hg)|by eapply resources_typed_grows].
Qed.

Lemma post_growing {A} (m : M A) Q s :
  growing m → (∀ a s', grows s s' → Q a s') → post m Q s.
Proof. intros Hm HQ a s' Hrun. apply HQ. by eapply Hm. Qed.

Lemma post_build_growing f Q s :
  (∀ b, extends b (f b).2 ∧ (builder_wf b → builder_wf (f b).2)) →
  (∀ id s', grows s s' → f (builder s) = (id, builder s') → Q id s') →
  post (build f) Q s.
Proof.
  intros Hf HQ. apply post_build. intros id b' Heq. apply HQ; [|done].
  destruct (Hf (builder s)) as [Hext Hwf]. rewrite Heq in Hext, Hwf. by split.
Qed.

Lemma post_for_each_inv {A} (I : Impl → Prop) (l : list A) (body : A → M unit) :
  (∀ x s, I s → post (body x) (λ _ s', I s') s) →
  ∀ s, I s → post (for_each l body) (λ _ s', I s') s.
Proof.
  intros Hbody. induction l as [|x l IH]; intros s Hs; simpl.
  - by apply post_ret.
  - apply post_bind. eapply post_mono; [by apply Hbody|].
    intros u s1 Hs1. by apply IH.
Qed.

Lemma post_for_each_with_inv {A S} (I : S → Impl → Prop) (l : list A)
    (body : S → A → M S) :
  (∀ acc x s, x ∈ l → I acc s → post (body acc x) I s) →
  ∀ acc s, I acc s → post (for_each_with l acc body) I s.
Proof.
  induction l as [|x l IH]; intros Hbody acc s Hs; simpl.
  - by apply post_ret.
  - apply post_bind. eapply post_mono; [apply Hbody; [apply list_elem_of_here|done]|].
    intros acc1 s1 Hs1. apply IH; [|done].
    intros acc' y s' Hy. apply Hbody. by apply list_elem_of_further.
Qed.

Lemma growing_for_each {A} (l : list A) (body : A → M unit) :
  (∀ x, growing (body x)) → growing (for_each l body).
Proof.
  intros Hbody. induction l as [|x l IH]; simpl.
  - apply growing_ret.
  - apply growing_bind; [done|]. by intros _.
Qed.

Lemma store_index_elem_of index id table table' x :
  store_index index id table = Some table' →
  x ∈ table' → x ∈ table ∨ x = id ∨ x = 0.
Proof.
  unfold store_index, resize. case_decide as Hindex; [|done]. intros [= <-] Hx.
  apply list_elem_of_lookup in Hx as [j Hj].
  destruct (decide (j = Z.to_nat index)) as [->|Hne].
  - rewrite list_lookup_insert_eq in Hj by lia.
    injection Hj as <-. by right; left.
  - rewrite list_lookup_insert_ne in Hj by done.
    apply lookup_app_Some in Hj as [Hj|[_ Hj]].
    + left. apply lookup_take_Some in Hj as [Hj _]. by eapply list_elem_of_lookup_2.
    + right; right. by apply lookup_replicate in Hj as [-> _].
Qed.

(** A resource variable of a type enters one of the two tables. *)
Lemma resources_typed_store s s' storage type name var_id index table' srv sampler :
  resources_typed s → grows s s' →
  lookup_id (builder s') var_id = Some (Var storage type name) → type ≠ 0 →
  (store_index index var_id (srv_index_to_id s) = Some table' ∧ srv = table' ∧
   sampler = sampler_index_to_id s ∨
   store_index index var_id (sampler_index_to_id s) = Some table' ∧
   srv = srv_index_to_id s ∧ sampler = table') →
  ∀ id, id ∈ srv ++ sampler →
        id = 0 ∨
        ∃ storage type name,
          lookup_id (builder s') id = Some (Var storage type name) ∧ type ≠ 0.
Proof.
  intros Hres Hg Hvar Hnz Hstore id Hid.
  assert (id ∈ srv_index_to_id s ++ sampler_index_to_id s ∨ id = var_id ∨ id = 0)
    as [Hold|[->| ->]].
  { rewrite elem_of_app in Hid. rewrite elem_of_app.
    destruct Hstore as [(Hstore & -> & ->)|(Hstore & -> & ->)]; destruct Hid as [Hid|Hid];
      try (left; by auto);
      destruct (store_index_elem_of _ _ _ _ _ Hstore Hid) as [?|[?|?]]; auto. }
  - destruct (Hres id Hold) as [->|(st & ty & nm & Hlook & Hty)]; [by left|right].
    exists st, ty, nm. split; [|done].
    eapply lookup_id_extends; [apply (grows_builder _ _ Hg)|done].
  - right. by exists storage, type, name.
  - by left.
Qed.

Lemma emit_srv_typed codes srv s :
  typed_state s → post (emit_srv codes srv) (λ _ s', typed_state s') s.
Proof.
  intros [Hwf Hres]. unfold emit_srv.
  apply post_bind, post_assert. intros _.
  do 7 post_step.
  apply post_bind, post_growing; [growing_auto|]. intros sampled_type_id s1 Hg1.
  apply post_bind, post_build_growing; [builder_extends|]. intros type_id s2 Hg2 Htype.
  apply post_bind, post_build_growing; [builder_extends|]. intros var_id s3 Hg3 Hvar.
  apply post_bind, post_growing; [growing_auto|]. intros _ s4 Hg4.
  apply post_bind, post_growing; [growing_auto|]. intros _ s5 Hg5.
  apply post_bind, post_get. apply post_bind, post_must. intros table' Hstore.
  apply post_modify. cbv beta.
  assert (grows s s2) as Hs2 by (by etrans).
  assert (grows s3 s5) as Hs35 by (by etrans).
  assert (grows s s5) as Hs5 by (etrans; [exact Hs2|]; by etrans).
  assert (type_id ≠ 0) as Hnz by id_nonzero.
  destruct (declare_spec (Var _ _ _) _ _ _ (grows_wf _ _ Hs2 Hwf) Hvar)
    as (_ & _ & Hlook & _).
  apply (lookup_id_extends _ _ _ _ (grows_builder _ _ Hs35)) in Hlook.
  split; simpl.
  - by apply (grows_wf _ _ Hs5).
  - unfold resources_typed. simpl.
    eapply (resources_typed_store s s5); [done|done|done|done|].
    left. rewrite <- (grows_srv_index_to_id _ _ Hs5). split_and!; [done|done|].
    by rewrite (grows_sampler_index_to_id _ _ Hs5).
Qed.

Lemma emit_sampler_typed sampler s :
  typed_state s → post (emit_sampler sampler) (λ _ s', typed_state s') s.
Proof.
  intros [Hwf Hres]. unfold emit_sampler.
  apply post_bind, post_assert. intros _.
  do 4 post_step.
  apply post_bind, post_build_growing; [builder_extends|]. intros type_id s2 Hg2 Htype.
  apply post_bind, post_build_growing; [builder_extends|]. intros var_id s3 Hg3 Hvar.
  apply post_bind, post_growing; [growing_auto|]. intros _ s4 Hg4.
  apply post_bind, post_growing; [growing_auto|]. intros _ s5 Hg5.
  apply post_bind, post_get. apply post_bind, post_must. intros table' Hstore.
  apply post_modify. cbv beta.
  assert (grows s3 s5) as Hs35 by (by etrans).
  assert (grows s s5) as Hs5 by (etrans; [exact Hg2|]; by etrans).
  assert (type_id ≠ 0) as Hnz by id_nonzero.
  destruct (declare_spec (Var _ _ _) _ _ _ (grows_wf _ _ Hg2 Hwf) Hvar)
    as (_ & _ & Hlook & _).
  apply (lookup_id_extends _ _ _ _ (grows_builder _ _ Hs35)) in Hlook.
  split; simpl.
  - by apply (grows_wf _ _ Hs5).
  - unfold resources_typed. simpl.
    eapply (resources_typed_store s s5); [done|done|done|done|].
    right. rewrite <- (grows_sampler_index_to_id _ _ Hs5). split_and!; [done| |done].
    by rewrite (grows_srv_index_to_id _ _ Hs5).
Qed.

Lemma growing_emit_cbv cbv : growing (emit_cbv cbv).
Proof. unfold emit_cbv. growing_auto. Qed.

Lemma emit_resources_typed codes module s :
  typed_state s → post (emit_resources codes module) (λ _ s', typed_state s') s.
Proof.
  intros Hs. unfold emit_resources, emit_resource_list.
  destruct (ir.getNamedMetadata module !! "dx.resources"); [|by apply post_ret].
  apply post_bind, post_must. intros metas _.
  apply post_bind.
  eapply (post_mono _ (λ _ s', typed_state s')).
  { apply post_bind, post_must. intros list _.
    assert (post (emit_srvs codes list) (λ _ s', typed_state s') s) as Hsrvs.
    { unfold emit_srvs. destruct list; try apply post_fail.
      apply (post_for_each_inv typed_state); [|done].
      intros x s0 Hs0. by apply emit_srv_typed. }
    destruct list; try done. by apply post_ret. }
  intros _ s1 Hs1. cbv beta.
  apply post_bind, post_growing.
  { unfold emit_uavs. growing_auto. }
  intros _ s2 Hg2. apply (typed_state_grows _ _ Hg2) in Hs1.
  apply post_bind, post_growing.
  { pose proof growing_emit_cbv. unfold emit_cbvs.
    growing_auto. apply growing_for_each. done. }
  intros _ s3 Hg3. apply (typed_state_grows _ _ Hg3) in Hs1.
  apply post_bind, post_must. intros list _.
  assert (post (emit_samplers list) (λ _ s', typed_state s') s3) as Hsamplers.
  { unfold emit_samplers. destruct list; try apply post_fail.
    apply (post_for_each_inv typed_state); [|done].
    intros x s0 Hs0. by apply emit_sampler_typed. }
  destruct list; try done. by apply post_ret.
Qed.

Lemma growing_emit_stage_input_variables codes module :
  growing (emit_stage_input_variables codes module).
Proof.
  unfold emit_stage_input_variables, signature_node, emit_stage_input_variable,
    emit_builtin_decoration.
  growing_auto.
Qed.

Lemma growing_emit_stage_output_variables codes module :
  growing (emit_stage_output_variables codes module).
Proof.
  unfold emit_stage_output_variables, signature_node, emit_stage_output_variable,
    emit_builtin_decoration.
  growing_auto.
Qed.

(** *** The traversal leaves the builder and the tables alone *)

Lemma growing_node_of b : growing (node_of b).
Proof. unfold node_of. growing_auto. Qed.

Lemma growing_register_successor function block t succ :
  growing (register_successor function block t succ).
Proof.
  pose proof growing_node_of.
  unfold register_successor, register_block. growing_auto.
Qed.

Lemma growing_process_block function t block : growing (process_block function t block).
Proof.
  pose proof growing_register_successor. unfold process_block. growing_auto.
Qed.

Lemma growing_traverse function fuel : ∀ t, growing (traverse fuel function t).
Proof.
  pose proof growing_process_block.
  induction fuel as [|fuel IH]; intros t; simpl; growing_auto.
Qed.

Lemma growing_discover_blocks function : growing (discover_blocks function).
Proof.
  pose proof growing_traverse. unfold discover_blocks, register_block. growing_auto.
Qed.

(** The nodes of the pool have no operations before the blocks are lowered,
    and an edge adds none. *)
Lemma add_branch_typed from to pool :
  Forall node_typed pool → Forall node_typed (add_branch from to pool).
Proof.
  intros Hpool. unfold add_branch. apply Forall_forall. intros node Hnode.
  apply list_elem_of_lookup in Hnode as [i Hi].
  rewrite Forall_forall in Hpool.
  destruct (decide (from = i)) as [->|Hne].
  - rewrite list_lookup_alter_eq in Hi.
    destruct (pool !! i) as [node'|] eqn:Hnode'; [|done]. injection Hi as <-.
    apply (Hpool node'). by eapply list_elem_of_lookup_2.
  - rewrite list_lookup_alter_ne in Hi by done.
    apply Hpool. by eapply list_elem_of_lookup_2.
Qed.

Lemma register_successor_typed function block t succ s :
  Forall node_typed (pool t) →
  post (register_successor function block t succ)
    (λ t' _, Forall node_typed (pool t')) s.
Proof.
  intros Hpool. unfold register_successor.
  apply post_bind, post_get. apply post_bind.
  eapply (post_mono _ (λ t' _, Forall node_typed (pool t'))).
  { destruct (bb_map s !! succ); [by apply post_ret|].
    repeat post_step. simpl. apply Forall_app. split; [done|].
    repeat constructor. }
  intros t1 s1 Hpool1. cbv beta.
  repeat post_step. simpl. by apply add_branch_typed.
Qed.

Lemma process_block_typed function t block s :
  Forall node_typed (pool t) →
  post (process_block function t block) (λ t' _, Forall node_typed (pool t')) s.
Proof.
  intros Hpool. unfold process_block. post_step.
  apply (post_for_each_with_inv (λ t' _, Forall node_typed (pool t'))); [|done].
  intros t1 succ s1 _ Hpool1. by apply register_successor_typed.
Qed.

Lemma traverse_typed function fuel :
  ∀ t s, Forall node_typed (pool t) →
         post (traverse fuel function t) (λ t' _, Forall node_typed (pool t')) s.
Proof.
  induction fuel as [|fuel IH]; intros t s Hpool; cbn [traverse].
  - destruct (to_process t); [by apply post_ret|apply post_fail].
  - destruct (to_process t) as [|b l]; [by apply post_ret|].
    apply post_bind.
    eapply post_mono.
    { apply (post_for_each_with_inv (λ t' _, Forall node_typed (pool t'))); [|done].
      intros t1 block s1 _ Hpool1. by apply process_block_typed. }
    intros t1 s1 Hpool1. by apply IH.
Qed.

Lemma discover_blocks_typed function s :
  post (discover_blocks function) (λ t _, Forall node_typed (pool t)) s.
Proof.
  unfold discover_blocks. do 2 post_step.
  apply traverse_typed. simpl. repeat constructor.
Qed.

(** *** The blocks *)

Lemma post_conj {A} (m : M A) (Q1 Q2 : A → Impl → Prop) s :
  post m Q1 s → post m Q2 s → post m (λ a s', Q1 a s' ∧ Q2 a s') s.
Proof. intros H1 H2 a s' Hrun. split; [by apply H1|by apply H2]. Qed.

Lemma growing_emit_terminator terminator : growing (emit_terminator terminator).
Proof.
  pose proof growing_get_id_for_value. pose proof growing_node_of.
  unfold emit_terminator. growing_auto.
Qed.

Lemma emit_block_typed codes function pool bb s :
  map_Forall
    (λ _ data,
       Forall (λ instruction,
                 Forall (λ type, type_supported type = true)
                   (result_types codes instruction))
         (ir.instructions data))
    (ir.blocks function) →
  Forall node_typed pool → typed_state s →
  post (emit_block codes function pool bb)
    (λ pool' s', Forall node_typed pool' ∧ typed_state s') s.
Proof.
  intros Hsup Hpool Hs. unfold emit_block.
  apply post_bind, post_growing; [apply growing_node_of|]. intros node s1 Hg1.
  apply (typed_state_grows _ _ Hg1) in Hs.
  apply post_bind, post_must. intros n _.
  apply post_bind, post_must. intros cfg_node Hnode.
  apply post_bind, post_must. intros data Hdata.
  pose proof (map_Forall_lookup_1 _ _ _ _ Hsup Hdata) as Hdata_sup.
  rewrite Forall_forall in Hdata_sup.
  assert (node_typed cfg_node) as Hcfg.
  { rewrite Forall_forall in Hpool. apply Hpool. by eapply list_elem_of_lookup_2. }
  apply post_bind.
  eapply post_mono.
  { apply (post_for_each_with_inv
             (λ block s', appends_typed (CFGNode.ir cfg_node) block ∧ typed_state s')).
    - intros block instruction s2 Hin [Happ Hs2].
      eapply post_mono.
      { apply post_conj.
        - apply emit_instruction_typed; [apply Hs2|by apply Hdata_sup].
        - apply growing_emit_instruction. }
      intros block' s3 [Happ' Hg3]. split.
      + by eapply appends_typed_trans.
      + by eapply typed_state_grows.
    - split; [apply appends_typed_refl|done]. }
  intros block s2 [(new & Hops & Hnew) Hs2]. cbv beta.
  apply post_bind, post_growing; [apply growing_emit_terminator|].
  intros terminator s3 Hg3. apply post_ret. split.
  - apply Forall_insert; [done|]. unfold node_typed. simpl.
    rewrite Hops. by apply Forall_app.
  - by eapply typed_state_grows.
Qed.

(** C6 as stated fails on a shader that casts to a vector:
    [get_type_id] has no case for a vector type and returns 0, and the
    [OpBitcast] is appended with a result id and the result type id 0. *)
Lemma vector_cast_untyped :
  ∃ result s' node o,
    convert_entry_point dxil_codes (cast_module (llvm.VectorTy llvm.HalfTy 2)) empty_impl
    = Some (result, s') ∧
    node_pool result = [node] ∧
    IRBlock.operations (CFGNode.ir node) = [o] ∧
    Operation.op o = spv.OpBitcast ∧
    Operation.id o ≠ 0 ∧
    Operation.type_id o = 0.
Proof.
  eexists _, _, _, _. split_and!.
  - vm_compute. reflexivity.
  - reflexivity.
  - reflexivity.
  - reflexivity.
  - done.
  - reflexivity.
Qed.

(** C6 (as amended): when every LLVM type that an instruction hands to
    [get_type_id] for the result type of its operation is of a kind that
    [get_type_id] supports (half, float, double, integer, pointer, array),
    every operation in the operation list of every node of the converted
    function that has a result id has a result type id. *)
Theorem converted_operations_typed :
  ∀ (codes : DXIL.Codes) (module : ir.Module) (s : Impl)
    (result : ConvertedFunction) (s' : Impl),
    builder_wf (builder s) →
    resources_typed s →
    module_types_supported codes module →
    convert_entry_point codes module s = Some (result, s') →
    ∀ node o,
      node ∈ node_pool result →
      o ∈ IRBlock.operations (CFGNode.ir node) →
      Operation.id o ≠ 0 → Operation.type_id o ≠ 0.
Proof.
  intros codes module s result s' Hwf Hres Hsup Hrun.
  cut (post (convert_entry_point codes module)
         (λ result _, Forall node_typed (node_pool result)) s).
  { intros Hpost node o Hnode Ho.
    specialize (Hpost result s' Hrun). rewrite Forall_forall in Hpost.
    specialize (Hpost node Hnode). unfold node_typed in Hpost.
    rewrite Forall_forall in Hpost. by apply Hpost. }
  clear Hrun. unfold convert_entry_point.
  assert (typed_state s) as Hs by done.
  apply post_bind, post_must. intros model _.
  apply post_bind. eapply post_mono; [by apply emit_resources_typed|].
  intros u s1 Hs1. cbv beta in Hs1 |- *. clear u.
  apply post_bind, post_growing; [apply growing_emit_stage_input_variables|].
  intros _ s2 Hg2. apply (typed_state_grows _ _ Hg2) in Hs1.
  apply post_bind, post_growing; [apply growing_emit_stage_output_variables|].
  intros _ s3 Hg3. apply (typed_state_grows _ _ Hg3) in Hs1.
  apply post_bind, post_must. intros name _.
  apply post_bind, post_must. intros function Hfunction.
  pose proof (map_Forall_lookup_1 _ _ _ _ Hsup Hfunction) as Hfsup.
  apply post_bind.
  eapply post_mono.
  { apply post_conj; [apply discover_blocks_typed|apply growing_discover_blocks]. }
  intros t s4 [Hpool Hg4]. cbv beta. apply (typed_state_grows _ _ Hg4) in Hs1.
  apply post_bind.
  eapply post_mono.
  { apply (post_for_each_with_inv (λ pool s', Forall node_typed pool ∧ typed_state s')).
    - intros pool bb s5 _ [Hpool5 Hs5]. by apply emit_block_typed.
    - done. }
  intros pool s5 [Hpool5 _]. by apply post_ret.
Qed.

Lemma converted_operations_typed_witness :
  ∃ result s',
    convert_entry_point dxil_codes (cast_module (llvm.IntegerTy 32)) empty_impl
    = Some (result, s') ∧
    ∀ node o,
      node ∈ node_pool result →
      o ∈ IRBlock.operations (CFGNode.ir node) →
      Operation.id o ≠ 0 → Operation.type_id o ≠ 0.
Proof.
  eexists _, _. split; [vm_compute; reflexivity|].
  refine (converted_operations_typed dxil_codes (cast_module (llvm.IntegerTy 32))
            empty_impl _ _ builder_wf_empty _ _ _).
  - intros id Hid. by apply elem_of_nil in Hid.
  - refine (bool_decide_unpack _ _). vm_compute. exact I.
  - vm_compute. reflexivity.
Defined.

(** ** The value table between two queries *)

Section Maintains.

Context (I : Impl → Prop).
Hypothesis I_builder : ∀ b s, I s → I (set_builder b s).

Lemma maintains_ret {A} (a : A) : maintains I (ret a).
Proof. intros s Hs. by apply post_ret. Qed.

Lemma maintains_fail {A} : maintains I (@fail A).
Proof. intros s Hs. apply post_fail. Qed.

Lemma maintains_bind {A C} (m : M A) (k : A → M C) :
  maintains I m → (∀ a, maintains I (k a)) → maintains I (bind m k).
Proof.
  intros Hm Hk s Hs. apply post_bind. intros a s1 Hrun1.
  apply Hk. by eapply Hm.
Qed.

Lemma maintains_get {A} (f : Impl → A) : maintains I (get f).
Proof. intros s Hs. by apply post_get. Qed.

Lemma maintains_must {A} (o : option A) : maintains I (must o).
Proof. intros s Hs. by apply post_must. Qed.

Lemma maintains_assert c : maintains I (assert c).
Proof. intros s Hs. by apply post_assert. Qed.

Lemma maintains_query {A} (f : Builder → option A) : maintains I (query f).
Proof. intros s Hs. by apply post_query. Qed.

Lemma maintains_build f : maintains I (build f).
Proof. intros s Hs. apply post_build. intros id b' _. by apply I_builder. Qed.

Lemma maintains_decorate f : maintains I (decorate f).
Proof. intros s Hs. apply post_modify. by apply I_builder. Qed.

Lemma maintains_modify f : (∀ s, I s → I (f s)) → maintains I (modify f).
Proof. intros Hf s Hs. apply post_modify. by apply Hf. Qed.

Lemma maintains_for_range {A} (body : nat → M A) count :
  (∀ i, maintains I (body i)) → ∀ first, maintains I (for_range first count body).
Proof.
  intros Hbody. induction count as [|count IH]; intros first; simpl.
  - apply maintains_ret.
  - apply maintains_bind; [done|]. intros a.
    apply maintains_bind; [done|]. intros l. apply maintains_ret.
Qed.

Lemma maintains_for_each_with {A S} (l : list A) (body : S → A → M S) :
  (∀ acc x, x ∈ l → maintains I (body acc x)) →
  ∀ acc, maintains I (for_each_with l acc body).
Proof.
  induction l as [|x l IH]; intros Hbody acc; simpl.
  - apply maintains_ret.
  - apply maintains_bind; [apply Hbody; left|]. intros acc'.
    apply IH. intros acc'' y Hy. apply Hbody. by right.
Qed.

Lemma maintains_for_each {A} (l : list A) (body : A → M unit) :
  (∀ x, x ∈ l → maintains I (body x)) → maintains I (for_each l body).
Proof.
  induction l as [|x l IH]; intros Hbody; simpl.
  - apply maintains_ret.
  - apply maintains_bind; [apply Hbody; left|]. intros _.
    apply IH. intros y Hy. apply Hbody. by right.
Qed.

End Maintains.

(** A property kept by a member function put together from the monad's
    parts. *)
Ltac maintains_step :=
  lazymatch goal with
  | |- maintains _ (ret _) => apply maintains_ret
  | |- maintains _ fail => apply maintains_fail
  | |- maintains _ (get _) => apply maintains_get
  | |- maintains _ (must _) => apply maintains_must
  | |- maintains _ (assert _) => apply maintains_assert
  | |- maintains _ (query _) => apply maintains_query
  | |- maintains _ (build _) => apply maintains_build; by intros
  | |- maintains _ (decorate _) => apply maintains_decorate; by intros
  | |- maintains _ (modify _) => apply maintains_modify; by intros
  | |- maintains _ (for_range _ _ _) => apply maintains_for_range; intros
  | |- maintains _ (for_each_with _ _ _) => apply maintains_for_each_with; intros
  | |- maintains _ (for_each _ _) => apply maintains_for_each; intros
  | |- maintains _ (bind _ _) => apply maintains_bind; [|intros]
  | |- maintains _ (match ?x with _ => _ end) => destruct x
  | |- maintains _ _ => solve [auto]
  end.

Ltac maintains_auto := repeat maintains_step.

Lemma cached_get_id_for_value value forced_width address id :
  maintains (cached address id) (get_id_for_value value forced_width).
Proof.
  intros s Hs id' s' Hrun.
  by apply (get_id_for_value_Some _ _ _ _ _ Hrun).
Qed.

Lemma cached_emit_sample_instruction opcode block instruction address id :
  maintains (cached address id) (emit_sample_instruction opcode block instruction).
Proof.
  pose proof (λ value forced_width,
                cached_get_id_for_value value forced_width address id) as Hvalue.
  unfold emit_sample_instruction, build_sampled_image, sample_coords,
    sample_offset, sample_dref, sample_aux, sample_result_id, sample_result_type,
    sample_arguments, sample_splat, build_vector, get_type_id_of_id, allocate_id.
  maintains_auto.
Qed.

(** The emitters other than that of alloca write the value table through
    [get_id_for_value] alone. *)
Lemma cached_emit_instruction codes block instruction address id :
  (∀ name, llvm.inst_class instruction = llvm.AllocaInst name →
           llvm.address (llvm.result instruction) ≠ address) →
  maintains (cached address id) (emit_instruction codes block instruction).
Proof.
  intros Halloca.
  pose proof (λ value forced_width,
                cached_get_id_for_value value forced_width address id) as Hvalue.
  pose proof (λ opcode block instruction,
                cached_emit_sample_instruction opcode block instruction address id)
    as Hsample.
  unfold emit_instruction.
  destruct (llvm.inst_class instruction) as [| | | | | | | | |name| | |] eqn:Hclass;
    try (unfold emit_builtin_instruction, emit_load_input_instruction,
           emit_store_output_instruction, emit_create_handle_instruction,
           load_resource_handle, bind_handle, emit_cbuffer_load_legacy_instruction,
           allocate_id, emit_binary_instruction, emit_unary_instruction,
           emit_cast_instruction, emit_getelementptr_instruction,
           emit_load_instruction, emit_store_instruction, emit_compare_instruction,
           emit_extract_value_instruction, emit_select_instruction,
           emit_phi_instruction, node_of;
         by maintains_auto).
  unfold emit_alloca_instruction.
  repeat (apply maintains_bind; [by maintains_auto|intros]).
  apply maintains_bind; [|intros; apply maintains_ret].
  apply maintains_modify. intros s Hs. unfold cached in *. simpl.
  rewrite lookup_insert_ne; [done|]. by apply (Halloca name).
Qed.

Lemma cached_emit_terminator terminator address id :
  maintains (cached address id) (emit_terminator terminator).
Proof.
  pose proof (λ value forced_width,
                cached_get_id_for_value value forced_width address id) as Hvalue.
  unfold emit_terminator, node_of. maintains_auto.
Qed.

(** What comes before the blocks are emitted leaves the value table
    alone. *)
Lemma cached_emit_resources codes module address id :
  maintains (cached address id) (emit_resources codes module).
Proof.
  unfold emit_resources, emit_resource_list, emit_srvs, emit_srv, emit_uavs,
    emit_cbvs, emit_cbv, emit_samplers, emit_sampler.
  maintains_auto.
Qed.

Lemma cached_emit_stage_variables codes module address id :
  maintains (cached address id) (emit_stage_input_variables codes module) ∧
  maintains (cached address id) (emit_stage_output_variables codes module).
Proof.
  unfold emit_stage_input_variables, emit_stage_output_variables, signature_node,
    emit_stage_input_variable, emit_stage_output_variable, emit_builtin_decoration.
  split; maintains_auto.
Qed.

Lemma cached_discover_blocks function address id :
  maintains (cached address id) (discover_blocks function).
Proof.
  assert (∀ fuel t, maintains (cached address id) (traverse fuel function t))
    as Htraverse.
  { induction fuel as [|fuel IH]; intros t; simpl;
      unfold process_block, register_successor, register_block, node_of;
      maintains_auto. }
  unfold discover_blocks, register_block. maintains_auto.
Qed.

Lemma cached_run_calls codes calls address id :
  Forall (λ call, ¬ allocates address call) calls →
  maintains (cached address id) (run_calls codes calls).
Proof.
  intros Hcalls. apply maintains_for_each. intros call Hcall.
  rewrite Forall_forall in Hcalls. specialize (Hcalls call Hcall).
  destruct call as [value forced_width|block instruction|terminator|module|module
                    |module|function]; simpl.
  - apply maintains_bind; [apply cached_get_id_for_value|intros; apply maintains_ret].
  - apply maintains_bind; [|intros; apply maintains_ret].
    apply cached_emit_instruction. intros name Hname Haddress.
    apply Hcalls. split; [by exists name|done].
  - apply maintains_bind; [apply cached_emit_terminator|intros; apply maintains_ret].
  - apply cached_emit_resources.
  - apply cached_emit_stage_variables.
  - apply cached_emit_stage_variables.
  - apply maintains_bind; [apply cached_discover_blocks|intros; apply maintains_ret].
Qed.

(** C2 as stated fails on a value that is the result of an alloca and is
    asked for before the alloca is lowered, as for an operand of a phi:
    the first call caches the id 1, [emit_alloca_instruction] assigns the id
    of its variable to the value's entry without looking it up, and the next
    call returns that id, 3. *)
Lemma alloca_changes_value_id :
  ∃ s1 s2,
    get_id_for_value (llvm.result float_alloca) 0 empty_impl = Some (1, s1) ∧
    emit_instruction dxil_codes IRBlock.empty float_alloca s1
    = Some (IRBlock.empty, s2) ∧
    get_id_for_value (llvm.result float_alloca) 0 s2 = Some (3, s2).
Proof.
  eexists _, _. split_and!.
  - vm_compute. reflexivity.
  - vm_compute. reflexivity.
  - vm_compute. reflexivity.
Qed.

(** C2 (as amended): once [get_id_for_value] has returned an id for a
    value, every later call for that value, with any forced width, returns
    the same id and leaves the state alone, whatever the converter runs in
    between (calls for other values, the lowering of resources, stage
    variables, blocks, instructions and terminators), as long as none of the
    instructions is an alloca whose result is that value. *)
Theorem get_id_for_value_stable :
  ∀ (codes : DXIL.Codes) (value : llvm.Value) (forced_width : Z) (s s1 : Impl) (id : Id),
    get_id_for_value value forced_width s = Some (id, s1) →
    ∀ (calls : list Call) (s2 : Impl) (forced_width' : Z),
      Forall (λ call, ¬ allocates (llvm.address value) call) calls →
      run_calls codes calls s1 = Some (tt, s2) →
      get_id_for_value value forced_width' s2 = Some (id, s2).
Proof.
  intros codes value forced_width s s1 id Hfirst calls s2 forced_width' Hcalls Hrun.
  apply get_id_for_value_cached.
  refine (cached_run_calls codes calls (llvm.address value) id Hcalls s1 _ tt s2 Hrun).
  exact (proj1 (get_id_for_value_Some _ _ _ _ _ Hfirst)).
Qed.

Lemma get_id_for_value_stable_witness :
  let value := ssa_value 5 llvm.FloatTy in
  let calls :=
    [QueryValue (const_i32 6 3) 0;
     EmitInstruction IRBlock.empty float_alloca;
     EmitInstruction IRBlock.empty
       {| llvm.result := ssa_value 7 (llvm.IntegerTy 32);
          llvm.inst_class := llvm.CastInst llvm.BitCast;
          llvm.operands := [value] |};
     EmitTerminator (ir.ReturnInst (Some value))] in
  ∃ s2 : Impl, get_id_for_value value 32 s2 = Some (1, s2).
Proof.
  intros value calls. eexists.
  refine (get_id_for_value_stable dxil_codes value 0 empty_impl _ 1 _ calls _ 32 _ _).
  - vm_compute. reflexivity.
  - repeat constructor; simpl; intros [_ [=]] || tauto.
  - vm_compute. reflexivity.
Defined.

(** * Part III: further properties of the code *)

(** ** Types are interned *)

Lemma find_declaration_app d l l' p :
  find_declaration d l = Some p → find_declaration d (l ++ l') = Some p.
Proof.
  induction l as [|[q d'] l IH]; simpl; [done|]. case_decide; auto.
Qed.

Lemma find_declaration_snoc d l p :
  find_declaration d l = None → find_declaration d (l ++ [(p, d)]) = Some p.
Proof.
  induction l as [|[q d'] l IH]; simpl.
  - intros _. by rewrite decide_True.
  - case_decide; [done|]. auto.
Qed.

(** What was interned once is found again, in the builder it was interned
    into and in any builder after that one. *)
Lemma intern_again d b id b' b'' :
  intern d b = (id, b') → extends b' b'' → intern d b'' = (id, b'').
Proof.
  intros Hintern [[l Hl] _ _ _].
  assert (∃ p, id = Zpos p ∧ find_declaration d (declarations b') = Some p)
    as (p & -> & Hfind).
  { unfold intern in Hintern.
    destruct (find_declaration d (declarations b)) as [p|] eqn:Hfind.
    - injection Hintern as <- <-. by exists p.
    - injection Hintern as <- <-. exists (unique_id b). split; [done|].
      simpl. by apply find_declaration_snoc. }
  unfold intern. rewrite Hl. by rewrite (find_declaration_app _ _ _ _ Hfind).
Qed.

(** X1: [get_type_id] interns: the id it gave for a type is the id it gives
    for that type in every later builder, and asking again declares nothing. *)
Theorem get_type_id_again :
  ∀ (type : llvm.type) (b b' b'' : Builder) (id : Id),
    get_type_id type b = (id, b') → extends b' b'' →
    get_type_id type b'' = (id, b'').
Proof.
  induction type as [ | | |width|element IH|element IH num|elements|element IH num
                     | | | | | ];
    intros b b' b'' id Hrun Hext; simpl in *;
    try (injection Hrun as <- <-; done);
    try (by eapply intern_again).
  - case_decide; by eapply intern_again.
  - destruct (get_type_id element b) as [e b1] eqn:He. simpl in *.
    assert (extends b1 b'') as Hext1.
    { etrans; [|done]. pose proof (intern_extends (TypePointer spv.StorageClassFunction e) b1)
        as H. unfold makePointer in Hrun. by rewrite Hrun in H. }
    rewrite (IH _ _ _ _ He Hext1). simpl. by eapply intern_again.
  - destruct (get_type_id element b) as [e b1] eqn:He. simpl in *.
    destruct (makeUintConstant (wrap32 num) b1) as [n b2] eqn:Hn. simpl in *.
    assert (extends b2 b'') as Hext2.
    { etrans; [|done]. pose proof (intern_extends (TypeArray e n 0) b2) as H.
      unfold makeArrayType in Hrun. by rewrite Hrun in H. }
    assert (extends b1 b'') as Hext1.
    { etrans; [|done]. pose proof (intern_extends (ConstantUint (wrap32 num)) b1) as H.
      unfold makeUintConstant in Hn. by rewrite Hn in H. }
    rewrite (IH _ _ _ _ He Hext1). simpl.
    unfold makeUintConstant in *. rewrite (intern_again _ _ _ _ _ Hn Hext2). simpl.
    by eapply intern_again.
Qed.

Lemma get_type_id_again_witness :
  let type := llvm.PointerTy (llvm.ArrayTy llvm.FloatTy 4) in
  let first := get_type_id type empty_builder in
  let later := (makeBoolType first.2).2 in
  get_type_id type later = (first.1, later).
Proof.
  intros type first later.
  apply (get_type_id_again type empty_builder first.2 later first.1).
  - vm_compute. reflexivity.
  - apply intern_extends.
Defined.

Lemma denotes_extends b b' type id :
  extends b b' → denotes b type id → denotes b' type id.
Proof.
  intros Hext. revert id.
  induction type as [ | | |width|element IH|element IH num|elements|element IH num
                     | | | | | ]; intros id; simpl; try done;
    try (by apply lookup_id_extends).
  - intros (e & Hid & He). exists e. split; [by eapply lookup_id_extends|auto].
  - intros (e & n & Hid & Hn & He). exists e, n.
    split_and!; [by eapply lookup_id_extends|by eapply lookup_id_extends|auto].
Qed.

Lemma get_type_id_stands type b b' id :
  builder_wf b → get_type_id type b = (id, b') → denotes b' type id.
Proof.
  revert b b' id.
  induction type as [ | | |width|element IH|element IH num|elements|element IH num
                     | | | | | ]; intros b b' id Hwf Hrun; simpl in *;
    try (injection Hrun as <- <-; done);
    try (by destruct (intern_spec _ _ _ _ Hwf Hrun) as (_ & _ & ? & _)).
  - case_decide;
      by destruct (intern_spec _ _ _ _ Hwf Hrun) as (_ & _ & ? & _).
  - destruct (get_type_id element b) as [e b1] eqn:He. simpl in *.
    pose proof (get_type_id_wf element b Hwf) as Hwf1. rewrite He in Hwf1.
    pose proof (IH _ _ _ Hwf He) as Hden.
    destruct (intern_spec _ _ _ _ Hwf1 Hrun) as (_ & Hext & Hid & _).
    exists e. split; [done|by eapply denotes_extends].
  - destruct (get_type_id element b) as [e b1] eqn:He. simpl in *.
    destruct (makeUintConstant (wrap32 num) b1) as [n b2] eqn:Hn. simpl in *.
    pose proof (get_type_id_wf element b Hwf) as Hwf1. rewrite He in Hwf1.
    pose proof (IH _ _ _ Hwf He) as Hden.
    destruct (intern_spec _ _ _ _ Hwf1 Hn) as (Hwf2 & Hext1 & Hlen & _).
    destruct (intern_spec _ _ _ _ Hwf2 Hrun) as (_ & Hext2 & Hid & _).
    exists e, n. split_and!; [done|by eapply lookup_id_extends|].
    eapply denotes_extends; [|done]. by etrans.
Qed.

(** X2: the id that [get_type_id] returns stands for the type: a 1-bit
    integer is the bool type, any other integer an unsigned integer of its
    width, a pointer is a pointer in Function storage, an array has a 32-bit
    unsigned length constant; a type of another kind is 0 and leaves the
    builder as it was. *)
Theorem get_type_id_denotes :
  ∀ (type : llvm.type) (b b' : Builder) (id : Id),
    builder_wf b → get_type_id type b = (id, b') →
    denotes b' type id ∧ (type_supported type = false → id = 0 ∧ b' = b).
Proof.
  intros type b b' id Hwf Hrun. split; [by eapply get_type_id_stands|].
  intros Hkind. destruct type; try done; simpl in Hrun; by injection Hrun as <- <-.
Qed.

Lemma get_type_id_denotes_witness :
  let type := llvm.PointerTy (llvm.ArrayTy (llvm.StructTy []) 4) in
  let made := get_type_id type empty_builder in
  denotes made.2 type made.1 ∧ (type_supported type = false → made.1 = 0 ∧ made.2 = empty_builder).
Proof.
  intros type made.
  apply (get_type_id_denotes type empty_builder made.2 made.1 builder_wf_empty).
  vm_compute. reflexivity.
Defined.

(** X3: [get_type_id(element_type, rows, cols)] gives 0 for a component
    type it does not know and leaves the builder as it was; otherwise the
    scalar type when rows and columns are 1, a vector of [cols] components when
    only the rows are 1, and a matrix in every other case. *)
Theorem get_type_id_components_shape :
  ∀ (element_type : DXIL.ComponentType) (rows cols : Z) (b b' : Builder) (id : Id),
    builder_wf b →
    get_type_id_components element_type rows cols b = (id, b') →
    match component_declaration element_type with
    | None => id = 0 ∧ b' = b
    | Some scalar =>
        id ≠ 0 ∧
        ∃ component,
          lookup_id b' component = Some scalar ∧
          (rows = 1 → cols = 1 → id = component) ∧
          (rows = 1 → cols ≠ 1 → lookup_id b' id = Some (TypeVector component cols)) ∧
          (rows ≠ 1 → lookup_id b' id = Some (TypeMatrix component rows cols))
    end.
Proof.
  intros element_type rows cols b b' id Hwf Hrun.
  unfold get_type_id_components in Hrun.
  assert (∀ scalar c,
            intern scalar b = c →
            (if decide (rows = 1 ∧ cols = 1) then c
             else if decide (rows = 1) then makeVectorType c.1 cols c.2
                  else makeMatrixType c.1 rows cols c.2) = (id, b') →
            id ≠ 0 ∧
            ∃ component,
              lookup_id b' component = Some scalar ∧
              (rows = 1 → cols = 1 → id = component) ∧
              (rows = 1 → cols ≠ 1 → lookup_id b' id = Some (TypeVector component cols)) ∧
              (rows ≠ 1 → lookup_id b' id = Some (TypeMatrix component rows cols)))
    as Hshape.
  { intros scalar [component b1] Hc Hid. simpl in Hid.
    destruct (intern_spec _ _ _ _ Hwf Hc) as (Hwf1 & _ & Hcomp & Hnz).
    case_decide as Hone; [|case_decide as Hrow].
    - injection Hid as <- <-. split; [done|]. exists component.
      split_and!; try done; lia.
    - destruct (intern_spec _ _ _ _ Hwf1 Hid) as (_ & Hext & Hlook & Hnz').
      split; [done|]. exists component.
      split_and!; [by eapply lookup_id_extends|lia|done|done].
    - destruct (intern_spec _ _ _ _ Hwf1 Hid) as (_ & Hext & Hlook & Hnz').
      split; [done|]. exists component.
      split_and!; [by eapply lookup_id_extends|done|done|done]. }
  destruct element_type; simpl in *;
    try (by eapply Hshape; [reflexivity|exact Hrun]).
  by injection Hrun as <- <-.
Qed.

Lemma get_type_id_components_shape_witness :
  let made := get_type_id_components DXIL.F32 1 4 empty_builder in
  made.1 ≠ 0 ∧
  ∃ component,
    lookup_id made.2 component = Some (TypeFloat 32) ∧
    ((1 : Z) = 1 → (4 : Z) = 1 → made.1 = component) ∧
    ((1 : Z) = 1 → (4 : Z) ≠ 1 → lookup_id made.2 made.1 = Some (TypeVector component 4)) ∧
    ((1 : Z) ≠ 1 → lookup_id made.2 made.1 = Some (TypeMatrix component 1 4)).
Proof.
  intros made.
  apply (get_type_id_components_shape DXIL.F32 1 4 empty_builder made.2 made.1
           builder_wf_empty).
  vm_compute. reflexivity.
Defined.

(** ** The index tables of the resources *)

(** X4: [table.resize(max(size, index + 1)); table[index] = id] and a later
    [table[index]]: the slot reads back the id, the slots that were there keep
    what they held, the slots added in between read 0.  With [index + 1]
    computed in 32 bits, the store is out of range exactly for index
    [2^32 - 1] on a table that is not already that long. *)
Theorem store_index_load_index :
  ∀ (index id : Z) (table : list Id),
    0 ≤ index < 2 ^ 32 →
    (store_index index id table = None ↔
     index = 2 ^ 32 - 1 ∧ (length table ≤ Z.to_nat index)%nat) ∧
    ∀ table',
      store_index index id table = Some table' →
      load_index index table' = Some id ∧
      length table' = Nat.max (length table) (Z.to_nat (wrap32 (index + 1))) ∧
      ∀ j, 0 ≤ j → j ≠ index →
           load_index j table'
           = if decide (Z.to_nat j < length table)%nat then load_index j table
             else if decide (Z.to_nat j < length table')%nat then Some 0 else None.
Proof.
  intros index id table Hindex. unfold store_index.
  set (n := Nat.max (length table) (Z.to_nat (wrap32 (index + 1)))).
  assert (wrap32 (index + 1) = if decide (index = 2 ^ 32 - 1) then 0 else index + 1)
    as Hwrap.
  { unfold wrap32. case_decide as Hmax.
    - subst index. done.
    - apply Z.mod_small. lia. }
  rewrite length_resize.
  destruct (decide (0 ≤ index < Z.of_nat n)) as [Hin|Hin]; split.
  - split; try done.
    + intros [Hmax Hlen]. subst n. rewrite Hwrap in Hin.
      rewrite decide_True in Hin by done. lia.
  - clear Hwrap. intros table'. intros [= <-].
    assert (length table ≤ n)%nat as Hn by lia.
    rewrite length_insert, length_resize. split_and!.
    + unfold load_index. rewrite decide_True by lia.
      apply list_lookup_insert_eq. rewrite length_resize. lia.
    + done.
    + intros j Hj Hne. unfold load_index. rewrite !decide_True by done.
      rewrite list_lookup_insert_ne by lia.
      rewrite resize_grow by done.
      case_decide as Hold.
      * rewrite decide_True by done. by rewrite lookup_app_l by done.
      * rewrite lookup_app_r by lia. case_decide as Hnew.
        -- apply lookup_replicate_2. lia.
        -- apply lookup_replicate_None. lia.
  - split; try done.
    intros _. subst n. rewrite Hwrap in Hin. case_decide; lia.
  - done.
Qed.

Lemma store_index_load_index_witness :
  (store_index 3 7 [5] = None ↔ 3 = 2 ^ 32 - 1 ∧ (length [5] ≤ Z.to_nat 3)%nat) ∧
  ∀ table',
    store_index 3 7 [5] = Some table' →
    load_index 3 table' = Some 7 ∧
    length table' = Nat.max (length [5]) (Z.to_nat (wrap32 (3 + 1))) ∧
    ∀ j, 0 ≤ j → j ≠ 3 →
         load_index j table'
         = if decide (Z.to_nat j < length [5])%nat then load_index j [5]
           else if decide (Z.to_nat j < length table')%nat then Some 0 else None.
Proof.
  apply (store_index_load_index 3 7 [5]). lia.
Defined.

(** ** Samplers and shader resource views *)

(** X5: a sampler entry is lowered to a new variable of the sampler type
    in UniformConstant storage, without a name when the entry's name is empty,
    decorated with the entry's descriptor set and binding and stored at slot
    [index] of [sampler_index_to_id]; the other tables stay. *)
Theorem emit_sampler_lowering :
  ∀ (sampler : md.Metadata) (index bind_space bind_register : Z) (name : string)
    (s : Impl),
    md.isa_MDNode sampler = true →
    get_constant_metadata sampler 0 = Some index →
    get_string_metadata sampler 2 = Some name →
    get_constant_metadata sampler 3 = Some bind_space →
    get_constant_metadata sampler 4 = Some bind_register →
    index + 1 < 2 ^ 32 →
    builder_wf (builder s) →
    ∃ s' : Impl,
      emit_sampler sampler s = Some (tt, s') ∧
      sampler_lowered index bind_space bind_register name s s'.
Proof.
  intros sampler index bind_space bind_register name s
    Hnode Hindex Hname Hspace Hreg Hidx Hwf.
  pose proof (get_constant_metadata_range _ _ _ Hindex) as [Hi0 _].
  assert (extends (builder s) (builder s)) as Hstart by done.
  cut (wp (emit_sampler sampler)
         (λ _ s', sampler_lowered index bind_space bind_register name s s') s).
  { intros ([] & s' & Hrun & H). by exists s'. }
  unfold emit_sampler. rewrite Hnode, Hindex, Hname, Hspace, Hreg.
  do 5 wp_pure.
  wp_intern type_id.
  apply wp_bind, wp_build. intros var_id b1 Hvar. simpl builder in Hvar. cbv beta.
  assert (lookup_id b var_id = None) as Hfresh.
  { injection Hvar as <- _. simpl. apply declaration_of_None.
    destruct Hwf0 as [_ Hlt]. intros Hin.
    rewrite Forall_forall in Hlt. specialize (Hlt _ Hin). lia. }
  assert (lookup_id (builder s) var_id = None) as Hfresh0.
  { destruct (lookup_id (builder s) var_id) as [d|] eqn:Hd; [|done].
    apply (lookup_id_extends _ _ _ _ Hstart) in Hd. by rewrite Hd in Hfresh. }
  destruct (declare_spec (Var _ _ _) _ _ _ Hwf0 Hvar) as (Hwf1 & Hext1 & Hlook & _).
  carry b b1 Hext1. clear Hvar Hext1 Hwf0 Hfresh.
  simpl builder.
  wp_addDecoration. wp_addDecoration.
  wp_pure. simpl sampler_index_to_id.
  destruct (store_index_spec index var_id (sampler_index_to_id s) Hi0 Hidx)
    as (table' & Hstore & Hslot & _).
  rewrite Hstore. wp_pure. apply wp_modify. simpl.
  exists type_id, var_id. split_and!; try done.
  unfold load_index. by rewrite decide_True.
Qed.

Lemma emit_sampler_lowering_witness :
  ∃ s' : Impl,
    emit_sampler (resource_entry 4 "samp" 1 2 [md_i32 0]) empty_impl = Some (tt, s') ∧
    sampler_lowered 4 1 2 "samp" empty_impl s'.
Proof.
  apply (emit_sampler_lowering (resource_entry 4 "samp" 1 2 [md_i32 0]) 4 1 2 "samp"
           empty_impl);
    [reflexivity|reflexivity|reflexivity|reflexivity|reflexivity
    |lia|apply builder_wf_empty].
Defined.

Lemma get_type_id_scalar_spec element_type b id b' :
  builder_wf b →
  get_type_id_components element_type 1 1 b = (id, b') →
  builder_wf b' ∧ extends b b' ∧
  match component_declaration element_type with
  | Some scalar => lookup_id b' id = Some scalar
  | None => id = 0
  end.
Proof.
  intros Hwf Hrun.
  pose proof (get_type_id_components_wf element_type 1 1 b Hwf) as Hwf'.
  pose proof (get_type_id_components_extends element_type 1 1 b) as Hext.
  rewrite Hrun in Hwf', Hext. split_and!; try done.
  unfold get_type_id_components in Hrun.
  destruct element_type; simpl in *;
    try (by eapply intern_spec; [exact Hwf|exact Hrun]).
  by injection Hrun as <- _.
Qed.

(** X6: an SRV entry is lowered to a new UniformConstant variable of an
    image type, decorated with the entry's descriptor set and binding and
    stored at slot [index] of [srv_index_to_id].  The image's dimension,
    arrayed and multisampled flags come from the resource kind, it is not a
    depth image, it is sampled (1) and of unknown format.  Its sampled type is
    the scalar type of the component type in tag 1 when tag 0 is 0, the id 0
    when that component type is not known, and the 32-bit unsigned integer for
    every other tag 0. *)
Theorem emit_srv_lowering :
  ∀ (codes : DXIL.Codes) (srv tags : md.Metadata)
    (index bind_space bind_register kind tag : Z) (name : string) (s : Impl),
    md.isa_MDNode srv = true →
    get_constant_metadata srv 0 = Some index →
    get_string_metadata srv 2 = Some name →
    get_constant_metadata srv 3 = Some bind_space →
    get_constant_metadata srv 4 = Some bind_register →
    get_constant_metadata srv 6 = Some kind →
    md.getOperand srv 8 = Some tags →
    md.isa_MDNode tags = true →
    get_constant_metadata tags 0 = Some tag →
    (tag = 0 → is_Some (get_constant_metadata tags 1)) →
    index + 1 < 2 ^ 32 →
    builder_wf (builder s) →
    ∃ (s' : Impl) (sampled : Id),
      emit_srv codes srv s = Some (tt, s') ∧
      srv_lowered index bind_space bind_register name
        (DXIL.to_ResourceKind codes kind) sampled s s' ∧
      if decide (tag = 0) then
        ∃ element_type,
          get_constant_metadata tags 1 = Some element_type ∧
          match component_declaration (DXIL.to_ComponentType codes element_type) with
          | Some scalar => lookup_id (builder s') sampled = Some scalar
          | None => sampled = 0
          end
      else lookup_id (builder s') sampled = Some (TypeInt 32 false).
Proof.
  intros codes srv tags index bind_space bind_register kind tag name s
    Hnode Hindex Hname Hspace Hreg Hkind Htags Htagsnode Htag Helement Hidx Hwf.
  pose proof (get_constant_metadata_range _ _ _ Hindex) as [Hi0 _].
  assert (extends (builder s) (builder s)) as Hstart by done.
  cut (wp (emit_srv codes srv)
         (λ _ s', ∃ sampled,
            srv_lowered index bind_space bind_register name
              (DXIL.to_ResourceKind codes kind) sampled s s' ∧
            if decide (tag = 0) then
              ∃ element_type,
                get_constant_metadata tags 1 = Some element_type ∧
                match component_declaration (DXIL.to_ComponentType codes element_type) with
                | Some scalar => lookup_id (builder s') sampled = Some scalar
                | None => sampled = 0
                end
            else lookup_id (builder s') sampled = Some (TypeInt 32 false)) s).
  { intros ([] & s' & Hrun & sampled & H). by exists s', sampled. }
  unfold emit_srv. rewrite Hnode, Hindex, Hname, Hspace, Hreg, Hkind.
  do 6 wp_pure.
  assert (9 ≤ md.getNumOperands srv)%nat as Hnum.
  { destruct srv as [| |l|]; try done. simpl in *.
    apply lookup_lt_Some in Htags. lia. }
  rewrite decide_True by done. rewrite Htags.
  destruct tags as [| |l|]; try done.
  wp_pure. rewrite Htag. wp_pure.
  set (fact := λ (b : Builder) (sampled : Id),
         if decide (tag = 0) then
           ∃ element_type,
             get_constant_metadata (md.MDNode l) 1 = Some element_type ∧
             match component_declaration (DXIL.to_ComponentType codes element_type) with
             | Some scalar => lookup_id b sampled = Some scalar
             | None => sampled = 0
             end
         else lookup_id b sampled = Some (TypeInt 32 false)).
  assert (∀ b b' sampled, extends b b' → fact b sampled → fact b' sampled) as Hfact.
  { intros b b' sampled Hext. unfold fact. case_decide.
    - intros (element_type & ? & H'). exists element_type. split; [done|].
      destruct (component_declaration _); [by eapply lookup_id_extends|done].
    - by apply lookup_id_extends. }
  apply wp_bind.
  apply (wp_mono _ (λ sampled s1,
           ∃ b1, s1 = set_builder b1 s ∧ builder_wf b1 ∧
                 extends (builder s) b1 ∧ fact b1 sampled)).
  { unfold fact. case_decide as Hzero.
    - destruct (Helement Hzero) as [element_type Het]. rewrite Het. wp_pure.
      apply wp_build. intros sampled b1 Hb1.
      destruct (get_type_id_scalar_spec _ _ _ _ Hwf Hb1) as (Hwf1 & Hext1 & Hsampled).
      exists b1. split_and!; try done. by exists element_type.
    - apply wp_build. intros sampled b1 Hb1.
      destruct (intern_spec _ _ _ _ Hwf Hb1) as (Hwf1 & Hext1 & Hsampled & _).
      by exists b1. }
  intros sampled s1 (b1 & -> & Hwf1 & Hext1 & Hsampled). clear Hwf Hstart.
  apply wp_bind, wp_build. intros type_id b Htype. simpl builder in Htype. cbv beta.
  destruct (intern_spec _ _ _ _ Hwf1 Htype) as (Hwf & Hext & Htype_id & _).
  apply (Hfact _ _ _ Hext) in Hsampled.
  carry b1 b Hext. clear Htype Hext Hwf1.
  apply wp_bind, wp_build. intros var_id b2 Hvar. simpl builder in Hvar. cbv beta.
  assert (lookup_id b var_id = None) as Hfresh.
  { injection Hvar as <- _. simpl. apply declaration_of_None.
    destruct Hwf as [_ Hlt]. intros Hin.
    rewrite Forall_forall in Hlt. specialize (Hlt _ Hin). lia. }
  assert (lookup_id (builder s) var_id = None) as Hfresh0.
  { destruct (lookup_id (builder s) var_id) as [d|] eqn:Hd; [|done].
    apply (lookup_id_extends _ _ _ _ Hext1) in Hd. by rewrite Hd in Hfresh. }
  destruct (declare_spec (Var _ _ _) _ _ _ Hwf Hvar) as (Hwf2 & Hext2 & Hlook & _).
  apply (Hfact _ _ _ Hext2) in Hsampled.
  carry b b2 Hext2. clear Hvar Hext2 Hwf Hfresh.
  simpl builder.
  apply wp_bind, wp_decorate. intros b3 Hset. simpl builder in Hset. cbv beta.
  destruct (addDecoration_spec _ _ _ _ _ Hwf2 Hset) as (Hwf3 & Hext3 & Hdset).
  apply (Hfact _ _ _ Hext3) in Hsampled.
  carry b2 b3 Hext3. clear Hset Hext3 Hwf2.
  apply wp_bind, wp_decorate. intros b4 Hbinding. simpl builder in Hbinding. cbv beta.
  destruct (addDecoration_spec _ _ _ _ _ Hwf3 Hbinding) as (Hwf4 & Hext4 & Hdbinding).
  apply (Hfact _ _ _ Hext4) in Hsampled.
  carry b3 b4 Hext4. clear Hbinding Hext4 Hwf3.
  wp_pure. simpl srv_index_to_id.
  destruct (store_index_spec index var_id (srv_index_to_id s) Hi0 Hidx)
    as (table' & Hstore & Hslot & _).
  rewrite Hstore. wp_pure. apply wp_modify. simpl.
  exists sampled. split.
  - exists type_id, var_id. split_and!; try done.
    unfold load_index. by rewrite decide_True.
  - exact Hsampled.
Qed.

Lemma emit_srv_lowering_witness :
  let srv := resource_entry 0 "tex" 0 1 [md_i32 2; md_i32 0; md.MDNode [md_i32 0; md_i32 9]] in
  ∃ (s' : Impl) (sampled : Id),
    emit_srv dxil_codes srv empty_impl = Some (tt, s') ∧
    srv_lowered 0 0 1 "tex" (DXIL.to_ResourceKind dxil_codes 2) sampled empty_impl s' ∧
    if decide ((0 : Z) = 0) then
      ∃ element_type,
        get_constant_metadata (md.MDNode [md_i32 0; md_i32 9]) 1 = Some element_type ∧
        match component_declaration (DXIL.to_ComponentType dxil_codes element_type) with
        | Some scalar => lookup_id (builder s') sampled = Some scalar
        | None => sampled = 0
        end
    else lookup_id (builder s') sampled = Some (TypeInt 32 false).
Proof.
  intros srv.
  apply (emit_srv_lowering dxil_codes srv (md.MDNode [md_i32 0; md_i32 9])
           0 0 1 2 0 "tex" empty_impl);
    [reflexivity|reflexivity|reflexivity|reflexivity|reflexivity|reflexivity
    |reflexivity|reflexivity|reflexivity|by eexists|lia|apply builder_wf_empty].
Defined.

(** ** Resource handles *)

(** X7: [dx.op.createHandle] on an SRV or a sampler whose table slot holds
    a declared variable appends one [OpLoad] of that variable, with a new id
    and the variable's type, binds the call to the new id in
    [handle_to_ptr_id] and records the type under it, so that
    [get_type_id(id)] gives it back; nothing is declared and the value table
    stays. *)
Theorem create_handle_loads_resource :
  ∀ (codes : DXIL.Codes) (block : IRBlock.t) (instruction : llvm.Instruction)
    (class range resource_id type_id : Z) (storage : spv.StorageClass)
    (name : option string) (s : Impl),
    get_constant_operand instruction 1 = Some class →
    get_constant_operand instruction 2 = Some range →
    (DXIL.to_ResourceType codes class = DXIL.SRV ∧
     load_index range (srv_index_to_id s) = Some resource_id) ∨
    (DXIL.to_ResourceType codes class = DXIL.Sampler ∧
     load_index range (sampler_index_to_id s) = Some resource_id) →
    lookup_id (builder s) resource_id = Some (Var storage type_id name) →
    let id := Z.pos (unique_id (builder s)) in
    ∃ s' : Impl,
      emit_create_handle_instruction codes block instruction s
      = Some (push_operation
                {| Operation.op := spv.OpLoad; Operation.id := id;
                   Operation.type_id := type_id;
                   Operation.arguments := [resource_id] |} block, s') ∧
      handle_to_ptr_id s'
      = <[llvm.address (llvm.result instruction) := id]> (handle_to_ptr_id s) ∧
      id_to_type s' = <[id := type_id]> (id_to_type s) ∧
      get_type_id_of_id id s' = Some (type_id, s') ∧
      declarations (builder s') = declarations (builder s) ∧
      value_map s' = value_map s.
Proof.
  intros codes block instruction class range resource_id type_id storage name s
    Hclass Hrange Hslot Hvar id.
  assert (getDerefTypeId (builder s) resource_id = Some type_id) as Hderef.
  { unfold getDerefTypeId. by rewrite Hvar. }
  assert (load_resource_handle block instruction resource_id s
          = Some (push_operation
                    {| Operation.op := spv.OpLoad; Operation.id := id;
                       Operation.type_id := type_id;
                       Operation.arguments := [resource_id] |} block,
                  set_handle_to_ptr_id
                    (<[llvm.address (llvm.result instruction) := id]> (handle_to_ptr_id s))
                    (set_id_to_type (<[id := type_id]> (id_to_type s))
                       (set_builder (getUniqueId (builder s)).2 s)))) as Hload.
  { unfold load_resource_handle, bind, query, allocate_id, build, bind_handle, modify, ret.
    by rewrite Hderef. }
  eexists. split.
  - unfold emit_create_handle_instruction, bind, must, get, ret.
    rewrite Hclass, Hrange.
    destruct Hslot as [[-> ->]|[-> ->]]; exact Hload.
  - split_and!; try done.
    unfold get_type_id_of_id, bind, get, ret. simpl. by rewrite lookup_insert_eq.
Qed.

Lemma create_handle_loads_resource_witness :
  let s := default empty_impl
             (snd <$> emit_sampler (resource_entry 0 "samp" 0 2 [md_i32 0]) empty_impl) in
  let id := Z.pos (unique_id (builder s)) in
  ∃ s' : Impl,
    emit_create_handle_instruction dxil_codes IRBlock.empty sampler_handle s
    = Some (push_operation
              {| Operation.op := spv.OpLoad; Operation.id := id;
                 Operation.type_id := 1; Operation.arguments := [2] |} IRBlock.empty, s') ∧
    handle_to_ptr_id s'
    = <[llvm.address (llvm.result sampler_handle) := id]> (handle_to_ptr_id s) ∧
    id_to_type s' = <[id := 1]> (id_to_type s) ∧
    get_type_id_of_id id s' = Some (1, s') ∧
    declarations (builder s') = declarations (builder s) ∧
    value_map s' = value_map s.
Proof.
  intros s.
  apply (create_handle_loads_resource dxil_codes IRBlock.empty sampler_handle 3 0 2 1
           spv.StorageClassUniformConstant (Some "samp") s);
    [reflexivity|reflexivity|right; split; reflexivity|reflexivity].
Defined.

(** ** The ids of values *)

Lemma lookup_id_below b id d :
  builder_wf b → lookup_id b id = Some d → id < Z.pos (unique_id b).
Proof.
  intros [_ Hlt] Hd. destruct id as [|p|p]; try done. simpl in Hd.
  destruct (decide (p ∈ (declarations b).*1)) as [Hin|Hout].
  - rewrite Forall_forall in Hlt. specialize (Hlt _ Hin). lia.
  - by rewrite declaration_of_None in Hd.
Qed.

Lemma lookup_id_counter b : builder_wf b → lookup_id b (Z.pos (unique_id b)) = None.
Proof.
  intros Hwf. destruct (lookup_id b (Z.pos (unique_id b))) as [d|] eqn:Hd; [|done].
  apply lookup_id_below in Hd; [lia|done].
Qed.

Lemma intern_counter d b : (unique_id b ≤ unique_id (intern d b).2)%positive.
Proof. unfold intern. destruct (find_declaration _ _); simpl; lia. Qed.

Lemma get_type_id_counter type b :
  (unique_id b ≤ unique_id (get_type_id type b).2)%positive.
Proof.
  revert b. induction type as [ | | |width|element IH|element IH num|elements
                              |element IH num | | | | | ]; intros b; simpl;
    try lia; unfold makeFloatType, makeBoolType, makeIntegerType, makePointer,
      makeArrayType, makeUintConstant.
  - apply intern_counter.
  - apply intern_counter.
  - apply intern_counter.
  - case_decide; apply intern_counter.
  - etrans; [apply (IH b)|]. apply intern_counter.
  - etrans; [apply (IH b)|]. etrans; [|apply intern_counter]. apply intern_counter.
Qed.

Lemma intern_below d b :
  builder_wf b → (intern d b).1 < Z.pos (unique_id (intern d b).2).
Proof.
  intros Hwf. eapply lookup_id_below; [by apply intern_wf|by apply intern_lookup].
Qed.

Lemma ids_below_insert s s' a id :
  ids_below s →
  (unique_id (builder s) ≤ unique_id (builder s'))%positive →
  id < Z.pos (unique_id (builder s')) →
  value_map s' = <[a := id]> (value_map s) →
  ids_below s'.
Proof.
  intros Hbelow Hle Hid Hmap a' id'. rewrite Hmap.
  destruct (decide (a' = a)) as [->|Hne].
  - rewrite lookup_insert_eq. by intros [= <-].
  - rewrite lookup_insert_ne by done. intros H. apply Hbelow in H. lia.
Qed.

(** X8: the ids in the value table stay below the module's counter across
    [get_id_for_value], and a value that is neither a constant nor in the
    table gets an id of its own: not 0, not the id of a declaration, and
    under no other key of the table. *)
Theorem get_id_for_value_fresh :
  ∀ (value : llvm.Value) (forced_width : Z) (s s' : Impl) (id : Id),
    builder_wf (builder s) →
    ids_below s →
    get_id_for_value value forced_width s = Some (id, s') →
    ids_below s' ∧
    (value_map s !! llvm.address value = None →
     llvm.isa_Constant value = false →
     id ≠ 0 ∧
     lookup_id (builder s') id = None ∧
     ∀ a, value_map s' !! a = Some id → a = llvm.address value).
Proof.
  intros value forced_width s s' id Hwf Hbelow Hrun.
  unfold get_id_for_value in Hrun.
  apply bind_Some in Hrun as (values & s0 & [= <- <-] & Hrun).
  destruct (value_map s !! llvm.address value) as [cached|] eqn:Hcached.
  { injection Hrun as <- <-. split; [done|]. by intros. }
  apply bind_Some in Hrun as (id1 & s1 & Hid & Hrun).
  apply bind_Some in Hrun as ([] & s2 & [= <-] & [= <- <-]).
  assert (value_map s1 = value_map s ∧
          (unique_id (builder s) ≤ unique_id (builder s1))%positive ∧
          id1 < Z.pos (unique_id (builder s1))) as (Hmap & Hle & Hid1).
  { destruct (llvm.isa_UndefValue value);
      [|destruct (llvm.isa_Constant value)].
    - unfold get_id_for_undef in Hid.
      apply bind_Some in Hid as (type_id & s3 & [= <- <-] & [= <- <-]). simpl.
      pose proof (get_type_id_counter (llvm.getType value) (builder s)).
      split_and!; [done|lia|lia].
    - unfold get_id_for_constant in Hid.
      assert (∀ d, build (intern d) s = Some (id1, s1) →
                   value_map s1 = value_map s ∧
                   (unique_id (builder s) ≤ unique_id (builder s1))%positive ∧
                   id1 < Z.pos (unique_id (builder s1))) as Hintern.
      { intros d [= <- <-]. simpl. split_and!;
          [done|apply intern_counter|by apply intern_below]. }
      assert (ret (0 : Id) s = Some (id1, s1) →
              value_map s1 = value_map s ∧
              (unique_id (builder s) ≤ unique_id (builder s1))%positive ∧
              id1 < Z.pos (unique_id (builder s1))) as Hzero.
      { intros [= <- <-]. split_and!; [done|lia|lia]. }
      destruct (llvm.getType value); try (by apply Hzero);
        try (destruct (llvm.classof value); try done; by eapply Hintern).
      case_decide; [|by apply Hzero].
      destruct (llvm.classof value); try done; by eapply Hintern.
    - injection Hid as <- <-. simpl. split_and!; [done|lia|lia]. }
  split.
  - eapply (ids_below_insert s); [done|exact Hle|exact Hid1|]. simpl. by rewrite Hmap.
  - intros _ Hnonconst.
    assert (llvm.isa_UndefValue value = false) as Hundef.
    { unfold llvm.isa_Constant, llvm.isa_UndefValue in *.
      by destruct (llvm.classof value). }
    rewrite Hundef, Hnonconst in Hid. injection Hid as <- <-. simpl.
    split_and!; [done|by apply lookup_id_counter|].
    intros a. destruct (decide (a = llvm.address value)) as [->|Hne]; [done|].
    rewrite lookup_insert_ne by done. intros H. apply Hbelow in H. lia.
Qed.

Lemma get_id_for_value_fresh_witness :
  let value := ssa_value 7 llvm.FloatTy in
  let s' := default constant_state (snd <$> get_id_for_value value 0 constant_state) in
  declarations (builder constant_state) = [(1%positive, ConstantUint 42)] ∧
  value_map constant_state !! 3%positive = Some 1 ∧
  ids_below s' ∧
  (value_map constant_state !! llvm.address value = None →
   llvm.isa_Constant value = false →
   (2 : Z) ≠ 0 ∧
   lookup_id (builder s') 2 = None ∧
   ∀ a, value_map s' !! a = Some 2 → a = llvm.address value).
Proof.
  intros value s'. split; [reflexivity|]. split; [reflexivity|].
  apply (get_id_for_value_fresh value 0 constant_state s' 2).
  - unfold builder_wf. refine (bool_decide_unpack _ _). vm_compute. exact I.
  - intros a id. apply (map_Forall_lookup_1 (λ _ id, id < 2)).
    refine (bool_decide_unpack _ _). vm_compute. exact I.
  - vm_compute. reflexivity.
Defined.

(** ** Stack variables *)

(** X9: an [alloca] of one element of a pointer type declares a new variable
    in Function storage of the pointee's type, named after the instruction,
    and puts it into the value table under the instruction, over whatever id
    the instruction had there; it appends nothing to the block. *)
Theorem emit_alloca_declares_variable :
  ∀ (block : IRBlock.t) (instruction : llvm.Instruction) (name : string)
    (pointee : llvm.type) (array_size : llvm.Value) (apint : Z) (s : Impl),
    llvm.getType (llvm.result instruction) = llvm.PointerTy pointee →
    llvm.getOperand instruction 0 = Some array_size →
    llvm.classof array_size = llvm.ConstantInt apint →
    llvm.getZExtValue apint = 1 →
    builder_wf (builder s) →
    ∃ (s' : Impl) (pointee_id var_id : Id),
      emit_alloca_instruction block instruction name s = Some (block, s') ∧
      extends (builder s) (builder s') ∧
      denotes (builder s') pointee pointee_id ∧
      lookup_id (builder s') var_id
        = Some (Var spv.StorageClassFunction pointee_id (Some name)) ∧
      lookup_id (builder s) var_id = None ∧
      value_map s'
        = <[llvm.address (llvm.result instruction) := var_id]> (value_map s).
Proof.
  intros block instruction name pointee array_size apint s Htype Hop Hclass Hone Hwf.
  destruct (get_type_id pointee (builder s)) as [pointee_id b1] eqn:Hpointee.
  pose proof (get_type_id_stands _ _ _ _ Hwf Hpointee) as Hden.
  pose proof (get_type_id_wf pointee _ Hwf) as Hwf1.
  pose proof (get_type_id_extends pointee (builder s)) as Hext1.
  rewrite Hpointee in Hwf1, Hext1. simpl in Hwf1, Hext1.
  set (var := Var spv.StorageClassFunction pointee_id (Some name)).
  destruct (declare var b1) as [var_id b2] eqn:Hvar.
  destruct (declare_spec _ _ _ _ Hwf1 Hvar) as (Hwf2 & Hext2 & Hlook & _).
  assert (lookup_id b1 var_id = None) as Hfresh.
  { injection Hvar as <- _. by apply lookup_id_counter. }
  exists (set_value_map (<[llvm.address (llvm.result instruction) := var_id]> (value_map s))
            (set_builder b2 s)), pointee_id, var_id.
  split_and!.
  - unfold emit_alloca_instruction, bind, must, build, assert, modify, ret.
    rewrite Htype, Hpointee, Hop, Hclass, Hone. simpl.
    by injection Hvar as <- <-.
  - simpl. by etrans.
  - simpl. by eapply denotes_extends.
  - done.
  - destruct (lookup_id (builder s) var_id) as [d|] eqn:Hd; [|done].
    apply (lookup_id_extends _ _ _ _ Hext1) in Hd. by rewrite Hd in Hfresh.
  - done.
Qed.

Lemma emit_alloca_declares_variable_witness :
  let instruction :=
    {| llvm.result := ssa_value 30 (llvm.PointerTy (llvm.ArrayTy llvm.FloatTy 4));
       llvm.inst_class := llvm.AllocaInst "arr";
       llvm.operands := [const_i32 31 1] |} in
  ∃ (s' : Impl) (pointee_id var_id : Id),
    emit_alloca_instruction IRBlock.empty instruction "arr" empty_impl
    = Some (IRBlock.empty, s') ∧
    extends (builder empty_impl) (builder s') ∧
    denotes (builder s') (llvm.ArrayTy llvm.FloatTy 4) pointee_id ∧
    lookup_id (builder s') var_id
      = Some (Var spv.StorageClassFunction pointee_id (Some "arr")) ∧
    lookup_id (builder empty_impl) var_id = None ∧
    value_map s'
      = <[llvm.address (llvm.result instruction) := var_id]> (value_map empty_impl).
Proof.
  intros instruction.
  apply (emit_alloca_declares_variable IRBlock.empty instruction "arr"
           (llvm.ArrayTy llvm.FloatTy 4) (const_i32 31 1) 1 empty_impl);
    [reflexivity|reflexivity|reflexivity|reflexivity|apply builder_wf_empty].
Defined.

(** ** Native instructions *)

Lemma get_type_id_stands_spec type b id b' :
  builder_wf b → get_type_id type b = (id, b') →
  builder_wf b' ∧ extends b b' ∧ denotes b' type id.
Proof.
  intros Hwf Heq.
  pose proof (get_type_id_wf type b Hwf) as Hwf'.
  pose proof (get_type_id_extends type b) as Hext.
  rewrite Heq in Hwf', Hext. split_and!; [done|done|exact (get_type_id_stands _ _ _ _ Hwf Heq)].
Qed.

(** The type id of the instruction at the head of the run; [Htype] keeps
    track of the states after it. *)
Ltac ev_type type_id Htype :=
  ev_build_with get_type_id_stands_spec type_id;
  match goal with
  | H : denotes (builder ?s) _ type_id |- _ =>
      assert (evolves s s) as Htype by reflexivity
  end.

(** X10: a binary operator whose operands [get_id_for_value] can lower
    becomes one operation: its opcode is the operator's, its id the id of the
    instruction in the value table, its type the id of the instruction's type,
    and its arguments the ids of operand 0 and operand 1 in the value table,
    in that order. *)
Theorem emit_binary_lowering :
  ∀ (block : IRBlock.t) (instruction : llvm.Instruction) (opcode : llvm.BinaryOps)
    (operand0 operand1 : llvm.Value) (s : Impl),
    llvm.getOperand instruction 0 = Some operand0 →
    llvm.getOperand instruction 1 = Some operand1 →
    lowerable (llvm.result instruction) = true →
    lowerable operand0 = true →
    lowerable operand1 = true →
    builder_wf (builder s) →
    ∃ (s' : Impl) (id type_id id0 id1 : Id),
      emit_binary_instruction block instruction opcode s
      = Some (push_operation
                {| Operation.op := binary_op opcode; Operation.id := id;
                   Operation.type_id := type_id;
                   Operation.arguments := [id0; id1] |} block, s') ∧
      evolves s s' ∧
      value_map s' !! llvm.address (llvm.result instruction) = Some id ∧
      denotes (builder s') (llvm.getType (llvm.result instruction)) type_id ∧
      value_map s' !! llvm.address operand0 = Some id0 ∧
      value_map s' !! llvm.address operand1 = Some id1.
Proof.
  intros block instruction opcode operand0 operand1 s Hop0 Hop1 Hres Hlow0 Hlow1 Hwf.
  cut (wp (emit_binary_instruction block instruction opcode)
         (λ block' s',
            ∃ id type_id id0 id1,
              block' = push_operation
                         {| Operation.op := binary_op opcode; Operation.id := id;
                            Operation.type_id := type_id;
                            Operation.arguments := [id0; id1] |} block ∧
              evolves s s' ∧
              value_map s' !! llvm.address (llvm.result instruction) = Some id ∧
              denotes (builder s') (llvm.getType (llvm.result instruction)) type_id ∧
              value_map s' !! llvm.address operand0 = Some id0 ∧
              value_map s' !! llvm.address operand1 = Some id1) s).
  { intros (block' & s' & Hrun & id & type_id & id0 & id1 & -> & H).
    by exists s', id, type_id, id0, id1. }
  unfold emit_binary_instruction.
  assert (evolves s s) as Hstart by reflexivity.
  ev_value id. ev_type type_id Htype.
  rewrite Hop0. wp_pure. ev_value id0.
  rewrite Hop1. wp_pure. ev_value id1.
  apply wp_ret. exists id, type_id, id0, id1. split_and!; try done.
  eapply denotes_extends; [apply (evolves_builder _ _ Htype)|done].
Qed.

Lemma emit_binary_lowering_witness :
  let instruction :=
    {| llvm.result := ssa_value 40 llvm.FloatTy;
       llvm.inst_class := llvm.BinaryOperator llvm.FAdd;
       llvm.operands := [ssa_value 41 llvm.FloatTy; ssa_value 42 llvm.FloatTy] |} in
  ∃ (s' : Impl) (id type_id id0 id1 : Id),
    emit_binary_instruction IRBlock.empty instruction llvm.FAdd empty_impl
    = Some (push_operation
              {| Operation.op := binary_op llvm.FAdd; Operation.id := id;
                 Operation.type_id := type_id;
                 Operation.arguments := [id0; id1] |} IRBlock.empty, s') ∧
    evolves empty_impl s' ∧
    value_map s' !! llvm.address (llvm.result instruction) = Some id ∧
    denotes (builder s') (llvm.getType (llvm.result instruction)) type_id ∧
    value_map s' !! llvm.address (ssa_value 41 llvm.FloatTy) = Some id0 ∧
    value_map s' !! llvm.address (ssa_value 42 llvm.FloatTy) = Some id1.
Proof.
  intros instruction.
  apply (emit_binary_lowering IRBlock.empty instruction llvm.FAdd
           (ssa_value 41 llvm.FloatTy) (ssa_value 42 llvm.FloatTy) empty_impl);
    [reflexivity|reflexivity|reflexivity|reflexivity|reflexivity
    |apply builder_wf_empty].
Defined.

(** X11: a cast whose operand [get_id_for_value] can lower gives the
    instruction its id in the value table in every case, and appends one
    operation with that id, the instruction's type and the operand's id for
    the ten opcodes it knows; for [PtrToInt], [IntToPtr] and [AddrSpaceCast]
    it appends nothing. *)
Theorem emit_cast_lowering :
  ∀ (block : IRBlock.t) (instruction : llvm.Instruction) (opcode : llvm.CastOps)
    (operand : llvm.Value) (s : Impl),
    llvm.getOperand instruction 0 = Some operand →
    lowerable (llvm.result instruction) = true →
    lowerable operand = true →
    builder_wf (builder s) →
    ∃ (s' : Impl) (id type_id operand_id : Id),
      emit_cast_instruction block instruction opcode s
      = Some (match cast_op opcode with
              | Some op =>
                  push_operation
                    {| Operation.op := op; Operation.id := id;
                       Operation.type_id := type_id;
                       Operation.arguments := [operand_id] |} block
              | None => block
              end, s') ∧
      (cast_op opcode = None ↔
       opcode = llvm.PtrToInt ∨ opcode = llvm.IntToPtr ∨ opcode = llvm.AddrSpaceCast) ∧
      evolves s s' ∧
      value_map s' !! llvm.address (llvm.result instruction) = Some id ∧
      denotes (builder s') (llvm.getType (llvm.result instruction)) type_id ∧
      value_map s' !! llvm.address operand = Some operand_id.
Proof.
  intros block instruction opcode operand s Hop Hres Hlow Hwf.
  cut (wp (emit_cast_instruction block instruction opcode)
         (λ block' s',
            ∃ id type_id operand_id,
              block' = match cast_op opcode with
                       | Some op =>
                           push_operation
                             {| Operation.op := op; Operation.id := id;
                                Operation.type_id := type_id;
                                Operation.arguments := [operand_id] |} block
                       | None => block
                       end ∧
              evolves s s' ∧
              value_map s' !! llvm.address (llvm.result instruction) = Some id ∧
              denotes (builder s') (llvm.getType (llvm.result instruction)) type_id ∧
              value_map s' !! llvm.address operand = Some operand_id) s).
  { intros (block' & s' & Hrun & id & type_id & operand_id & -> & H).
    exists s', id, type_id, operand_id. split_and!; try done; try apply H.
    destruct opcode; simpl; split; try done; intros H'; auto;
      by destruct H' as [|[|]]. }
  unfold emit_cast_instruction.
  assert (evolves s s) as Hstart by reflexivity.
  ev_value id. ev_type type_id Htype.
  rewrite Hop. wp_pure. ev_value operand_id.
  assert (denotes (builder s2) (llvm.getType (llvm.result instruction)) type_id).
  { eapply denotes_extends; [apply (evolves_builder _ _ Htype)|done]. }
  destruct (cast_op opcode); apply wp_ret; by exists id, type_id, operand_id.
Qed.

Lemma emit_cast_lowering_witness :
  let instruction :=
    {| llvm.result := ssa_value 40 (llvm.IntegerTy 32);
       llvm.inst_class := llvm.CastInst llvm.PtrToInt;
       llvm.operands := [ssa_value 41 (llvm.PointerTy llvm.FloatTy)] |} in
  let operand := ssa_value 41 (llvm.PointerTy llvm.FloatTy) in
  ∃ (s' : Impl) (id type_id operand_id : Id),
    emit_cast_instruction IRBlock.empty instruction llvm.PtrToInt empty_impl
    = Some (match cast_op llvm.PtrToInt with
            | Some op =>
                push_operation
                  {| Operation.op := op; Operation.id := id;
                     Operation.type_id := type_id;
                     Operation.arguments := [operand_id] |} IRBlock.empty
            | None => IRBlock.empty
            end, s') ∧
    (cast_op llvm.PtrToInt = None ↔
     llvm.PtrToInt = llvm.PtrToInt ∨ llvm.PtrToInt = llvm.IntToPtr ∨
     llvm.PtrToInt = llvm.AddrSpaceCast) ∧
    evolves empty_impl s' ∧
    value_map s' !! llvm.address (llvm.result instruction) = Some id ∧
    denotes (builder s') (llvm.getType (llvm.result instruction)) type_id ∧
    value_map s' !! llvm.address operand = Some operand_id.
Proof.
  intros instruction operand.
  apply (emit_cast_lowering IRBlock.empty instruction llvm.PtrToInt operand empty_impl);
    [reflexivity|reflexivity|reflexivity|apply builder_wf_empty].
Defined.

Lemma get_id_for_value_frame value forced_width s id s' a :
  get_id_for_value value forced_width s = Some (id, s') →
  a ≠ llvm.address value →
  value_map s' !! a = value_map s !! a.
Proof.
  intros Hrun Hne. unfold get_id_for_value in Hrun.
  apply bind_Some in Hrun as (values & s0 & [= <- <-] & Hrun).
  destruct (value_map s !! llvm.address value) as [cached|] eqn:Hcached.
  { by injection Hrun as <- <-. }
  apply bind_Some in Hrun as (id1 & s1 & Hid & Hrun).
  apply bind_Some in Hrun as ([] & s2 & [= <-] & [= <- <-]).
  simpl. rewrite lookup_insert_ne by done.
  cut (value_map s1 = value_map s); [by intros ->|].
  destruct (llvm.isa_UndefValue value); [|destruct (llvm.isa_Constant value)].
  - unfold get_id_for_undef in Hid.
    by apply bind_Some in Hid as (type_id & s3 & [= <- <-] & [= <- <-]).
  - unfold get_id_for_constant in Hid.
    destruct (llvm.getType value); try (by injection Hid as <- <-);
      try (destruct (llvm.classof value); try done; by injection Hid as <- <-).
    case_decide; [|by injection Hid as <- <-].
    destruct (llvm.classof value); try done; by injection Hid as <- <-.
  - by injection Hid as <- <-.
Qed.

(** X12: a store becomes one [OpStore] without result id and type, whose
    arguments are the id of operand 1, the pointer, and then the id of
    operand 0, the value. *)
Theorem emit_store_lowering :
  ∀ (block : IRBlock.t) (instruction : llvm.Instruction)
    (value pointer : llvm.Value) (s : Impl),
    llvm.getOperand instruction 0 = Some value →
    llvm.getOperand instruction 1 = Some pointer →
    lowerable value = true →
    lowerable pointer = true →
    builder_wf (builder s) →
    ∃ (s' : Impl) (pointer_id value_id : Id),
      emit_store_instruction block instruction s
      = Some (push_operation
                {| Operation.op := spv.OpStore; Operation.id := 0;
                   Operation.type_id := 0;
                   Operation.arguments := [pointer_id; value_id] |} block, s') ∧
      evolves s s' ∧
      value_map s' !! llvm.address pointer = Some pointer_id ∧
      value_map s' !! llvm.address value = Some value_id ∧
      (value_map s !! llvm.address (llvm.result instruction) = None →
       llvm.address (llvm.result instruction) ≠ llvm.address pointer →
       llvm.address (llvm.result instruction) ≠ llvm.address value →
       value_map s' !! llvm.address (llvm.result instruction) = None).
Proof.
  intros block instruction value pointer s Hvalue Hpointer Hlowv Hlowp Hwf.
  unfold emit_store_instruction.
  destruct (get_id_for_value pointer 0 s) as [[pointer_id s1]|] eqn:Hp; last first.
  { destruct (wp_get_id_for_value pointer 0 (λ _ _, True) s Hlowp Hwf)
      as (? & ? & Hrun & _); [done|]. by rewrite Hrun in Hp. }
  assert (builder_wf (builder s1) ∧ evolves s s1) as [Hwf1 Hev1].
  { destruct (wp_get_id_for_value pointer 0
                (λ _ s', builder_wf (builder s') ∧ evolves s s') s Hlowp Hwf)
      as (? & ? & Hrun & H); [done|]. rewrite Hrun in Hp. by injection Hp as <- <-. }
  destruct (get_id_for_value value 0 s1) as [[value_id s2]|] eqn:Hv; last first.
  { destruct (wp_get_id_for_value value 0 (λ _ _, True) s1 Hlowv Hwf1)
      as (? & ? & Hrun & _); [done|]. by rewrite Hrun in Hv. }
  assert (evolves s1 s2) as Hev2.
  { destruct (wp_get_id_for_value value 0 (λ _ s', evolves s1 s') s1 Hlowv Hwf1)
      as (? & ? & Hrun & H); [done|]. rewrite Hrun in Hv. by injection Hv as <- <-. }
  exists s2, pointer_id, value_id. split_and!.
  - unfold bind, must, ret. rewrite Hpointer, Hp, Hvalue, Hv. done.
  - by etrans.
  - apply (evolves_value_map _ _ Hev2). exact (proj1 (get_id_for_value_Some _ _ _ _ _ Hp)).
  - exact (proj1 (get_id_for_value_Some _ _ _ _ _ Hv)).
  - intros Hnone Hnp Hnv.
    rewrite (get_id_for_value_frame _ _ _ _ _ _ Hv) by done.
    by rewrite (get_id_for_value_frame _ _ _ _ _ _ Hp) by done.
Qed.

Lemma emit_store_lowering_witness :
  let value := ssa_value 41 llvm.FloatTy in
  let pointer := ssa_value 42 (llvm.PointerTy llvm.FloatTy) in
  let instruction :=
    {| llvm.result := ssa_value 40 llvm.VoidTy; llvm.inst_class := llvm.StoreInst;
       llvm.operands := [value; pointer] |} in
  ∃ (s' : Impl) (pointer_id value_id : Id),
    emit_store_instruction IRBlock.empty instruction empty_impl
    = Some (push_operation
              {| Operation.op := spv.OpStore; Operation.id := 0;
                 Operation.type_id := 0;
                 Operation.arguments := [pointer_id; value_id] |} IRBlock.empty, s') ∧
    evolves empty_impl s' ∧
    value_map s' !! llvm.address pointer = Some pointer_id ∧
    value_map s' !! llvm.address value = Some value_id ∧
    (value_map empty_impl !! llvm.address (llvm.result instruction) = None →
     llvm.address (llvm.result instruction) ≠ llvm.address pointer →
     llvm.address (llvm.result instruction) ≠ llvm.address value →
     value_map s' !! llvm.address (llvm.result instruction) = None).
Proof.
  intros value pointer instruction.
  apply (emit_store_lowering IRBlock.empty instruction value pointer empty_impl);
    [reflexivity|reflexivity|reflexivity|reflexivity|apply builder_wf_empty].
Defined.

(** X13: a comparison always becomes one operation with the opcode of its
    predicate, [OpNop] for [FCMP_ORD] and [FCMP_UNO]; the arguments are the
    ids of the two operands, except for [FCMP_FALSE] and [FCMP_TRUE], whose
    one argument is the boolean constant. *)
Theorem emit_compare_lowering :
  ∀ (block : IRBlock.t) (instruction : llvm.Instruction) (predicate : llvm.Predicate)
    (operand0 operand1 : llvm.Value) (s : Impl),
    llvm.getOperand instruction 0 = Some operand0 →
    llvm.getOperand instruction 1 = Some operand1 →
    lowerable (llvm.result instruction) = true →
    lowerable operand0 = true →
    lowerable operand1 = true →
    builder_wf (builder s) →
    ∃ (s' : Impl) (id type_id id0 id1 : Id) (arguments : list Z),
      emit_compare_instruction block instruction predicate s
      = Some (push_operation
                {| Operation.op := compare_op predicate; Operation.id := id;
                   Operation.type_id := type_id;
                   Operation.arguments := arguments |} block, s') ∧
      value_map s' !! llvm.address (llvm.result instruction) = Some id ∧
      denotes (builder s') (llvm.getType (llvm.result instruction)) type_id ∧
      value_map s' !! llvm.address operand0 = Some id0 ∧
      value_map s' !! llvm.address operand1 = Some id1 ∧
      (compare_op predicate = spv.OpNop ↔
       predicate = llvm.FCMP_ORD ∨ predicate = llvm.FCMP_UNO) ∧
      match predicate with
      | llvm.FCMP_FALSE =>
          ∃ c, arguments = [c] ∧ lookup_id (builder s') c = Some (ConstantBool false)
      | llvm.FCMP_TRUE =>
          ∃ c, arguments = [c] ∧ lookup_id (builder s') c = Some (ConstantBool true)
      | _ => arguments = [id0; id1]
      end.
Proof.
  intros block instruction predicate operand0 operand1 s Hop0 Hop1 Hres Hlow0 Hlow1 Hwf.
  cut (wp (emit_compare_instruction block instruction predicate)
         (λ block' s',
            ∃ id type_id id0 id1 arguments,
              block' = push_operation
                         {| Operation.op := compare_op predicate; Operation.id := id;
                            Operation.type_id := type_id;
                            Operation.arguments := arguments |} block ∧
              value_map s' !! llvm.address (llvm.result instruction) = Some id ∧
              denotes (builder s') (llvm.getType (llvm.result instruction)) type_id ∧
              value_map s' !! llvm.address operand0 = Some id0 ∧
              value_map s' !! llvm.address operand1 = Some id1 ∧
              match predicate with
              | llvm.FCMP_FALSE =>
                  ∃ c, arguments = [c] ∧
                       lookup_id (builder s') c = Some (ConstantBool false)
              | llvm.FCMP_TRUE =>
                  ∃ c, arguments = [c] ∧
                       lookup_id (builder s') c = Some (ConstantBool true)
              | _ => arguments = [id0; id1]
              end) s).
  { intros (block' & s' & Hrun & id & type_id & id0 & id1 & arguments & -> & H).
    exists s', id, type_id, id0, id1, arguments.
    destruct H as (? & ? & ? & ? & ?). split_and!; try done.
    destruct predicate; simpl; split; try done; intros H'; auto;
      by destruct H' as [|]. }
  unfold emit_compare_instruction.
  assert (evolves s s) as Hstart by reflexivity.
  ev_value id. ev_type type_id Htype.
  rewrite Hop0. wp_pure. ev_value id0.
  rewrite Hop1. wp_pure. ev_value id1.
  assert (denotes (builder s3) (llvm.getType (llvm.result instruction)) type_id)
    as Hden.
  { eapply denotes_extends; [apply (evolves_builder _ _ Htype)|done]. }
  clear Htype. assert (evolves s3 s3) as Hlast by reflexivity.
  destruct predicate;
    try (wp_pure; apply wp_ret; by exists id, type_id, id0, id1, [id0; id1]).
  - apply wp_bind. ev_intern c. wp_pure. apply wp_ret.
    exists id, type_id, id0, id1, [c].
    split_and!; try done.
    + eapply denotes_extends; [apply (evolves_builder _ _ Hlast)|done].
    + by exists c.
  - apply wp_bind. ev_intern c. wp_pure. apply wp_ret.
    exists id, type_id, id0, id1, [c].
    split_and!; try done.
    + eapply denotes_extends; [apply (evolves_builder _ _ Hlast)|done].
    + by exists c.
Qed.

Lemma emit_compare_lowering_witness :
  let operand0 := ssa_value 41 llvm.FloatTy in
  let operand1 := ssa_value 42 llvm.FloatTy in
  let instruction :=
    {| llvm.result := ssa_value 40 (llvm.IntegerTy 1);
       llvm.inst_class := llvm.CmpInst llvm.FCMP_TRUE;
       llvm.operands := [operand0; operand1] |} in
  ∃ (s' : Impl) (id type_id id0 id1 : Id) (arguments : list Z),
    emit_compare_instruction IRBlock.empty instruction llvm.FCMP_TRUE empty_impl
    = Some (push_operation
              {| Operation.op := compare_op llvm.FCMP_TRUE; Operation.id := id;
                 Operation.type_id := type_id;
                 Operation.arguments := arguments |} IRBlock.empty, s') ∧
    value_map s' !! llvm.address (llvm.result instruction) = Some id ∧
    denotes (builder s') (llvm.getType (llvm.result instruction)) type_id ∧
    value_map s' !! llvm.address operand0 = Some id0 ∧
    value_map s' !! llvm.address operand1 = Some id1 ∧
    (compare_op llvm.FCMP_TRUE = spv.OpNop ↔
     llvm.FCMP_TRUE = llvm.FCMP_ORD ∨ llvm.FCMP_TRUE = llvm.FCMP_UNO) ∧
    ∃ c, arguments = [c] ∧ lookup_id (builder s') c = Some (ConstantBool true).
Proof.
  intros operand0 operand1 instruction.
  apply (emit_compare_lowering IRBlock.empty instruction llvm.FCMP_TRUE
           operand0 operand1 empty_impl);
    [reflexivity|reflexivity|reflexivity|reflexivity|reflexivity
    |apply builder_wf_empty].
Defined.

Lemma Forall2_concat_singletons {A B} (R : A → B → Prop) (xs : list A)
    (l : list (list B)) :
  length l = length xs →
  (∀ k a, l !! k = Some a → ∃ x y, xs !! k = Some x ∧ a = [y] ∧ R x y) →
  Forall2 R xs (concat l).
Proof.
  revert l. induction xs as [|x xs IH]; intros [|a l] Hlen Hl; try done.
  destruct (Hl 0%nat a eq_refl) as (x' & y & [= <-] & -> & Hxy). simpl.
  constructor; [done|]. apply IH; [by injection Hlen|].
  intros k a' Hk. apply (Hl (S k) a' Hk).
Qed.

(** X14: a [getelementptr] whose operand 1 is the integer constant 0
    becomes one access chain, in bounds or not as the instruction is; its
    arguments are the ids of the operands in order with operand 1 left out. *)
Theorem emit_getelementptr_lowering :
  ∀ (block : IRBlock.t) (instruction : llvm.Instruction) (in_bounds : bool)
    (first_index : llvm.Value) (apint : Z) (s : Impl),
    llvm.getOperand instruction 1 = Some first_index →
    llvm.classof first_index = llvm.ConstantInt apint →
    llvm.getZExtValue apint = 0 →
    lowerable (llvm.result instruction) = true →
    Forall (λ operand, lowerable operand = true) (llvm.operands instruction) →
    builder_wf (builder s) →
    ∃ (s' : Impl) (id type_id : Id) (arguments : list Z),
      emit_getelementptr_instruction block instruction in_bounds s
      = Some (push_operation
                {| Operation.op :=
                     if in_bounds then spv.OpInBoundsAccessChain else spv.OpAccessChain;
                   Operation.id := id; Operation.type_id := type_id;
                   Operation.arguments := arguments |} block, s') ∧
      value_map s' !! llvm.address (llvm.result instruction) = Some id ∧
      denotes (builder s') (llvm.getType (llvm.result instruction)) type_id ∧
      Forall2 (λ operand argument,
                 value_map s' !! llvm.address operand = Some argument)
        (delete 1%nat (llvm.operands instruction)) arguments.
Proof.
  intros block instruction in_bounds first_index apint s Hfirst Hclass Hzero Hres Hlow Hwf.
  cut (wp (emit_getelementptr_instruction block instruction in_bounds)
         (λ block' s',
            ∃ id type_id arguments,
              block' = push_operation
                         {| Operation.op :=
                              if in_bounds then spv.OpInBoundsAccessChain
                              else spv.OpAccessChain;
                            Operation.id := id; Operation.type_id := type_id;
                            Operation.arguments := arguments |} block ∧
              value_map s' !! llvm.address (llvm.result instruction) = Some id ∧
              denotes (builder s') (llvm.getType (llvm.result instruction)) type_id ∧
              Forall2 (λ operand argument,
                         value_map s' !! llvm.address operand = Some argument)
                (delete 1%nat (llvm.operands instruction)) arguments) s).
  { intros (block' & s' & Hrun & id & type_id & arguments & -> & H).
    by exists s', id, type_id, arguments. }
  unfold emit_getelementptr_instruction.
  assert (evolves s s) as Hstart by reflexivity.
  ev_value id. ev_type type_id Htype.
  set (Φ := λ (i : nat) (a : list Z) (s' : Impl),
         ∃ operand, llvm.operands instruction !! i = Some operand ∧
                    if decide (i = 1%nat) then a = []
                    else ∃ y, a = [y] ∧ value_map s' !! llvm.address operand = Some y).
  apply wp_bind.
  apply (wp_for_range _ Φ); [| done | |].
  - intros i a sa sb (operand & Hop & Ha) Hev. exists operand. split; [done|].
    case_decide; [done|]. destruct Ha as (y & -> & Hy). exists y. split; [done|].
    by apply (evolves_value_map _ _ Hev).
  - intros i sa Hi Heva Hwfa.
    destruct (lookup_lt_is_Some_2 (llvm.operands instruction) i) as [operand Hop];
      [lia|].
    unfold llvm.getOperand. rewrite Hop. wp_pure.
    case_decide as Hone.
    + subst i. unfold llvm.getOperand in Hfirst. rewrite Hfirst in Hop.
      injection Hop as <-. rewrite Hclass, Hzero. simpl. wp_pure. apply wp_ret.
      split_and!; [done|done|]. exists first_index. split; [done|].
      by rewrite decide_True.
    + apply wp_bind. apply wp_get_id_for_value.
      * rewrite Forall_forall in Hlow. apply Hlow. by eapply list_elem_of_lookup_2.
      * done.
      * intros y sb Hevb Hwfb Hy. apply wp_ret. split_and!; [done|done|].
        exists operand. split; [done|]. rewrite decide_False by done. by exists y.
  - intros l s' Hev' Hwf' Hlen Hl. apply wp_ret.
    exists id, type_id, (concat l). split_and!.
    + done.
    + by apply (evolves_value_map _ _ Hev').
    + eapply denotes_extends; [|done]. etrans; [apply (evolves_builder _ _ Htype)|].
      apply (evolves_builder _ _ Hev').
    + unfold llvm.getOperand in Hfirst.
      destruct (llvm.operands instruction) as [|base [|index rest]] eqn:Hops;
        try done.
      destruct l as [|a0 [|a1 l]]; try done.
      destruct (Hl 0%nat a0 eq_refl) as (base' & [= <-] & Ha0).
      rewrite decide_False in Ha0 by done. destruct Ha0 as (y0 & -> & Hy0).
      destruct (Hl 1%nat a1 eq_refl) as (index' & _ & Ha1).
      rewrite decide_True in Ha1 by done. subst a1. simpl.
      constructor; [done|].
      apply Forall2_concat_singletons; [by injection Hlen|].
      intros k a Hk. destruct (Hl (S (S k)) a Hk) as (operand & Hop & Ha).
      rewrite decide_False in Ha by lia. destruct Ha as (y & -> & Hy).
      by exists operand, y.
Qed.

Lemma emit_getelementptr_lowering_witness :
  let base := ssa_value 41 (llvm.PointerTy (llvm.ArrayTy llvm.FloatTy 4)) in
  let instruction :=
    {| llvm.result := ssa_value 40 (llvm.PointerTy llvm.FloatTy);
       llvm.inst_class := llvm.GetElementPtrInst true;
       llvm.operands := [base; const_i32 42 0; ssa_value 43 (llvm.IntegerTy 32)] |} in
  ∃ (s' : Impl) (id type_id : Id) (arguments : list Z),
    emit_getelementptr_instruction IRBlock.empty instruction true empty_impl
    = Some (push_operation
              {| Operation.op := spv.OpInBoundsAccessChain;
                 Operation.id := id; Operation.type_id := type_id;
                 Operation.arguments := arguments |} IRBlock.empty, s') ∧
    value_map s' !! llvm.address (llvm.result instruction) = Some id ∧
    denotes (builder s') (llvm.getType (llvm.result instruction)) type_id ∧
    Forall2 (λ operand argument, value_map s' !! llvm.address operand = Some argument)
      (delete 1%nat (llvm.operands instruction)) arguments.
Proof.
  intros base instruction.
  apply (emit_getelementptr_lowering IRBlock.empty instruction true
           (const_i32 42 0) 0 empty_impl);
    [reflexivity|reflexivity|reflexivity|reflexivity
    |repeat constructor|apply builder_wf_empty].
Defined.

(** ** What an instruction adds to its block *)

Lemma adds_refl n block : adds n block block.
Proof. exists []. rewrite app_nil_r. split_and!; [done|simpl; lia|done|done]. Qed.

Lemma adds_step n o block block' :
  adds n block block' → adds (S n) block (push_operation o block').
Proof.
  intros (new & Hops & Hlen & Hphi & Hterm). exists (new ++ [o]). simpl.
  rewrite Hops, app_assoc, length_app. simpl. split_and!; [done|lia|done|done].
Qed.

Lemma adds_trans n m block1 block2 block3 :
  adds n block1 block2 → adds m block2 block3 → adds (n + m) block1 block3.
Proof.
  intros (new1 & H1 & Hl1 & Hp1 & Ht1) (new2 & H2 & Hl2 & Hp2 & Ht2).
  exists (new1 ++ new2). rewrite H2, H1, app_assoc, length_app.
  split_and!; [done|lia|congruence|congruence].
Qed.

Lemma adds_le n m block block' : (n ≤ m)%nat → adds n block block' → adds m block block'.
Proof.
  intros Hle (new & H & Hl & Hp & Ht). exists new. split_and!; [done|lia|done|done].
Qed.

Ltac adds_auto :=
  repeat first [ apply adds_refl | apply adds_step ].

Lemma build_sampled_image_adds block image_id sampler_id comparison s :
  post (build_sampled_image block image_id sampler_id comparison)
    (λ built _, adds 1 block built.2) s.
Proof.
  unfold build_sampled_image, get_type_id_of_id, allocate_id.
  repeat post_step; adds_auto.
Qed.

Lemma build_vector_adds block element_type elements s :
  post (build_vector block element_type elements) (λ built _, adds 1 block built.2) s.
Proof. unfold build_vector, allocate_id. repeat post_step; adds_auto. Qed.

Lemma sample_arguments_adds block combined coord dref image_ops aux offsets s :
  post (sample_arguments block combined coord dref image_ops aux offsets)
    (λ built _, adds 2 block built.2) s.
Proof.
  unfold sample_arguments.
  post_step. apply post_bind.
  eapply post_mono; [apply build_vector_adds|].
  intros coord_vector s1 Hcoord. cbv beta zeta.
  destruct (nonzero (Z.land image_ops spv.ImageOperandsConstOffsetMask)).
  - apply post_bind. post_step. apply post_bind.
    eapply post_mono; [apply build_vector_adds|].
    intros offset_vector s2 Hoffset. cbv beta.
    repeat post_step. exact (adds_trans _ _ _ _ _ Hcoord Hoffset).
  - repeat post_step. by eapply adds_le; [|exact Hcoord]; lia.
Qed.

Lemma sample_splat_adds comparison block instruction sampled_value_id s :
  post (sample_splat comparison block instruction sampled_value_id)
    (λ block' _, adds 1 block block') s.
Proof. unfold sample_splat. destruct comparison; repeat post_step; adds_auto. Qed.

Lemma emit_sample_instruction_adds opcode block instruction s :
  post (emit_sample_instruction opcode block instruction)
    (λ block' _, adds 5 block block') s.
Proof.
  unfold emit_sample_instruction.
  do 3 post_step. apply post_bind.
  eapply post_mono; [apply build_sampled_image_adds|].
  intros combined s1 Hcombined. cbv beta zeta.
  do 3 post_step.
  destruct (num_coords_of_dim _) as [num_coords|].
  2:{ apply post_ret. by eapply adds_le; [|exact Hcombined]; lia. }
  do 6 post_step. apply post_bind.
  eapply post_mono; [apply sample_arguments_adds|].
  intros built s3 Hbuilt. cbv beta zeta.
  eapply post_mono; [apply sample_splat_adds|].
  intros block' s4 Hsplat. cbv beta.
  cbv beta in Hcombined, Hbuilt, Hsplat.
  refine (adds_trans 4 1 _ _ _ _ Hsplat).
  apply adds_step. exact (adds_trans _ _ _ _ _ Hcombined Hbuilt).
Qed.

Lemma emit_builtin_instruction_adds codes block instruction s :
  post (emit_builtin_instruction codes block instruction)
    (λ block' _, adds 5 block block') s.
Proof.
  unfold emit_builtin_instruction. post_step.
  destruct (DXIL.to_Op codes _); try apply emit_sample_instruction_adds.
  - unfold emit_load_input_instruction, allocate_id. repeat post_step; adds_auto.
  - unfold emit_store_output_instruction, allocate_id. repeat post_step; adds_auto.
  - unfold emit_create_handle_instruction, load_resource_handle, bind_handle,
      allocate_id.
    repeat post_step; adds_auto.
  - unfold emit_cbuffer_load_legacy_instruction, allocate_id.
    repeat post_step; adds_auto.
  - apply post_ret. adds_auto.
Qed.

Lemma emit_instruction_adds codes block instruction s :
  (∀ incoming_blocks, llvm.inst_class instruction ≠ llvm.PHINode incoming_blocks) →
  post (emit_instruction codes block instruction) (λ block' _, adds 5 block block') s.
Proof.
  intros Hclass. unfold emit_instruction.
  destruct (llvm.inst_class instruction) eqn:Hc.
  - destruct (String.prefix _ _); [apply emit_builtin_instruction_adds|].
    apply post_ret. adds_auto.
  - unfold emit_binary_instruction. repeat post_step; adds_auto.
  - unfold emit_unary_instruction. repeat post_step; adds_auto.
  - unfold emit_cast_instruction. repeat post_step; adds_auto.
  - unfold emit_getelementptr_instruction. repeat post_step; adds_auto.
  - unfold emit_load_instruction. repeat post_step; adds_auto.
  - unfold emit_store_instruction. repeat post_step; adds_auto.
  - unfold emit_compare_instruction. repeat post_step; adds_auto.
  - unfold emit_extract_value_instruction. repeat post_step; adds_auto.
  - unfold emit_alloca_instruction. repeat post_step; adds_auto.
  - unfold emit_select_instruction. repeat post_step; adds_auto.
  - by destruct (Hclass incoming_blocks).
  - apply post_ret. adds_auto.
Qed.

Lemma emit_phi_instruction_adds block instruction incoming_blocks s :
  post (emit_phi_instruction block instruction incoming_blocks)
    (λ block' _,
       IRBlock.terminator block' = IRBlock.terminator block ∧
       IRBlock.operations block' = IRBlock.operations block ∧
       ∃ phi, IRBlock.phi block' = IRBlock.phi block ++ [phi]) s.
Proof.
  unfold emit_phi_instruction. repeat post_step. simpl.
  split_and!; try done. by eexists.
Qed.

(** X15: an instruction adds at most five operations at the end of its
    block and leaves the operations that were there, the phis and the
    terminator alone; a phi instruction adds one phi at the end and no
    operation. *)
Theorem emit_instruction_appends :
  ∀ (codes : DXIL.Codes) (block block' : IRBlock.t) (instruction : llvm.Instruction)
    (s s' : Impl),
    emit_instruction codes block instruction s = Some (block', s') →
    IRBlock.terminator block' = IRBlock.terminator block ∧
    match llvm.inst_class instruction with
    | llvm.PHINode _ =>
        IRBlock.operations block' = IRBlock.operations block ∧
        ∃ phi, IRBlock.phi block' = IRBlock.phi block ++ [phi]
    | _ =>
        IRBlock.phi block' = IRBlock.phi block ∧
        ∃ new, IRBlock.operations block' = IRBlock.operations block ++ new ∧
               (length new ≤ 5)%nat
    end.
Proof.
  intros codes block block' instruction s s' Hrun.
  assert ((∀ incoming_blocks,
             llvm.inst_class instruction ≠ llvm.PHINode incoming_blocks) →
          IRBlock.terminator block' = IRBlock.terminator block ∧
          IRBlock.phi block' = IRBlock.phi block ∧
          ∃ new, IRBlock.operations block' = IRBlock.operations block ++ new ∧
                 (length new ≤ 5)%nat) as Hadds.
  { intros Hclass.
    destruct (emit_instruction_adds codes block instruction s Hclass _ _ Hrun)
      as (new & Hops & Hlen & Hphi & Hterm).
    split_and!; try done. by exists new. }
  destruct (llvm.inst_class instruction) eqn:Hclass; try (by apply Hadds).
  unfold emit_instruction in Hrun. rewrite Hclass in Hrun.
  exact (emit_phi_instruction_adds block instruction incoming_blocks s _ _ Hrun).
Qed.

Lemma emit_instruction_appends_witness :
  let run := emit_instruction dxil_codes sampling_block cmp_level_zero_sample
               sampling_state in
  let block' := default sampling_block (fst <$> run) in
  IRBlock.terminator block' = IRBlock.terminator sampling_block ∧
  IRBlock.phi block' = IRBlock.phi sampling_block ∧
  ∃ new, IRBlock.operations block' = IRBlock.operations sampling_block ++ new ∧
         (length new ≤ 5)%nat.
Proof.
  intros run block'.
  apply (emit_instruction_appends dxil_codes sampling_block block' cmp_level_zero_sample
           sampling_state (default sampling_state (snd <$> run))).
  vm_compute. reflexivity.
Defined.

(** ** The second pass over the blocks *)

Lemma emit_instruction_keeps codes block instruction s :
  post (emit_instruction codes block instruction)
    (λ block' _,
       IRBlock.phi block `prefix_of` IRBlock.phi block' ∧
       IRBlock.operations block `prefix_of` IRBlock.operations block') s.
Proof.
  destruct (llvm.inst_class instruction) eqn:Hclass.
  12:{ unfold emit_instruction. rewrite Hclass.
       eapply post_mono; [apply emit_phi_instruction_adds|].
       intros block' s' (_ & -> & phi & ->). split; [by apply prefix_app_r|done]. }
  all: eapply post_mono;
    [apply emit_instruction_adds; intros l; by rewrite Hclass|];
    intros block' s' (new & -> & _ & -> & _); split; [done|by apply prefix_app_r].
Qed.

(** X16: the loop that emits the blocks in visit order keeps the graph:
    the pool has the nodes it had, each with its name and its successors,
    and with the phis and operations it had at the start of its lists. *)
Theorem emit_blocks_keep_graph :
  ∀ (codes : DXIL.Codes) (function : ir.Function) (order : list llvm.BasicBlock)
    (pool pool' : list CFGNode.t) (s s' : Impl),
    for_each_with order pool (emit_block codes function) s = Some (pool', s') →
    length pool' = length pool ∧
    ∀ i node,
      pool !! i = Some node →
      ∃ node',
        pool' !! i = Some node' ∧
        CFGNode.name node' = CFGNode.name node ∧
        CFGNode.successors node' = CFGNode.successors node ∧
        IRBlock.phi (CFGNode.ir node) `prefix_of` IRBlock.phi (CFGNode.ir node') ∧
        IRBlock.operations (CFGNode.ir node)
          `prefix_of` IRBlock.operations (CFGNode.ir node').
Proof.
  intros codes function order pool pool' s s' Hrun.
  set (I := λ (pool1 : list CFGNode.t) (_ : Impl),
         length pool1 = length pool ∧
         ∀ i node,
           pool !! i = Some node →
           ∃ node',
             pool1 !! i = Some node' ∧
             CFGNode.name node' = CFGNode.name node ∧
             CFGNode.successors node' = CFGNode.successors node ∧
             IRBlock.phi (CFGNode.ir node) `prefix_of` IRBlock.phi (CFGNode.ir node') ∧
             IRBlock.operations (CFGNode.ir node)
               `prefix_of` IRBlock.operations (CFGNode.ir node')).
  cut (post (for_each_with order pool (emit_block codes function)) I s).
  { intros Hpost. apply (Hpost _ _ Hrun). }
  apply post_for_each_with_inv.
  2:{ split; [done|]. intros i node Hnode. by exists node. }
  clear Hrun. intros pool1 bb s1 _ [Hlen Hkeep].
  unfold emit_block.
  apply post_skip. intros node_of_bb s1'.
  apply post_bind, post_must. intros at_node _.
  apply post_bind, post_must. intros cfg_node Hcfg.
  apply post_bind, post_must. intros data _.
  apply post_bind.
  eapply post_mono.
  { apply (post_for_each_with_inv
             (λ block _,
                IRBlock.phi (CFGNode.ir cfg_node) `prefix_of` IRBlock.phi block ∧
                IRBlock.operations (CFGNode.ir cfg_node) `prefix_of` IRBlock.operations block)).
    - intros block instruction s2 _ [Hphi Hops].
      eapply post_mono; [apply emit_instruction_keeps|].
      intros block' s3 [Hphi' Hops']. split; by etrans.
    - done. }
  intros block s2 [Hphi Hops]. cbv beta.
  apply post_skip. intros terminator s3. apply post_ret. split.
  - by rewrite length_insert.
  - intros i node Hnode. destruct (Hkeep i node Hnode) as (node1 & H1 & Hn & Hs & Hp & Ho).
    destruct (decide (i = at_node)) as [->|Hne].
    + eexists. split; [apply list_lookup_insert_eq; by eapply lookup_lt_Some|].
      simpl. assert (cfg_node = node1) as -> by congruence.
      split_and!; [done|done|by etrans|by etrans].
    + exists node1. by rewrite list_lookup_insert_ne.
Qed.

Lemma emit_blocks_keep_graph_witness :
  let discovered := discover_blocks branching_function empty_impl in
  let t := default {| pool := []; to_process := []; visit_order := [] |}
             (fst <$> discovered) in
  let s := default empty_impl (snd <$> discovered) in
  let run := for_each_with (visit_order t) (pool t)
               (emit_block dxil_codes branching_function) s in
  let pool' := default [] (fst <$> run) in
  length pool' = length (pool t) ∧
  ∀ i node,
    pool t !! i = Some node →
    ∃ node',
      pool' !! i = Some node' ∧
      CFGNode.name node' = CFGNode.name node ∧
      CFGNode.successors node' = CFGNode.successors node ∧
      IRBlock.phi (CFGNode.ir node) `prefix_of` IRBlock.phi (CFGNode.ir node') ∧
      IRBlock.operations (CFGNode.ir node)
        `prefix_of` IRBlock.operations (CFGNode.ir node').
Proof.
  intros discovered t s run pool'.
  apply (emit_blocks_keep_graph dxil_codes branching_function (visit_order t) (pool t)
           pool' s (default s (snd <$> run))).
  vm_compute. reflexivity.
Defined.

(** ** Stage variables, element by element *)

Lemma lookup_id_declarations b b' id :
  declarations b' = declarations b → lookup_id b' id = lookup_id b id.
Proof. intros H. unfold lookup_id. by rewrite H. Qed.

Lemma stage_variable_declared storage name typed (b : Builder) :
  builder_wf b →
  extends b typed.2 → builder_wf typed.2 →
  let v := createVariable storage typed.1 (Some name) typed.2 in
  v.1 = Z.pos (unique_id typed.2) ∧
  lookup_id v.2 v.1 = Some (Var storage typed.1 (Some name)) ∧
  lookup_id b v.1 = None.
Proof.
  intros Hwf Hext Hwf' v. split_and!.
  - done.
  - by apply declare_lookup.
  - destruct (lookup_id b v.1) as [d|] eqn:Hd; [|done].
    apply (lookup_id_extends _ _ _ _ Hext) in Hd.
    pose proof (lookup_id_counter _ Hwf') as Hnone. simpl in Hd, Hnone. congruence.
Qed.

(** X17: a stage output element becomes a new variable in Output storage of
    the type of its component type, rows and columns, named by its semantic
    name, recorded under its element id and added at the end of the entry
    point's interface.  A [Target] element is decorated with [Location]
    operand 8, a [User] element with [Location] the counter, which moves on
    by the rows, a [Position] element with [BuiltIn Position], and any other
    element with nothing. *)
Theorem emit_stage_output_variable_lowering :
  ∀ (codes : DXIL.Codes) (location : Z) (output : md.Metadata)
    (element_id element_type semantic rows cols semantic_index : Z) (name : string)
    (s : Impl),
    md.isa_MDNode output = true →
    get_constant_metadata output 0 = Some element_id →
    get_string_metadata output 1 = Some name →
    get_constant_metadata output 2 = Some element_type →
    get_constant_metadata output 3 = Some semantic →
    get_constant_metadata output 6 = Some rows →
    get_constant_metadata output 7 = Some cols →
    get_constant_metadata output 8 = Some semantic_index →
    builder_wf (builder s) →
    let typed :=
      get_type_id_components (DXIL.to_ComponentType codes element_type) rows cols
        (builder s) in
    let variable_id := Z.pos (unique_id typed.2) in
    ∃ s' : Impl,
      emit_stage_output_variable codes location output s
      = Some (match DXIL.to_Semantic codes semantic with
              | DXIL.User => wrap32 (location + rows)
              | _ => location
              end, s') ∧
      lookup_id (builder s') variable_id
        = Some (Var spv.StorageClassOutput typed.1 (Some name)) ∧
      lookup_id (builder s) variable_id = None ∧
      output_elements_ids s' = <[element_id := variable_id]> (output_elements_ids s) ∧
      entry_point s' = entry_point s ++ [variable_id] ∧
      decorations (builder s')
      = decorations (builder s) ++
        match DXIL.to_Semantic codes semantic with
        | DXIL.Target => [(variable_id, spv.DecorationLocation, Some semantic_index)]
        | DXIL.User => [(variable_id, spv.DecorationLocation, Some location)]
        | DXIL.Position =>
            [(variable_id, spv.DecorationBuiltIn, Some spv.BuiltInPosition)]
        | DXIL.OtherSemantic _ => []
        end.
Proof.
  intros codes location output element_id element_type semantic rows cols
    semantic_index name s Hn H0 H1 H2 H3 H6 H7 H8 Hwf typed variable_id.
  unfold emit_stage_output_variable.
  rewrite Hn, H0, H1, H2, H3, H6, H7, H8.
  cbn -[get_type_id_components createVariable addDecoration wrap32].
  fold typed.
  set (v := createVariable _ _ _ _).
  assert (decorations v.2 = decorations (builder s)) as Hdeco.
  { subst v typed. simpl. apply get_type_id_components_decorations. }
  destruct (stage_variable_declared spv.StorageClassOutput name typed (builder s) Hwf)
    as (Hid & Hvar & Hfresh);
    [apply get_type_id_components_extends|by apply get_type_id_components_wf|].
  fold v in Hid, Hvar, Hfresh. fold variable_id in Hid.
  destruct (DXIL.to_Semantic codes semantic) eqn:Hs; simpl decide;
    cbn -[get_type_id_components createVariable wrap32]; fold typed v;
    (eexists; split; [reflexivity|]);
    cbn -[get_type_id_components createVariable wrap32 lookup_id]; fold typed v;
    rewrite <- Hid, ?Hdeco, ?app_nil_r; split_and!; try done.
  all: by rewrite (lookup_id_declarations v.2).
Qed.

Lemma emit_stage_output_variable_lowering_witness :
  let output := signature_element 0 "SV_Target" 9 16 1 4 2 in
  let typed := get_type_id_components (DXIL.to_ComponentType dxil_codes 9) 1 4
                 (builder empty_impl) in
  let variable_id := Z.pos (unique_id typed.2) in
  ∃ s' : Impl,
    emit_stage_output_variable dxil_codes 5 output empty_impl = Some (5, s') ∧
    lookup_id (builder s') variable_id
      = Some (Var spv.StorageClassOutput typed.1 (Some "SV_Target")) ∧
    lookup_id (builder empty_impl) variable_id = None ∧
    output_elements_ids s' = <[0 := variable_id]> (output_elements_ids empty_impl) ∧
    entry_point s' = entry_point empty_impl ++ [variable_id] ∧
    decorations (builder s')
    = decorations (builder empty_impl) ++ [(variable_id, spv.DecorationLocation, Some 2)].
Proof.
  intros output.
  apply (emit_stage_output_variable_lowering dxil_codes 5 output 0 9 16 1 4 2
           "SV_Target" empty_impl);
    [reflexivity|reflexivity|reflexivity|reflexivity|reflexivity|reflexivity
    |reflexivity|reflexivity|apply builder_wf_empty].
Defined.

(** X18: a stage input element becomes a new variable in Input storage in
    the same way; only a [User] element is decorated with a [Location], the
    counter, which moves on by the rows; a [Position] element is decorated
    with [BuiltIn Position], and a [Target] element, unlike an output, with
    nothing. *)
Theorem emit_stage_input_variable_lowering :
  ∀ (codes : DXIL.Codes) (location : Z) (input : md.Metadata)
    (element_id element_type semantic rows cols : Z) (name : string) (s : Impl),
    md.isa_MDNode input = true →
    get_constant_metadata input 0 = Some element_id →
    get_string_metadata input 1 = Some name →
    get_constant_metadata input 2 = Some element_type →
    get_constant_metadata input 3 = Some semantic →
    get_constant_metadata input 6 = Some rows →
    get_constant_metadata input 7 = Some cols →
    builder_wf (builder s) →
    let typed :=
      get_type_id_components (DXIL.to_ComponentType codes element_type) rows cols
        (builder s) in
    let variable_id := Z.pos (unique_id typed.2) in
    ∃ s' : Impl,
      emit_stage_input_variable codes location input s
      = Some (match DXIL.to_Semantic codes semantic with
              | DXIL.User => wrap32 (location + rows)
              | _ => location
              end, s') ∧
      lookup_id (builder s') variable_id
        = Some (Var spv.StorageClassInput typed.1 (Some name)) ∧
      lookup_id (builder s) variable_id = None ∧
      input_elements_ids s' = <[element_id := variable_id]> (input_elements_ids s) ∧
      entry_point s' = entry_point s ++ [variable_id] ∧
      decorations (builder s')
      = decorations (builder s) ++
        match DXIL.to_Semantic codes semantic with
        | DXIL.User => [(variable_id, spv.DecorationLocation, Some location)]
        | DXIL.Position =>
            [(variable_id, spv.DecorationBuiltIn, Some spv.BuiltInPosition)]
        | DXIL.Target | DXIL.OtherSemantic _ => []
        end.
Proof.
  intros codes location input element_id element_type semantic rows cols
    name s Hn H0 H1 H2 H3 H6 H7 Hwf typed variable_id.
  unfold emit_stage_input_variable.
  rewrite Hn, H0, H1, H2, H3, H6, H7.
  cbn -[get_type_id_components createVariable addDecoration wrap32].
  fold typed.
  set (v := createVariable _ _ _ _).
  assert (decorations v.2 = decorations (builder s)) as Hdeco.
  { subst v typed. simpl. apply get_type_id_components_decorations. }
  destruct (stage_variable_declared spv.StorageClassInput name typed (builder s) Hwf)
    as (Hid & Hvar & Hfresh);
    [apply get_type_id_components_extends|by apply get_type_id_components_wf|].
  fold v in Hid, Hvar, Hfresh. fold variable_id in Hid.
  destruct (DXIL.to_Semantic codes semantic) eqn:Hs; simpl decide;
    cbn -[get_type_id_components createVariable wrap32]; fold typed v;
    (eexists; split; [reflexivity|]);
    cbn -[get_type_id_components createVariable wrap32 lookup_id]; fold typed v;
    rewrite <- Hid, ?Hdeco, ?app_nil_r; split_and!; try done.
  all: by rewrite (lookup_id_declarations v.2).
Qed.

Lemma emit_stage_input_variable_lowering_witness :
  let input := signature_element 3 "SV_Target" 9 16 1 4 2 in
  let typed := get_type_id_components (DXIL.to_ComponentType dxil_codes 9) 1 4
                 (builder empty_impl) in
  let variable_id := Z.pos (unique_id typed.2) in
  ∃ s' : Impl,
    emit_stage_input_variable dxil_codes 5 input empty_impl = Some (5, s') ∧
    lookup_id (builder s') variable_id
      = Some (Var spv.StorageClassInput typed.1 (Some "SV_Target")) ∧
    lookup_id (builder empty_impl) variable_id = None ∧
    input_elements_ids s' = <[3 := variable_id]> (input_elements_ids empty_impl) ∧
    entry_point s' = entry_point empty_impl ++ [variable_id] ∧
    decorations (builder s') = decorations (builder empty_impl) ++ [].
Proof.
  intros input.
  apply (emit_stage_input_variable_lowering dxil_codes 5 input 3 9 16 1 4
           "SV_Target" empty_impl);
    [reflexivity|reflexivity|reflexivity|reflexivity|reflexivity|reflexivity
    |reflexivity|apply builder_wf_empty].
Defined.

(** ** Constant buffer loads *)

(** X19: [dx.op.cbufferLoadLegacy] on a bound handle, with a result struct
    of four members of which the first is a float or an integer, appends the
    access chain into member 0 of the buffer's variable at the row operand and
    the load of that row as a vector of four 32-bit floats; for an integer
    result it then appends the bitcast to four 32-bit unsigned integers.  The
    instruction's id in the value table is that of the last operation. *)
Theorem emit_cbuffer_load_legacy_lowering :
  ∀ (block : IRBlock.t) (instruction : llvm.Instruction) (handle index : llvm.Value)
    (ptr_id : Id) (elements : list llvm.type) (element_type : llvm.type) (s : Impl),
    llvm.getOperand instruction 1 = Some handle →
    handle_to_ptr_id s !! llvm.address handle = Some ptr_id →
    ptr_id ≠ 0 →
    llvm.getOperand instruction 2 = Some index →
    lowerable index = true →
    lowerable (llvm.result instruction) = true →
    llvm.getType (llvm.result instruction) = llvm.StructTy elements →
    length elements = 4%nat →
    elements !! 0%nat = Some element_type →
    is_FloatTy element_type = true ∨ is_IntegerTy element_type = true →
    builder_wf (builder s) →
    ∃ (block' : IRBlock.t) (s' : Impl) (index_id result_id : Id)
      (new : list Operation.t),
      emit_cbuffer_load_legacy_instruction block instruction s = Some (block', s') ∧
      IRBlock.operations block' = IRBlock.operations block ++ new ∧
      value_map s' !! llvm.address index = Some index_id ∧
      value_map s' !! llvm.address (llvm.result instruction) = Some result_id ∧
      cbuffer_load_lowered (builder s') ptr_id index_id result_id
        (negb (is_FloatTy element_type)) new.
Proof.
  intros block instruction handle index ptr_id elements element_type s
    Hhandle Hptr Hnz Hindex Hlow Hres Htype Hlen Hfirst Hkind Hwf.
  cut (wp (emit_cbuffer_load_legacy_instruction block instruction)
         (λ block' s',
            ∃ index_id result_id new,
              IRBlock.operations block' = IRBlock.operations block ++ new ∧
              value_map s' !! llvm.address index = Some index_id ∧
              value_map s' !! llvm.address (llvm.result instruction) = Some result_id ∧
              cbuffer_load_lowered (builder s') ptr_id index_id result_id
                (negb (is_FloatTy element_type)) new) s).
  { intros (block' & s' & Hrun & index_id & result_id & new & H).
    by exists block', s', index_id, result_id, new. }
  unfold emit_cbuffer_load_legacy_instruction.
  rewrite Hhandle. wp_pure. wp_pure.
  unfold map_at. rewrite Hptr. simpl default.
  assert (nonzero ptr_id = true) as ->.
  { unfold nonzero. apply negb_true_iff. by apply Z.eqb_neq. }
  wp_pure. rewrite Hindex. wp_pure.
  ev_value index_id. ev_allocate access_chain_id.
  ev_intern float_type. ev_intern loaded_type. ev_intern pointer_type. ev_intern zero.
  cbv zeta. rewrite Htype. simpl struct_num_elements. wp_pure.
  rewrite Hlen. simpl struct_element_type. rewrite bool_decide_eq_true_2 by done.
  wp_pure. rewrite Hfirst. wp_pure.
  destruct (is_FloatTy element_type) eqn:Hfloat; cbn [negb].
  - ev_value result_id. ev_intern float_type'. ev_intern loaded_type'.
    apply wp_ret. eexists index_id, result_id, _. split_and!; [|done|done|].
    + simpl. rewrite <- app_assoc. reflexivity.
    + exists access_chain_id, result_id, pointer_type, loaded_type, zero, loaded_type'.
      split_and!; try done; by eexists.
  - destruct Hkind as [?|Hint]; [done|].
    ev_allocate load_id. ev_intern float_type'. ev_intern loaded_type'.
    ev_value result_id. rewrite Hint. wp_pure.
    ev_intern uint_type. ev_intern cast_type.
    apply wp_ret. eexists index_id, result_id, _. split_and!; [|done|done|].
    + simpl. rewrite <- !app_assoc. reflexivity.
    + exists access_chain_id, load_id, pointer_type, loaded_type, zero, loaded_type'.
      split_and!; try done; try by eexists.
      exists cast_type. split_and!; try done. by eexists.
Qed.

Lemma emit_cbuffer_load_legacy_lowering_witness :
  let handle := create_handle 12 2 in
  let setup :=
    (let* _ := emit_cbv (resource_entry 0 "cb" 0 3 [md_i32 64]) in
     emit_create_handle_instruction dxil_codes IRBlock.empty handle) empty_impl in
  let s := default empty_impl (snd <$> setup) in
  let instruction :=
    {| llvm.result :=
         ssa_value 50 (llvm.StructTy [llvm.IntegerTy 32; llvm.IntegerTy 32;
                                      llvm.IntegerTy 32; llvm.IntegerTy 32]);
       llvm.inst_class := llvm.CallInst "dx.op.cbufferLoadLegacy.i32";
       llvm.operands := [const_i32 100 59; llvm.result handle; const_i32 105 1] |} in
  ∃ (block' : IRBlock.t) (s' : Impl) (index_id result_id : Id) (new : list Operation.t),
    emit_cbuffer_load_legacy_instruction IRBlock.empty instruction s = Some (block', s') ∧
    IRBlock.operations block' = IRBlock.operations IRBlock.empty ++ new ∧
    value_map s' !! llvm.address (const_i32 105 1) = Some index_id ∧
    value_map s' !! llvm.address (llvm.result instruction) = Some result_id ∧
    cbuffer_load_lowered (builder s') 6 index_id result_id
      (negb (is_FloatTy (llvm.IntegerTy 32))) new.
Proof.
  intros handle setup s instruction.
  apply (emit_cbuffer_load_legacy_lowering IRBlock.empty instruction
           (llvm.result handle) (const_i32 105 1) 6
           [llvm.IntegerTy 32; llvm.IntegerTy 32; llvm.IntegerTy 32; llvm.IntegerTy 32]
           (llvm.IntegerTy 32) s);
    [reflexivity|vm_compute; reflexivity|lia|reflexivity|reflexivity|reflexivity
    |reflexivity|reflexivity|reflexivity|right; reflexivity|].
  unfold builder_wf. refine (bool_decide_unpack _ _). vm_compute. exact I.
Defined.

(** ** Stage inputs and outputs in the code *)

Lemma wp_post {A} (m : M A) (Q1 Q2 : A → Impl → Prop) s :
  wp m Q1 s → post m Q2 s → wp m (λ a s', Q1 a s' ∧ Q2 a s') s.
Proof. intros (a & s' & Hrun & H1) H2. exists a, s'. split; [done|]. split; [done|by apply H2]. Qed.

Lemma gets_id_lowerable value forced_width s :
  gets_id value forced_width s →
  value_map s !! llvm.address value = None →
  lowerable value = true.
Proof.
  unfold gets_id, lowerable. intros H Hnone. rewrite Hnone in H.
  by destruct (llvm.classof value), (llvm.getType value).
Qed.

(** [get_id_for_value] on a value that gets an id. *)
Lemma wp_gets_id value forced_width Q s :
  gets_id value forced_width s →
  builder_wf (builder s) →
  (∀ id s', id ≠ 0 → evolves s s' → builder_wf (builder s') →
            value_map s' !! llvm.address value = Some id →
            (∀ a, a ≠ llvm.address value → value_map s' !! a = value_map s !! a) →
            Q id s') →
  wp (get_id_for_value value forced_width) Q s.
Proof.
  intros Hgets Hwf HQ.
  destruct (value_map s !! llvm.address value) as [cached|] eqn:Hcached.
  { exists cached, s. split; [by apply get_id_for_value_cached|].
    unfold gets_id in Hgets. rewrite Hcached in Hgets. by apply HQ. }
  eapply wp_mono.
  { apply (wp_post _ (λ id s', evolves s s' ∧ builder_wf (builder s') ∧
                                value_map s' !! llvm.address value = Some id)
             (λ id s', (∀ a, a ≠ llvm.address value →
                             value_map s' !! a = value_map s !! a) ∧ id ≠ 0)).
    - apply wp_get_id_for_value; [by eapply gets_id_lowerable|done|done].
    - apply post_conj.
      { intros id s' Hrun a Ha. by eapply get_id_for_value_frame. }
      unfold get_id_for_value. apply post_bind, post_get. rewrite Hcached.
      unfold gets_id in Hgets. rewrite Hcached in Hgets.
      unfold llvm.isa_UndefValue, llvm.isa_Constant, get_id_for_undef,
        get_id_for_constant, effective_width, allocate_id in *.
      destruct (llvm.classof value), (llvm.getType value); try done;
        try case_decide; try done;
        repeat post_step; first [id_nonzero | done | by injection H as <- _ ]. }
  intros id s' [(Hev & Hwf' & Hid) [Hframe Hnz]]. by apply HQ.
Qed.

Lemma nonzero_true id : id ≠ 0 → nonzero id = true.
Proof. intros H. unfold nonzero. apply negb_true_iff. by apply Z.eqb_neq. Qed.

Lemma lookup_id_nonzero b id d : lookup_id b id = Some d → id ≠ 0.
Proof. by destruct id. Qed.

Lemma gets_id_later value forced_width other s s' id :
  gets_id value forced_width s →
  value_map s' !! llvm.address other = Some id → id ≠ 0 →
  (∀ a, a ≠ llvm.address other → value_map s' !! a = value_map s !! a) →
  gets_id value forced_width s'.
Proof.
  intros Hgets Hother Hnz Hframe. unfold gets_id in *.
  destruct (decide (llvm.address value = llvm.address other)) as [->|Hne].
  - by rewrite Hother.
  - by rewrite Hframe.
Qed.

(** X20: [dx.op.loadInput] on an element with a declared variable loads
    the instruction's value from the variable itself when the variable's type
    has one component, and otherwise from an in-bounds access chain into the
    variable at operand 3, lowered as a 32-bit integer, whose type is
    the Input pointer to the instruction's type. *)
Theorem emit_load_input_lowering :
  ∀ (block : IRBlock.t) (instruction : llvm.Instruction)
    (element var_id var_type num_rows : Z) (storage : spv.StorageClass)
    (name : option string) (s : Impl),
    get_constant_operand instruction 1 = Some element →
    input_elements_ids s !! element = Some var_id →
    lookup_id (builder s) var_id = Some (Var storage var_type name) →
    getNumTypeComponents (builder s) var_type = Some num_rows →
    lowerable (llvm.result instruction) = true →
    (1 < wrap32 num_rows →
     ∃ index, llvm.getOperand instruction 3 = Some index ∧ gets_id index 32 s) →
    builder_wf (builder s) →
    ∃ (block' : IRBlock.t) (s' : Impl) (id type_id : Id),
      emit_load_input_instruction block instruction s = Some (block', s') ∧
      value_map s' !! llvm.address (llvm.result instruction) = Some id ∧
      denotes (builder s') (llvm.getType (llvm.result instruction)) type_id ∧
      if decide (1 < wrap32 num_rows) then
        ∃ (index : llvm.Value) (index_id ptr_id pointer_type pointee : Id),
          llvm.getOperand instruction 3 = Some index ∧
          value_map s' !! llvm.address index = Some index_id ∧
          index_id ≠ 0 ∧ ptr_id ≠ 0 ∧
          lookup_id (builder s') pointer_type
            = Some (TypePointer spv.StorageClassInput pointee) ∧
          denotes (builder s') (llvm.getType (llvm.result instruction)) pointee ∧
          IRBlock.operations block'
          = IRBlock.operations block ++
            [{| Operation.op := spv.OpInBoundsAccessChain; Operation.id := ptr_id;
                Operation.type_id := pointer_type;
                Operation.arguments := [var_id; index_id] |};
             {| Operation.op := spv.OpLoad; Operation.id := id;
                Operation.type_id := type_id; Operation.arguments := [ptr_id] |}]
      else
        IRBlock.operations block'
        = IRBlock.operations block ++
          [{| Operation.op := spv.OpLoad; Operation.id := id;
              Operation.type_id := type_id; Operation.arguments := [var_id] |}].
Proof.
  intros block instruction element var_id var_type num_rows storage name s
    Helement Hinput Hvar Hrows Hres Hrow Hwf.
  pose proof (nonzero_true _ (lookup_id_nonzero _ _ _ Hvar)) as Hvar_nz.
  cut (wp (emit_load_input_instruction block instruction)
         (λ block' s',
            ∃ id type_id,
              value_map s' !! llvm.address (llvm.result instruction) = Some id ∧
              denotes (builder s') (llvm.getType (llvm.result instruction)) type_id ∧
              if decide (1 < wrap32 num_rows) then
                ∃ (index : llvm.Value) (index_id ptr_id pointer_type pointee : Id),
                  llvm.getOperand instruction 3 = Some index ∧
                  value_map s' !! llvm.address index = Some index_id ∧
                  index_id ≠ 0 ∧ ptr_id ≠ 0 ∧
                  lookup_id (builder s') pointer_type
                    = Some (TypePointer spv.StorageClassInput pointee) ∧
                  denotes (builder s') (llvm.getType (llvm.result instruction)) pointee ∧
                  IRBlock.operations block'
                  = IRBlock.operations block ++
                    [{| Operation.op := spv.OpInBoundsAccessChain;
                        Operation.id := ptr_id; Operation.type_id := pointer_type;
                        Operation.arguments := [var_id; index_id] |};
                     {| Operation.op := spv.OpLoad; Operation.id := id;
                        Operation.type_id := type_id;
                        Operation.arguments := [ptr_id] |}]
              else
                IRBlock.operations block'
                = IRBlock.operations block ++
                  [{| Operation.op := spv.OpLoad; Operation.id := id;
                      Operation.type_id := type_id;
                      Operation.arguments := [var_id] |}]) s).
  { intros (block' & s' & Hrun & id & type_id & H). by exists block', s', id, type_id. }
  unfold emit_load_input_instruction.
  rewrite Helement. wp_pure. wp_pure.
  unfold map_at. rewrite Hinput. simpl default.
  apply wp_bind. eapply wp_query; [unfold getDerefTypeId; by rewrite Hvar|].
  apply wp_bind. eapply wp_query; [exact Hrows|].
  case_decide as Hmany.
  - destruct (Hrow Hmany) as (index & Hop3 & Hgets). clear Hrow.
    apply wp_bind.
    apply wp_bind, wp_build. intros ptr_id b1 Hb1. cbv beta.
    destruct (getUniqueId_spec _ _ _ Hwf Hb1) as (Hwf1 & _ & Hptr_nz).
    apply wp_bind, wp_build. intros pointee b2 Hb2. simpl builder in Hb2. cbv beta.
    destruct (get_type_id_stands_spec _ _ _ _ Hwf1 Hb2) as (Hwf2 & _ & Hpointee).
    apply wp_bind, wp_build. intros pointer_type b3 Hb3. simpl builder in Hb3. cbv beta.
    destruct (intern_spec _ _ _ _ Hwf2 Hb3) as (Hwf3 & Hext3 & Hpointer & _).
    apply (denotes_extends _ _ _ _ Hext3) in Hpointee.
    rewrite Hop3. wp_pure.
    apply wp_bind. apply wp_gets_id; [exact Hgets|exact Hwf3|].
    intros index_id s1 Hindex_nz Hev1 Hwf_s1 Hindex_id _. cbv beta.
    pose proof (evolves_builder _ _ Hev1) as Hext1. simpl in Hext1.
    apply (denotes_extends _ _ _ _ Hext1) in Hpointee.
    apply (lookup_id_extends _ _ _ _ Hext1) in Hpointer.
    rewrite Hvar_nz, (nonzero_true _ Hindex_nz). wp_pure. wp_pure. apply wp_ret.
    cbn [fst snd]. clear Hev1 Hext1 Hext3 Hb1 Hb2 Hb3 Hwf Hwf1 Hwf2 Hwf3 Hgets.
    assert (evolves s1 s1) as Hmid by reflexivity.
    ev_value id. ev_type type_id Htype.
    rewrite (nonzero_true _ Hptr_nz). wp_pure. apply wp_ret.
    exists id, type_id. split_and!; [done|done|].
    exists index, index_id, ptr_id, pointer_type, pointee. split_and!; try done.
    + eapply denotes_extends; [apply (evolves_builder _ _ Hmid)|done].
    + simpl. by rewrite <- app_assoc.
  - wp_pure. cbn [fst snd].
    ev_value id. ev_type type_id Htype.
    rewrite Hvar_nz. wp_pure. apply wp_ret.
    exists id, type_id. split_and!; done.
Qed.

Lemma emit_load_input_lowering_witness :
  let declared :=
    emit_stage_input_variable dxil_codes 0 (signature_element 0 "TEXCOORD" 9 0 1 2 0)
      empty_impl in
  let s := default empty_impl (snd <$> declared) in
  let index := const_i32 103 1 in
  let instruction :=
    {| llvm.result := ssa_value 50 llvm.FloatTy;
       llvm.inst_class := llvm.CallInst "dx.op.loadInput.f32";
       llvm.operands := [const_i32 100 4; const_i32 101 0; const_i32 102 0; index;
                         undef_of 104 (llvm.IntegerTy 32)] |} in
  ∃ (block' : IRBlock.t) (s' : Impl) (id type_id : Id),
    emit_load_input_instruction IRBlock.empty instruction s = Some (block', s') ∧
    value_map s' !! llvm.address (llvm.result instruction) = Some id ∧
    denotes (builder s') (llvm.getType (llvm.result instruction)) type_id ∧
    ∃ (index' : llvm.Value) (index_id ptr_id pointer_type pointee : Id),
      llvm.getOperand instruction 3 = Some index' ∧
      value_map s' !! llvm.address index' = Some index_id ∧
      index_id ≠ 0 ∧ ptr_id ≠ 0 ∧
      lookup_id (builder s') pointer_type
        = Some (TypePointer spv.StorageClassInput pointee) ∧
      denotes (builder s') (llvm.getType (llvm.result instruction)) pointee ∧
      IRBlock.operations block'
      = IRBlock.operations IRBlock.empty ++
        [{| Operation.op := spv.OpInBoundsAccessChain; Operation.id := ptr_id;
            Operation.type_id := pointer_type;
            Operation.arguments := [3; index_id] |};
         {| Operation.op := spv.OpLoad; Operation.id := id;
            Operation.type_id := type_id; Operation.arguments := [ptr_id] |}].
Proof.
  intros declared s index instruction.
  apply (emit_load_input_lowering IRBlock.empty instruction 0 3 2 2
           spv.StorageClassInput (Some "TEXCOORD") s);
    [reflexivity|reflexivity|reflexivity|reflexivity|reflexivity| |].
  - intros _. exists index. split; [reflexivity|]. vm_compute. reflexivity.
  - unfold builder_wf. refine (bool_decide_unpack _ _). vm_compute. exact I.
Defined.

(** X21: [dx.op.storeOutput] on an element with a declared variable stores
    operand 4 to the variable itself when the variable's type has one
    component, and otherwise to an in-bounds access chain into the variable at
    operand 3, lowered as a 32-bit integer, whose type is the Output pointer
    to the scalar type of the variable; the [OpStore] has no result. *)
Theorem emit_store_output_lowering :
  ∀ (block : IRBlock.t) (instruction : llvm.Instruction) (value : llvm.Value)
    (element var_id var_type num_rows : Z) (storage : spv.StorageClass)
    (name : option string) (s : Impl),
    get_constant_operand instruction 1 = Some element →
    output_elements_ids s !! element = Some var_id →
    lookup_id (builder s) var_id = Some (Var storage var_type name) →
    getNumTypeComponents (builder s) var_type = Some num_rows →
    llvm.getOperand instruction 4 = Some value →
    gets_id value 0 s →
    (1 < wrap32 num_rows →
     ∃ index, llvm.getOperand instruction 3 = Some index ∧ gets_id index 32 s) →
    builder_wf (builder s) →
    ∃ (block' : IRBlock.t) (s' : Impl) (value_id : Id),
      emit_store_output_instruction block instruction s = Some (block', s') ∧
      value_map s' !! llvm.address value = Some value_id ∧
      value_id ≠ 0 ∧
      if decide (1 < wrap32 num_rows) then
        ∃ (index : llvm.Value) (index_id ptr_id pointer_type scalar : Id),
          llvm.getOperand instruction 3 = Some index ∧
          value_map s' !! llvm.address index = Some index_id ∧
          index_id ≠ 0 ∧ ptr_id ≠ 0 ∧
          getScalarTypeId (builder s) var_type = Some scalar ∧
          lookup_id (builder s') pointer_type
            = Some (TypePointer spv.StorageClassOutput scalar) ∧
          IRBlock.operations block'
          = IRBlock.operations block ++
            [{| Operation.op := spv.OpInBoundsAccessChain; Operation.id := ptr_id;
                Operation.type_id := pointer_type;
                Operation.arguments := [var_id; index_id] |};
             {| Operation.op := spv.OpStore; Operation.id := 0;
                Operation.type_id := 0; Operation.arguments := [ptr_id; value_id] |}]
      else
        IRBlock.operations block'
        = IRBlock.operations block ++
          [{| Operation.op := spv.OpStore; Operation.id := 0;
              Operation.type_id := 0; Operation.arguments := [var_id; value_id] |}].
Proof.
  intros block instruction value element var_id var_type num_rows storage name s
    Helement Houtput Hvar Hrows Hop4 Hvalue Hindex Hwf.
  pose proof (nonzero_true _ (lookup_id_nonzero _ _ _ Hvar)) as Hvar_nz.
  cut (wp (emit_store_output_instruction block instruction)
         (λ block' s',
            ∃ value_id,
              value_map s' !! llvm.address value = Some value_id ∧
              value_id ≠ 0 ∧
              if decide (1 < wrap32 num_rows) then
                ∃ (index : llvm.Value) (index_id ptr_id pointer_type scalar : Id),
                  llvm.getOperand instruction 3 = Some index ∧
                  value_map s' !! llvm.address index = Some index_id ∧
                  index_id ≠ 0 ∧ ptr_id ≠ 0 ∧
                  getScalarTypeId (builder s) var_type = Some scalar ∧
                  lookup_id (builder s') pointer_type
                    = Some (TypePointer spv.StorageClassOutput scalar) ∧
                  IRBlock.operations block'
                  = IRBlock.operations block ++
                    [{| Operation.op := spv.OpInBoundsAccessChain;
                        Operation.id := ptr_id; Operation.type_id := pointer_type;
                        Operation.arguments := [var_id; index_id] |};
                     {| Operation.op := spv.OpStore; Operation.id := 0;
                        Operation.type_id := 0;
                        Operation.arguments := [ptr_id; value_id] |}]
              else
                IRBlock.operations block'
                = IRBlock.operations block ++
                  [{| Operation.op := spv.OpStore; Operation.id := 0;
                      Operation.type_id := 0;
                      Operation.arguments := [var_id; value_id] |}]) s).
  { intros (block' & s' & Hrun & value_id & H). by exists block', s', value_id. }
  unfold emit_store_output_instruction.
  rewrite Helement. wp_pure. wp_pure.
  unfold map_at. rewrite Houtput. simpl default.
  apply wp_bind. eapply wp_query; [unfold getDerefTypeId; by rewrite Hvar|].
  apply wp_bind. eapply wp_query; [exact Hrows|].
  case_decide as Hmany.
  - destruct (Hindex Hmany) as (index & Hop3 & Hgets). clear Hindex.
    assert (∃ scalar, getScalarTypeId (builder s) var_type = Some scalar)
      as [scalar Hscalar].
    { unfold getNumTypeComponents in Hrows. unfold getScalarTypeId.
      destruct (lookup_id (builder s) var_type) as [[]|]; try done; by eexists. }
    apply wp_bind.
    apply wp_bind, wp_build. intros ptr_id b1 Hb1. cbv beta.
    destruct (getUniqueId_spec _ _ _ Hwf Hb1) as (Hwf1 & Hext1 & Hptr_nz).
    assert (getScalarTypeId b1 var_type = Some scalar) as Hscalar1.
    { injection Hb1 as _ <-. exact Hscalar. }
    apply wp_bind. eapply wp_query; [exact Hscalar1|].
    apply wp_bind, wp_build. intros pointer_type b3 Hb3. simpl builder in Hb3. cbv beta.
    destruct (intern_spec _ _ _ _ Hwf1 Hb3) as (Hwf3 & Hext3 & Hpointer & _).
    rewrite Hop3. wp_pure.
    apply wp_bind. apply wp_gets_id; [exact Hgets|exact Hwf3|].
    intros index_id s1 Hindex_nz Hev1 Hwf_s1 Hindex_id Hframe. cbv beta.
    pose proof (evolves_builder _ _ Hev1) as Hext. simpl in Hext.
    apply (lookup_id_extends _ _ _ _ Hext) in Hpointer.
    rewrite Hvar_nz, (nonzero_true _ Hindex_nz). wp_pure. wp_pure. apply wp_ret.
    cbn [fst snd].
    assert (gets_id value 0 s1) as Hvalue1.
    { eapply (gets_id_later value 0 index); [| exact Hindex_id | done | exact Hframe].
      exact Hvalue. }
    rewrite Hop4. wp_pure.
    apply wp_bind. apply wp_gets_id; [exact Hvalue1|exact Hwf_s1|].
    intros value_id s2 Hvalue_nz Hev2 Hwf_s2 Hvalue_id _. cbv beta.
    rewrite (nonzero_true _ Hptr_nz), (nonzero_true _ Hvalue_nz).
    wp_pure. wp_pure. apply wp_ret.
    exists value_id. split_and!; [done|done|].
    exists index, index_id, ptr_id, pointer_type, scalar. split_and!; try done.
    + by apply (evolves_value_map _ _ Hev2).
    + eapply lookup_id_extends; [apply (evolves_builder _ _ Hev2)|done].
    + simpl. by rewrite <- app_assoc.
  - wp_pure. cbn [fst snd]. rewrite Hop4. wp_pure.
    apply wp_bind. apply wp_gets_id; [exact Hvalue|exact Hwf|].
    intros value_id s2 Hvalue_nz Hev2 Hwf_s2 Hvalue_id _. cbv beta.
    rewrite Hvar_nz, (nonzero_true _ Hvalue_nz).
    wp_pure. wp_pure. apply wp_ret.
    exists value_id. split_and!; done.
Qed.

Lemma emit_store_output_lowering_witness :
  let declared :=
    emit_stage_output_variable dxil_codes 0 (signature_element 0 "SV_Target" 9 16 1 4 0)
      empty_impl in
  let s := default empty_impl (snd <$> declared) in
  let index := const_i32 103 1 in
  let value := ssa_value 60 llvm.FloatTy in
  let instruction :=
    {| llvm.result := ssa_value 50 llvm.VoidTy;
       llvm.inst_class := llvm.CallInst "dx.op.storeOutput.f32";
       llvm.operands := [const_i32 100 5; const_i32 101 0; const_i32 102 0; index;
                         value] |} in
  ∃ (block' : IRBlock.t) (s' : Impl) (value_id : Id),
    emit_store_output_instruction IRBlock.empty instruction s = Some (block', s') ∧
    value_map s' !! llvm.address value = Some value_id ∧
    value_id ≠ 0 ∧
    ∃ (index' : llvm.Value) (index_id ptr_id pointer_type scalar : Id),
      llvm.getOperand instruction 3 = Some index' ∧
      value_map s' !! llvm.address index' = Some index_id ∧
      index_id ≠ 0 ∧ ptr_id ≠ 0 ∧
      getScalarTypeId (builder s) 2 = Some scalar ∧
      lookup_id (builder s') pointer_type
        = Some (TypePointer spv.StorageClassOutput scalar) ∧
      IRBlock.operations block'
      = IRBlock.operations IRBlock.empty ++
        [{| Operation.op := spv.OpInBoundsAccessChain; Operation.id := ptr_id;
            Operation.type_id := pointer_type;
            Operation.arguments := [3; index_id] |};
         {| Operation.op := spv.OpStore; Operation.id := 0;
            Operation.type_id := 0; Operation.arguments := [ptr_id; value_id] |}].
Proof.
  intros declared s index value instruction.
  apply (emit_store_output_lowering IRBlock.empty instruction value 0 3 2 4
           spv.StorageClassOutput (Some "SV_Target") s);
    [reflexivity|reflexivity|reflexivity|reflexivity|reflexivity| | |].
  - vm_compute. exact I.
  - intros _. exists index. split; [reflexivity|]. vm_compute. reflexivity.
  - unfold builder_wf. refine (bool_decide_unpack _ _). vm_compute. exact I.
Defined.

(** ** Phis and terminators *)

Lemma settles_preorder : PreOrder settles.
Proof.
  split.
  - intros s. by split.
  - intros s1 s2 s3 [He1 Hw1 Hb1 Hm1] [He2 Hw2 Hb2 Hm2]. split.
    + by etrans.
    + auto.
    + congruence.
    + congruence.
Qed.

#[local] Existing Instance settles_preorder.

Lemma block_node_settles s s' bb : settles s s' → block_node s' bb = block_node s bb.
Proof. intros [_ _ Hb Hm]. unfold block_node. by rewrite Hb, Hm. Qed.

Lemma get_id_for_value_blocks value forced_width s :
  post (get_id_for_value value forced_width)
    (λ _ s', bb_map s' = bb_map s ∧ metas s' = metas s) s.
Proof.
  intros id s' Hrun. unfold get_id_for_value in Hrun.
  apply bind_Some in Hrun as (values & s0 & [= <- <-] & Hrun).
  destruct (value_map s !! llvm.address value) as [cached|].
  { by injection Hrun as <- <-. }
  apply bind_Some in Hrun as (id1 & s1 & Hid & Hrun).
  apply bind_Some in Hrun as ([] & s2 & [= <-] & [= <- <-]).
  simpl.
  destruct (llvm.isa_UndefValue value); [|destruct (llvm.isa_Constant value)].
  - unfold get_id_for_undef in Hid.
    by apply bind_Some in Hid as (type_id & s3 & [= <- <-] & [= <- <-]).
  - unfold get_id_for_constant in Hid.
    destruct (llvm.getType value); try (by injection Hid as <- <-);
      try (destruct (llvm.classof value); try done; by injection Hid as <- <-).
    case_decide; [|by injection Hid as <- <-].
    destruct (llvm.classof value); try done; by injection Hid as <- <-.
  - by injection Hid as <- <-.
Qed.

(** [get_id_for_value] on a lowerable value, with the blocks in view. *)
Lemma wp_settles_value value forced_width Q s :
  lowerable value = true →
  builder_wf (builder s) →
  (∀ id s', settles s s' → builder_wf (builder s') →
            value_map s' !! llvm.address value = Some id → Q id s') →
  wp (get_id_for_value value forced_width) Q s.
Proof.
  intros Hlow Hwf HQ. eapply wp_mono.
  { apply (wp_post _ (λ id s', evolves s s' ∧ builder_wf (builder s') ∧
                                value_map s' !! llvm.address value = Some id)).
    - by apply wp_get_id_for_value.
    - apply get_id_for_value_blocks. }
  intros id s' [(Hev & Hwf' & Hid) [Hb Hm]]. apply HQ; [by split|done|done].
Qed.

Lemma wp_block_node bb Q s :
  is_Some (block_node s bb) →
  Q (block_node s bb) s →
  wp (node_of bb) Q s.
Proof.
  unfold block_node, node_of. intros [n Hn] HQ.
  destruct (bb_map s !! bb) as [m|] eqn:Hm; [|done]. simpl in *.
  destruct (metas s !! m) as [meta|] eqn:Hmeta; [|done]. simpl in *.
  wp_pure. rewrite Hm. wp_pure. wp_pure. rewrite Hmeta. wp_pure. by apply wp_ret.
Qed.

(** A [for_range] loop whose body settles the state. *)
Lemma wp_for_range_settles {A} (body : nat → M A) (Φ : nat → A → Impl → Prop) count :
  (∀ i a s1 s2, Φ i a s1 → settles s1 s2 → Φ i a s2) →
  ∀ first (Q : list A → Impl → Prop) s,
    builder_wf (builder s) →
    (∀ i s1, (first ≤ i < first + count)%nat → settles s s1 → builder_wf (builder s1) →
             wp (body i) (λ a s2, settles s1 s2 ∧ builder_wf (builder s2) ∧ Φ i a s2) s1) →
    (∀ l s', settles s s' → builder_wf (builder s') → length l = count →
             (∀ k a, l !! k = Some a → Φ (first + k)%nat a s') → Q l s') →
    wp (for_range first count body) Q s.
Proof.
  intros Hmono. induction count as [|count IH]; intros first Q s Hwf Hbody HQ; simpl.
  - apply wp_ret. apply HQ; try done.
  - apply wp_bind.
    eapply wp_mono; [apply (Hbody first s); [lia|done|done]|].
    intros a s1 (Hev1 & Hwf1 & Ha). cbv beta.
    apply wp_bind. apply IH; [done| |].
    + intros i s2 Hi Hev2 Hwf2. apply Hbody; [lia| |done]. by etrans.
    + intros l s' Hev' Hwf' Hlen Hl. apply wp_ret.
      apply HQ; [by etrans|done|by simpl; rewrite Hlen|].
      intros [|k] x Hk; simpl in Hk.
      * injection Hk as <-. rewrite Nat.add_0_r. by eapply Hmono.
      * replace (first + S k)%nat with (S first + k)%nat by lia. by apply Hl.
Qed.

(** X22: a phi whose incoming blocks have nodes and whose incoming values
    [get_id_for_value] can lower adds one phi to the block, with the
    instruction's id and type and, for each incoming block in order, the node
    of the block and the id of the value; the operations stay. *)
Theorem emit_phi_lowering :
  ∀ (block : IRBlock.t) (instruction : llvm.Instruction)
    (incoming_blocks : list llvm.BasicBlock) (s : Impl),
    lowerable (llvm.result instruction) = true →
    (∀ i bb, incoming_blocks !! i = Some bb →
             is_Some (block_node s bb) ∧
             ∃ value, llvm.getOperand instruction i = Some value ∧
                      lowerable value = true) →
    builder_wf (builder s) →
    ∃ (s' : Impl) (id type_id : Id) (incoming : list IncomingValue.t),
      emit_phi_instruction block instruction incoming_blocks s
      = Some (IRBlock.push_phi
                {| PHI.id := id; PHI.type_id := type_id; PHI.incoming := incoming |}
                block, s') ∧
      value_map s' !! llvm.address (llvm.result instruction) = Some id ∧
      denotes (builder s') (llvm.getType (llvm.result instruction)) type_id ∧
      length incoming = length incoming_blocks ∧
      ∀ i bb, incoming_blocks !! i = Some bb →
              ∃ value value_id,
                llvm.getOperand instruction i = Some value ∧
                value_map s' !! llvm.address value = Some value_id ∧
                incoming !! i = Some (incoming_from s bb value_id).
Proof.
  intros block instruction incoming_blocks s Hres Hincoming Hwf.
  cut (wp (emit_phi_instruction block instruction incoming_blocks)
         (λ block' s',
            ∃ id type_id incoming,
              block' = IRBlock.push_phi
                         {| PHI.id := id; PHI.type_id := type_id;
                            PHI.incoming := incoming |} block ∧
              value_map s' !! llvm.address (llvm.result instruction) = Some id ∧
              denotes (builder s') (llvm.getType (llvm.result instruction)) type_id ∧
              length incoming = length incoming_blocks ∧
              ∀ i bb, incoming_blocks !! i = Some bb →
                      ∃ value value_id,
                        llvm.getOperand instruction i = Some value ∧
                        value_map s' !! llvm.address value = Some value_id ∧
                        incoming !! i = Some (incoming_from s bb value_id)) s).
  { intros (block' & s' & Hrun & id & type_id & incoming & -> & H).
    by exists s', id, type_id, incoming. }
  unfold emit_phi_instruction.
  apply wp_bind. apply wp_settles_value; [done|done|].
  intros id s1 Hs1 Hwf1 Hid. cbv beta.
  apply wp_bind, wp_build. intros type_id b2 Hb2. cbv beta.
  destruct (get_type_id_stands_spec _ _ _ _ Hwf1 Hb2) as (Hwf2 & Hext2 & Htype).
  assert (settles s (set_builder b2 s1)) as Hs2.
  { etrans; [exact Hs1|]. split; simpl; done. }
  clear Hs1 Hb2.
  set (Φ := λ (i : nat) (a : IncomingValue.t) (s' : Impl),
         ∃ bb value, incoming_blocks !! i = Some bb ∧
                     llvm.getOperand instruction i = Some value ∧
                     value_map s' !! llvm.address value = Some (IncomingValue.id a) ∧
                     a = incoming_from s bb (IncomingValue.id a)).
  apply wp_bind.
  apply (wp_for_range_settles _ Φ); [|done| |].
  - intros i a sa sb (bb & value & Hbb & Hop & Hval & Ha) Hsab.
    exists bb, value. split_and!; try done.
    by apply (evolves_value_map _ _ (settles_evolves _ _ Hsab)).
  - intros i sa Hi Hsa Hwfa.
    destruct (lookup_lt_is_Some_2 incoming_blocks i) as [bb Hbb]; [lia|].
    destruct (Hincoming i bb Hbb) as (Hnode & value & Hop & Hlow).
    rewrite Hbb. wp_pure.
    assert (block_node sa bb = block_node s bb) as Hsame.
    { apply block_node_settles. by etrans. }
    apply wp_bind, wp_block_node; [by rewrite Hsame|]. rewrite Hsame.
    rewrite Hop. wp_pure.
    apply wp_bind. apply wp_settles_value; [done|done|].
    intros value_id sb Hsb Hwfb Hvalue. apply wp_ret.
    split_and!; [done|done|]. by exists bb, value.
  - intros incoming s' Hs' Hwf' Hlen Hl. apply wp_ret.
    exists id, type_id, incoming. split_and!; try done.
    + apply (evolves_value_map _ _ (settles_evolves _ _ Hs')). exact Hid.
    + eapply denotes_extends; [|exact Htype].
      apply (evolves_builder _ _ (settles_evolves _ _ Hs')).
    + intros i bb Hbb.
      destruct (lookup_lt_is_Some_2 incoming i) as [a Ha].
      { rewrite Hlen. by eapply lookup_lt_Some. }
      destruct (Hl i a Ha) as (bb' & value & Hbb' & Hop & Hval & Heq).
      simpl in Hbb'. rewrite Hbb in Hbb'. injection Hbb' as <-.
      exists value, (IncomingValue.id a). split_and!; try done. by rewrite Ha, <- Heq.
Qed.

Lemma emit_phi_lowering_witness :
  let s := default empty_impl (snd <$> discover_blocks branching_function empty_impl) in
  let incoming_blocks := [2%positive; 3%positive] in
  let instruction :=
    {| llvm.result := ssa_value 70 llvm.FloatTy;
       llvm.inst_class := llvm.PHINode incoming_blocks;
       llvm.operands := [ssa_value 71 llvm.FloatTy; ssa_value 72 llvm.FloatTy] |} in
  ∃ (s' : Impl) (id type_id : Id) (incoming : list IncomingValue.t),
    emit_phi_instruction IRBlock.empty instruction incoming_blocks s
    = Some (IRBlock.push_phi
              {| PHI.id := id; PHI.type_id := type_id; PHI.incoming := incoming |}
              IRBlock.empty, s') ∧
    value_map s' !! llvm.address (llvm.result instruction) = Some id ∧
    denotes (builder s') (llvm.getType (llvm.result instruction)) type_id ∧
    length incoming = length incoming_blocks ∧
    ∀ i bb, incoming_blocks !! i = Some bb →
            ∃ value value_id,
              llvm.getOperand instruction i = Some value ∧
              value_map s' !! llvm.address value = Some value_id ∧
              incoming !! i = Some (incoming_from s bb value_id).
Proof.
  intros s incoming_blocks instruction.
  apply (emit_phi_lowering IRBlock.empty instruction incoming_blocks s);
    [reflexivity| |apply builder_wf_empty].
  intros [|[|i]] bb Hbb; [| |done]; injection Hbb as <-;
    (split; [by eexists|]); eexists; split; reflexivity.
Defined.

(** X23: a terminator whose successors have nodes, with two successors for
    a conditional branch and one for an unconditional one, and whose condition
    and return value [get_id_for_value] can lower, is lowered to the
    terminator of its kind: the targets are the nodes of the successor blocks,
    the condition and the return value are their ids in the value table, and a
    switch case carries the case value in 32 bits.  A terminator of another
    kind is left unset.  The blocks stay registered as they were. *)
Theorem emit_terminator_lowering :
  ∀ (terminator : ir.TerminatorInst) (s : Impl),
    terminator_well_formed terminator →
    (∀ succ, succ ∈ ir.successors terminator → is_Some (block_node s succ)) →
    (∀ value, terminator_condition terminator = Some value → lowerable value = true) →
    (∀ value, terminator_return_value terminator = Some value →
              lowerable value = true) →
    builder_wf (builder s) →
    ∃ (s' : Impl) (conditional_id return_id : Id),
      emit_terminator terminator s
      = Some (lowered_terminator s terminator conditional_id return_id, s') ∧
      settles s s' ∧
      (∀ value, terminator_condition terminator = Some value →
                value_map s' !! llvm.address value = Some conditional_id) ∧
      match terminator_return_value terminator with
      | Some value => value_map s' !! llvm.address value = Some return_id
      | None => return_id = 0
      end.
Proof.
  intros terminator s Hform Hsucc Hcond Hret Hwf.
  cut (wp (emit_terminator terminator)
         (λ t s',
            ∃ conditional_id return_id,
              t = lowered_terminator s terminator conditional_id return_id ∧
              settles s s' ∧
              (∀ value, terminator_condition terminator = Some value →
                        value_map s' !! llvm.address value = Some conditional_id) ∧
              match terminator_return_value terminator with
              | Some value => value_map s' !! llvm.address value = Some return_id
              | None => return_id = 0
              end) s).
  { intros (t & s' & Hrun & conditional_id & return_id & -> & H).
    by exists s', conditional_id, return_id. }
  destruct terminator as [[condition|] successors|condition default_dest cases
                         |[value|]| |successors]; simpl in *.
  - destruct successors as [|true_succ [|false_succ [|]]]; try done.
    apply wp_bind. apply wp_settles_value; [by apply Hcond|done|].
    intros conditional_id s1 Hs1 Hwf1 Hid. cbv beta. simpl.
    wp_pure. wp_pure.
    apply wp_bind, wp_block_node; rewrite (block_node_settles _ _ _ Hs1);
      [apply Hsucc; set_solver|].
    wp_pure.
    apply wp_bind, wp_block_node; rewrite (block_node_settles _ _ _ Hs1);
      [apply Hsucc; set_solver|].
    apply wp_ret. exists conditional_id, 0. split_and!; try done.
    by intros value [= <-].
  - destruct successors as [|succ [|]]; try done. simpl.
    wp_pure. wp_pure.
    apply wp_bind, wp_block_node; [apply Hsucc; set_solver|].
    apply wp_ret. exists 0, 0. by split_and!.
  - apply wp_bind, wp_block_node; [apply Hsucc; set_solver|].
    apply wp_bind. apply wp_settles_value; [by apply Hcond|done|].
    intros conditional_id s1 Hs1 Hwf1 Hid. cbv beta.
    apply wp_bind.
    set (Φ := λ (i : nat) (a : Terminator.Case) (_ : Impl),
           ∃ case, cases !! i = Some case ∧ a = switch_case s case).
    apply (wp_for_range_settles _ Φ); [by intros| done | |].
    + intros i sa Hi Hsa Hwfa.
      destruct (lookup_lt_is_Some_2 cases i) as [case Hcase]; [lia|].
      rewrite Hcase. wp_pure.
      assert (block_node sa case.2 = block_node s case.2) as Hsame.
      { apply block_node_settles. by etrans. }
      apply wp_bind, wp_block_node; rewrite Hsame.
      { apply Hsucc. apply list_elem_of_further, list_elem_of_fmap.
        exists case. split; [done|]. by eapply list_elem_of_lookup_2. }
      apply wp_ret. split_and!; [done|done|]. by exists case.
    + intros l s' Hs' Hwf' Hlen Hl. apply wp_ret.
      exists conditional_id, 0. split_and!; try done.
      * f_equal. apply list_eq. intros i. rewrite list_lookup_fmap.
        destruct (l !! i) as [a|] eqn:Ha.
        -- destruct (Hl i a Ha) as (case & Hcase & ->). simpl in Hcase.
           by rewrite Hcase.
        -- apply lookup_ge_None in Ha. rewrite Hlen in Ha.
           apply lookup_ge_None in Ha. by rewrite Ha.
      * by etrans.
      * intros value [= <-].
        by apply (evolves_value_map _ _ (settles_evolves _ _ Hs')).
  - apply wp_bind. apply wp_settles_value; [by apply Hret|done|].
    intros return_id s1 Hs1 Hwf1 Hid. apply wp_ret.
    exists 0, return_id. by split_and!.
  - wp_pure. apply wp_ret. exists 0, 0. by split_and!.
  - apply wp_ret. exists 0, 0. by split_and!.
  - apply wp_ret. exists 0, 0. by split_and!.
Qed.

Lemma emit_terminator_lowering_witness :
  let s := default empty_impl (snd <$> discover_blocks branching_function empty_impl) in
  let condition := ssa_value 30 (llvm.IntegerTy 1) in
  let terminator := ir.BranchInst (Some condition) [2%positive; 3%positive] in
  ∃ (s' : Impl) (conditional_id return_id : Id),
    emit_terminator terminator s
    = Some (lowered_terminator s terminator conditional_id return_id, s') ∧
    settles s s' ∧
    (∀ value, terminator_condition terminator = Some value →
              value_map s' !! llvm.address value = Some conditional_id) ∧
    return_id = 0.
Proof.
  intros s condition terminator.
  apply (emit_terminator_lowering terminator s).
  - reflexivity.
  - intros succ Hsucc. simpl in Hsucc.
    apply elem_of_cons in Hsucc as [->|Hsucc]; [by eexists|].
    apply elem_of_cons in Hsucc as [->|Hsucc]; [by eexists|].
    by apply elem_of_nil in Hsucc.
  - intros value [= <-]. reflexivity.
  - intros value Hvalue. discriminate Hvalue.
  - apply builder_wf_empty.
Defined.

(** ** Sampling a resource without a dimension *)

(** X24: a sampling intrinsic on an image whose dimension is none of 1D,
    2D, 3D, Cube and Buffer appends the [OpSampledImage] of the image and the
    sampler and nothing else: no sample operation, and no id for the
    instruction in the value table. *)
Theorem emit_sample_without_dimension :
  ∀ (opcode : DXIL.Op) (block : IRBlock.t) (instruction : llvm.Instruction)
    (image_handle sampler_handle : llvm.Value) (image_type sampled_type : Id)
    (dim : spv.Dim) (depth arrayed ms : bool) (sampled : Z) (format : spv.ImageFormat)
    (s : Impl),
    llvm.getOperand instruction 1 = Some image_handle →
    llvm.getOperand instruction 2 = Some sampler_handle →
    let image_id := map_at (handle_to_ptr_id s) (llvm.address image_handle) in
    let sampler_id := map_at (handle_to_ptr_id s) (llvm.address sampler_handle) in
    id_to_type s !! image_id = Some image_type →
    lookup_id (builder s) image_type
    = Some (TypeImage sampled_type dim depth arrayed ms sampled format) →
    num_coords_of_dim dim = None →
    builder_wf (builder s) →
    ∃ (s' : Impl) (id type_id combined_type : Id),
      emit_sample_instruction opcode block instruction s
      = Some (push_operation
                {| Operation.op := spv.OpSampledImage; Operation.id := id;
                   Operation.type_id := type_id;
                   Operation.arguments := [image_id; sampler_id] |} block, s') ∧
      id ≠ 0 ∧
      lookup_id (builder s') type_id = Some (TypeSampledImage combined_type) ∧
      lookup_id (builder s') combined_type
      = Some (TypeImage sampled_type dim
                (bool_decide (opcode = DXIL.SampleCmp ∨ opcode = DXIL.SampleCmpLevelZero))
                arrayed ms 2 spv.ImageFormatUnknown) ∧
      value_map s' = value_map s.
Proof.
  intros opcode block instruction image_handle sampler_handle image_type sampled_type
    dim depth arrayed ms sampled format s Hop1 Hop2 image_id sampler_id Htype Himage
    Hdim Hwf.
  cut (wp (emit_sample_instruction opcode block instruction)
         (λ block' s',
            ∃ id type_id combined_type,
              block' = push_operation
                         {| Operation.op := spv.OpSampledImage; Operation.id := id;
                            Operation.type_id := type_id;
                            Operation.arguments := [image_id; sampler_id] |} block ∧
              id ≠ 0 ∧
              lookup_id (builder s') type_id = Some (TypeSampledImage combined_type) ∧
              lookup_id (builder s') combined_type
              = Some (TypeImage sampled_type dim
                        (bool_decide (opcode = DXIL.SampleCmp ∨
                                      opcode = DXIL.SampleCmpLevelZero))
                        arrayed ms 2 spv.ImageFormatUnknown) ∧
              value_map s' = value_map s) s).
  { intros (block' & s' & Hrun & id & type_id & combined_type & -> & H).
    by exists s', id, type_id, combined_type. }
  unfold emit_sample_instruction.
  rewrite Hop1, Hop2. wp_pure. wp_pure. wp_pure.
  fold image_id sampler_id.
  apply wp_bind. unfold build_sampled_image, get_type_id_of_id.
  apply wp_bind. wp_pure. rewrite Htype. apply wp_ret.
  apply wp_bind. eapply wp_query; [unfold getTypeDimensionality; by rewrite Himage|].
  apply wp_bind. eapply wp_query; [unfold isArrayedImageType; by rewrite Himage|].
  apply wp_bind. eapply wp_query; [unfold isMultisampledImageType; by rewrite Himage|].
  apply wp_bind. eapply wp_query; [unfold getImageComponentType; by rewrite Himage|].
  wp_intern combined_type. wp_allocate id. wp_intern type_id.
  apply wp_ret. cbn [fst snd].
  apply wp_bind. wp_pure. simpl id_to_type. rewrite Htype. apply wp_ret.
  apply wp_bind. eapply wp_query.
  { unfold getTypeDimensionality. simpl builder.
    match goal with H : lookup_id _ image_type = Some _ |- _ => by rewrite H end. }
  apply wp_bind. eapply wp_query.
  { unfold isArrayedImageType. simpl builder.
    match goal with H : lookup_id _ image_type = Some _ |- _ => by rewrite H end. }
  rewrite Hdim. apply wp_ret.
  by exists id, type_id, combined_type.
Qed.

Lemma emit_sample_without_dimension_witness :
  let setup :=
    (let* _ := emit_srv dxil_codes
                 (resource_entry 0 "tex" 0 1
                    [md_i32 13; md_i32 0; md.MDNode [md_i32 0; md_i32 9]]) in
     let* _ := emit_sampler (resource_entry 0 "samp" 0 2 [md_i32 0]) in
     let* block := emit_create_handle_instruction dxil_codes IRBlock.empty
                     texture_handle in
     emit_create_handle_instruction dxil_codes block sampler_handle) empty_impl in
  let block := default IRBlock.empty (fst <$> setup) in
  let s := default empty_impl (snd <$> setup) in
  ∃ (s' : Impl) (id type_id combined_type : Id),
    emit_sample_instruction DXIL.Sample block zero_offset_sample s
    = Some (push_operation
              {| Operation.op := spv.OpSampledImage; Operation.id := id;
                 Operation.type_id := type_id;
                 Operation.arguments := [6; 7] |} block, s') ∧
    id ≠ 0 ∧
    lookup_id (builder s') type_id = Some (TypeSampledImage combined_type) ∧
    lookup_id (builder s') combined_type
    = Some (TypeImage 1 spv.DimMax false false false 2 spv.ImageFormatUnknown) ∧
    value_map s' = value_map s.
Proof.
  intros setup block s.
  apply (emit_sample_without_dimension DXIL.Sample block zero_offset_sample
           (llvm.result texture_handle) (llvm.result sampler_handle) 2 1 spv.DimMax
           false false false 1 spv.ImageFormatUnknown s);
    [reflexivity|reflexivity|reflexivity|reflexivity|reflexivity|].
  unfold builder_wf. refine (bool_decide_unpack _ _). vm_compute. exact I.
Defined.

(** ** What the converter never writes *)

Section Keeps.

Context {B : Type} (field : Impl → B).
Hypothesis field_builder : ∀ b s, field (set_builder b s) = field s.

Lemma keeps_ret {A} (a : A) : keeps field (ret a).
Proof. intros s. by apply post_ret. Qed.

Lemma keeps_fail {A} : keeps field (@fail A).
Proof. intros s. apply post_fail. Qed.

Lemma keeps_bind {A C} (m : M A) (k : A → M C) :
  keeps field m → (∀ a, keeps field (k a)) → keeps field (bind m k).
Proof.
  intros Hm Hk s. apply post_bind. intros a s1 Hrun1 b s2 Hrun2.
  etrans; [by eapply Hk|by eapply Hm].
Qed.

Lemma keeps_get {A} (f : Impl → A) : keeps field (get f).
Proof. intros s. by apply post_get. Qed.

Lemma keeps_must {A} (o : option A) : keeps field (must o).
Proof. intros s. by apply post_must. Qed.

Lemma keeps_assert c : keeps field (assert c).
Proof. intros s. by apply post_assert. Qed.

Lemma keeps_query {A} (f : Builder → option A) : keeps field (query f).
Proof. intros s. by apply post_query. Qed.

Lemma keeps_build f : keeps field (build f).
Proof. intros s. apply post_build. intros id b' _. apply field_builder. Qed.

Lemma keeps_decorate f : keeps field (decorate f).
Proof. intros s. apply post_modify. apply field_builder. Qed.

Lemma keeps_modify f : (∀ s, field (f s) = field s) → keeps field (modify f).
Proof. intros Hf s. apply post_modify. apply Hf. Qed.

Lemma keeps_for_range {A} (body : nat → M A) count :
  (∀ i, keeps field (body i)) → ∀ first, keeps field (for_range first count body).
Proof.
  intros Hbody. induction count as [|count IH]; intros first; simpl.
  - apply keeps_ret.
  - apply keeps_bind; [done|]. intros a.
    apply keeps_bind; [done|]. intros l. apply keeps_ret.
Qed.

Lemma keeps_for_each_with {A S} (l : list A) (body : S → A → M S) :
  (∀ acc x, keeps field (body acc x)) → ∀ acc, keeps field (for_each_with l acc body).
Proof.
  intros Hbody. induction l as [|x l IH]; intros acc; simpl.
  - apply keeps_ret.
  - apply keeps_bind; [done|]. intros acc'. apply IH.
Qed.

Lemma keeps_for_each {A} (l : list A) (body : A → M unit) :
  (∀ x, keeps field (body x)) → keeps field (for_each l body).
Proof.
  intros Hbody. induction l as [|x l IH]; simpl.
  - apply keeps_ret.
  - apply keeps_bind; [done|]. by intros _.
Qed.

End Keeps.

(** The frame of a member function put together from the monad's parts,
    for a part of the state that the builder calls do not touch. *)
Ltac keeps_step :=
  lazymatch goal with
  | |- keeps _ (ret _) => apply keeps_ret
  | |- keeps _ fail => apply keeps_fail
  | |- keeps _ (get _) => apply keeps_get
  | |- keeps _ (must _) => apply keeps_must
  | |- keeps _ (assert _) => apply keeps_assert
  | |- keeps _ (query _) => apply keeps_query
  | |- keeps _ (build _) => apply keeps_build; by intros
  | |- keeps _ (decorate _) => apply keeps_decorate; by intros
  | |- keeps _ (modify _) => apply keeps_modify; by intros
  | |- keeps _ (for_range _ _ _) => apply keeps_for_range; intros
  | |- keeps _ (for_each_with _ _ _) => apply keeps_for_each_with; intros
  | |- keeps _ (for_each _ _) => apply keeps_for_each; intros
  | |- keeps _ (bind _ _) => apply keeps_bind; [|intros]
  | |- keeps _ (match ?x with _ => _ end) => destruct x
  | |- keeps _ _ => solve [auto]
  end.

Ltac keeps_auto := repeat keeps_step.

Lemma keeps_get_id_for_value {B} (field : Impl → B) value forced_width :
  (∀ b s, field (set_builder b s) = field s) →
  (∀ x s, field (set_value_map x s) = field s) →
  keeps field (get_id_for_value value forced_width).
Proof.
  intros Hb Hv.
  unfold get_id_for_value, get_id_for_undef, get_id_for_constant, allocate_id.
  keeps_auto.
Qed.

Lemma keeps_emit_sample_instruction {B} (field : Impl → B) opcode block instruction :
  (∀ b s, field (set_builder b s) = field s) →
  (∀ x s, field (set_value_map x s) = field s) →
  keeps field (emit_sample_instruction opcode block instruction).
Proof.
  intros Hb Hv. pose proof (keeps_get_id_for_value field) as Hvalue.
  unfold emit_sample_instruction, build_sampled_image, sample_coords,
    sample_offset, sample_dref, sample_aux, sample_result_id, sample_result_type,
    sample_arguments, sample_splat, build_vector, get_type_id_of_id, allocate_id.
  keeps_auto.
Qed.

Lemma keeps_emit_instruction {B} (field : Impl → B) codes block instruction :
  (∀ b s, field (set_builder b s) = field s) →
  (∀ x s, field (set_value_map x s) = field s) →
  (∀ x s, field (set_handle_to_ptr_id x s) = field s) →
  (∀ x s, field (set_id_to_type x s) = field s) →
  keeps field (emit_instruction codes block instruction).
Proof.
  intros Hb Hv Hh Ht. pose proof (keeps_get_id_for_value field) as Hvalue.
  pose proof (keeps_emit_sample_instruction field) as Hsample.
  unfold emit_instruction, emit_builtin_instruction, emit_load_input_instruction,
    emit_store_output_instruction, emit_create_handle_instruction, load_resource_handle,
    bind_handle, emit_cbuffer_load_legacy_instruction, allocate_id,
    emit_binary_instruction, emit_unary_instruction,
    emit_cast_instruction, emit_getelementptr_instruction, emit_load_instruction,
    emit_store_instruction, emit_compare_instruction, emit_extract_value_instruction,
    emit_alloca_instruction, emit_select_instruction, emit_phi_instruction, node_of.
  keeps_auto.
Qed.

(** X25: emitting an instruction writes only the builder, the value table,
    the handle bindings and the recorded types: the registered blocks, the
    four resource tables, the entry point's interface and the tables of the
    stage variables are after it what they were before. *)
Theorem emit_instruction_frame :
  ∀ (codes : DXIL.Codes) (block block' : IRBlock.t) (instruction : llvm.Instruction)
    (s s' : Impl),
    emit_instruction codes block instruction s = Some (block', s') →
    bb_map s' = bb_map s ∧ metas s' = metas s ∧
    srv_index_to_id s' = srv_index_to_id s ∧
    uav_index_to_id s' = uav_index_to_id s ∧
    cbv_index_to_id s' = cbv_index_to_id s ∧
    sampler_index_to_id s' = sampler_index_to_id s ∧
    entry_point s' = entry_point s ∧
    input_elements_ids s' = input_elements_ids s ∧
    output_elements_ids s' = output_elements_ids s.
Proof.
  intros codes block block' instruction s s' Hrun.
  assert (outside_instructions s' = outside_instructions s) as Hframe.
  { by apply (keeps_emit_instruction outside_instructions codes block instruction
                ltac:(done) ltac:(done) ltac:(done) ltac:(done) s block' s'). }
  unfold outside_instructions in Hframe. by simplify_eq.
Qed.

Lemma emit_instruction_frame_witness :
  let run := emit_instruction dxil_codes sampling_block cmp_level_zero_sample
               sampling_state in
  let s' := default sampling_state (snd <$> run) in
  bb_map s' = bb_map sampling_state ∧ metas s' = metas sampling_state ∧
  srv_index_to_id s' = srv_index_to_id sampling_state ∧
  uav_index_to_id s' = uav_index_to_id sampling_state ∧
  cbv_index_to_id s' = cbv_index_to_id sampling_state ∧
  sampler_index_to_id s' = sampler_index_to_id sampling_state ∧
  entry_point s' = entry_point sampling_state ∧
  input_elements_ids s' = input_elements_ids sampling_state ∧
  output_elements_ids s' = output_elements_ids sampling_state.
Proof.
  intros run s'.
  apply (emit_instruction_frame dxil_codes sampling_block
           (default sampling_block (fst <$> run)) cmp_level_zero_sample
           sampling_state s').
  vm_compute. reflexivity.
Defined.

Lemma keeps_traverse {B} (field : Impl → B) function fuel :
  (∀ x s, field (set_bb_map x s) = field s) →
  (∀ x s, field (set_metas x s) = field s) →
  ∀ t, keeps field (traverse fuel function t).
Proof.
  intros Hb Hm.
  assert (∀ x y s, field (set_bb_map x (set_metas y s)) = field s) as Hboth.
  { intros x y s. by rewrite Hb, Hm. }
  induction fuel as [|fuel IH]; intros t; simpl;
    unfold process_block, register_successor, register_block, node_of; keeps_auto.
Qed.

(** X26: nothing in the conversion writes the UAV table: after
    [convert_entry_point] it is what it was before, whatever the module's
    resource list holds. *)
Theorem convert_entry_point_keeps_uavs :
  ∀ (codes : DXIL.Codes) (module : ir.Module) (s s' : Impl)
    (converted : ConvertedFunction),
    convert_entry_point codes module s = Some (converted, s') →
    uav_index_to_id s' = uav_index_to_id s.
Proof.
  intros codes module s s' converted Hrun.
  cut (keeps uav_index_to_id (convert_entry_point codes module)).
  { intros Hkeeps. exact (Hkeeps s converted s' Hrun). }
  clear. pose proof (keeps_traverse uav_index_to_id) as Htraverse.
  pose proof (keeps_emit_instruction uav_index_to_id codes) as Hinstruction.
  pose proof (keeps_get_id_for_value uav_index_to_id) as Hvalue.
  unfold convert_entry_point, emit_resources, emit_resource_list, emit_srvs, emit_srv,
    emit_uavs, emit_cbvs, emit_cbv, emit_samplers, emit_sampler,
    emit_stage_input_variables, emit_stage_output_variables, signature_node,
    emit_stage_input_variable, emit_stage_output_variable, emit_builtin_decoration,
    discover_blocks, register_block, emit_block, emit_terminator, node_of.
  keeps_auto.
Qed.

Lemma convert_entry_point_keeps_uavs_witness :
  let run := convert_entry_point dxil_codes uav_module uav_state in
  is_Some run ∧
  uav_index_to_id (default uav_state (snd <$> run)) = uav_index_to_id uav_state.
Proof.
  intros run. split.
  - vm_compute. eexists. reflexivity.
  - apply (convert_entry_point_keeps_uavs dxil_codes uav_module uav_state
             (default uav_state (snd <$> run))
             (default {| node_pool := []; entry := None |} (fst <$> run))).
    vm_compute. reflexivity.
Defined.

(** ** Resource kinds and dimensions *)

(** X27: the three helpers on resource kinds agree with each other and
    with the coordinate counts of the sampling code: sampling knows the
    dimension of every kind the converter names and of no other; a
    multisampled kind is two-dimensional; an arrayed kind is 1D, 2D or Cube,
    so that a buffer and a 3D texture are never arrayed. *)
Theorem resource_kind_dimension :
  ∀ kind : DXIL.ResourceKind,
    (num_coords_of_dim (image_dimension_from_resource_kind kind) = None ↔
     ∃ code, kind = DXIL.OtherKind code) ∧
    (image_dimension_is_multisampled kind = true →
     image_dimension_from_resource_kind kind = spv.Dim2D) ∧
    (image_dimension_is_arrayed kind = true →
     image_dimension_from_resource_kind kind = spv.Dim1D ∨
     image_dimension_from_resource_kind kind = spv.Dim2D ∨
     image_dimension_from_resource_kind kind = spv.DimCube).
Proof.
  intros kind. split_and!.
  - split.
    + destruct kind; try done. intros _. by eexists.
    + by intros [code ->].
  - by destruct kind.
  - destruct kind; try done; auto.
Qed.

(** ** Aggregates *)

(** X28: an [extractvalue] becomes one [OpCompositeExtract] with the
    instruction's id and type, whose arguments are the id of the aggregate
    followed by the indices themselves, as numbers and not as ids. *)
Theorem emit_extract_value_lowering :
  ∀ (block : IRBlock.t) (instruction : llvm.Instruction) (indices : list Z)
    (aggregate : llvm.Value) (s : Impl),
    llvm.getOperand instruction 0 = Some aggregate →
    lowerable (llvm.result instruction) = true →
    lowerable aggregate = true →
    builder_wf (builder s) →
    ∃ (s' : Impl) (id type_id aggregate_id : Id),
      emit_extract_value_instruction block instruction indices s
      = Some (push_operation
                {| Operation.op := spv.OpCompositeExtract; Operation.id := id;
                   Operation.type_id := type_id;
                   Operation.arguments := aggregate_id :: indices |} block, s') ∧
      evolves s s' ∧
      value_map s' !! llvm.address (llvm.result instruction) = Some id ∧
      denotes (builder s') (llvm.getType (llvm.result instruction)) type_id ∧
      value_map s' !! llvm.address aggregate = Some aggregate_id.
Proof.
  intros block instruction indices aggregate s Hop Hres Hlow Hwf.
  cut (wp (emit_extract_value_instruction block instruction indices)
         (λ block' s',
            ∃ id type_id aggregate_id,
              block' = push_operation
                         {| Operation.op := spv.OpCompositeExtract; Operation.id := id;
                            Operation.type_id := type_id;
                            Operation.arguments := aggregate_id :: indices |} block ∧
              evolves s s' ∧
              value_map s' !! llvm.address (llvm.result instruction) = Some id ∧
              denotes (builder s') (llvm.getType (llvm.result instruction)) type_id ∧
              value_map s' !! llvm.address aggregate = Some aggregate_id) s).
  { intros (block' & s' & Hrun & id & type_id & aggregate_id & -> & H).
    by exists s', id, type_id, aggregate_id. }
  unfold emit_extract_value_instruction.
  assert (evolves s s) as Hstart by reflexivity.
  ev_value id. ev_type type_id Htype.
  rewrite Hop. wp_pure. ev_value aggregate_id.
  apply wp_ret. exists id, type_id, aggregate_id. split_and!; try done.
  eapply denotes_extends; [apply (evolves_builder _ _ Htype)|done].
Qed.

Lemma emit_extract_value_lowering_witness :
  let aggregate := ssa_value 41 resret_f32 in
  let instruction :=
    {| llvm.result := ssa_value 40 llvm.FloatTy;
       llvm.inst_class := llvm.ExtractValueInst [2];
       llvm.operands := [aggregate] |} in
  ∃ (s' : Impl) (id type_id aggregate_id : Id),
    emit_extract_value_instruction IRBlock.empty instruction [2] empty_impl
    = Some (push_operation
              {| Operation.op := spv.OpCompositeExtract; Operation.id := id;
                 Operation.type_id := type_id;
                 Operation.arguments := aggregate_id :: [2] |} IRBlock.empty, s') ∧
    evolves empty_impl s' ∧
    value_map s' !! llvm.address (llvm.result instruction) = Some id ∧
    denotes (builder s') (llvm.getType (llvm.result instruction)) type_id ∧
    value_map s' !! llvm.address aggregate = Some aggregate_id.
Proof.
  intros aggregate instruction.
  apply (emit_extract_value_lowering IRBlock.empty instruction [2] aggregate empty_impl);
    [reflexivity|reflexivity|reflexivity|apply builder_wf_empty].
Defined.
